(** * Incremental analysis cache and dependency resolution of the analyzer

    A shallow embedding of
      - [src/core/async-cyclic-transitive-promise-all.ts]
      - [src/core/analyzer-cache-context.ts]
      - [src/polymer/pseudo-element-scanner.ts]
    together with the collaborators these files import.

    Asynchronous code is embedded by explicit state passing.  The JavaScript
    run time is a single thread with cooperative suspension, so a call runs
    without interleaving up to its first suspension point, and promises are
    cells that are settled at most once.  A suspended computation is a value of
    the embedding ([Suspended], [Pending]), never a missing result. *)

From Stdlib Require Import Lia.
From stdpp Require Import base option list sets gmap strings.

Set Default Proof Using "Type*".

(** ** [src/warning/warning]: the warning shape *)

Module Warnings.

Inductive Severity : Type := ERROR | WARNING | INFO.

Record Position : Type := mkPosition { line : nat; column : nat }.

Record SourceRange : Type := mkSourceRange {
  file : string;
  start : Position;
  end_ : Position
}.

(** [sourceRange] is optional here: [_scan] fills it with
    [(urlSourceRange || sourceRange)!], and the [!] is erased at run time. *)
Record Warning : Type := mkWarning {
  sourceRange : option SourceRange;
  code : string;
  message : string;
  severity : Severity
}.

End Warnings.

(** ** JavaScript values the embedding needs *)

Module Js.
Import Warnings.

(** What [instanceof] can tell about a thrown value. *)
Inductive ErrorClass : Type :=
| PlainError                              (* Error *)
| NoKnownParser                           (* NoKnownParserError *)
| WarningCarrying (warning : Warning)     (* WarningCarryingException *)
| NotAnError.                             (* anything else *)

(** A thrown value, by what the code observes of it: its class, its
    truthiness, its [message] and [stack] properties, and [String(e)]. *)
Record Thrown : Type := mkThrown {
  cls : ErrorClass;
  truthy : bool;
  errMessage : option string;
  errStack : option string;
  asString : string
}.

Definition errorText (name message : string) : string :=
  if decide (message = "") then name else name ++ ": " ++ message.

(** [new Error(message)]; the frames of the stack trace are specific to
    the engine and left out. *)
Definition newError (message : string) : Thrown :=
  mkThrown PlainError true (Some message)
    (Some (errorText "Error" message)) (errorText "Error" message).

(** [new NoKnownParserError(message)] and [new
    WarningCarryingException(warning)]: the classes are declared in
    [../analyzer] and [../warning/warning]; they are taken to be plain
    subclasses of [Error], the second with the message of its warning. *)
Definition newNoKnownParserError (message : string) : Thrown :=
  mkThrown NoKnownParser true (Some message)
    (Some (errorText "Error" message)) (errorText "Error" message).

Definition newWarningCarryingException (warning : Warning) : Thrown :=
  mkThrown (WarningCarrying warning) true (Some (message warning))
    (Some (errorText "Error" (message warning)))
    (errorText "Error" (message warning)).

Definition isNoKnownParserError (e : Thrown) : bool :=
  match cls e with NoKnownParser => true | _ => false end.

(** [e.message || e] inside a template literal, for a thrown [e]. *)
Definition messageOrSelf (e : Thrown) : string :=
  match errMessage e with
  | Some m => if decide (m = "") then asString e else m
  | None => asString e
  end.

(** [`${e.stack}`] *)
Definition stackText (e : Thrown) : string :=
  default "undefined" (errStack e).

(** [e === null || e === undefined]: of the falsy values, these two are
    the ones that print as [null] and [undefined]. *)
Definition isNullish (e : Thrown) : bool :=
  negb (truthy e) &&
  (bool_decide (asString e = "null") || bool_decide (asString e = "undefined")).

(** The [TypeError] of reading [property] of [null] or [undefined]; the
    wording of its message is the engine's (here V8's). *)
Definition cannotRead (property : string) (e : Thrown) : Thrown :=
  let message := ("Cannot read properties of " ++ asString e
                  ++ " (reading '" ++ property ++ "')")%string in
  mkThrown PlainError true (Some message)
    (Some (errorText "TypeError" message)) (errorText "TypeError" message).

(** How an awaited promise stands once the event loop has nothing left to
    run: fulfilled, rejected, or pending for good. *)
Inductive Completion (A : Type) : Type :=
| Fulfilled (value : A)
| Rejected (error : Thrown)
| Pending.
Global Arguments Fulfilled {A} value.
Global Arguments Rejected {A} error.
Global Arguments Pending {A}.

(** An optional string argument ([contents?: string]). *)
Inductive MaybeString : Type :=
| Undefined
| Null
| Str (s : string).

(** [x == null] *)
Definition looselyNull (x : MaybeString) : bool :=
  match x with Undefined | Null => true | Str _ => false end.

End Js.

(** ** [src/utils]: the Deferred cell *)

Module Utils.

(** Modelled from the spec: [Deferred] is imported from [../utils], which is
    not among the sources.  The spec describes it as a single-assignment
    cell, created empty and completed exactly once, whose waiters suspend
    until completion; completing it a second time is rejected by an
    explicit check.  The transitive join below only ever completes a cell
    with a value, so completion with a failure is left out. *)
Inductive Deferred (T : Type) : Type :=
| Empty
| Completed (value : T).
Global Arguments Empty {T}.
Global Arguments Completed {T} value.

Inductive DeferredError : Type :=
| AlreadyResolved.

(** Modelled from the spec: [deferred.resolve(value)]. *)
Definition resolve {T : Type} (deferred : Deferred T) (value : T)
  : DeferredError + Deferred T :=
  match deferred with
  | Empty => inr (Completed value)
  | Completed _ => inl AlreadyResolved
  end.

(** Modelled from the spec: what a waiter on [deferred.promise] observes,
    nothing while the cell is empty. *)
Definition promise {T : Type} (deferred : Deferred T) : option T :=
  match deferred with
  | Empty => None
  | Completed value => Some value
  end.

End Utils.

(** ** [src/core/async-cyclic-transitive-promise-all.ts] *)

Module AsyncCyclicTransitivePromiseAll.
Import Utils.

Section Join.
Context {Key : Type} `{Countable Key}.

(** [private _deferreds = new Map<Key, Deferred<Key[]>>()].  A cell is
    reachable only through the map, so the cell stored at a key stands
    for the mutable object itself. *)
Abbreviation Deferreds := (gmap Key (Deferred (list Key))).

(** [_getDeferredFor]: the cell of [key], created on first reference and
    (re)stored in the map. *)
Definition _getDeferredFor (key : Key) (deferreds : Deferreds)
  : Deferred (list Key) * Deferreds :=
  let deferred := default Empty (deferreds !! key) in
  (deferred, <[key := deferred]> deferreds).

(** [resolve(key, deps)]. *)
Definition resolve (key : Key) (deps : list Key) (deferreds : Deferreds)
  : (DeferredError + unit) * Deferreds :=
  let '(deferred, deferreds) := _getDeferredFor key deferreds in
  match Utils.resolve deferred deps with
  | inl e => (inl e, deferreds)
  | inr deferred' => (inr tt, <[key := deferred']> deferreds)
  end.

(** The state one top-level call works on: the instance's map, the
    call's own [visited] set, and a ghost log [descents] of the keys for
    which the body went past the [visited] guard, in order. *)
Record Walk : Type := mkWalk {
  deferreds : Deferreds;
  visited : gset Key;
  descents : list Key
}.

Inductive Outcome : Type :=
| Returned
| Suspended (key : Key)   (* awaits a cell that is still empty *)
| OutOfFuel.

(** [for (const dep of deps) { await f(dep) }] *)
Fixpoint forEach (f : Key → Walk → Outcome * Walk)
    (deps : list Key) (w : Walk) : Outcome * Walk :=
  match deps with
  | [] => (Returned, w)
  | dep :: deps' =>
      match f dep w with
      | (Returned, w') => forEach f deps' w'
      | stuck => stuck
      end
  end.

(** [_transitiveAwait(key, visited)]; [fuel] bounds the nesting depth of
    the recursion. *)
Fixpoint _transitiveAwait (fuel : nat) (key : Key) (w : Walk)
  : Outcome * Walk :=
  match fuel with
  | O => (OutOfFuel, w)
  | S fuel' =>
      if decide (key ∈ visited w) then (Returned, w)
      else
        let '(deferred, ds) := _getDeferredFor key (deferreds w) in
        let w1 := mkWalk ds ({[key]} ∪ visited w) (descents w ++ [key]) in
        match promise deferred with
        | None => (Suspended key, w1)
        | Some deps => forEach (_transitiveAwait fuel') deps w1
        end
  end.

(** [promiseAllTransitive(key)]: every call starts from [new Set()]. *)
Definition promiseAllTransitive (fuel : nat) (key : Key)
    (ds : Deferreds) : Outcome * Walk :=
  _transitiveAwait fuel key (mkWalk ds ∅ []).

(** The dependency relation recorded so far. *)
Definition recorded (ds : Deferreds) (key : Key) (deps : list Key) : Prop :=
  ds !! key = Some (Completed deps).

Definition edge (ds : Deferreds) (a b : Key) : Prop :=
  ∃ deps, recorded ds a deps ∧ b ∈ deps.

Definition reachable (ds : Deferreds) : relation Key := rtc (edge ds).

(** What one (possibly nested) walk adds: [w'] extends [w] by the keys
    [new], each descended into once, each satisfying [R], and each with
    all its recorded successors visited by the end. *)
Definition extends (ds : Deferreds) (R : Key → Prop) (w w' : Walk) : Prop :=
  deferreds w' = ds ∧ visited w ⊆ visited w' ∧
  ∃ new, descents w' = descents w ++ new ∧ NoDup new ∧
    (∀ k, k ∈ new ↔ k ∈ visited w' ∧ k ∉ visited w) ∧
    (∀ k, k ∈ new → R k) ∧
    (∀ k k', k ∈ new → edge ds k k' → k' ∈ visited w').

(** What a walk that has returned leaves behind: every key it has added
    to [visited] has its successors recorded, all of them visited. *)
Definition closes (ds : Deferreds) (w w' : Walk) : Prop :=
  deferreds w' = ds ∧ visited w ⊆ visited w' ∧
  ∀ k, k ∈ visited w' → k ∉ visited w →
    ∃ deps, recorded ds k deps ∧ ∀ k', k' ∈ deps → k' ∈ visited w'.

End Join.
End AsyncCyclicTransitivePromiseAll.

(** ** [src/core/async-work-cache]: the keyed memoization cache *)

Module AsyncWorkCache.
Import Js.

(** Modelled from the spec: the class behind [getOrCompute] is not among
    the sources.  The spec (4.1) describes a map from a key to one
    in-flight-or-completed computation: a request for a key without an
    entry invokes the computation once and stores the pending result
    before anything else can run; every other request for the key
    receives that same stored computation.

    A promise is named by a number; [calls] is the list of keys for which
    the computation function was invoked, in order, and the number of a
    promise is its position there.  [settled] holds the completion of
    every promise that has settled. *)
Record AsyncWorkCache (V : Type) : Type := mkCache {
  _keyToResultMap : gmap string nat;
  settled : gmap nat (Completion V);
  calls : list string
}.
Global Arguments mkCache {V} _ _ _.
Global Arguments _keyToResultMap {V} _.
Global Arguments settled {V} _.
Global Arguments calls {V} _.

Definition empty {V : Type} : AsyncWorkCache V := mkCache ∅ ∅ [].

(** Modelled from the spec: [getOrCompute(key, compute)] up to the point
    where it returns the promise.  The boolean tells whether [compute] was
    invoked by this request; the promise it then creates is pending. *)
Definition getOrCompute {V : Type} (key : string) (c : AsyncWorkCache V)
  : nat * bool * AsyncWorkCache V :=
  match _keyToResultMap c !! key with
  | Some p => (p, false, c)
  | None =>
      let p := length (calls c) in
      (p, true, mkCache (<[key := p]> (_keyToResultMap c))
                        (delete p (settled c)) (calls c ++ [key]))
  end.

(** Modelled from the spec: the computation behind promise [p] settles.  A
    promise is settled at most once, and never with [Pending]. *)
Definition settle {V : Type} (p : nat) (r : Completion V)
    (c : AsyncWorkCache V) : AsyncWorkCache V :=
  match r, settled c !! p with
  | Pending, _ | _, Some _ => c
  | _, None => mkCache (_keyToResultMap c) (<[p := r]> (settled c)) (calls c)
  end.

(** Modelled from the spec: what a holder of promise [p] observes, the
    same eventual result or failure for every holder. *)
Definition observe {V : Type} (p : nat) (c : AsyncWorkCache V)
  : Completion V :=
  default Pending (settled c !! p).

(** What happens to a cache: requests, and settlements of the
    computations it started. *)
Inductive Event (V : Type) : Type :=
| Request (key : string)
| Settle (p : nat) (r : Completion V).
Global Arguments Request {V} key.
Global Arguments Settle {V} p r.

Definition step {V : Type} (c : AsyncWorkCache V) (ev : Event V)
  : AsyncWorkCache V :=
  match ev with
  | Request key => (getOrCompute key c).2
  | Settle p r => settle p r c
  end.

Definition run {V : Type} (evs : list (Event V)) (c : AsyncWorkCache V)
  : AsyncWorkCache V :=
  foldl step c evs.

(** How often the computation function ran for [key]. *)
Definition invocations {V : Type} (key : string) (c : AsyncWorkCache V)
  : nat :=
  length (filter (λ k, k = key) (calls c)).

(** The map and the log of invocations name the same promises. *)
Definition consistent {V : Type} (c : AsyncWorkCache V) : Prop :=
  ∀ key p, _keyToResultMap c !! key = Some p ↔ calls c !! p = Some key.

End AsyncWorkCache.

(** ** [src/core/dependency-graph] *)

Module DependencyGraph.
Import Utils.

(** Modelled from the spec: the class is not among the sources.  The spec
    (4.3) builds it directly on the cyclic transitive join, so a graph is
    the map of cells of its join. *)
Abbreviation DependencyGraph := (gmap string (Deferred (list string))).

(** Modelled from the spec: [addDocument(url, importUrls)] records the
    successors of [url] (4.3). *)
Definition addDocument (url : string) (importUrls : list string)
    (g : DependencyGraph) : (DeferredError + unit) * DependencyGraph :=
  AsyncCyclicTransitivePromiseAll.resolve url importUrls g.

(** Modelled from the spec: [whenReady(url)] joins transitively from [url]
    (4.3).  The join is given a recursion budget above the number of cells
    of the graph, which it never exhausts. *)
Definition whenReady (url : string) (g : DependencyGraph)
  : AsyncCyclicTransitivePromiseAll.Outcome * DependencyGraph :=
  let '(r, w) :=
    AsyncCyclicTransitivePromiseAll.promiseAllTransitive (S (size g)) url g in
  (r, AsyncCyclicTransitivePromiseAll.deferreds w).

End DependencyGraph.

(** ** [src/model/model], [src/parser]: documents and features *)

Module Model.
Import Warnings Js.

Record LocationOffset : Type := mkLocationOffset {
  lo_line : nat;
  lo_col : nat;
  lo_filename : option string
}.

(** [InlineDocInfo]: where an inline document sits in its container; the
    AST node is named by its position among the container's features. *)
Record InlineDocInfo : Type := mkInlineDocInfo {
  locationOffset : LocationOffset;
  astNode : nat
}.

(** A parsed document, by the properties the analysis reads.  The AST is
    a function of [pd_contents] and is not kept separately. *)
Record ParsedDocument : Type := mkParsedDocument {
  pd_url : string;
  pd_type : string;
  pd_contents : string;
  pd_isInline : bool
}.

(** A reference to a [ScannedDocument] object: these objects are shared
    and mutated after they have been handed out. *)
Definition Ref : Type := nat.

Inductive ScannedFeature : Type :=
| ScannedImport (type url : string)
    (sourceRange urlSourceRange : option SourceRange)
| ScannedElement (description : string)
| ScannedInlineDocument (type contents : string)
    (offset : LocationOffset) (attachedComment : option string)
    (node : nat) (scannedDocument : option Ref)
| OtherFeature (kind : string).

Record ScannedDocument : Type := mkScannedDocument {
  document : ParsedDocument;
  features : list ScannedFeature;
  warnings : list Warning
}.

Definition url (d : ScannedDocument) : string := pd_url (document d).
Definition isInline (d : ScannedDocument) : bool := pd_isInline (document d).

(** [e instanceof ScannedImport && e.type !== 'lazy-html-import'] *)
Definition isNonLazyImport (e : ScannedFeature) : bool :=
  match e with
  | ScannedImport type _ _ _ =>
      negb (bool_decide (type = "lazy-html-import"))
  | _ => false
  end.

Definition importUrl (e : ScannedFeature) : string :=
  match e with
  | ScannedImport _ url _ _ => url
  | _ => ""
  end.

(** [scannedImport.urlSourceRange || scannedImport.sourceRange] *)
Definition importRange (e : ScannedFeature) : option SourceRange :=
  match e with
  | ScannedImport _ _ sourceRange urlSourceRange =>
      match urlSourceRange with
      | Some r => Some r
      | None => sourceRange
      end
  | _ => None
  end.

(** An analyzed document: the scanned document it was built from. *)
Record Document : Type := mkDocument { scanned : Ref }.

(** [new Package(documents, warnings)]; [analyzePackage] puts whatever is
    not a [Document] among the warnings, so an entry may be [undefined],
    which is [None] here. *)
Record Package : Type := mkPackage {
  documents : list Document;
  pkgWarnings : list (option Warning)
}.

End Model.

(** ** [src/core/analysis-cache] *)

Module AnalysisCache.
Import Model AsyncWorkCache DependencyGraph.

(** Modelled from the spec: the class is not among the sources; its
    fields are the ones [analyzer-cache-context.ts] reads and writes. *)
Record AnalysisCache : Type := mkAnalysisCache {
  parsedDocumentPromises : AsyncWorkCache ParsedDocument;
  scannedDocumentPromises : AsyncWorkCache Ref;
  dependenciesScannedPromises : AsyncWorkCache Ref;
  analyzedDocumentPromises : AsyncWorkCache (option Document);
  scannedDocuments : gmap string Ref;
  analyzedDocuments : gmap string Document;
  dependencyGraph : DependencyGraph
}.

(** [new AnalysisCache()] *)
Definition new : AnalysisCache :=
  mkAnalysisCache AsyncWorkCache.empty AsyncWorkCache.empty
    AsyncWorkCache.empty AsyncWorkCache.empty ∅ ∅ ∅.

End AnalysisCache.

(** ** [src/url-loader]: the collaborators that load and resolve *)

Module UrlLoader.
Import Js.

Record UrlLoader : Type := mkUrlLoader {
  canLoad : string → bool;
  load : string → Completion string;
  readDirectory : option (string → bool → Completion (list string))
}.

End UrlLoader.

Module UrlResolver.

Record UrlResolver : Type := mkUrlResolver {
  canResolve : string → bool;
  resolve : string → string
}.

End UrlResolver.

(** ** [src/core/analyzer-cache-context.ts] *)

Module AnalyzerCacheContext.
Import Warnings Js Utils Model AnalysisCache.

(** Everything the methods of one context work on: the [AnalysisCache] of
    the context, the [ScannedDocument] objects by reference, the finished
    measurements of the telemetry tracker, and a ghost log of the calls of
    [loader.load]. *)
Record State : Type := mkState {
  cache : AnalysisCache;
  heap : list ScannedDocument;
  telemetry : list (string * string);
  loads : list string
}.

Definition initial : State := mkState AnalysisCache.new [] [] [].

(** A parser: [parse(contents, url, inlineInfo)] returns or throws. *)
Definition Parser : Type :=
  string → string → option InlineDocInfo → Thrown + ParsedDocument.

(** The scanners registered for one document type, by what
    [scan(document, scanners)] of [../scanning/scan] yields for them. *)
Definition Scanners : Type := ParsedDocument → Completion (list ScannedFeature).

(** The fields of a context the methods read, and the collaborators from
    modules that are not among the sources: [getNestedFeatures] and
    [applyHtmlComment] of [../model/model], [Document#resolve], and
    [extname] and [dirname] of Node's [path]. *)
Record Context : Type := mkContext {
  _parsers : gmap string Parser;
  _scanners : gmap string Scanners;
  _loader : UrlLoader.UrlLoader;
  _resolver : option UrlResolver.UrlResolver;
  getNestedFeatures : list ScannedDocument → Ref → list ScannedFeature;
  applyHtmlComment : string → option string → string;
  resolveDocument : Document → State → State;
  extname : string → string;
  dirname : string → string
}.

(** *** State updates *)

Definition withCache (f : AnalysisCache → AnalysisCache) (s : State) : State :=
  mkState (f (cache s)) (heap s) (telemetry s) (loads s).

Definition withHeap (f : list ScannedDocument → list ScannedDocument)
    (s : State) : State :=
  mkState (cache s) (f (heap s)) (telemetry s) (loads s).

(** [doneTiming()] of a measurement started with [start(kind, identifier)] *)
Definition doneTiming (kind identifier : string) (s : State) : State :=
  mkState (cache s) (heap s) (telemetry s ++ [(kind, identifier)]) (loads s).

Definition logLoad (resolvedUrl : string) (s : State) : State :=
  mkState (cache s) (heap s) (telemetry s) (loads s ++ [resolvedUrl]).

(** One of the four promise caches of an [AnalysisCache]. *)
Record Slot (V : Type) : Type := mkSlot {
  get : AnalysisCache → AsyncWorkCache.AsyncWorkCache V;
  set : AsyncWorkCache.AsyncWorkCache V → AnalysisCache → AnalysisCache
}.
Global Arguments get {V} _ _.
Global Arguments set {V} _ _ _.

Definition parsedSlot : Slot ParsedDocument :=
  mkSlot _ parsedDocumentPromises
    (λ c a, mkAnalysisCache c (scannedDocumentPromises a)
              (dependenciesScannedPromises a) (analyzedDocumentPromises a)
              (scannedDocuments a) (analyzedDocuments a) (dependencyGraph a)).

Definition scannedSlot : Slot Ref :=
  mkSlot _ scannedDocumentPromises
    (λ c a, mkAnalysisCache (parsedDocumentPromises a) c
              (dependenciesScannedPromises a) (analyzedDocumentPromises a)
              (scannedDocuments a) (analyzedDocuments a) (dependencyGraph a)).

Definition dependenciesSlot : Slot Ref :=
  mkSlot _ dependenciesScannedPromises
    (λ c a, mkAnalysisCache (parsedDocumentPromises a)
              (scannedDocumentPromises a) c (analyzedDocumentPromises a)
              (scannedDocuments a) (analyzedDocuments a) (dependencyGraph a)).

Definition analyzedSlot : Slot (option Document) :=
  mkSlot _ analyzedDocumentPromises
    (λ c a, mkAnalysisCache (parsedDocumentPromises a)
              (scannedDocumentPromises a) (dependenciesScannedPromises a) c
              (scannedDocuments a) (analyzedDocuments a) (dependencyGraph a)).

Definition setScannedDocuments (m : gmap string Ref) (a : AnalysisCache)
  : AnalysisCache :=
  mkAnalysisCache (parsedDocumentPromises a) (scannedDocumentPromises a)
    (dependenciesScannedPromises a) (analyzedDocumentPromises a)
    m (analyzedDocuments a) (dependencyGraph a).

Definition setAnalyzedDocuments (m : gmap string Document) (a : AnalysisCache)
  : AnalysisCache :=
  mkAnalysisCache (parsedDocumentPromises a) (scannedDocumentPromises a)
    (dependenciesScannedPromises a) (analyzedDocumentPromises a)
    (scannedDocuments a) m (dependencyGraph a).

Definition setDependencyGraph (g : DependencyGraph.DependencyGraph)
    (a : AnalysisCache)
  : AnalysisCache :=
  mkAnalysisCache (parsedDocumentPromises a) (scannedDocumentPromises a)
    (dependenciesScannedPromises a) (analyzedDocumentPromises a)
    (scannedDocuments a) (analyzedDocuments a) g.

(** What the promise stored for [key] in a slot stands at. *)
Definition promiseOf {V : Type} (slot : Slot V) (key : string) (s : State)
  : option (Completion V) :=
  let c := get slot (cache s) in
  p ← AsyncWorkCache._keyToResultMap c !! key;
  Some (AsyncWorkCache.observe p c).

(** Two laws of a slot, the promise a key has in it, and what it means
    for a step from [s] to [s'] to leave a part [π] of the cache alone. *)
Definition lawful {V : Type} (slot : Slot V) : Prop :=
  (∀ a, set slot (get slot a) a = a) ∧ (∀ c a, get slot (set slot c a) = c).

Definition registered {V : Type} (slot : Slot V) (key : string) (p : nat)
    (s : State) : Prop :=
  AsyncWorkCache._keyToResultMap (get slot (cache s)) !! key = Some p.

Definition keeps {X : Type} (π : AnalysisCache → X) (s s' : State) : Prop :=
  π (cache s') = π (cache s).

Definition slotKeeps {X V : Type} (π : AnalysisCache → X) (slot : Slot V)
  : Prop :=
  ∀ c a, π (set slot c a) = π a.

(** *** [getOrCompute] with its computation run

    [await cache.getOrCompute(key, async () => body)]: the request
    registers the promise; if that invoked [body], [body] runs against
    the state with the promise registered, and its completion settles the
    promise.  The caller then observes the promise. *)
Definition request {V : Type} (slot : Slot V) (key : string) (s : State)
  : nat * bool * State :=
  let '(p, invoked, c) := AsyncWorkCache.getOrCompute key (get slot (cache s)) in
  (p, invoked, withCache (set slot c) s).

Definition finish {V : Type} (slot : Slot V) (p : nat) (r : Completion V)
    (s : State) : Completion V * State :=
  let s' := withCache (λ a, set slot (AsyncWorkCache.settle p r (get slot a)) a) s in
  (AsyncWorkCache.observe p (get slot (cache s')), s').

Definition getOrCompute {V : Type} (slot : Slot V) (key : string)
    (compute : State → Completion V * State) (s : State)
  : Completion V * State :=
  let '(p, invoked, s) := request slot key s in
  if invoked : bool then
    let '(r, s) := compute s in finish slot p r s
  else (AsyncWorkCache.observe p (get slot (cache s)), s).

(** The same for a computation with a recursion budget, which yields
    [None] when the budget does not suffice. *)
Definition getOrComputeRec {V : Type} (slot : Slot V) (key : string)
    (compute : State → option (Completion V * State)) (s : State)
  : option (Completion V * State) :=
  let '(p, invoked, s) := request slot key s in
  if invoked : bool then
    '(r, s) ← compute s; Some (finish slot p r s)
  else Some (AsyncWorkCache.observe p (get slot (cache s)), s).

(** [const x = await c; k x], for a step that cannot run out of budget
    and for one that can. *)
Definition andThen {A B : Type} (c : Completion A * State)
    (k : A → State → option (Completion B * State))
  : option (Completion B * State) :=
  match c with
  | (Fulfilled a, s) => k a s
  | (Rejected e, s) => Some (Rejected e, s)
  | (Pending, s) => Some (Pending, s)
  end.

Definition andThenRec {A B : Type} (c : option (Completion A * State))
    (k : A → State → option (Completion B * State))
  : option (Completion B * State) :=
  c ≫= λ c, andThen c k.

Definition newline : string := String (Ascii.ascii_of_nat 10) EmptyString.

(** [s.substring(1)] *)
Definition substring1 (s : string) : string :=
  match s with
  | EmptyString => EmptyString
  | String _ rest => rest
  end.

Section Methods.
Variable this : Context.

(** [_resolveUrl] *)
Definition _resolveUrl (url : string) : string :=
  match _resolver this with
  | Some resolver =>
      if UrlResolver.canResolve resolver url
      then UrlResolver.resolve resolver url
      else url
  | None => url
  end.

(** [load] *)
Definition load (resolvedUrl : string) (providedContents : MaybeString)
    (s : State) : Completion string * State :=
  if negb (UrlLoader.canLoad (_loader this) resolvedUrl) then
    (Rejected (newError ("Can't load URL: " ++ resolvedUrl)), s)
  else
    match providedContents with
    | Str contents => (Fulfilled contents, s)
    | Undefined | Null =>
        (UrlLoader.load (_loader this) resolvedUrl, logLoad resolvedUrl s)
    end.

(** [_parseContents] *)
Definition _parseContents (type contents url : string)
    (inlineInfo : option InlineDocInfo) : Thrown + ParsedDocument :=
  match _parsers this !! type with
  | None =>
      inl (newNoKnownParserError ("No parser for for file type " ++ type))
  | Some parser =>
      match parser contents url inlineInfo with
      | inr parsedDoc => inr parsedDoc
      | inl error =>
          match cls error with
          | WarningCarrying _ => inl error
          | _ =>
              (* error.stack, of a thrown null or undefined, throws *)
              if isNullish error then inl (cannotRead "stack" error)
              else inl (newError ("Error parsing " ++ url ++ ":" ++ newline
                                    ++ " " ++ stackText error))
          end
      end
  end.

(** [_parse]: the function it hands to [getOrCompute], and the method. *)
Definition _parseCompute (resolvedUrl : string)
    (providedContents : MaybeString) (s : State)
  : Completion ParsedDocument * State :=
  match load resolvedUrl providedContents s with
  | (Fulfilled content, s) =>
      let extension := substring1 (extname this resolvedUrl) in
      (* doneTiming = this._telemetryTracker.start('parse', 'resolvedUrl') *)
      match _parseContents extension content resolvedUrl None with
      | inr parsedDoc =>
          (Fulfilled parsedDoc, doneTiming "parse" "resolvedUrl" s)
      | inl error => (Rejected error, s)
      end
  | (Rejected error, s) => (Rejected error, s)
  | (Pending, s) => (Pending, s)
  end.

Definition _parse (resolvedUrl : string) (providedContents : MaybeString)
  : State → Completion ParsedDocument * State :=
  getOrCompute parsedSlot resolvedUrl
    (_parseCompute resolvedUrl providedContents).

(** [_getScannedFeatures] *)
Definition _getScannedFeatures (document : ParsedDocument)
  : Completion (list ScannedFeature) :=
  match _scanners this !! pd_type document with
  | Some scanners => scanners document
  | None => Fulfilled []
  end.

(** [containingDocument.warnings.push(warning)] *)
Definition pushWarning (ref : Ref) (warning : Warning) : State → State :=
  withHeap (alter (λ d, mkScannedDocument (document d) (features d)
                          (warnings d ++ [warning])) ref).

(** [feature.scannedDocument = scannedDoc], for the feature at [index] *)
Definition setScannedDocument (ref : Ref) (index : nat) (scannedDoc : Ref)
  : State → State :=
  withHeap (alter (λ d, mkScannedDocument (document d)
    (alter (λ f, match f with
                 | ScannedInlineDocument type contents offset comment node _ =>
                     ScannedInlineDocument type contents offset comment node
                       (Some scannedDoc)
                 | _ => f
                 end) index (features d))
    (warnings d)) ref).

(** The loop of [_scanInlineDocuments] over the features from position
    [index] on, given the scan of one document. *)
Fixpoint scanInlineFeatures
    (scanDocument : ParsedDocument → option string → State →
                    option (Completion Ref * State))
    (containing : Ref) (containingUrl : string)
    (index : nat) (remaining : list ScannedFeature) (s : State)
  : option (Completion unit * State) :=
  match remaining with
  | [] => Some (Fulfilled tt, s)
  | feature :: rest =>
      let continue := scanInlineFeatures scanDocument containing
                        containingUrl (S index) rest in
      let catch (err : Thrown) (s : State) :=
        match cls err with
        | WarningCarrying warning => continue (pushWarning containing warning s)
        | _ => Some (Rejected err, s)
        end in
      match feature with
      | ScannedInlineDocument type contents offset attachedComment node _ =>
          let locationOffset :=
            mkLocationOffset (lo_line offset) (lo_col offset)
              (Some containingUrl) in
          match _parseContents type contents containingUrl
                  (Some (mkInlineDocInfo locationOffset node)) with
          | inl err => catch err s
          | inr parsedDoc =>
              match scanDocument parsedDoc attachedComment s with
              | None => None
              | Some (Fulfilled scannedDoc, s) =>
                  continue (setScannedDocument containing index scannedDoc s)
              | Some (Rejected err, s) => catch err s
              | Some (Pending, s) => Some (Pending, s)
              end
          end
      | _ => continue s
      end
  end.

(** [firstScannedFeature.applyHtmlComment(maybeAttachedComment)] when the
    first feature is a [ScannedElement] *)
Definition applyComment (scannedFeatures : list ScannedFeature)
    (maybeAttachedComment : option string) : list ScannedFeature :=
  match scannedFeatures with
  | ScannedElement description :: rest =>
      ScannedElement (applyHtmlComment this description maybeAttachedComment)
        :: rest
  | _ => scannedFeatures
  end.

(** [_scanDocument], with [_scanInlineDocuments] inside; [fuel] bounds
    the nesting of inline documents. *)
Fixpoint _scanDocument (fuel : nat) (document : ParsedDocument)
    (maybeAttachedComment : option string) (s : State)
  : option (Completion Ref * State) :=
  match fuel with
  | O => None
  | S fuel' =>
      andThen (_getScannedFeatures document, s) (λ scannedFeatures s,
        let scannedFeatures := applyComment scannedFeatures maybeAttachedComment in
        let scannedDocument := length (heap s) in
        let s := withHeap (λ h, h ++ [mkScannedDocument document scannedFeatures []]) s in
        let stored :=
          if pd_isInline document then inr s
          else if decide (is_Some (scannedDocuments (cache s) !! pd_url document))
          then inl (newError
                 "Scanned document already in cache. This should never happen.")
          else inr (withCache (λ a, setScannedDocuments
                      (<[pd_url document := scannedDocument]> (scannedDocuments a)) a) s) in
        match stored with
        | inl err => Some (Rejected err, s)
        | inr s =>
            andThenRec
              (scanInlineFeatures (_scanDocument fuel') scannedDocument
                 (pd_url document) 0 scannedFeatures s)
              (λ _ s, Some (Fulfilled scannedDocument, s))
        end)
  end.

(** The non-lazy imports of a scanned document, as both [_scanLocal]
    and [_scan] compute them. *)
Definition nonLazyImports (scannedDocument : Ref) (s : State)
  : list ScannedFeature :=
  filter (λ e, isNonLazyImport e = true)
    (getNestedFeatures this (heap s) scannedDocument).

(** What completing an already completed [Deferred] throws; the text is
    not determined by the sources. *)
Definition alreadyResolved : Thrown := newError "Already resolved".

(** [_scanLocal]: the function it hands to [getOrCompute], and the
    method. *)
Definition _scanLocalCompute (fuel : nat) (resolvedUrl : string)
    (contents : MaybeString) (s : State)
  : option (Completion Ref * State) :=
  andThen (_parse resolvedUrl contents s) (λ parsedDoc s,
  andThenRec (_scanDocument fuel parsedDoc None s) (λ scannedDocument s,
    (* Find all non-lazy imports *)
    let imports := nonLazyImports scannedDocument s in
    (* Update dependency graph *)
    let importUrls := map (λ i, _resolveUrl (importUrl i)) imports in
    match DependencyGraph.addDocument resolvedUrl importUrls
            (dependencyGraph (cache s)) with
    | (inr _, g) =>
        Some (Fulfilled scannedDocument, withCache (setDependencyGraph g) s)
    | (inl _, g) =>
        Some (Rejected alreadyResolved, withCache (setDependencyGraph g) s)
    end)).

Definition _scanLocal (fuel : nat) (resolvedUrl : string)
    (contents : MaybeString)
  : State → option (Completion Ref * State) :=
  getOrComputeRec scannedSlot resolvedUrl
    (_scanLocalCompute fuel resolvedUrl contents).

(** The [catch] block around the scan of one import. *)
Definition couldNotLoad (scannedImport : ScannedFeature) (error : Thrown)
  : Warning :=
  (* if (error instanceof NoKnownParserError) { } : the block is empty *)
  let error := if isNoKnownParserError error then error else error in
  (* error = error || ''; `${error.message || error}` *)
  let text := if truthy error then messageOrSelf error else "" in
  mkWarning (importRange scannedImport) "could-not-load"
    ("Unable to load import: " ++ text) ERROR.

(** [await this._cache.dependencyGraph.whenReady(resolvedUrl)] *)
Definition awaitReady (resolvedUrl : string) (s : State)
  : AsyncCyclicTransitivePromiseAll.Outcome * State :=
  let '(r, g) := DependencyGraph.whenReady resolvedUrl (dependencyGraph (cache s)) in
  (r, withCache (setDependencyGraph g) s).

(** The loop of [_scan] over the imports, given the scan of one URL.
    The scans of the imports are started one after the other, each
    running as far as it gets; a rejected one leaves its warning on the
    importing document. *)
Fixpoint scanImports
    (scan : string → State → option (Completion Ref * State))
    (scannedDocument : Ref) (imports : list ScannedFeature) (s : State)
  : option State :=
  match imports with
  | [] => Some s
  | scannedImport :: rest =>
      let importUrl := _resolveUrl (importUrl scannedImport) in
      match scan importUrl s with
      | None => None
      | Some (Rejected error, s) =>
          scanImports scan scannedDocument rest
            (pushWarning scannedDocument (couldNotLoad scannedImport error) s)
      | Some (_, s) => scanImports scan scannedDocument rest s
      end
  end.

(** [_scan]; [fuel] bounds the depth of the import chain followed and
    the nesting of inline documents. *)
Fixpoint _scan (fuel : nat) (resolvedUrl : string) (contents : MaybeString)
    (s : State) : option (Completion Ref * State) :=
  match fuel with
  | O => None
  | S fuel' =>
      getOrComputeRec dependenciesSlot resolvedUrl (λ s,
        andThenRec (_scanLocal fuel' resolvedUrl contents s) (λ scannedDocument s,
          let imports := nonLazyImports scannedDocument s in
          s ← scanImports (λ importUrl, _scan fuel' importUrl Undefined)
                 scannedDocument imports s;
          match awaitReady resolvedUrl s with
          | (AsyncCyclicTransitivePromiseAll.Returned, s) =>
              Some (Fulfilled scannedDocument, s)
          | (_, s) => Some (Pending, s)
          end)) s
  end.

(** A scan whose local part is done and whose wait for the readiness of
    its URL was suspended resumes when the missing successors have been
    recorded.  [resume] does so for one URL, [drain] for every scan
    started so far. *)
Definition resume (s : State) (resolvedUrl : string) : State :=
  match promiseOf dependenciesSlot resolvedUrl s,
        promiseOf scannedSlot resolvedUrl s,
        AsyncWorkCache._keyToResultMap (dependenciesScannedPromises (cache s))
          !! resolvedUrl with
  | Some Pending, Some (Fulfilled scannedDocument), Some p =>
      match awaitReady resolvedUrl s with
      | (AsyncCyclicTransitivePromiseAll.Returned, s) =>
          (finish dependenciesSlot p (Fulfilled scannedDocument) s).2
      | (_, s) => s
      end
  | _, _, _ => s
  end.

Definition drain (s : State) : State :=
  foldl resume s (AsyncWorkCache.calls (dependenciesScannedPromises (cache s))).

(** [_getDocument] *)
Definition _getDocument (url : string) (s : State)
  : option Document * State :=
  let resolvedUrl := _resolveUrl url in
  match analyzedDocuments (cache s) !! resolvedUrl with
  | Some cachedResult => (Some cachedResult, s)
  | None =>
      match scannedDocuments (cache s) !! resolvedUrl with
      | None => (None, s)
      | Some scannedDocument =>
          let document := mkDocument scannedDocument in
          let s := withCache (λ a, setAnalyzedDocuments
                     (<[resolvedUrl := document]> (analyzedDocuments a)) a) s in
          let s := (getOrCompute analyzedSlot resolvedUrl
                      (λ s, (Fulfilled (Some document), s)) s).2 in
          (Some document, resolveDocument this document s)
      end
  end.

(** [scannedDocument.url]; a reference handed out by [_scanDocument]
    always points into the heap. *)
Definition urlOf (s : State) (scannedDocument : Ref) : string :=
  from_option Model.url "" (heap s !! scannedDocument).

(** [_getScannedDocument] *)
Definition _getScannedDocument (url : string) (s : State) : option Ref :=
  scannedDocuments (cache s) !! _resolveUrl url.

(** [analyze]: the function it hands to [getOrCompute], and the method.
    The continuation after [await this._scan(...)] runs once the scans
    this call started have gone as far as they get. *)
Definition analyzeCompute (fuel : nat) (url resolvedUrl : string)
    (contents : MaybeString) (s : State)
  : option (Completion (option Document) * State) :=
  (* doneTiming = this._telemetryTracker.start('analyze: make document', url) *)
  '(_, s) ← _scan fuel resolvedUrl contents s;
  let s := drain s in
  match promiseOf dependenciesSlot resolvedUrl s with
  | Some (Fulfilled scannedDocument) =>
      let '(document, s) := _getDocument (urlOf s scannedDocument) s in
      Some (Fulfilled document, doneTiming "analyze: make document" url s)
  | Some (Rejected error) => Some (Rejected error, s)
  | Some Pending | None => Some (Pending, s)
  end.

Definition analyze (fuel : nat) (url : string) (contents : MaybeString)
  : State → option (Completion (option Document) * State) :=
  let resolvedUrl := _resolveUrl url in
  getOrComputeRec analyzedSlot resolvedUrl
    (analyzeCompute fuel url resolvedUrl contents).

Inductive DocumentOrWarning : Type :=
| IsDocument (document : Document)
| IsWarning (warning : Warning)
| IsUndefined.

(** The warning [_analyzeOrWarning] builds in its [catch] block. *)
Definition unableToAnalyze (url : string) (e : Thrown) : Warning :=
  (* `${e && e.message || e}` *)
  let text := if truthy e then messageOrSelf e else asString e in
  mkWarning
    (Some (mkSourceRange (_resolveUrl url) (mkPosition 0 0) (mkPosition 0 0)))
    "unable-to-analyze" ("Unable to analyze file: " ++ text) ERROR.

(** [_analyzeOrWarning] *)
Definition _analyzeOrWarning (fuel : nat) (url : string) (s : State)
  : option (Completion DocumentOrWarning * State) :=
  '(r, s) ← analyze fuel url Undefined s;
  match r with
  | Fulfilled (Some document) => Some (Fulfilled (IsDocument document), s)
  | Fulfilled None => Some (Fulfilled IsUndefined, s)
  | Rejected e =>
      match cls e with
      | WarningCarrying warning => Some (Fulfilled (IsWarning warning), s)
      | _ => Some (Fulfilled (IsWarning (unableToAnalyze url e)), s)
      end
  | Pending => Some (Pending, s)
  end.

(** [Promise.all(files.map(f => this._analyzeOrWarning(f)))] *)
Fixpoint analyzeAll (fuel : nat) (files : list string) (s : State)
  : option (Completion (list DocumentOrWarning) * State) :=
  match files with
  | [] => Some (Fulfilled [], s)
  | f :: rest =>
      '(r, s) ← _analyzeOrWarning fuel f s;
      '(rs, s) ← analyzeAll fuel rest s;
      match r, rs with
      | Fulfilled x, Fulfilled xs => Some (Fulfilled (x :: xs), s)
      | Rejected e, _ => Some (Rejected e, s)
      | _, Rejected e => Some (Rejected e, s)
      | _, _ => Some (Pending, s)
      end
  end.

(** The loop that sorts the outcomes into documents and warnings; what
    is not an instance of [Document] goes to the warnings. *)
Definition documentsOf (outcomes : list DocumentOrWarning) : list Document :=
  omap (λ x, match x with IsDocument d => Some d | _ => None end) outcomes.

Definition warningsOf (outcomes : list DocumentOrWarning)
  : list (option Warning) :=
  omap (λ x, match x with
             | IsDocument _ => None
             | IsWarning w => Some (Some w)
             | IsUndefined => Some None
             end) outcomes.

Definition dependencyDirPrefixes : list string :=
  ["bower_components"; "node_modules"].

Definition inPackage (file : string) : bool :=
  negb (existsb (λ prefix, String.prefix prefix (dirname this file))
          dependencyDirPrefixes).

Definition hasParser (fn : string) : bool :=
  bool_decide (substring1 (extname this fn) ∈ dom (_parsers this)).

(** [analyzePackage] *)
Definition analyzePackage (fuel : nat) (s : State)
  : option (Completion Package * State) :=
  match UrlLoader.readDirectory (_loader this) with
  | None =>
      Some (Rejected (newError
        ("This analyzer doesn't support analyzerPackage, " ++
         "the urlLoader can't list the files in a directory.")), s)
  | Some readDirectory =>
      andThen (readDirectory "" true, s) (λ allFiles s,
        let filesInPackage := filter (λ f, inPackage f = true) allFiles in
        let filesWithParsers := filter (λ f, hasParser f = true) filesInPackage in
        andThenRec (analyzeAll fuel filesWithParsers s) (λ outcomes s,
          Some (Fulfilled (mkPackage (documentsOf outcomes)
                                     (warningsOf outcomes)), s)))
  end.

End Methods.

End AnalyzerCacheContext.

(** ** Readiness: what the scans keep true

    The successors of a URL are recorded by its local scan, and the
    transitive scan of a URL completes by waiting on the recorded
    successors.  The invariant below relates the three. *)

Module Readiness.
Import Warnings Js Utils Model AnalysisCache AnalyzerCacheContext.
Import AsyncCyclicTransitivePromiseAll.

(** The parts of a cache the readiness of documents depends on. *)
Definition core (a : AnalysisCache)
  : AsyncWorkCache.AsyncWorkCache Ref * AsyncWorkCache.AsyncWorkCache Ref
    * gmap string (Deferred (list string)) :=
  (scannedDocumentPromises a, dependenciesScannedPromises a, dependencyGraph a).

(** What holds of every state the analysis reaches: the successors of a
    URL are recorded only once its local scan has succeeded, and the
    transitive scan of a URL completes only once every URL reachable from
    it has its successors recorded. *)
Definition Invariant (s : State) : Prop :=
  AsyncWorkCache.consistent (scannedDocumentPromises (cache s)) ∧
  AsyncWorkCache.consistent (dependenciesScannedPromises (cache s)) ∧
  (∀ u deps, recorded (dependencyGraph (cache s)) u deps →
     ∃ ref, promiseOf scannedSlot u s = Some (Fulfilled ref)) ∧
  (∀ u ref, promiseOf dependenciesSlot u s = Some (Fulfilled ref) →
     ∀ v, reachable (dependencyGraph (cache s)) u v →
       ∃ deps, recorded (dependencyGraph (cache s)) v deps).

(** A step keeps the invariant, and the promises of the transitive
    scans. *)
Definition advances (s s' : State) : Prop :=
  (Invariant s → Invariant s') ∧
  (∀ k q, registered dependenciesSlot k q s → registered dependenciesSlot k q s').

(** Resolving a document is the document's own business: it leaves the
    scans and the graph alone. *)
Definition resolvesApart (this : Context) : Prop :=
  ∀ document s, keeps core s (resolveDocument this document s).

End Readiness.

(** ** The cells of the join, as the awaits leave them *)

Module Cells.
Import Utils AsyncCyclicTransitivePromiseAll.
Section Cells.
Context {Key : Type} `{Countable Key}.

(** A map of cells grows by empty cells only: every key keeps its cell,
    or had none and has an empty one. *)
Definition grows (ds ds' : gmap Key (Deferred (list Key))) : Prop :=
  ∀ k, ds' !! k = ds !! k ∨ (ds !! k = None ∧ ds' !! k = Some Empty).

(** The walk [w] over another map of cells. *)
Definition over (F : gmap Key (Deferred (list Key))) (w : Walk) : Walk :=
  mkWalk F (visited w) (descents w).

End Cells.
End Cells.

(** ** The steps of the scans and analyses *)

Module Along.
Import Warnings Js Utils Model AnalysisCache AnalyzerCacheContext.

(** The parts of a cache that neither the promise caches of the scans and
    analyses nor the dependency graph are. *)
Definition rest (a : AnalysisCache)
  : AsyncWorkCache.AsyncWorkCache ParsedDocument * gmap string Ref
    * gmap string Document :=
  (parsedDocumentPromises a, scannedDocuments a, analyzedDocuments a).

(** A step that at most updates the promises of scans and analyses and
    the dependency graph. *)
Definition quiet (s s' : State) : Prop :=
  heap s' = heap s ∧ telemetry s' = telemetry s ∧ loads s' = loads s ∧
  keeps rest s s'.

(** The steps the scans are made of.  A relation on states that contains
    them, and is reflexive and transitive, holds along every scan. *)
Record ScanSteps (this : Context) (R : relation State) : Prop := mkScanSteps {
  along_refl : ∀ s, R s s;
  along_trans : ∀ s1 s2 s3, R s1 s2 → R s2 s3 → R s1 s3;
  along_quiet : ∀ s s', quiet s s' → R s s';
  along_parse : ∀ resolvedUrl contents s,
    R s (_parse this resolvedUrl contents s).2;
  along_alloc : ∀ document features s,
    R s (withHeap (λ h, h ++ [mkScannedDocument document features []]) s);
  along_store : ∀ document features ref s,
    heap s !! ref = Some (mkScannedDocument document features []) →
    pd_isInline document = false →
    scannedDocuments (cache s) !! pd_url document = None →
    R s (withCache (λ a, setScannedDocuments
           (<[pd_url document := ref]> (scannedDocuments a)) a) s);
  along_warn : ∀ ref warning s, R s (pushWarning ref warning s);
  along_inline : ∀ ref index scannedDoc s,
    R s (setScannedDocument ref index scannedDoc s)
}.

(** The steps an analysis adds to those of its scans. *)
Record AnalysisSteps (this : Context) (R : relation State) : Prop :=
  mkAnalysisSteps {
  along_scans : ScanSteps this R;
  along_analyzed : ∀ url document s,
    analyzedDocuments (cache s) !! url = None →
    scannedDocuments (cache s) !! url = Some (scanned document) →
    R s (withCache (λ a, setAnalyzedDocuments
           (<[url := document]> (analyzedDocuments a)) a) s);
  along_resolve : ∀ document s, R s (resolveDocument this document s);
  along_timing : ∀ url s, R s (doneTiming "analyze: make document" url s)
}.

End Along.

(** ** What the scans and analyses keep *)

Module Kept.
Import Warnings Js Utils Model AnalysisCache AnalyzerCacheContext.

(** No URL has been asked of the loader twice, and every URL asked of it
    is one it can load and has its promise in the parse cache. *)
Definition loadsOnce (this : Context) (s : State) : Prop :=
  NoDup (loads s) ∧
  ∀ u, u ∈ loads s →
    UrlLoader.canLoad (_loader this) u = true ∧
    is_Some (AsyncWorkCache._keyToResultMap (parsedDocumentPromises (cache s)) !! u).

(** Every entry of [scannedDocuments] names an object of the heap that is
    the scanned document of that URL, and not an inline one. *)
Definition scannedWellFormed (s : State) : Prop :=
  ∀ url ref, scannedDocuments (cache s) !! url = Some ref →
    ∃ d, heap s !! ref = Some d ∧ Model.url d = url ∧ isInline d = false.

(** The scanned documents of [s] are still there in [s'], with the parsed
    document and as many features as they had, and with the warnings they
    had first among their warnings; and the entries of [scannedDocuments]
    are the same ones. *)
Definition scannedGrow (s s' : State) : Prop :=
  scannedDocuments (cache s) ⊆ scannedDocuments (cache s') ∧
  ∀ ref d, heap s !! ref = Some d →
    ∃ d', heap s' !! ref = Some d' ∧ document d' = document d ∧
          length (features d') = length (features d) ∧
          warnings d `prefix_of` warnings d'.

Definition scannedKept (s s' : State) : Prop :=
  scannedGrow s s' ∧ (scannedWellFormed s → scannedWellFormed s').

(** The analysed documents of [s] are the ones of [s'] for their URLs, and
    each is built from the scanned document of its URL. *)
Definition analyzedWellFormed (s : State) : Prop :=
  ∀ url d, analyzedDocuments (cache s) !! url = Some d →
    scannedDocuments (cache s) !! url = Some (scanned d).

Definition analyzedKept (s s' : State) : Prop :=
  analyzedDocuments (cache s) ⊆ analyzedDocuments (cache s') ∧
  scannedDocuments (cache s) ⊆ scannedDocuments (cache s') ∧
  (analyzedWellFormed s → analyzedWellFormed s').

(** The measurement of a parse, as [_parse] names it. *)
Definition parseMeasurement : string * string := ("parse", "resolvedUrl").

Definition parsesTimed (s s' : State) : Prop :=
  ∃ n, telemetry s' = telemetry s ++ replicate n parseMeasurement.

(** A URL that has its promise in the parse cache keeps it, and is not
    asked of the loader. *)
Definition unloaded (u : string) (s s' : State) : Prop :=
  is_Some (AsyncWorkCache._keyToResultMap (parsedDocumentPromises (cache s)) !! u) →
  is_Some (AsyncWorkCache._keyToResultMap (parsedDocumentPromises (cache s')) !! u) ∧
  (u ∈ loads s' → u ∈ loads s).

(** Every URL that has a promise of its local scan has a promise of its
    parse. *)
Definition scannedAreParsed (s : State) : Prop :=
  ∀ u, is_Some (AsyncWorkCache._keyToResultMap
                  (scannedDocumentPromises (cache s)) !! u) →
       is_Some (AsyncWorkCache._keyToResultMap
                  (parsedDocumentPromises (cache s)) !! u).

(** A step that drops no promise of a parse and keeps that. *)
Definition parsesKept (s s' : State) : Prop :=
  (∀ u, is_Some (AsyncWorkCache._keyToResultMap
                   (parsedDocumentPromises (cache s)) !! u) →
        is_Some (AsyncWorkCache._keyToResultMap
                   (parsedDocumentPromises (cache s')) !! u)) ∧
  (scannedAreParsed s → scannedAreParsed s').

End Kept.

(** ** Contexts as objects: construction and forking *)

Module Fork.
Import AnalysisCache.

(** The objects a context refers to live in a store and are named by
    their position in it; two fields hold the same object exactly when
    they hold the same position. *)
Definition Loc : Type := nat.

Inductive Object : Type :=
| Supplied                                  (* handed in through the options *)
| DefaultParsers                            (* the [Map] of the field initialiser *)
| DefaultScanners (lazyEdges : option Loc)  (* [_getDefaultScanners(lazyEdges)] *)
| Cache (cache : AnalysisCache)
| TelemetryTracker (measurements : list (string * string)).

Definition Store : Type := list Object.

Definition alloc (o : Object) (h : Store) : Loc * Store :=
  (length h, h ++ [o]).

Record Options : Type := mkOptions {
  urlLoader : Loc;
  urlResolver : option Loc;
  parsers : option Loc;
  lazyEdges : option Loc;
  scanners : option Loc
}.

Record AnalyzerCacheContext : Type := mkContext {
  _parsers : Loc;
  _lazyEdges : option Loc;
  _scanners : Loc;
  _loader : Loc;
  _resolver : option Loc;
  _cache : Loc;
  _telemetryTracker : Loc;
  _generation : nat
}.

(** [new AnalyzerCacheContext(options)]: the field initialisers, then the
    body of the constructor. *)
Definition construct (options : Options) (h : Store)
  : AnalyzerCacheContext * Store :=
  let '(parsers0, h) := alloc DefaultParsers h in
  let '(cache0, h) := alloc (Cache AnalysisCache.new) h in
  let '(telemetry0, h) := alloc (TelemetryTracker []) h in
  let '(scanners1, h) :=
    match scanners options with
    | Some given => (given, h)
    | None => alloc (DefaultScanners (lazyEdges options)) h
    end in
  (mkContext (default parsers0 (parsers options)) (lazyEdges options)
     scanners1 (urlLoader options) (urlResolver options)
     cache0 telemetry0 0, h).

(** [_fork(cache)] *)
Definition _fork (this : AnalyzerCacheContext) (cache : Loc) (h : Store)
  : AnalyzerCacheContext * Store :=
  let '(copy, h) :=
    construct (mkOptions (_loader this) (_resolver this)
                 (Some (_parsers this)) (_lazyEdges this)
                 (Some (_scanners this))) h in
  (mkContext (_parsers copy) (_lazyEdges copy) (_scanners copy)
     (_loader copy) (_resolver copy)
     cache (_telemetryTracker this) (_generation this + 1), h).

(** [clearCaches()] *)
Definition clearCaches (this : AnalyzerCacheContext) (h : Store)
  : AnalyzerCacheContext * Store :=
  let '(newCache, h) := alloc (Cache AnalysisCache.new) h in
  _fork this newCache h.

Section FilesChanged.
(** Modelled from the spec: [AnalysisCache#invalidate] is not among the
    sources.  By the spec (4.4) it constructs a new cache from the
    entries of its receiver, which it leaves as it is. *)
Variable invalidate : AnalysisCache → list string → AnalysisCache.
(** [_resolveUrl] of the context; see [AnalyzerCacheContext._resolveUrl]. *)
Variable _resolveUrl : string → string.

(** [filesChanged(urls)]; [None] when the [_cache] field does not hold a
    cache. *)
Definition filesChanged (this : AnalyzerCacheContext) (urls : list string)
    (h : Store) : option (AnalyzerCacheContext * Store) :=
  match h !! _cache this with
  | Some (Cache cache) =>
      let '(newCache, h) :=
        alloc (Cache (invalidate cache (map _resolveUrl urls))) h in
      Some (_fork this newCache h)
  | _ => None
  end.

End FilesChanged.

(** [this'] is a fork of [this] around the new cache [cache]: the cache
    object is new in the store, every object that was in the store is
    still there as it was, the configuration and the telemetry tracker
    are the same objects, and the generation is one more. *)
Definition forked (this : AnalyzerCacheContext) (h : Store)
    (this' : AnalyzerCacheContext) (h' : Store) (cache : AnalysisCache)
  : Prop :=
  h !! _cache this' = None ∧
  h' !! _cache this' = Some (Cache cache) ∧
  _cache this' ≠ _cache this ∧
  (∀ l o, h !! l = Some o → h' !! l = Some o) ∧
  _parsers this' = _parsers this ∧
  _scanners this' = _scanners this ∧
  _loader this' = _loader this ∧
  _resolver this' = _resolver this ∧
  _lazyEdges this' = _lazyEdges this ∧
  _telemetryTracker this' = _telemetryTracker this ∧
  _generation this' = _generation this + 1.

End Fork.

(** ** Lines of forks *)

Module Lineage.
Import AnalysisCache Fork.

(** One fork of a context: by [clearCaches], or by [filesChanged] for
    some URLs. *)
Definition forkStep (invalidate : AnalysisCache → list string → AnalysisCache)
    (_resolveUrl : string → string)
    (x y : AnalyzerCacheContext * Store) : Prop :=
  clearCaches x.1 x.2 = y ∨
  ∃ urls, filesChanged invalidate _resolveUrl x.1 urls x.2 = Some y.

End Lineage.

(** ** [src/polymer/pseudo-element-scanner.ts] *)

Module PseudoElementScanner.
Import Warnings Js.

(** A node of the parsed HTML, by what the scanner reads of it; [data] is
    [undefined] on nodes that carry no text. *)
Record ASTNode : Type := mkASTNode {
  nodeName : string;
  data : option string
}.

(** [s.includes(sub)] *)
Fixpoint includes (sub s : string) : bool :=
  String.prefix sub s ||
  match s with
  | EmptyString => false
  | String _ rest => includes sub rest
  end.

(** [new ScannedPolymerElement({tagName, jsdoc, properties, description,
    sourceRange})], with the [pseudo] flag the scanner sets on it. *)
Record ScannedPolymerElement (Tag Property : Type) : Type :=
  mkScannedPolymerElement {
  tagName : string;
  jsdoc : option string * list Tag;
  properties : list Property;
  description : option string;
  sourceRange : option SourceRange;
  pseudo : bool
}.
Global Arguments mkScannedPolymerElement {Tag Property} _ _ _ _ _ _.
Global Arguments tagName {Tag Property} _.
Global Arguments jsdoc {Tag Property} _.
Global Arguments properties {Tag Property} _.
Global Arguments description {Tag Property} _.
Global Arguments sourceRange {Tag Property} _.
Global Arguments pseudo {Tag Property} _.

(** What [visit(visitor)] does: the nodes it calls the visitor with, in
    order, and how its promise settles. *)
Record Visit : Type := mkVisit {
  visited : list ASTNode;
  settles : Completion unit
}.

Section Scan.
Context {Annotation Tag Property : Type}.
(** The collaborators: [dom5.isCommentNode], [jsdoc.parseJsdoc] with the
    [description] and [tags] of its result, [jsdoc.getTag] ([None] for
    [null]), [document.sourceRangeForNode] and [annotateElementHeader]. *)
Variable isCommentNode : ASTNode → bool.
Variable parseJsdoc : string → Annotation.
Variable annotationDescription : Annotation → option string.
Variable annotationTags : Annotation → list Tag.
Variable getTag : Annotation → string → string → option string.
Variable sourceRangeForNode : ASTNode → option SourceRange.
Variable annotateElementHeader :
  ScannedPolymerElement Tag Property → ScannedPolymerElement Tag Property.

(** The element the visitor builds from a comment, before
    [annotateElementHeader]. *)
Definition element (node : ASTNode) (text pseudoTag : string)
  : ScannedPolymerElement Tag Property :=
  let parsedJsdoc := parseJsdoc text in
  mkScannedPolymerElement pseudoTag
    (annotationDescription parsedJsdoc, annotationTags parsedJsdoc)
    [] (annotationDescription parsedJsdoc) (sourceRangeForNode node) true.

(** The visitor, as a step on the array [elements]. *)
Definition visitor (elements : list (ScannedPolymerElement Tag Property))
    (node : ASTNode) : list (ScannedPolymerElement Tag Property) :=
  match data node with
  | Some text =>
      if isCommentNode node && negb (bool_decide (text = ""))
         && includes "@pseudoElement" text
      then
        let parsedJsdoc := parseJsdoc text in
        match getTag parsedJsdoc "pseudoElement" "name" with
        | Some pseudoTag =>
            if bool_decide (pseudoTag = "") then elements
            else elements ++ [annotateElementHeader (element node text pseudoTag)]
        | None => elements
        end
      else elements
  | None => elements
  end.

(** [scan(document, visit)] *)
Definition scan (visit : Visit)
  : Completion (list (ScannedPolymerElement Tag Property)) :=
  let elements := foldl visitor [] (visited visit) in
  match settles visit with
  | Fulfilled _ => Fulfilled elements
  | Rejected error => Rejected error
  | Pending => Pending
  end.

End Scan.
End PseudoElementScanner.

(** ** A small site to run the analysis on

    [a.html] imports [missing.html], which the loader cannot load, and
    [b.html]; [c.html] imports [b.html] eagerly and [lazy.html] lazily;
    [d.html] imports [x.foo], for which no parser is registered; [p.html]
    and [q.html] import each other; the contents of [bad.html] make the
    HTML parser fail with a structured warning. *)

Module Site.
Import Warnings Js Utils Model AnalysisCache AnalyzerCacheContext.

(** The extension of a file name, from its last dot on. *)
Fixpoint fromLastDot (s : string) (acc : string) : string :=
  match s with
  | EmptyString => acc
  | String c rest =>
      if Ascii.eqb c (Ascii.ascii_of_nat 46) then fromLastDot rest (String c rest)
      else fromLastDot rest acc
  end.

Definition extname (s : string) : string := fromLastDot s "".

Definition parseError : Warning :=
  mkWarning None "parse-error" "Unexpected end of input" ERROR.

Definition htmlParser : Parser := λ contents url inlineInfo,
  if decide (contents = "<bad") then inl (newWarningCarryingException parseError)
  else inr (mkParsedDocument url "html" contents (bool_decide (is_Some inlineInfo))).

Definition at_ (file : string) (column : nat) : option SourceRange :=
  Some (mkSourceRange file (mkPosition 0 column) (mkPosition 0 (column + 10))).

Definition htmlScanners : Scanners := λ doc,
  Fulfilled
    (if decide (pd_url doc = "a.html") then
       [ScannedImport "html-import" "missing.html" (at_ "a.html" 0) (at_ "a.html" 5);
        ScannedImport "html-import" "b.html" (at_ "a.html" 20) None]
     else if decide (pd_url doc = "c.html") then
       [ScannedImport "html-import" "b.html" (at_ "c.html" 0) None;
        ScannedImport "lazy-html-import" "lazy.html" (at_ "c.html" 20) None]
     else if decide (pd_url doc = "d.html") then
       [ScannedImport "html-import" "x.foo" (at_ "d.html" 0) None]
     else if decide (pd_url doc = "p.html") then
       [ScannedImport "html-import" "q.html" (at_ "p.html" 0) None]
     else if decide (pd_url doc = "q.html") then
       [ScannedImport "html-import" "p.html" (at_ "q.html" 0) None]
     else []).

Definition loader : UrlLoader.UrlLoader :=
  UrlLoader.mkUrlLoader
    (λ url, negb (bool_decide (url = "missing.html")))
    (λ url, Fulfilled (if decide (url = "bad.html") then "<bad" else "<html>"))
    (Some (λ _ _, Fulfilled ["a.html"; "bad.html"; "b.html"; "notes.txt";
                             "bower_components/x.html"])).

Definition context : Context :=
  mkContext {["html" := htmlParser]} {["html" := htmlScanners]} loader None
    (λ h ref, from_option features [] (h !! ref))
    (λ description _, description)
    (λ _ s, s)
    extname
    (λ f, if decide (f = "bower_components/x.html") then "bower_components"
          else ".").

(** The state after the first local scan of [c.html]. *)
Definition afterLocalScan : State :=
  (default (Pending, initial)
     (_scanLocal context 5 "c.html" Undefined initial)).2.

(** Successors recorded as A→{B}, B→{A}. *)
Definition cyclicPair : gmap string (Deferred (list string)) :=
  {[ "A" := Completed ["B"]; "B" := Completed ["A"] ]}.

(** A store with a loader object, and a context constructed over it. *)
Definition store0 : Fork.Store := [Fork.Supplied].

Definition context0 : Fork.AnalyzerCacheContext :=
  (Fork.construct (Fork.mkOptions 0 None None None None) store0).1.

Definition store1 : Fork.Store :=
  (Fork.construct (Fork.mkOptions 0 None None None None) store0).2.

End Site.

(** ** A page with inline documents, behind a resolver *)

Module Page.
Import Warnings Js Utils Model AnalysisCache AnalyzerCacheContext.

Definition scriptError : Warning :=
  mkWarning None "parse-error" "Unexpected token" ERROR.

(** A parser for documents of [type]; the contents [var] do not parse. *)
Definition parser (type : string) : Parser := λ contents url inlineInfo,
  if decide (contents = "var") then inl (newWarningCarryingException scriptError)
  else inr (mkParsedDocument url type contents (bool_decide (is_Some inlineInfo))).

Definition htmlScanners : Scanners := λ doc,
  Fulfilled
    (if decide (pd_url doc = "index.html") then
       [ScannedElement "x-app";
        ScannedInlineDocument "js" "f()" (mkLocationOffset 3 0 None)
          (Some "the script") 1 None;
        ScannedInlineDocument "js" "var" (mkLocationOffset 5 0 None) None 2 None;
        ScannedImport "html-import" "./lib.html" None None]
     else if decide (pd_url doc = "widget.html") then
       [ScannedInlineDocument "coffee" "x = 1" (mkLocationOffset 1 0 None)
          None 1 None]
     else []).

(** URLs are resolved by dropping a leading [./]. *)
Definition resolver : UrlResolver.UrlResolver :=
  UrlResolver.mkUrlResolver (λ url, String.prefix "./" url)
    (λ url, substring1 (substring1 url)).

Definition loader : UrlLoader.UrlLoader :=
  UrlLoader.mkUrlLoader (λ _, true)
    (λ url, Fulfilled (if decide (url = "broken.js") then "var" else "<html>"))
    (Some (λ _ _, Fulfilled ["index.html"; "lib.html"; "broken.js"; "data.json";
                             "notes.txt"; "bower_components/dep.html"])).

Definition context : Context :=
  mkContext {["html" := parser "html"; "js" := parser "js";
              "json" := parser "json"]}
    {["html" := htmlScanners]} loader (Some resolver)
    (λ h ref, from_option features [] (h !! ref))
    (λ description _, description)
    (λ _ s, s)
    Site.extname
    (λ f, if String.prefix "bower_components/" f then "bower_components"
          else ".").

(** The state after [analyze('./index.html')]. *)
Definition analysed : State :=
  (default (Pending, initial) (analyze context 6 "./index.html" Undefined initial)).2.

(** [index.html] as parsed, and the state after its scan on its own. *)
Definition index : ParsedDocument :=
  mkParsedDocument "index.html" "html" "<html>" false.

Definition scannedIndex : State :=
  (default (Pending, initial) (_scanDocument context 2 index None initial)).2.

(** [widget.html] as parsed, and the state after its scan. *)
Definition widget : ParsedDocument :=
  mkParsedDocument "widget.html" "html" "<html>" false.

Definition scannedWidget : State :=
  (default (Pending, initial) (_scanDocument context 2 widget None initial)).2.

(** The states after [analyze('data.json')] on top of [analysed], and
    after [analyzePackage()]. *)
Definition analysedMore : State :=
  (default (Pending, initial) (analyze context 6 "data.json" Undefined analysed)).2.

Definition packaged : State :=
  (default (Pending, initial) (analyzePackage context 6 initial)).2.

(** The state after [analyze('./index.html', '<html>')]. *)
Definition provided : State :=
  (default (Pending, initial)
     (analyze context 6 "./index.html" (Str "<html>") initial)).2.

(** Successors recorded for [A] only. *)
Definition halfRecorded : gmap string (Deferred (list string)) :=
  {[ "A" := Completed ["B"] ]}.

End Page.

(** ** Comments that declare pseudo-elements *)

Module Comments.
Import Js PseudoElementScanner.

Definition isCommentNode (node : ASTNode) : bool :=
  bool_decide (nodeName node = "#comment").

(** A reader of jsdoc that knows the one tag of these comments. *)
Definition getTag (text tagName key : string) : option string :=
  if includes "@pseudoElement x-tab" text then Some "x-tab" else None.

Definition nodes : list ASTNode :=
  [mkASTNode "div" None;
   mkASTNode "#comment" (Some "A tab. @pseudoElement x-tab");
   mkASTNode "#comment" (Some "@pseudoElement");
   mkASTNode "#text" (Some "@pseudoElement x-tab")].

Definition scan (visit : Visit)
  : Completion (list (ScannedPolymerElement string unit)) :=
  PseudoElementScanner.scan isCommentNode (λ text, text) (λ text, Some text)
    (λ _, []) getTag (λ _, None) (λ e, e) visit.

End Comments.

(** ** Documents without imports to follow *)

Module Leaf.
Import Warnings Js Utils Model AnalysisCache AnalyzerCacheContext.

(** A feature that is neither an inline document nor an import to follow. *)
Definition leaf (f : ScannedFeature) : bool :=
  match f with
  | ScannedInlineDocument _ _ _ _ _ _ => false
  | _ => negb (isNonLazyImport f)
  end.

(** Nothing is known of a URL: it has no promise in any of the four
    caches, no document, and no successors recorded. *)
Definition unseen (resolvedUrl : string) (s : State) : Prop :=
  AsyncWorkCache._keyToResultMap (parsedDocumentPromises (cache s))
    !! resolvedUrl = None ∧
  AsyncWorkCache._keyToResultMap (scannedDocumentPromises (cache s))
    !! resolvedUrl = None ∧
  AsyncWorkCache._keyToResultMap (dependenciesScannedPromises (cache s))
    !! resolvedUrl = None ∧
  AsyncWorkCache._keyToResultMap (analyzedDocumentPromises (cache s))
    !! resolvedUrl = None ∧
  scannedDocuments (cache s) !! resolvedUrl = None ∧
  analyzedDocuments (cache s) !! resolvedUrl = None ∧
  (dependencyGraph (cache s) !! resolvedUrl = None ∨
   dependencyGraph (cache s) !! resolvedUrl = Some Empty).

End Leaf.

(** ** A document with a lazy import *)

Module Card.
Import Warnings Js Utils Model AnalysisCache AnalyzerCacheContext.

Definition scannedFeatures : list ScannedFeature :=
  [ScannedElement "x-card";
   ScannedImport "lazy-html-import" "later.html" None None;
   OtherFeature "style"].

Definition context : Context :=
  mkContext {["html" := Site.htmlParser]} {["html" := λ _, Fulfilled scannedFeatures]}
    Site.loader None
    (λ h ref, from_option features [] (h !! ref))
    (λ description _, description)
    (λ _ s, s)
    Site.extname
    (λ _, ".").

Definition card : ParsedDocument :=
  mkParsedDocument "card.html" "html" "<html>" false.

End Card.

(** ** The batch of a package scan *)

Module Batch.
Import Warnings Js Utils Model AnalysisCache AnalyzerCacheContext.

(** [Promise.all(promises)], by how the promises stand once nothing is
    left to run: fulfilled with the values of all, in their order, when
    all are fulfilled; rejected when one is rejected; pending otherwise. *)
Fixpoint promiseAll {A : Type} (promises : list (Completion A))
  : Completion (list A) :=
  match promises with
  | [] => Fulfilled []
  | r :: rest =>
      match r, promiseAll rest with
      | Fulfilled x, Fulfilled xs => Fulfilled (x :: xs)
      | Rejected e, _ => Rejected e
      | _, Rejected e => Rejected e
      | _, _ => Pending
      end
  end.

(** [files.map(f => this._analyzeOrWarning(f))]: the analyses of the
    files, started one after the other, each from the state the one
    before it has left. *)
Fixpoint analyzeEach (this : Context) (fuel : nat) (files : list string)
    (s : State) : option (list (Completion DocumentOrWarning) * State) :=
  match files with
  | [] => Some ([], s)
  | f :: rest =>
      '(r, s) ← _analyzeOrWarning this fuel f s;
      '(rs, s) ← analyzeEach this fuel rest s;
      Some (r :: rs, s)
  end.

End Batch.

(** ** The promises of a cache, from one state to a later one *)

Module Older.
Import Warnings Js Utils Model AnalysisCache AnalyzerCacheContext.

(** From [c] to [c'], the promises [c] has are still there and stand as
    they stood: what has been added are later promises. *)
Definition olderKept {V : Type} (c c' : AsyncWorkCache.AsyncWorkCache V) : Prop :=
  length (AsyncWorkCache.calls c) ≤ length (AsyncWorkCache.calls c') ∧
  (∀ key p, AsyncWorkCache._keyToResultMap c !! key = Some p →
            AsyncWorkCache._keyToResultMap c' !! key = Some p) ∧
  (∀ p, p < length (AsyncWorkCache.calls c) →
        AsyncWorkCache.settled c' !! p = AsyncWorkCache.settled c !! p).

(** The promise of [key] is [p], one of the promises made so far, and it
    stands at [x]. *)
Definition held {V : Type} (slot : Slot V) (key : string) (p : nat)
    (x : Completion V) (s : State) : Prop :=
  registered slot key p s ∧
  AsyncWorkCache.observe p (get slot (cache s)) = x ∧
  p < length (AsyncWorkCache.calls (get slot (cache s))).

(** A step that keeps the promises of the parses and the scanned
    documents there are. *)
Definition parsesAndScansKept (s s' : State) : Prop :=
  olderKept (parsedDocumentPromises (cache s)) (parsedDocumentPromises (cache s')) ∧
  Kept.scannedKept s s'.

(** A step that keeps the promises of the scans, and the coherence of the
    promises of the transitive scans. *)
Definition scansOlderKept (s s' : State) : Prop :=
  olderKept (scannedDocumentPromises (cache s)) (scannedDocumentPromises (cache s')) ∧
  olderKept (dependenciesScannedPromises (cache s))
    (dependenciesScannedPromises (cache s')) ∧
  (AsyncWorkCache.consistent (dependenciesScannedPromises (cache s)) →
   AsyncWorkCache.consistent (dependenciesScannedPromises (cache s'))).

(** Resolving a document leaves the scanned documents and the promises of
    the parses alone, and keeps the promises of the analyses there are. *)
Definition resolvesOnTop (this : Context) : Prop :=
  ∀ document s,
    heap (resolveDocument this document s) = heap s ∧
    scannedDocuments (cache (resolveDocument this document s))
    = scannedDocuments (cache s) ∧
    parsedDocumentPromises (cache (resolveDocument this document s))
    = parsedDocumentPromises (cache s) ∧
    olderKept (analyzedDocumentPromises (cache s))
      (analyzedDocumentPromises (cache (resolveDocument this document s))).

(** No request for [resolvedUrl] has been made of any of the four caches
    of promises. *)
Definition unrequested (resolvedUrl : string) (s : State) : Prop :=
  AsyncWorkCache._keyToResultMap (parsedDocumentPromises (cache s))
    !! resolvedUrl = None ∧
  AsyncWorkCache._keyToResultMap (scannedDocumentPromises (cache s))
    !! resolvedUrl = None ∧
  AsyncWorkCache._keyToResultMap (dependenciesScannedPromises (cache s))
    !! resolvedUrl = None ∧
  AsyncWorkCache._keyToResultMap (analyzedDocumentPromises (cache s))
    !! resolvedUrl = None.

End Older.

(** * Properties *)

(** ** The cyclic transitive join *)

Section JoinFacts.
Import Utils AsyncCyclicTransitivePromiseAll.
Context {Key : Type} `{Countable Key}.
Implicit Types (ds : gmap Key (Deferred (list Key))) (w : Walk (Key:=Key)).
Implicit Types (key k : Key) (deps : list Key).

Lemma _getDeferredFor_recorded ds key deps :
  recorded ds key deps → _getDeferredFor key ds = (Completed deps, ds).
Proof.
  unfold recorded, _getDeferredFor. intros Hk. rewrite Hk. simpl.
  by rewrite insert_id.
Qed.

Lemma _getDeferredFor_fresh ds key :
  ds !! key = None → _getDeferredFor key ds = (Empty, <[key := Empty]> ds).
Proof. unfold _getDeferredFor. by intros ->. Qed.

Lemma recorded_functional ds key deps deps' :
  recorded ds key deps → recorded ds key deps' → deps = deps'.
Proof. unfold recorded. congruence. Qed.

Lemma extends_refl ds R w : deferreds w = ds → extends ds R w w.
Proof.
  intros Hds. split; [done|]. split; [done|]. exists [].
  rewrite app_nil_r. split; [done|]. split; [constructor|].
  split; [|split]; intros k; rewrite ?elem_of_nil; try tauto.
  intros ? []%elem_of_nil.
Qed.

Lemma extends_trans ds (R : Key → Prop) w1 w2 w3 :
  extends ds R w1 w2 → extends ds R w2 w3 → extends ds R w1 w3.
Proof.
  intros (_ & Hsub1 & new1 & Hd1 & Hnd1 & Hin1 & HR1 & Hcl1)
         (Hds & Hsub2 & new2 & Hd2 & Hnd2 & Hin2 & HR2 & Hcl2).
  split; [done|]. split; [set_solver|].
  exists (new1 ++ new2). split; [by rewrite Hd2, Hd1, app_assoc|].
  split.
  { apply NoDup_app. split; [done|]. split; [|done].
    intros k Hk1 Hk2. apply Hin1 in Hk1. apply Hin2 in Hk2. tauto. }
  split.
  { intros k. rewrite elem_of_app, Hin1, Hin2.
    destruct (decide (k ∈ visited w2)); set_solver. }
  split.
  { intros k [?|?]%elem_of_app; eauto. }
  intros k k' [Hk|Hk]%elem_of_app He; [|by eauto].
  apply Hsub2. eauto.
Qed.

Lemma extends_weaken ds (R R' : Key → Prop) w w' :
  (∀ k, R k → R' k) → extends ds R w w' → extends ds R' w w'.
Proof.
  intros HRR (Hds & Hsub & new & Hd & Hnd & Hin & HR & Hcl).
  split; [done|]. split; [done|]. exists new. eauto 10.
Qed.

Lemma unvisited_shrinks ds (V V' : gset Key) :
  V ⊆ V' → size (dom ds ∖ V') ≤ size (dom ds ∖ V).
Proof. intros HV. apply subseteq_size. set_solver. Qed.

Lemma unvisited_descend ds (V : gset Key) key :
  key ∈ dom ds → key ∉ V →
  size (dom ds ∖ ({[key]} ∪ V)) < size (dom ds ∖ V).
Proof.
  intros Hd HV. apply subset_size. apply strict_spec_alt.
  split; [set_solver|]. intros Heq.
  assert (key ∈ dom ds ∖ V) as Hk by set_solver.
  rewrite <- Heq in Hk. set_solver.
Qed.

(** The loop over the successors, given the specification of the call it
    makes for each of them. *)
Lemma forEach_returns ds (f : Key → Walk → Outcome * Walk) n deps :
  (∀ key w, key ∈ deps → deferreds w = ds → size (dom ds ∖ visited w) < n →
     ∃ w', f key w = (Returned, w') ∧ key ∈ visited w' ∧
           extends ds (reachable ds key) w w') →
  ∀ w, deferreds w = ds → size (dom ds ∖ visited w) < n →
    ∃ w', forEach f deps w = (Returned, w') ∧
          (∀ dep, dep ∈ deps → dep ∈ visited w') ∧
          extends ds (λ k, ∃ dep, dep ∈ deps ∧ reachable ds dep k) w w'.
Proof.
  induction deps as [|dep deps IH]; intros Hf w Hds Hsz; simpl.
  - exists w. split; [done|]. split; [by intros ? ?%elem_of_nil|].
    by apply extends_refl.
  - destruct (Hf dep w) as (w1 & -> & Hdep & Hext1); [set_solver|done|done|].
    destruct (IH (λ key w Hk, Hf key w (list_elem_of_further _ _ _ Hk)) w1)
      as (w2 & -> & Hdeps & Hext2).
    { apply Hext1. }
    { eapply Nat.le_lt_trans; [|exact Hsz].
      apply unvisited_shrinks, Hext1. }
    exists w2. split; [done|]. split.
    + intros d [->|Hd]%elem_of_cons; [|by auto].
      destruct Hext2 as (_ & Hsub & _). by apply Hsub.
    + eapply extends_trans.
      * eapply extends_weaken; [|exact Hext1].
        intros k Hk. exists dep. split; [set_solver|done].
      * eapply extends_weaken; [|exact Hext2].
        intros k (d & Hd & Hk). exists d. split; [set_solver|done].
Qed.

(** A descent returns when every key it can reach has its successors
    recorded, and [fuel] exceeds the number of recorded keys not yet
    visited. *)
Lemma _transitiveAwait_returns ds fuel : ∀ key w,
  (∀ k, reachable ds key k → ∃ deps, recorded ds k deps) →
  deferreds w = ds → size (dom ds ∖ visited w) < fuel →
  ∃ w', _transitiveAwait fuel key w = (Returned, w') ∧ key ∈ visited w' ∧
        extends ds (reachable ds key) w w'.
Proof.
  induction fuel as [|fuel IH]; intros key w Hrec Hds Hsz; [lia|].
  cbn [_transitiveAwait]. destruct (decide (key ∈ visited w)) as [Hv|Hv].
  { exists w. split; [done|]. split; [done|]. by apply extends_refl. }
  destruct (Hrec key) as [deps Hdeps]; [done|].
  rewrite Hds, (_getDeferredFor_recorded _ _ _ Hdeps). cbn [promise].
  set (w1 := mkWalk ds ({[key]} ∪ visited w) (descents w ++ [key])).
  assert (size (dom ds ∖ visited w1) < fuel) as Hsz1.
  { assert (key ∈ dom ds) as Hdom by (apply elem_of_dom; by eexists).
    pose proof (unvisited_descend ds (visited w) key Hdom Hv) as Hlt.
    simpl. lia. }
  destruct (forEach_returns ds (_transitiveAwait fuel) fuel deps) with (w := w1)
    as (w' & Hrun & Hall & Hde & Hsub & new & Hd & Hnd & Hin & HR & Hcl);
    [|done|done|].
  { intros dep w0 Hdep Hds0 Hsz0. apply IH; [|done|done].
    intros k Hk. apply Hrec. eapply rtc_l; [|exact Hk]. by exists deps. }
  exists w'. split; [done|]. simpl in Hsub, Hd, Hin.
  split; [set_solver|].
  split; [done|]. split; [set_solver|].
  exists (key :: new). split; [by rewrite Hd, <- app_assoc|].
  split.
  { constructor; [|done]. rewrite Hin. set_solver. }
  split.
  { intros k. rewrite elem_of_cons, Hin.
    destruct (decide (k = key)) as [->|]; set_solver. }
  split.
  { intros k [->|Hk]%elem_of_cons; [done|].
    destruct (HR k Hk) as (dep & Hdep & Hreach).
    eapply rtc_l; [|exact Hreach]. by exists deps. }
  intros k k' [->|Hk]%elem_of_cons He; [|by eauto].
  destruct He as (deps' & Hdeps' & Hk').
  rewrite <- (recorded_functional _ _ _ _ Hdeps Hdeps') in Hk'. by apply Hall.
Qed.

(** C1. Whatever relation has been recorded, cyclic or not, a top-level
    [promiseAllTransitive(key)] returns as soon as every key reachable from
    [key] has its successors recorded: any recursion budget above the
    number of keys of the map is enough.  The call leaves the map as it
    was, and it descends into each reachable key exactly once and into no
    other key. *)
Theorem promiseAllTransitive_returns ds key fuel :
  (∀ k, reachable ds key k → ∃ deps, recorded ds k deps) →
  size ds < fuel →
  ∃ w', promiseAllTransitive fuel key ds = (Returned, w') ∧
        deferreds w' = ds ∧
        NoDup (descents w') ∧
        (∀ k, k ∈ descents w' ↔ reachable ds key k).
Proof.
  intros Hrec Hfuel. unfold promiseAllTransitive.
  destruct (_transitiveAwait_returns ds fuel key (mkWalk ds ∅ []))
    as (w' & Hrun & Hkey & Hds & _ & new & Hd & Hnd & Hin & HR & Hcl);
    [done|done|..].
  { simpl. rewrite difference_empty_L, size_dom. done. }
  exists w'. simpl in Hd, Hin. subst new.
  split; [done|]. split; [done|]. split; [done|].
  intros k. split; [by apply HR|].
  intros Hreach. apply Hin. split; [|set_solver].
  revert k Hreach. apply (rtc_ind_r (λ k, k ∈ visited w')); [done|].
  intros a b _ Hab IHr.
  apply (Hcl a b); [|done]. apply Hin. set_solver.
Qed.

(** With a budget above the number of cells of the map, a descent either
    returns, leaving the map as it was, or is suspended at an empty cell:
    it never runs out of budget.  No assumption on the map is needed. *)
Lemma forEach_settles ds (f : Key → Walk → Outcome * Walk) n deps :
  (∀ key w, deferreds w = ds → size (dom ds ∖ visited w) < n →
     (∃ w', f key w = (Returned, w') ∧ deferreds w' = ds ∧
            visited w ⊆ visited w') ∨
     (∃ k w', f key w = (Suspended k, w'))) →
  ∀ w, deferreds w = ds → size (dom ds ∖ visited w) < n →
    (∃ w', forEach f deps w = (Returned, w') ∧ deferreds w' = ds ∧
           visited w ⊆ visited w') ∨
    (∃ k w', forEach f deps w = (Suspended k, w')).
Proof.
  intros Hf. induction deps as [|dep deps IH]; intros w Hds Hsz; simpl.
  - left. by exists w.
  - destruct (Hf dep w Hds Hsz) as [(w1 & -> & Hds1 & Hsub1)|(k & w1 & ->)].
    + destruct (IH w1 Hds1) as [(w2 & -> & Hds2 & Hsub2)|(k & w2 & ->)].
      * eapply Nat.le_lt_trans; [|exact Hsz]. by apply unvisited_shrinks.
      * left. exists w2. split; [done|]. split; [done|set_solver].
      * right. by exists k, w2.
    + right. by exists k, w1.
Qed.

Lemma _transitiveAwait_settles ds fuel : ∀ key w,
  deferreds w = ds → size (dom ds ∖ visited w) < fuel →
  (∃ w', _transitiveAwait fuel key w = (Returned, w') ∧ deferreds w' = ds ∧
         visited w ⊆ visited w') ∨
  (∃ k w', _transitiveAwait fuel key w = (Suspended k, w')).
Proof.
  induction fuel as [|fuel IH]; intros key w Hds Hsz; [lia|].
  cbn [_transitiveAwait]. destruct (decide (key ∈ visited w)) as [Hv|Hv].
  { left. by exists w. }
  rewrite Hds. destruct (ds !! key) as [[|deps]|] eqn:Hkey.
  - right. unfold _getDeferredFor. rewrite Hkey. simpl. by eexists _, _.
  - rewrite (_getDeferredFor_recorded _ _ _ Hkey). cbn [promise].
    set (w1 := mkWalk ds ({[key]} ∪ visited w) (descents w ++ [key])).
    destruct (forEach_settles ds (_transitiveAwait fuel) fuel deps IH w1)
      as [(w' & -> & Hds' & Hsub)|(k & w' & ->)]; [done| | |].
    + assert (key ∈ dom ds) as Hdom by (apply elem_of_dom; by eexists).
      pose proof (unvisited_descend ds (visited w) key Hdom Hv). simpl. lia.
    + left. exists w'. split; [done|]. split; [done|]. simpl in Hsub. set_solver.
    + right. by exists k, w'.
  - right. rewrite (_getDeferredFor_fresh _ _ Hkey). simpl. by eexists _, _.
Qed.

Lemma promiseAllTransitive_settles ds key fuel :
  size ds < fuel → (promiseAllTransitive fuel key ds).1 ≠ OutOfFuel.
Proof.
  intros Hfuel. unfold promiseAllTransitive.
  destruct (_transitiveAwait_settles ds fuel key (mkWalk ds ∅ []))
    as [(w' & -> & _)|(k & w' & ->)]; [done| |done|done].
  simpl. by rewrite difference_empty_L, size_dom.
Qed.

Lemma closes_trans ds w1 w2 w3 : closes ds w1 w2 → closes ds w2 w3 → closes ds w1 w3.
Proof.
  intros (_ & Hsub1 & Hcl1) (Hds & Hsub2 & Hcl2).
  split; [done|]. split; [set_solver|].
  intros k Hk3 Hk1. destruct (decide (k ∈ visited w2)) as [Hk2|Hk2].
  - destruct (Hcl1 k Hk2 Hk1) as (deps & Hdeps & Hin).
    exists deps. split; [done|]. intros k' Hk'. apply Hsub2. by apply Hin.
  - by apply Hcl2.
Qed.

(** Conversely, a descent that returns has found the successors of every
    key it visited recorded, and has visited all of them. *)
Lemma forEach_returned ds (f : Key → Walk → Outcome * Walk) deps :
  (∀ key w w', f key w = (Returned, w') → deferreds w = ds →
     key ∈ visited w' ∧ closes ds w w') →
  ∀ w w', forEach f deps w = (Returned, w') → deferreds w = ds →
    (∀ dep, dep ∈ deps → dep ∈ visited w') ∧ closes ds w w'.
Proof.
  intros Hf. induction deps as [|dep deps IH]; intros w w'; simpl.
  - intros [= <-] Hds. split; [by intros ? ?%elem_of_nil|].
    split; [done|]. split; [done|]. by intros k ? ?.
  - destruct (f dep w) as [[] w1] eqn:Hdep; try done.
    intros Hrest Hds.
    destruct (Hf dep w w1 Hdep Hds) as [Hin1 Hcl1].
    destruct (IH w1 w' Hrest) as [Hin2 Hcl2]; [apply Hcl1|].
    split; [|by eapply closes_trans].
    intros d [->|Hd]%elem_of_cons; [|by auto].
    destruct Hcl2 as (_ & Hsub & _). by apply Hsub.
Qed.

Lemma _transitiveAwait_returned ds fuel : ∀ key w w',
  _transitiveAwait fuel key w = (Returned, w') → deferreds w = ds →
  key ∈ visited w' ∧ closes ds w w'.
Proof.
  induction fuel as [|fuel IH]; intros key w w'; [done|].
  cbn [_transitiveAwait]. destruct (decide (key ∈ visited w)) as [Hv|Hv].
  { intros [= <-] Hds. split; [done|]. split; [done|]. split; [done|].
    by intros k ? ?. }
  intros Hrun Hds. rewrite Hds in Hrun.
  destruct (ds !! key) as [[|deps]|] eqn:Hkey.
  - unfold _getDeferredFor in Hrun. by rewrite Hkey in Hrun.
  - rewrite (_getDeferredFor_recorded _ _ _ Hkey) in Hrun. cbn [promise] in Hrun.
    destruct (forEach_returned ds (_transitiveAwait fuel) deps IH _ _ Hrun eq_refl)
      as [Hall (Hds' & Hsub & Hcl)].
    simpl in Hsub, Hcl. split; [set_solver|].
    split; [done|]. split; [set_solver|].
    intros k Hk Hk0. destruct (decide (k = key)) as [->|Hne].
    + exists deps. split; [done|]. exact Hall.
    + apply Hcl; [done|]. set_solver.
  - by rewrite (_getDeferredFor_fresh _ _ Hkey) in Hrun.
Qed.

Lemma promiseAllTransitive_returned ds key fuel w' :
  promiseAllTransitive fuel key ds = (Returned, w') →
  ∀ k, reachable ds key k → ∃ deps, recorded ds k deps.
Proof.
  intros Hrun.
  destruct (_transitiveAwait_returned ds fuel key _ w' Hrun eq_refl)
    as [Hkey (_ & _ & Hcl)].
  simpl in Hcl.
  assert (∀ k, reachable ds key k → k ∈ visited w') as Hall.
  { apply (rtc_ind_r (λ k, k ∈ visited w')); [done|].
    intros a b _ (deps & Hdeps & Hb) Ha.
    destruct (Hcl a Ha) as (deps' & Hdeps' & Hin); [set_solver|].
    rewrite (recorded_functional _ _ _ _ Hdeps Hdeps') in Hb. by apply Hin. }
  intros k Hk. destruct (Hcl k (Hall k Hk)) as (deps & Hdeps & _); [set_solver|].
  by exists deps.
Qed.
End JoinFacts.

Section ResolveFacts.
Import Utils AsyncCyclicTransitivePromiseAll.
Context {Key : Type} `{Countable Key}.
Implicit Types (ds : gmap Key (Deferred (list Key))).

Lemma resolve_completes ds key deps :
  ∃ value, (resolve key deps ds).2 !! key = Some (Completed value).
Proof.
  unfold resolve, _getDeferredFor.
  destruct (ds !! key) as [[|value]|] eqn:Hk; simpl.
  - exists deps. by rewrite lookup_insert_eq.
  - exists value. by rewrite lookup_insert_eq.
  - exists deps. by rewrite lookup_insert_eq.
Qed.

Lemma resolve_completed ds key deps value :
  ds !! key = Some (Completed value) →
  resolve key deps ds = (inl AlreadyResolved, ds).
Proof.
  intros Hk. unfold resolve, _getDeferredFor. rewrite Hk. simpl.
  by rewrite insert_id.
Qed.

(** C5. Whatever the first call of [resolve] for a key did, a second call
    for the same key fails on the check of the cell, with whatever
    successors it is given, and leaves the map as the first call left
    it: successors are recorded at most once per key and instance. *)
Theorem resolve_twice_fails ds key deps deps' :
  resolve key deps' (resolve key deps ds).2
  = (inl AlreadyResolved, (resolve key deps ds).2).
Proof.
  destruct (resolve_completes ds key deps) as [value Hvalue].
  by apply resolve_completed with value.
Qed.

(** The first call for a fresh key succeeds and records its successors,
    so the failure above is that of the second call only. *)
Lemma resolve_first_succeeds ds key deps :
  ds !! key = None ∨ ds !! key = Some Empty →
  (resolve key deps ds).1 = inr tt ∧ recorded (resolve key deps ds).2 key deps.
Proof.
  unfold recorded, resolve, _getDeferredFor.
  intros [Hk|Hk]; rewrite Hk; simpl; by rewrite lookup_insert_eq.
Qed.

End ResolveFacts.

(** ** The keyed memoization cache *)

Section WorkCacheFacts.
Import Js AsyncWorkCache.
Context {V : Type}.
Implicit Types (c : AsyncWorkCache V) (key : string) (p : nat).

Lemma consistent_empty : consistent (V:=V) empty.
Proof. intros key p. simpl. by rewrite lookup_empty, lookup_nil. Qed.

Lemma getOrCompute_present c key p :
  _keyToResultMap c !! key = Some p → getOrCompute key c = (p, false, c).
Proof. unfold getOrCompute. by intros ->. Qed.

Lemma getOrCompute_registers c key :
  _keyToResultMap (getOrCompute key c).2 !! key = Some (getOrCompute key c).1.1.
Proof.
  unfold getOrCompute. destruct (_keyToResultMap c !! key) eqn:Hk; simpl; [done|].
  by rewrite lookup_insert_eq.
Qed.

Lemma consistent_getOrCompute c key :
  consistent c → consistent (getOrCompute key c).2.
Proof.
  intros Hc. unfold getOrCompute.
  destruct (_keyToResultMap c !! key) as [p|] eqn:Hk; simpl; [done|].
  intros key' p'. simpl. destruct (decide (key' = key)) as [->|Hne].
  - rewrite lookup_insert_eq. split.
    + intros [= <-]. by rewrite lookup_app_r, Nat.sub_diag.
    + intros Hp'. destruct (decide (p' < length (calls c))) as [Hlt|Hge].
      * rewrite lookup_app_l in Hp' by done. apply Hc in Hp'. congruence.
      * rewrite lookup_app_r in Hp' by lia.
        apply list_lookup_singleton_Some in Hp' as [? _]. f_equal. lia.
  - rewrite lookup_insert_ne by done. split.
    + intros Hp'%Hc. rewrite lookup_app_l; [done|]. by eapply lookup_lt_Some.
    + intros Hp'. apply Hc.
      destruct (decide (p' < length (calls c))) as [Hlt|Hge].
      * by rewrite lookup_app_l in Hp'.
      * rewrite lookup_app_r in Hp' by lia.
        apply list_lookup_singleton_Some in Hp' as [_ ?]. congruence.
Qed.

Lemma settle_keeps c p r :
  _keyToResultMap (settle p r c) = _keyToResultMap c ∧
  calls (settle p r c) = calls c.
Proof. unfold settle. by destruct r, (settled c !! p). Qed.

Lemma consistent_step c (ev : Event V) : consistent c → consistent (step c ev).
Proof.
  intros Hc. destruct ev as [key|p r]; simpl.
  - by apply consistent_getOrCompute.
  - intros key p'. destruct (settle_keeps c p r) as [-> ->]. apply Hc.
Qed.

Lemma consistent_run (evs : list (Event V)) c :
  consistent c → consistent (run evs c).
Proof.
  revert c. induction evs as [|ev evs IH]; intros c Hc; simpl; [done|].
  by apply IH, consistent_step.
Qed.

Lemma step_keeps_key c (ev : Event V) key p :
  _keyToResultMap c !! key = Some p → _keyToResultMap (step c ev) !! key = Some p.
Proof.
  intros Hk. destruct ev as [key'|p' r]; simpl.
  - unfold getOrCompute. destruct (_keyToResultMap c !! key') eqn:Hk'; simpl; [done|].
    rewrite lookup_insert_ne; [done|congruence].
  - by destruct (settle_keeps c p' r) as [-> _].
Qed.

Lemma run_keeps_key (evs : list (Event V)) c key p :
  _keyToResultMap c !! key = Some p → _keyToResultMap (run evs c) !! key = Some p.
Proof.
  revert c. induction evs as [|ev evs IH]; intros c Hk; simpl; [done|].
  by apply IH, step_keeps_key.
Qed.

(** The positions of [key] in a list. *)
Lemma filter_eq_length_le_1 (l : list string) key :
  (∀ i j, l !! i = Some key → l !! j = Some key → i = j) →
  length (filter (λ k, k = key) l) ≤ 1.
Proof.
  induction l as [|k l IH]; intros Huniq; simpl; [lia|].
  rewrite filter_cons. destruct (decide (k = key)) as [->|Hne].
  - simpl. destruct (filter (λ k, k = key) l) as [|k l'] eqn:Hf; [simpl; lia|].
    assert (k ∈ filter (λ k, k = key) l) as Hk by (rewrite Hf; left).
    apply list_elem_of_filter in Hk as [-> Hk].
    apply list_elem_of_lookup in Hk as [j Hj].
    specialize (Huniq 0 (S j) eq_refl Hj). lia.
  - apply IH. intros i j Hi Hj.
    specialize (Huniq (S i) (S j) Hi Hj). lia.
Qed.

Lemma invocations_le_1 c key : consistent c → invocations key c ≤ 1.
Proof.
  intros Hc. apply filter_eq_length_le_1. intros i j Hi Hj.
  apply Hc in Hi, Hj. congruence.
Qed.

Lemma invocations_present c key p :
  consistent c → _keyToResultMap c !! key = Some p → invocations key c = 1.
Proof.
  intros Hc Hk. pose proof (invocations_le_1 c key Hc) as Hle.
  apply Hc in Hk. apply list_elem_of_lookup_2 in Hk.
  assert (key ∈ filter (λ k, k = key) (calls c)) as Hin
    by (by apply list_elem_of_filter).
  unfold invocations in *. destruct (filter _ (calls c)); simpl in *; [|lia].
  by apply elem_of_nil in Hin.
Qed.

(** C2. In a cache that started empty and has seen any requests and
    settlements, the computation function has run at most once for any
    key.  Two requests for the same key, whatever came before them, hand
    out the same promise; the second invokes nothing and leaves the cache
    as the first left it; and whatever happens afterwards, the
    computation has run exactly once for the key and both requesters
    observe the same completion. *)
Theorem getOrCompute_once (before later : list (Event V)) key :
  let c := run before empty in
  let r1 := getOrCompute key c in
  let r2 := getOrCompute key r1.2 in
  let c' := run later r2.2 in
  invocations key c ≤ 1 ∧
  r2.1.1 = r1.1.1 ∧ r2.1.2 = false ∧ r2.2 = r1.2 ∧
  invocations key r2.2 = 1 ∧ invocations key c' = 1 ∧
  observe r2.1.1 c' = observe r1.1.1 c'.
Proof.
  intros c r1 r2 c'.
  assert (consistent c) as Hc by apply consistent_run, consistent_empty.
  assert (consistent r1.2) as Hc1 by by apply consistent_getOrCompute.
  pose proof (getOrCompute_registers c key) as Hreg. fold r1 in Hreg.
  assert (r2 = (r1.1.1, false, r1.2)) as Hr2
    by (by apply getOrCompute_present).
  subst c'. rewrite Hr2. simpl.
  split; [by apply invocations_le_1|]. do 3 (split; [done|]).
  split; [by eapply invocations_present|]. split; [|done].
  eapply invocations_present.
  - by apply consistent_run.
  - by apply run_keeps_key.
Qed.

End WorkCacheFacts.

(** ** Loading *)

Section LoadFacts.
Import Js AnalyzerCacheContext.
Implicit Types (this : Context) (s : State).

Lemma load_null this resolvedUrl providedContents s :
  UrlLoader.canLoad (_loader this) resolvedUrl = true →
  looselyNull providedContents = true →
  load this resolvedUrl providedContents s
  = (UrlLoader.load (_loader this) resolvedUrl, logLoad resolvedUrl s).
Proof.
  intros Hcan Hnull. unfold load. rewrite Hcan. simpl.
  by destruct providedContents.
Qed.

(** C10. [load] checks [canLoad] first: when the loader cannot load the
    URL the call is rejected with the "Can't load URL" error whatever
    contents are provided, and the loader's [load] is not called.  When
    the loader can load the URL and contents are provided (neither
    [null] nor [undefined]), these contents are the result, and the
    loader's [load] is not called either: the state, with its log of
    loader calls, is as before. *)
Theorem load_guard this resolvedUrl providedContents s :
  (UrlLoader.canLoad (_loader this) resolvedUrl = false →
     load this resolvedUrl providedContents s
     = (Rejected (newError ("Can't load URL: " ++ resolvedUrl)), s)) ∧
  (UrlLoader.canLoad (_loader this) resolvedUrl = true →
   looselyNull providedContents = false →
     ∃ contents, providedContents = Str contents ∧
       load this resolvedUrl providedContents s = (Fulfilled contents, s)).
Proof.
  unfold load. split.
  - by intros ->.
  - intros -> Hnull. destruct providedContents as [| |contents]; try done.
    by exists contents.
Qed.

End LoadFacts.

(** ** Forking *)

Section ForkFacts.
Import AnalysisCache Fork.
Implicit Types (this : AnalyzerCacheContext) (h : Store).

Lemma alloc_fresh o h : h !! (alloc o h).1 = None.
Proof. simpl. by apply lookup_ge_None_2. Qed.

Lemma alloc_new o h : (alloc o h).2 !! (alloc o h).1 = Some o.
Proof. unfold alloc. simpl. by apply list_lookup_middle. Qed.

Lemma alloc_keeps o h l o' : h !! l = Some o' → (alloc o h).2 !! l = Some o'.
Proof. intros Hl. simpl. by apply lookup_app_l_Some. Qed.

(** Constructing a context only adds objects to the store, and takes the
    configuration it is given. *)
Lemma construct_spec options h copy h' :
  construct options h = (copy, h') →
  (∀ l o, h !! l = Some o → h' !! l = Some o) ∧
  _loader copy = urlLoader options ∧
  _resolver copy = urlResolver options ∧
  _lazyEdges copy = lazyEdges options ∧
  (∀ given, parsers options = Some given → _parsers copy = given) ∧
  (∀ given, scanners options = Some given → _scanners copy = given).
Proof.
  unfold construct, alloc.
  destruct (scanners options) as [given|] eqn:Hs; intros [= <- <-]; simpl.
  - split; [|split; [done|split; [done|split; [done|split]]]].
    + intros l o Hl. by do 3 apply lookup_app_l_Some.
    + by intros ? ->.
    + by intros ? [= ->].
  - split; [|split; [done|split; [done|split; [done|split]]]].
    + intros l o Hl. by do 4 apply lookup_app_l_Some.
    + by intros ? ->.
    + done.
Qed.

Lemma _fork_spec this newCache h this' h' :
  _fork this newCache h = (this', h') →
  _cache this' = newCache ∧
  (∀ l o, h !! l = Some o → h' !! l = Some o) ∧
  _parsers this' = _parsers this ∧
  _scanners this' = _scanners this ∧
  _loader this' = _loader this ∧
  _resolver this' = _resolver this ∧
  _lazyEdges this' = _lazyEdges this ∧
  _telemetryTracker this' = _telemetryTracker this ∧
  _generation this' = _generation this + 1.
Proof.
  unfold _fork.
  destruct (construct _ h) as [copy h''] eqn:Hc. intros [= <- <-]. simpl.
  apply construct_spec in Hc as (Hkeep & -> & -> & -> & Hp & Hs). simpl in *.
  by rewrite (Hp _ eq_refl), (Hs _ eq_refl).
Qed.

(** Forking around a cache object that has just been allocated. *)
Lemma fork_fresh this h cache newCache :
  h !! _cache this = Some (Cache cache) →
  ∃ this' h',
    _fork this (alloc (Cache newCache) h).1 (alloc (Cache newCache) h).2
    = (this', h') ∧
    forked this h this' h' newCache ∧
    h' !! _cache this = Some (Cache cache).
Proof.
  intros Hcache.
  destruct (_fork this _ _) as [this' h'] eqn:Hf. exists this', h'.
  split; [done|].
  apply _fork_spec in Hf as (Hc & Hkeep & Hrest).
  assert (∀ l o, h !! l = Some o → h' !! l = Some o) as Hkeep'.
  { intros l o Hl. by apply Hkeep, alloc_keeps. }
  split; [|by apply Hkeep'].
  unfold forked. rewrite Hc.
  split; [apply alloc_fresh|]. split; [apply Hkeep, alloc_new|].
  split; [|done].
  intros Heq. pose proof (alloc_fresh (Cache newCache) h) as Hfresh.
  rewrite Heq in Hfresh. congruence.
Qed.

(** C8. For a context whose [_cache] field holds a cache, [filesChanged]
    and [clearCaches] return a context around a cache object that is new
    in the store (the invalidated copy, or an empty cache); every object
    that was in the store, the cache of the original context among them,
    is left as it was; the new context holds the same parser, scanner,
    loader, resolver and lazy-edge objects and the same telemetry
    tracker; and its generation is one more than the original's. *)
Theorem fork_snapshot_isolation
    (invalidate : AnalysisCache → list string → AnalysisCache)
    (_resolveUrl : string → string) this urls h cache :
  h !! _cache this = Some (Cache cache) →
  (∃ this' h',
     filesChanged invalidate _resolveUrl this urls h = Some (this', h') ∧
     forked this h this' h' (invalidate cache (map _resolveUrl urls)) ∧
     h' !! _cache this = Some (Cache cache)) ∧
  (∃ this' h',
     clearCaches this h = (this', h') ∧
     forked this h this' h' AnalysisCache.new ∧
     h' !! _cache this = Some (Cache cache)).
Proof.
  intros Hcache. split.
  - destruct (fork_fresh this h cache
                (invalidate cache (map _resolveUrl urls)) Hcache)
      as (this' & h' & Hf & Hforked & Hold).
    exists this', h'. unfold filesChanged. rewrite Hcache.
    split; [by rewrite <- Hf|done].
  - destruct (fork_fresh this h cache AnalysisCache.new Hcache)
      as (this' & h' & Hf & Hforked & Hold).
    exists this', h'. split; [exact Hf|done].
Qed.

End ForkFacts.

(** ** The dependency graph *)

(** [whenReady] never runs out of the budget it gives the join: it returns
    or it is suspended. *)
Lemma whenReady_settles (url : string) (g : gmap string (Utils.Deferred (list string))) :
  (DependencyGraph.whenReady url g).1 ≠ AsyncCyclicTransitivePromiseAll.OutOfFuel.
Proof.
  unfold DependencyGraph.whenReady.
  pose proof (promiseAllTransitive_settles g url (S (size g))) as Hs.
  destruct (AsyncCyclicTransitivePromiseAll.promiseAllTransitive _ url g) as [r w].
  simpl in *. apply Hs. lia.
Qed.
(** ** Frames: what the methods leave alone *)

Section Frame.
Import Js Model AnalysisCache AnalyzerCacheContext.
Context {X : Type} (π : AnalysisCache → X).
Implicit Types (this : Context) (s : State).

Local Notation keeps := (AnalyzerCacheContext.keeps π).
Local Notation slotKeeps := (AnalyzerCacheContext.slotKeeps π).

Lemma keeps_refl s : keeps s s.
Proof. done. Qed.

Lemma keeps_trans s1 s2 s3 : keeps s1 s2 → keeps s2 s3 → keeps s1 s3.
Proof. unfold keeps. congruence. Qed.

Lemma keeps_request {V} (slot : Slot V) key s :
  slotKeeps slot → keeps s (request slot key s).2.
Proof.
  intros Hslot. unfold request, keeps.
  destruct (AsyncWorkCache.getOrCompute key _) as [[p invoked] c]. simpl.
  apply Hslot.
Qed.

Lemma keeps_finish {V} (slot : Slot V) p r s :
  slotKeeps slot → keeps s (finish slot p r s).2.
Proof. intros Hslot. unfold finish, keeps. simpl. apply Hslot. Qed.

Lemma keeps_getOrCompute {V} (slot : Slot V) key compute s :
  slotKeeps slot →
  (∀ s0, keeps s0 (compute s0).2) →
  keeps s (getOrCompute slot key compute s).2.
Proof.
  intros Hslot Hcompute. unfold getOrCompute.
  pose proof (keeps_request slot key s Hslot) as Hreq.
  destruct (request slot key s) as [[p invoked] s0]. simpl in Hreq.
  destruct invoked; [|done].
  pose proof (Hcompute s0) as Hc. destruct (compute s0) as [r s1]. simpl in Hc.
  eapply keeps_trans; [exact Hreq|]. eapply keeps_trans; [exact Hc|].
  by apply keeps_finish.
Qed.

Lemma keeps_getOrComputeRec {V} (slot : Slot V) key compute s r s' :
  slotKeeps slot →
  (∀ s0 r0 s1, compute s0 = Some (r0, s1) → keeps s0 s1) →
  getOrComputeRec slot key compute s = Some (r, s') → keeps s s'.
Proof.
  intros Hslot Hcompute. unfold getOrComputeRec.
  pose proof (keeps_request slot key s Hslot) as Hreq.
  destruct (request slot key s) as [[p invoked] s0]. simpl in Hreq.
  destruct invoked; [|by intros [= <- <-]].
  destruct (compute s0) as [[r0 s1]|] eqn:Hc; simpl; [|done].
  intros [= <- <-]. apply Hcompute in Hc.
  eapply keeps_trans; [exact Hreq|]. eapply keeps_trans; [exact Hc|].
  by apply keeps_finish.
Qed.

Lemma keeps_andThen {A B} (c : Completion A * State) k s r s' :
  keeps s c.2 →
  (∀ a s0 r0 s1, k a s0 = Some (r0, s1) → keeps s0 s1) →
  andThen (B:=B) c k = Some (r, s') → keeps s s'.
Proof.
  intros Hc Hk. destruct c as [[a|e|] s0]; simpl in *.
  - intros Hka. apply Hk in Hka. by eapply keeps_trans.
  - by intros [= <- <-].
  - by intros [= <- <-].
Qed.

Lemma keeps_andThenRec {A B} (c : option (Completion A * State)) k s r s' :
  (∀ r0 s0, c = Some (r0, s0) → keeps s s0) →
  (∀ a s0 r0 s1, k a s0 = Some (r0, s1) → keeps s0 s1) →
  andThenRec (B:=B) c k = Some (r, s') → keeps s s'.
Proof.
  intros Hc Hk. unfold andThenRec. destruct c as [[r0 s0]|]; [|done].
  intros Hthen. eapply (keeps_andThen (r0, s0)); [|exact Hk|exact Hthen].
  by eapply Hc.
Qed.

Lemma keeps_load this resolvedUrl providedContents s :
  keeps s (load this resolvedUrl providedContents s).2.
Proof.
  unfold load, keeps.
  by destruct (negb _); [|destruct providedContents].
Qed.

Lemma keeps__parseCompute this resolvedUrl providedContents s :
  keeps s (_parseCompute this resolvedUrl providedContents s).2.
Proof.
  unfold _parseCompute.
  pose proof (keeps_load this resolvedUrl providedContents s) as Hl.
  destruct (load this resolvedUrl providedContents s) as [[content|e|] s1];
    simpl in *; [|done|done].
  by destruct (_parseContents _ _ _ _ _).
Qed.

Lemma keeps__parse this resolvedUrl providedContents s :
  slotKeeps parsedSlot →
  keeps s (_parse this resolvedUrl providedContents s).2.
Proof.
  intros Hslot. apply keeps_getOrCompute; [done|]. intros s0.
  apply keeps__parseCompute.
Qed.

Lemma keeps_withHeap f s : keeps s (withHeap f s).
Proof. done. Qed.

Hypothesis scannedDocumentsKeeps : ∀ m a, π (setScannedDocuments m a) = π a.

Lemma keeps_scanInlineFeatures this scanDocument containing containingUrl :
  (∀ doc comment s0 r0 s1,
     scanDocument doc comment s0 = Some (r0, s1) → keeps s0 s1) →
  ∀ remaining index s r s',
    scanInlineFeatures this scanDocument containing containingUrl index
      remaining s = Some (r, s') →
    keeps s s'.
Proof.
  intros Hscan. induction remaining as [|feature rest IH]; intros index s r s'.
  { by intros [= <- <-]. }
  cbn [scanInlineFeatures].
  destruct feature as [| |type contents offset comment node slot|];
    try by apply IH.
  destruct (_parseContents _ _ _ _ _) as [err|parsedDoc].
  { destruct (cls err); try by intros [= <- <-].
    intros Hrest%IH. done. }
  destruct (scanDocument parsedDoc comment s) as [[[ref|err|] s0]|] eqn:Hdoc;
    [| | |done].
  - apply Hscan in Hdoc. intros Hrest%IH. by eapply keeps_trans.
  - apply Hscan in Hdoc. destruct (cls err); try by intros [= <- <-].
    intros Hrest%IH. by eapply keeps_trans.
  - apply Hscan in Hdoc. by intros [= <- <-].
Qed.

Lemma keeps__scanDocument this fuel : ∀ document comment s r s',
  _scanDocument this fuel document comment s = Some (r, s') → keeps s s'.
Proof.
  induction fuel as [|fuel IH]; intros document comment s r s'; [done|].
  cbn [_scanDocument]. apply keeps_andThen; [done|].
  intros scannedFeatures s0 r0 s1.
  destruct (pd_isInline document).
  - apply keeps_andThenRec.
    + intros r1 s2 Hin. eapply keeps_scanInlineFeatures in Hin; [|exact IH]. done.
    + by intros ? ? ? ? [= <- <-].
  - destruct (decide _); [by intros [= <- <-]|].
    apply keeps_andThenRec.
    + intros r1 s2 Hin. eapply keeps_scanInlineFeatures in Hin; [|exact IH].
      eapply keeps_trans; [|exact Hin]. unfold keeps. simpl.
      apply scannedDocumentsKeeps.
    + by intros ? ? ? ? [= <- <-].
Qed.

Hypothesis dependencyGraphKeeps : ∀ g a, π (setDependencyGraph g a) = π a.

Lemma keeps__scanLocalCompute this fuel resolvedUrl contents s r s' :
  slotKeeps parsedSlot →
  _scanLocalCompute this fuel resolvedUrl contents s = Some (r, s') →
  keeps s s'.
Proof.
  intros Hp. unfold _scanLocalCompute.
  apply keeps_andThen; [by apply keeps__parse|]. intros parsedDoc s2 r2 s3.
  apply keeps_andThenRec; [intros ? ?; apply keeps__scanDocument|].
  intros ref s4 r4 s5. cbv beta zeta.
  match goal with
  | |- context [DependencyGraph.addDocument ?u ?l ?g] =>
      destruct (DependencyGraph.addDocument u l g) as [[e|[]] g']
  end; intros [= <- <-]; unfold AnalyzerCacheContext.keeps; simpl;
    apply dependencyGraphKeeps.
Qed.

Lemma keeps__scanLocal this fuel resolvedUrl contents s r s' :
  slotKeeps parsedSlot → slotKeeps scannedSlot →
  _scanLocal this fuel resolvedUrl contents s = Some (r, s') → keeps s s'.
Proof.
  intros Hp Hs. apply keeps_getOrComputeRec; [done|]. intros s0 r0 s1.
  by apply keeps__scanLocalCompute.
Qed.

Lemma keeps_awaitReady resolvedUrl s :
  keeps s (awaitReady resolvedUrl s).2.
Proof.
  unfold awaitReady. destruct (DependencyGraph.whenReady _ _) as [r g].
  unfold keeps. simpl. apply dependencyGraphKeeps.
Qed.

Lemma keeps_scanImports this scan scannedDocument :
  (∀ importUrl s0 r0 s1, scan importUrl s0 = Some (r0, s1) → keeps s0 s1) →
  ∀ imports s s',
    scanImports this scan scannedDocument imports s = Some s' → keeps s s'.
Proof.
  intros Hscan. induction imports as [|scannedImport rest IH]; intros s s'.
  { by intros [= <-]. }
  cbn [scanImports].
  destruct (scan _ s) as [[[ref|error|] s0]|] eqn:Hs; [| | |done];
    apply Hscan in Hs; intros Hrest%IH; by eapply keeps_trans.
Qed.

Lemma keeps__scan this fuel : ∀ resolvedUrl contents s r s',
  slotKeeps parsedSlot → slotKeeps scannedSlot → slotKeeps dependenciesSlot →
  _scan this fuel resolvedUrl contents s = Some (r, s') → keeps s s'.
Proof.
  induction fuel as [|fuel IH]; intros resolvedUrl contents s r s' Hp Hs Hd;
    [done|].
  cbn [_scan]. apply keeps_getOrComputeRec; [done|]. intros s0 r0 s1.
  apply keeps_andThenRec; [intros ? ?; by apply keeps__scanLocal|].
  intros ref s2 r2 s3.
  destruct (scanImports _ _ _ _ s2) as [s4|] eqn:Himports; simpl; [|done].
  apply keeps_scanImports in Himports; [|intros ? ? ? ?; by apply IH].
  pose proof (keeps_awaitReady resolvedUrl s4) as Hready.
  destruct (awaitReady resolvedUrl s4) as [[] s5]; intros [= <- <-];
    by eapply keeps_trans.
Qed.

Lemma keeps_resume s resolvedUrl :
  slotKeeps dependenciesSlot → keeps s (resume s resolvedUrl).
Proof.
  intros Hd. unfold resume.
  destruct (promiseOf dependenciesSlot resolvedUrl s) as [[| |]|]; try done.
  destruct (promiseOf scannedSlot resolvedUrl s) as [[ref| |]|]; try done.
  destruct (_ !! resolvedUrl) as [p|]; try done.
  pose proof (keeps_awaitReady resolvedUrl s) as Hready.
  destruct (awaitReady resolvedUrl s) as [[] s0]; try done.
  eapply keeps_trans; [exact Hready|]. by apply keeps_finish.
Qed.

Lemma keeps_drain s : slotKeeps dependenciesSlot → keeps s (drain s).
Proof.
  intros Hd. unfold drain.
  generalize (AsyncWorkCache.calls (dependenciesScannedPromises (cache s))).
  intros keys. revert s. induction keys as [|key keys IH]; intros s; [done|].
  simpl. eapply keeps_trans; [|apply IH]. by apply keeps_resume.
Qed.

End Frame.


Section Memo.
Import Js Model AnalysisCache AnalyzerCacheContext.
Implicit Types (this : Context) (s : State).

Lemma lawful_parsedSlot : lawful parsedSlot.
Proof. split; [by intros []|done]. Qed.
Lemma lawful_scannedSlot : lawful scannedSlot.
Proof. split; [by intros []|done]. Qed.
Lemma lawful_dependenciesSlot : lawful dependenciesSlot.
Proof. split; [by intros []|done]. Qed.
Lemma lawful_analyzedSlot : lawful analyzedSlot.
Proof. split; [by intros []|done]. Qed.

Lemma request_registered {V} (slot : Slot V) key p s :
  lawful slot → registered slot key p s → request slot key s = (p, false, s).
Proof.
  intros [Hsg _] Hreg. unfold request.
  rewrite (getOrCompute_present _ _ _ Hreg).
  unfold withCache. rewrite Hsg. by destruct s.
Qed.

Lemma request_fresh {V} (slot : Slot V) key s :
  lawful slot →
  AsyncWorkCache._keyToResultMap (get slot (cache s)) !! key = None →
  ∃ p s0, request slot key s = (p, true, s0) ∧ registered slot key p s0 ∧
          AsyncWorkCache.settled (get slot (cache s0)) !! p = None.
Proof.
  intros [_ Hgs] Hfresh. unfold request, AsyncWorkCache.getOrCompute.
  rewrite Hfresh. eexists _, _. split; [done|].
  unfold registered. simpl. rewrite Hgs. simpl.
  split; [by rewrite lookup_insert_eq|by rewrite lookup_delete_eq].
Qed.

Lemma finish_registered {V} (slot : Slot V) p r s key q :
  lawful slot → registered slot key q s → registered slot key q (finish slot p r s).2.
Proof.
  intros [_ Hgs] Hreg. unfold finish, registered. simpl. rewrite Hgs.
  by destruct (settle_keeps (get slot (cache s)) p r) as [-> _].
Qed.

Lemma finish_observe {V} (slot : Slot V) p r s :
  (finish slot p r s).1
  = AsyncWorkCache.observe p (get slot (cache (finish slot p r s).2)).
Proof. done. Qed.

Lemma finish_settles {V} (slot : Slot V) p r s :
  lawful slot →
  AsyncWorkCache.settled (get slot (cache s)) !! p = None →
  (finish slot p r s).1 = r.
Proof.
  intros [_ Hgs] Hp. unfold finish. simpl. rewrite Hgs.
  unfold AsyncWorkCache.observe, AsyncWorkCache.settle. rewrite Hp.
  destruct r; simpl; by rewrite ?lookup_insert_eq, ?Hp.
Qed.

(** A request for a key that has its promise hands out that promise and
    changes nothing, whatever computation comes with the request. *)
Lemma getOrCompute_registered {V} (slot : Slot V) key compute p s :
  lawful slot → registered slot key p s →
  getOrCompute slot key compute s
  = (AsyncWorkCache.observe p (get slot (cache s)), s).
Proof.
  intros Hl Hreg. unfold getOrCompute.
  by rewrite (request_registered slot key p s Hl Hreg).
Qed.

Lemma getOrComputeRec_registered {V} (slot : Slot V) key compute p s :
  lawful slot → registered slot key p s →
  getOrComputeRec slot key compute s
  = Some (AsyncWorkCache.observe p (get slot (cache s)), s).
Proof.
  intros Hl Hreg. unfold getOrComputeRec.
  by rewrite (request_registered slot key p s Hl Hreg).
Qed.

(** After a request, its key has a promise, and the requester holds what
    that promise stands at: provided the computation does not drop the
    promises of the slot. *)
Lemma getOrCompute_fixes {V} (slot : Slot V) key compute s :
  lawful slot →
  (∀ s0 q, registered slot key q s0 → registered slot key q (compute s0).2) →
  ∃ p, registered slot key p (getOrCompute slot key compute s).2 ∧
       (getOrCompute slot key compute s).1
       = AsyncWorkCache.observe p
           (get slot (cache (getOrCompute slot key compute s).2)).
Proof.
  intros Hl Hcompute.
  destruct (AsyncWorkCache._keyToResultMap (get slot (cache s)) !! key)
    as [p|] eqn:Hkey.
  - exists p. by rewrite (getOrCompute_registered slot key compute p s Hl Hkey).
  - destruct (request_fresh slot key s Hl Hkey) as (p & s0 & Hreq & Hreg & _).
    exists p. unfold getOrCompute. rewrite Hreq.
    specialize (Hcompute s0 p Hreg). destruct (compute s0) as [r s1].
    split; [by apply finish_registered|apply finish_observe].
Qed.

Lemma getOrComputeRec_fixes {V} (slot : Slot V) key compute s r s' :
  lawful slot →
  (∀ s0 r0 s1 q, compute s0 = Some (r0, s1) →
     registered slot key q s0 → registered slot key q s1) →
  getOrComputeRec slot key compute s = Some (r, s') →
  ∃ p, registered slot key p s' ∧
       r = AsyncWorkCache.observe p (get slot (cache s')).
Proof.
  intros Hl Hcompute.
  destruct (AsyncWorkCache._keyToResultMap (get slot (cache s)) !! key)
    as [p|] eqn:Hkey.
  - rewrite (getOrComputeRec_registered slot key compute p s Hl Hkey).
    intros [= <- <-]. by exists p.
  - destruct (request_fresh slot key s Hl Hkey) as (p & s0 & Hreq & Hreg & _).
    unfold getOrComputeRec. rewrite Hreq.
    destruct (compute s0) as [[r0 s1]|] eqn:Hc; simpl; [|done].
    intros Hfin. exists p.
    assert (finish slot p r0 s1 = (r, s')) as Hfin' by congruence.
    specialize (Hcompute s0 r0 s1 p Hc Hreg).
    pose proof (finish_registered slot p r0 s1 key p Hl Hcompute) as Hreg'.
    pose proof (finish_observe slot p r0 s1) as Hobs.
    rewrite Hfin' in Hreg', Hobs. done.
Qed.

(** A fresh key: the computation runs, and its completion is the result,
    provided it leaves the promises of the slot alone. *)
Lemma getOrCompute_fresh {V} (slot : Slot V) key compute s :
  lawful slot →
  AsyncWorkCache._keyToResultMap (get slot (cache s)) !! key = None →
  (∀ s0, get slot (cache (compute s0).2) = get slot (cache s0)) →
  ∃ s0, (getOrCompute slot key compute s).1 = (compute s0).1.
Proof.
  intros Hl Hkey Hcompute.
  destruct (request_fresh slot key s Hl Hkey) as (p & s0 & Hreq & Hreg & Hp).
  exists s0. unfold getOrCompute. rewrite Hreq.
  specialize (Hcompute s0). destruct (compute s0) as [r s1]. simpl in *.
  apply finish_settles; [done|]. by rewrite Hcompute.
Qed.

End Memo.

(** ** The pipeline *)

Section PipelineFacts.
Import Warnings Js Utils Model AnalysisCache AnalyzerCacheContext.
Implicit Types (this : Context) (s : State).

Lemma registered_keeps {V} (slot : Slot V) key p s s' :
  keeps (get slot) s s' → registered slot key p s → registered slot key p s'.
Proof. unfold keeps, registered. by intros ->. Qed.

Lemma request_keeps_registered {V} (slot : Slot V) key s key0 q :
  lawful slot → registered slot key0 q s →
  registered slot key0 q (request slot key s).2.
Proof.
  intros [_ Hgs] Hreg. unfold request, registered.
  pose proof (step_keeps_key (get slot (cache s)) (AsyncWorkCache.Request key)
                key0 q Hreg) as Hstep. simpl in Hstep.
  destruct (AsyncWorkCache.getOrCompute key _) as [[p invoked] c]. simpl in *.
  by rewrite Hgs.
Qed.

Lemma getOrCompute_keeps_registered {V} (slot : Slot V) key compute s key0 q :
  lawful slot →
  (∀ s0, registered slot key0 q s0 → registered slot key0 q (compute s0).2) →
  registered slot key0 q s →
  registered slot key0 q (getOrCompute slot key compute s).2.
Proof.
  intros Hl Hcompute Hreg. unfold getOrCompute.
  pose proof (request_keeps_registered slot key s key0 q Hl Hreg) as Hreq.
  destruct (request slot key s) as [[p invoked] s0]. simpl in Hreq.
  destruct invoked; [|done].
  specialize (Hcompute s0 Hreq). destruct (compute s0) as [r s1].
  by apply finish_registered.
Qed.

(** [_parse]: the cache is keyed by the resolved URL alone. *)
Lemma _parse_again this resolvedUrl contentsA contentsB s :
  _parse this resolvedUrl contentsB (_parse this resolvedUrl contentsA s).2
  = _parse this resolvedUrl contentsA s.
Proof.
  destruct (getOrCompute_fixes parsedSlot resolvedUrl
              (_parseCompute this resolvedUrl contentsA) s) as (p & Hreg & Hobs).
  { apply lawful_parsedSlot. }
  { intros s0 q. apply registered_keeps, keeps__parseCompute. }
  fold (_parse this resolvedUrl contentsA s) in Hreg, Hobs.
  unfold _parse at 1.
  rewrite (getOrCompute_registered parsedSlot resolvedUrl _ p _
             lawful_parsedSlot Hreg).
  rewrite <- Hobs. by destruct (_parse this resolvedUrl contentsA s).
Qed.

Lemma _parse_first this resolvedUrl contents s :
  AsyncWorkCache._keyToResultMap (parsedDocumentPromises (cache s))
    !! resolvedUrl = None →
  UrlLoader.canLoad (_loader this) resolvedUrl = true →
  (_parse this resolvedUrl (Str contents) s).1
  = match _parseContents this (substring1 (extname this resolvedUrl))
            contents resolvedUrl None with
    | inr parsedDoc => Fulfilled parsedDoc
    | inl error => Rejected error
    end.
Proof.
  intros Hfresh Hcan.
  destruct (getOrCompute_fresh parsedSlot resolvedUrl
              (_parseCompute this resolvedUrl (Str contents)) s) as [s0 Hs0].
  { apply lawful_parsedSlot. }
  { done. }
  { intros s0. apply (keeps__parseCompute (get parsedSlot)). }
  unfold _parse. rewrite Hs0. unfold _parseCompute, load. rewrite Hcan. simpl.
  by destruct (_parseContents _ _ _ _ _).
Qed.

Lemma _getDocument_keeps_registered this url s key q :
  (∀ d s0, registered analyzedSlot key q s0 →
           registered analyzedSlot key q (resolveDocument this d s0)) →
  registered analyzedSlot key q s →
  registered analyzedSlot key q (_getDocument this url s).2.
Proof.
  intros Hres Hreg. unfold _getDocument.
  destruct (analyzedDocuments (cache s) !! _) as [cachedResult|]; [done|].
  destruct (scannedDocuments (cache s) !! _) as [scannedDocument|]; [|done].
  simpl. apply Hres.
  apply getOrCompute_keeps_registered; [apply lawful_analyzedSlot|done|done].
Qed.

Lemma analyzeCompute_keeps_registered this fuel url resolvedUrl contents
    s r s' key q :
  (∀ d s0, registered analyzedSlot key q s0 →
           registered analyzedSlot key q (resolveDocument this d s0)) →
  analyzeCompute this fuel url resolvedUrl contents s = Some (r, s') →
  registered analyzedSlot key q s → registered analyzedSlot key q s'.
Proof.
  intros Hres. unfold analyzeCompute.
  destruct (_scan this fuel resolvedUrl contents s) as [[r0 s0]|] eqn:Hscan;
    simpl; [|done].
  apply (keeps__scan analyzedDocumentPromises) in Hscan; try done.
  pose proof (keeps_drain analyzedDocumentPromises
                (λ _ _, eq_refl) (λ _ _, eq_refl) s0 (λ _ _, eq_refl)) as Hdrain.
  intros Hrun Hreg.
  assert (registered analyzedSlot key q (drain s0)) as Hreg'.
  { eapply registered_keeps; [exact Hdrain|].
    eapply registered_keeps; [exact Hscan|done]. }
  destruct (promiseOf dependenciesSlot resolvedUrl (drain s0)) as [[ref|e|]|];
    try (by injection Hrun as <- <-).
  pose proof (_getDocument_keeps_registered this (urlOf (drain s0) ref)
                (drain s0) key q Hres Hreg') as Hdoc.
  destruct (_getDocument this _ (drain s0)) as [document s1].
  by injection Hrun as <- <-.
Qed.

Lemma resolve_success (ds : gmap string (Deferred (list string))) key deps ds' :
  AsyncCyclicTransitivePromiseAll.resolve key deps ds = (inr tt, ds') →
  AsyncCyclicTransitivePromiseAll.recorded ds' key deps.
Proof.
  unfold AsyncCyclicTransitivePromiseAll.resolve,
    AsyncCyclicTransitivePromiseAll._getDeferredFor,
    AsyncCyclicTransitivePromiseAll.recorded.
  destruct (ds !! key) as [[|value]|]; simpl; intros [= <-];
    by rewrite lookup_insert_eq.
Qed.

Lemma _scanLocalCompute_fulfilled this fuel resolvedUrl contents s ref s' :
  _scanLocalCompute this fuel resolvedUrl contents s = Some (Fulfilled ref, s') →
  AsyncCyclicTransitivePromiseAll.recorded (dependencyGraph (cache s'))
    resolvedUrl
    (map (λ i, _resolveUrl this (importUrl i)) (nonLazyImports this ref s')).
Proof.
  unfold _scanLocalCompute.
  destruct (_parse this resolvedUrl contents s) as [[parsedDoc|e|] s1];
    simpl; [|done|done].
  unfold andThenRec.
  destruct (_scanDocument this fuel parsedDoc None s1) as [[[ref'|e|] s2]|];
    simpl; [|done|done|done].
  unfold DependencyGraph.addDocument.
  destruct (AsyncCyclicTransitivePromiseAll.resolve _ _ _) as [[e|[]] g] eqn:Hr;
    intros [= <- <-].
  by apply resolve_success in Hr.
Qed.

(** C6. When [_scanLocal] scans a URL (one that has no entry yet) and
    yields its scanned document, the successors it has recorded for the
    URL in the dependency graph are the resolved URLs of the document's
    nested features that are imports of a kind other than
    [lazy-html-import], in order: a URL is an edge from the document
    exactly when such an import resolves to it.  These edges are all that
    [whenReady] follows from the document, so an import that is lazy adds
    nothing the importer waits for. *)
Theorem nonlazy_imports_are_the_edges this fuel resolvedUrl contents s
    scannedDocument s' :
  AsyncWorkCache._keyToResultMap (scannedDocumentPromises (cache s))
    !! resolvedUrl = None →
  _scanLocal this fuel resolvedUrl contents s
  = Some (Fulfilled scannedDocument, s') →
  let nested := getNestedFeatures this (heap s') scannedDocument in
  AsyncCyclicTransitivePromiseAll.recorded (dependencyGraph (cache s'))
    resolvedUrl
    (map (λ i, _resolveUrl this (importUrl i))
       (filter (λ e, isNonLazyImport e = true) nested)) ∧
  (∀ u, AsyncCyclicTransitivePromiseAll.edge (dependencyGraph (cache s'))
          resolvedUrl u ↔
        ∃ type url sourceRange urlSourceRange,
          ScannedImport type url sourceRange urlSourceRange ∈ nested ∧
          type ≠ "lazy-html-import" ∧ _resolveUrl this url = u).
Proof.
  intros Hfresh Hrun nested.
  assert (AsyncCyclicTransitivePromiseAll.recorded (dependencyGraph (cache s'))
            resolvedUrl
            (map (λ i, _resolveUrl this (importUrl i))
               (filter (λ e, isNonLazyImport e = true) nested))) as Hrec.
  { unfold _scanLocal, getOrComputeRec in Hrun.
    destruct (request_fresh scannedSlot resolvedUrl s lawful_scannedSlot Hfresh)
      as (p & s0 & Hreq & _ & Hp).
    rewrite Hreq in Hrun.
    destruct (_scanLocalCompute this fuel resolvedUrl contents s0)
      as [[r0 s1]|] eqn:Hc; simpl in Hrun; [|done].
    pose proof (keeps__scanLocalCompute scannedDocumentPromises
                  (λ _ _, eq_refl) (λ _ _, eq_refl)
                  this fuel resolvedUrl contents s0 r0 s1 (λ _ _, eq_refl) Hc)
      as Hkeep.
    assert ((finish scannedSlot p r0 s1).1 = r0) as Hfin.
    { apply finish_settles; [apply lawful_scannedSlot|].
      simpl. unfold keeps in Hkeep. by rewrite Hkeep. }
    assert (finish scannedSlot p r0 s1 = (Fulfilled scannedDocument, s'))
      as Hfin' by congruence.
    rewrite Hfin' in Hfin. simpl in Hfin. subst r0.
    apply _scanLocalCompute_fulfilled in Hc.
    assert (s' = (finish scannedSlot p (Fulfilled scannedDocument) s1).2)
      as -> by by rewrite Hfin'.
    exact Hc. }
  split; [exact Hrec|].
  intros u. split.
  - intros (deps & Hdeps & Hu).
    rewrite <- (recorded_functional _ _ _ _ Hrec Hdeps) in Hu.
    apply list_elem_of_fmap in Hu as (i & -> & Hi).
    apply list_elem_of_filter in Hi as [Hnonlazy Hi].
    destruct i as [type url sourceRange urlSourceRange| | |]; try done.
    exists type, url, sourceRange, urlSourceRange.
    split; [done|]. split; [|done].
    simpl in Hnonlazy. by apply negb_true_iff, bool_decide_eq_false in Hnonlazy.
  - intros (type & url & sourceRange & urlSourceRange & Hi & Hlazy & <-).
    eexists. split; [exact Hrec|].
    apply list_elem_of_fmap.
    exists (ScannedImport type url sourceRange urlSourceRange).
    split; [done|]. apply list_elem_of_filter. split; [|done].
    simpl. by apply negb_true_iff, bool_decide_eq_false.
Qed.

Lemma analyzeAll_outcomes this fuel files : ∀ s r s',
  analyzeAll this fuel files s = Some (r, s') →
  (∀ e, r ≠ Rejected e) ∧
  (∀ outcomes, r = Fulfilled outcomes → length outcomes = length files).
Proof.
  induction files as [|f rest IH]; intros s r s'; simpl.
  { intros [= <- <-]. split; [done|]. by intros ? [= <-]. }
  destruct (_analyzeOrWarning this fuel f s) as [[r1 s1]|] eqn:H1; simpl; [|done].
  destruct (analyzeAll this fuel rest s1) as [[rs s2]|] eqn:H2; simpl; [|done].
  destruct (IH _ _ _ H2) as [Hnot Hlen].
  assert (∀ e, r1 ≠ Rejected e) as Hnot1.
  { unfold _analyzeOrWarning in H1.
    destruct (analyze this fuel f Undefined s) as [[ra sa]|]; simpl in H1; [|done].
    destruct ra as [[d|]|e|]; try (by injection H1 as <- _).
    by destruct (cls e); injection H1 as <- _. }
  destruct r1 as [x|e|]; [|by destruct (Hnot1 e)|].
  - destruct rs as [xs|e'|]; [| by destruct (Hnot e')|]; intros [= <- <-].
    + split; [done|]. intros ? [= <-]. simpl. f_equal. by apply Hlen.
    + by split.
  - destruct rs as [xs|e'|]; [| by destruct (Hnot e')|]; intros [= <- <-];
      by split.
Qed.

Lemma documents_and_warnings outcomes :
  length (documentsOf outcomes) + length (warningsOf outcomes)
  = length outcomes.
Proof.
  unfold documentsOf, warningsOf.
  induction outcomes as [|x outcomes IH]; [done|].
  unfold omap in *. destruct x; simpl; lia.
Qed.

(** *** The batch of a package scan *)

Import Batch.

Lemma analyzeAll_promiseAll this fuel files : ∀ s,
  analyzeAll this fuel files s
  = '(rs, s') ← analyzeEach this fuel files s; Some (promiseAll rs, s').
Proof.
  induction files as [|f rest IH]; intros s; [done|].
  cbn [analyzeAll analyzeEach].
  destruct (_analyzeOrWarning this fuel f s) as [[r s1]|]; [|done].
  cbn [mbind option_bind]. rewrite IH.
  destruct (analyzeEach this fuel rest s1) as [[rs s2]|]; [|done].
  cbn [mbind option_bind promiseAll]. by destruct r, (promiseAll rs).
Qed.

Lemma _analyzeOrWarning_not_rejected this fuel url s r s' :
  _analyzeOrWarning this fuel url s = Some (r, s') → ∀ e, r ≠ Rejected e.
Proof.
  unfold _analyzeOrWarning.
  destruct (analyze this fuel url Undefined s) as [[ra sa]|]; simpl; [|done].
  destruct ra as [[d|]|e|]; try (by intros [= <- _]).
  by destruct (cls e); intros [= <- _].
Qed.

Lemma analyzeEach_runs this fuel files : ∀ s rs s',
  analyzeEach this fuel files s = Some (rs, s') →
  length rs = length files ∧
  (∀ e, Rejected e ∉ rs) ∧
  (∀ i f, files !! i = Some f →
     ∃ r si si',
       analyzeEach this fuel (take i files) s = Some (take i rs, si) ∧
       _analyzeOrWarning this fuel f si = Some (r, si') ∧
       rs !! i = Some r).
Proof.
  induction files as [|f rest IH]; intros s rs s'.
  { intros [= <- <-]. split; [done|]. split; [intros e He; by inversion He|done]. }
  cbn [analyzeEach].
  destruct (_analyzeOrWarning this fuel f s) as [[r s1]|] eqn:H1; [|done].
  cbn [mbind option_bind].
  destruct (analyzeEach this fuel rest s1) as [[rs1 s2]|] eqn:H2; [|done].
  cbn [mbind option_bind]. intros [= <- <-].
  destruct (IH _ _ _ H2) as (Hlen & Hnot & Hat).
  split; [simpl; by rewrite Hlen|]. split.
  - intros e [Heq|He]%elem_of_cons.
    + by eapply _analyzeOrWarning_not_rejected.
    + by eapply Hnot.
  - intros [|i] f' Hi.
    + injection Hi as <-. exists r, s, s1. by rewrite !take_0.
    + destruct (Hat i f' Hi) as (r' & si & si' & Htake & Hrun & Hr').
      exists r', si, si'. split; [|done].
      cbn [take analyzeEach]. rewrite H1. cbn [mbind option_bind].
      by rewrite Htake.
Qed.

Lemma promiseAll_settles {A} (rs : list (Completion A)) :
  (∀ e, Rejected e ∉ rs) →
  (Pending ∈ rs → promiseAll rs = Pending) ∧
  (Pending ∉ rs → ∃ outcomes, rs = Fulfilled <$> outcomes ∧
                               promiseAll rs = Fulfilled outcomes).
Proof.
  induction rs as [|r rs IH]; intros Hnot.
  { split; [by intros ?%elem_of_nil|]. intros _. by exists []. }
  destruct IH as [IHp IHf].
  { intros e He. apply (Hnot e). by right. }
  destruct r as [x|e|].
  - split.
    + intros [?|Hp]%elem_of_cons; [done|]. cbn [promiseAll]. by rewrite (IHp Hp).
    + intros Hp. destruct IHf as (xs & -> & Hxs).
      { intros Hin. apply Hp. by right. }
      exists (x :: xs). split; [done|]. cbn [promiseAll]. by rewrite Hxs.
  - destruct (Hnot e). by left.
  - split.
    + intros _. cbn [promiseAll]. destruct (promiseAll rs) as [xs|e|] eqn:Hall;
        try done.
      assert (Rejected e ∈ rs) as Hin; [|by destruct (Hnot e); right].
      clear -Hall. revert Hall. induction rs as [|r rs IH]; [done|].
      cbn [promiseAll]. destruct r as [x|e'|].
      * destruct (promiseAll rs); try done. intros [= ->]. right. by apply IH.
      * intros [= ->]. by left.
      * destruct (promiseAll rs); try done. intros [= ->]. right. by apply IH.
    + intros Hp. destruct Hp. by left.
Qed.

Lemma partition_outcomes outcomes :
  (∀ d, d ∈ documentsOf outcomes ↔ IsDocument d ∈ outcomes) ∧
  (∀ w, Some w ∈ warningsOf outcomes ↔ IsWarning w ∈ outcomes) ∧
  (None ∈ warningsOf outcomes ↔ IsUndefined ∈ outcomes).
Proof.
  unfold documentsOf, warningsOf. split; [|split].
  - intros d. rewrite list_elem_of_omap. split.
    + intros (x & Hx & Hd). by destruct x; simplify_eq.
    + intros Hd. by exists (IsDocument d).
  - intros w. rewrite list_elem_of_omap. split.
    + intros (x & Hx & Hd). by destruct x; simplify_eq.
    + intros Hd. by exists (IsWarning w).
  - rewrite list_elem_of_omap. split.
    + intros (x & Hx & Hd). by destruct x; simplify_eq.
    + intros Hd. by exists IsUndefined.
Qed.

(** C7, as the code has it.  [_analyzeOrWarning] never fails: when
    [analyze] is rejected with a failure that carries a warning, the
    result is that warning as it is, with the code it carries; when it is
    rejected with any other failure, the result is a warning with code
    [unable-to-analyze] and severity [ERROR].  The batch of a package
    scan is [Promise.all] over these analyses, one per file and each run
    from the state the one before it has left, so no file can make it
    fail: it is pending as long as the analysis of one of its files is,
    and once none is, it is fulfilled with one outcome per file, in the
    order of the files, the outcome of a file being its document or its
    warning.  The package then has the documents among the outcomes as
    its documents and everything else as its warnings, every outcome
    landing in exactly one of the two lists. *)
Theorem failures_become_warnings this fuel :
  (∀ url s r s', _analyzeOrWarning this fuel url s = Some (r, s') →
     ∃ ra, analyze this fuel url Undefined s = Some (ra, s') ∧
       match ra with
       | Rejected e =>
           match cls e with
           | WarningCarrying carried => r = Fulfilled (IsWarning carried)
           | _ => r = Fulfilled (IsWarning (unableToAnalyze this url e)) ∧
                  code (unableToAnalyze this url e) = "unable-to-analyze" ∧
                  severity (unableToAnalyze this url e) = ERROR
           end
       | Fulfilled (Some document) => r = Fulfilled (IsDocument document)
       | Fulfilled None => r = Fulfilled IsUndefined
       | Pending => r = Pending
       end) ∧
  (∀ files s r s', analyzeAll this fuel files s = Some (r, s') →
     (∀ e, r ≠ Rejected e) ∧
     (∀ outcomes, r = Fulfilled outcomes →
        length outcomes = length files ∧
        length (documentsOf outcomes) + length (warningsOf outcomes)
        = length outcomes)) ∧
  (∀ files s,
     analyzeAll this fuel files s
     = '(rs, s') ← analyzeEach this fuel files s; Some (promiseAll rs, s')) ∧
  (∀ files s rs s', analyzeEach this fuel files s = Some (rs, s') →
     length rs = length files ∧
     (∀ i f, files !! i = Some f →
        ∃ r si si',
          analyzeEach this fuel (take i files) s = Some (take i rs, si) ∧
          _analyzeOrWarning this fuel f si = Some (r, si') ∧
          rs !! i = Some r) ∧
     (∀ e, Rejected e ∉ rs) ∧
     (Pending ∈ rs → promiseAll rs = Pending) ∧
     (Pending ∉ rs → ∃ outcomes, rs = Fulfilled <$> outcomes ∧
                                  promiseAll rs = Fulfilled outcomes)) ∧
  (∀ outcomes,
     (∀ d, d ∈ documentsOf outcomes ↔ IsDocument d ∈ outcomes) ∧
     (∀ w, Some w ∈ warningsOf outcomes ↔ IsWarning w ∈ outcomes) ∧
     (None ∈ warningsOf outcomes ↔ IsUndefined ∈ outcomes)) ∧
  (∀ readDirectory allFiles s,
     UrlLoader.readDirectory (_loader this) = Some readDirectory →
     readDirectory "" true = Fulfilled allFiles →
     analyzePackage this fuel s
     = '(rs, s') ← analyzeEach this fuel
                     (filter (λ f, hasParser this f = true)
                        (filter (λ f, inPackage this f = true) allFiles)) s;
       Some (match promiseAll rs with
             | Fulfilled outcomes =>
                 Fulfilled (mkPackage (documentsOf outcomes) (warningsOf outcomes))
             | Rejected e => Rejected e
             | Pending => Pending
             end, s')).
Proof.
  split; [|split; [|split; [|split; [|split]]]].
  - intros url s r s'. unfold _analyzeOrWarning.
    destruct (analyze this fuel url Undefined s) as [[ra sa]|]; simpl; [|done].
    destruct ra as [[d|]|e|]; try (intros [= <- <-]; by eexists).
    destruct (cls e) eqn:Hcls; intros [= <- <-]; eexists; (split; [done|]);
      simpl; rewrite Hcls; done.
  - intros files s r s' Hrun.
    destruct (analyzeAll_outcomes this fuel files s r s' Hrun) as [Hnot Hlen].
    split; [done|]. intros outcomes ->. split; [by apply Hlen|].
    apply documents_and_warnings.
  - apply analyzeAll_promiseAll.
  - intros files s rs s' Hrun.
    destruct (analyzeEach_runs this fuel files s rs s' Hrun) as (Hlen & Hnot & Hat).
    destruct (promiseAll_settles rs Hnot) as [Hp Hf]. done.
  - apply partition_outcomes.
  - intros readDirectory allFiles s Hdir Hlist. unfold analyzePackage.
    rewrite Hdir, Hlist. cbn [andThen]. unfold andThenRec.
    rewrite analyzeAll_promiseAll.
    destruct (analyzeEach this fuel _ s) as [[rs s1]|]; [|done].
    cbn [mbind option_bind andThen]. by destruct (promiseAll rs).
Qed.

End PipelineFacts.

(** ** The recursion budget

    A run that ends within its budget ends the same way within any larger
    budget. *)

Section BudgetFacts.
Import Warnings Js Utils Model AnalysisCache AnalyzerCacheContext.
Implicit Types (this : Context) (s : State).

Lemma andThen_mono {A B} (c : Completion A * State)
    (k k' : A → State → option (Completion B * State)) x :
  (∀ a s y, k a s = Some y → k' a s = Some y) →
  andThen c k = Some x → andThen c k' = Some x.
Proof. intros Hk. destruct c as [[a|e|] s]; simpl; auto. Qed.

Lemma andThenRec_mono {A B} (c c' : option (Completion A * State))
    (k k' : A → State → option (Completion B * State)) x :
  (∀ y, c = Some y → c' = Some y) →
  (∀ a s y, k a s = Some y → k' a s = Some y) →
  andThenRec c k = Some x → andThenRec c' k' = Some x.
Proof.
  intros Hc Hk. unfold andThenRec. destruct c as [y|]; [|done].
  rewrite (Hc y eq_refl). simpl. by apply andThen_mono.
Qed.

Lemma getOrComputeRec_mono {V} (slot : Slot V) key
    (compute compute' : State → option (Completion V * State)) s x :
  (∀ s0 y, compute s0 = Some y → compute' s0 = Some y) →
  getOrComputeRec slot key compute s = Some x →
  getOrComputeRec slot key compute' s = Some x.
Proof.
  intros Hc. unfold getOrComputeRec.
  destruct (request slot key s) as [[p invoked] s0].
  destruct invoked; [|done].
  destruct (compute s0) as [[r s1]|] eqn:Hrun; [|done].
  by rewrite (Hc _ _ Hrun).
Qed.

Lemma scanInlineFeatures_mono this scanDocument scanDocument'
    containing containingUrl :
  (∀ doc comment s y, scanDocument doc comment s = Some y →
                      scanDocument' doc comment s = Some y) →
  ∀ remaining index s x,
    scanInlineFeatures this scanDocument containing containingUrl index
      remaining s = Some x →
    scanInlineFeatures this scanDocument' containing containingUrl index
      remaining s = Some x.
Proof.
  intros Hscan. induction remaining as [|feature rest IH]; intros index s x;
    [done|].
  cbn [scanInlineFeatures].
  destruct feature as [| |type contents offset comment node slot|];
    try by apply IH.
  destruct (_parseContents _ _ _ _ _) as [err|parsedDoc].
  { destruct (cls err); try done. apply IH. }
  destruct (scanDocument parsedDoc comment s) as [[r s0]|] eqn:Hdoc; [|done].
  rewrite (Hscan _ _ _ _ Hdoc).
  destruct r as [ref|err|]; [apply IH| |done].
  destruct (cls err); try done. apply IH.
Qed.

Lemma _scanDocument_step this fuel : ∀ document comment s x,
  _scanDocument this fuel document comment s = Some x →
  _scanDocument this (S fuel) document comment s = Some x.
Proof.
  induction fuel as [|fuel IH]; intros document comment s x; [done|].
  cbn [_scanDocument].
  apply andThen_mono. intros scannedFeatures s0 y. cbv zeta.
  destruct (pd_isInline document).
  - apply andThenRec_mono; [|done].
    intros z. by apply scanInlineFeatures_mono.
  - destruct (decide _); [done|].
    apply andThenRec_mono; [|done].
    intros z. by apply scanInlineFeatures_mono.
Qed.

Lemma _scanLocal_step this fuel resolvedUrl contents s x :
  _scanLocal this fuel resolvedUrl contents s = Some x →
  _scanLocal this (S fuel) resolvedUrl contents s = Some x.
Proof.
  apply getOrComputeRec_mono. intros s0 y. unfold _scanLocalCompute.
  apply andThen_mono. intros parsedDoc s1 z.
  apply andThenRec_mono; [|done]. intros w. apply _scanDocument_step.
Qed.

Lemma scanImports_mono this scan scan' scannedDocument :
  (∀ importUrl s y, scan importUrl s = Some y → scan' importUrl s = Some y) →
  ∀ imports s x,
    scanImports this scan scannedDocument imports s = Some x →
    scanImports this scan' scannedDocument imports s = Some x.
Proof.
  intros Hscan. induction imports as [|scannedImport rest IH]; intros s x;
    [done|].
  cbn [scanImports].
  destruct (scan _ s) as [[r s0]|] eqn:Hrun; [|done].
  rewrite (Hscan _ _ _ Hrun). destruct r; apply IH.
Qed.

Lemma _scan_step this fuel : ∀ resolvedUrl contents s x,
  _scan this fuel resolvedUrl contents s = Some x →
  _scan this (S fuel) resolvedUrl contents s = Some x.
Proof.
  induction fuel as [|fuel IH]; intros resolvedUrl contents s x; [done|].
  cbn [_scan]. apply getOrComputeRec_mono. intros s0 y.
  apply andThenRec_mono; [intros z; apply _scanLocal_step|].
  intros scannedDocument s1 z. cbv zeta.
  destruct (scanImports this (λ importUrl, _scan this fuel importUrl Undefined)
              scannedDocument _ s1) as [s2|] eqn:Himports; [|done].
  eapply scanImports_mono in Himports; [rewrite Himports; done|].
  intros importUrl s3 w. apply IH.
Qed.

Lemma analyze_step this fuel url contents s x :
  analyze this fuel url contents s = Some x →
  analyze this (S fuel) url contents s = Some x.
Proof.
  apply getOrComputeRec_mono. intros s0 y. unfold analyzeCompute.
  destruct (_scan this fuel _ contents s0) as [[r s1]|] eqn:Hscan; [|done].
  by rewrite (_scan_step _ _ _ _ _ _ Hscan).
Qed.

Lemma analyze_budget this fuel extra url contents s x :
  analyze this fuel url contents s = Some x →
  analyze this (fuel + extra) url contents s = Some x.
Proof.
  intros Hrun. induction extra as [|extra IH].
  - by rewrite Nat.add_0_r.
  - rewrite Nat.add_succ_r. by apply analyze_step.
Qed.

End BudgetFacts.

(** ** Readiness of the scanned documents *)

Section ReadinessFacts.
Import Warnings Js Utils Model AnalysisCache AnalyzerCacheContext.
Import AsyncCyclicTransitivePromiseAll Readiness.
Implicit Types (this : Context) (s : State).
Implicit Types (g : gmap string (Deferred (list string))).

Lemma Invariant_core s s' :
  core (cache s') = core (cache s) → Invariant s → Invariant s'.
Proof.
  unfold core, Invariant, promiseOf. simpl. intros [= HS HD HG].
  by rewrite HS, HD, HG.
Qed.

Lemma advances_refl s : advances s s.
Proof. by split. Qed.

Lemma advances_trans s1 s2 s3 : advances s1 s2 → advances s2 s3 → advances s1 s3.
Proof. intros [H1 G1] [H2 G2]. split; eauto. Qed.

Lemma advances_keeps s s' : keeps core s s' → advances s s'.
Proof.
  intros Hk. split; [by apply Invariant_core|].
  unfold keeps, core in Hk. injection Hk as _ HD _.
  unfold registered. simpl. by rewrite HD.
Qed.

(** The join leaves the recorded successors as they are: all it adds to
    the map is empty cells. *)
Lemma _getDeferredFor_keeps_recorded g key u deps :
  recorded (_getDeferredFor key g).2 u deps ↔ recorded g u deps.
Proof.
  unfold _getDeferredFor, recorded. simpl.
  destruct (decide (u = key)) as [->|Hne].
  - rewrite lookup_insert_eq. by destruct (g !! key).
  - by rewrite lookup_insert_ne.
Qed.

Lemma forEach_keeps_recorded (f : string → Walk → Outcome * Walk) l :
  (∀ key w u deps, recorded (deferreds (f key w).2) u deps
                   ↔ recorded (deferreds w) u deps) →
  ∀ w u deps, recorded (deferreds (forEach f l w).2) u deps
              ↔ recorded (deferreds w) u deps.
Proof.
  intros Hf. induction l as [|dep l IH]; intros w u deps; simpl; [done|].
  specialize (Hf dep w u deps). destruct (f dep w) as [[] w1]; simpl in *;
    try done.
  by rewrite IH.
Qed.

Lemma _transitiveAwait_keeps_recorded fuel : ∀ (key : string) w u deps,
  recorded (deferreds (_transitiveAwait fuel key w).2) u deps
  ↔ recorded (deferreds w) u deps.
Proof.
  induction fuel as [|fuel IH]; intros key w u deps; [done|].
  cbn [_transitiveAwait]. destruct (decide (key ∈ visited w)); [done|].
  pose proof (_getDeferredFor_keeps_recorded (deferreds w) key u deps) as Hg.
  destruct (_getDeferredFor key (deferreds w)) as [deferred ds]. simpl in Hg.
  destruct (promise deferred) as [l|]; [|done].
  rewrite (forEach_keeps_recorded _ l IH). done.
Qed.

Lemma whenReady_keeps_recorded url g u deps :
  recorded (DependencyGraph.whenReady url g).2 u deps ↔ recorded g u deps.
Proof.
  unfold DependencyGraph.whenReady, promiseAllTransitive.
  pose proof (_transitiveAwait_keeps_recorded (S (size g)) url
                (mkWalk g ∅ []) u deps) as Hw.
  by destruct (_transitiveAwait _ url _) as [r w].
Qed.

Lemma whenReady_returned url g g' :
  DependencyGraph.whenReady url g = (Returned, g') →
  ∀ v, reachable g url v → ∃ deps, recorded g v deps.
Proof.
  unfold DependencyGraph.whenReady.
  destruct (promiseAllTransitive _ url g) as [r w] eqn:Hrun.
  intros [= -> _]. by eapply promiseAllTransitive_returned.
Qed.

(** Once every URL reachable from [u] has its successors recorded, more
    records change neither what is reachable from [u] nor that. *)
Lemma reachable_stable g g' (u : string) :
  (∀ v deps, recorded g v deps → recorded g' v deps) →
  (∀ v, reachable g u v → ∃ deps, recorded g v deps) →
  ∀ v, reachable g' u v → reachable g u v ∧ ∃ deps, recorded g' v deps.
Proof.
  intros Hmono Hall.
  apply (rtc_ind_r (λ v, reachable g u v ∧ ∃ deps, recorded g' v deps)).
  - split; [done|]. destruct (Hall u) as [deps Hdeps]; [done|]. eauto.
  - intros a b _ (deps' & Hdeps' & Hb) [Ha _].
    destruct (Hall a Ha) as [deps Hdeps].
    rewrite <- (recorded_functional _ _ _ _ (Hmono _ _ Hdeps) Hdeps') in Hb.
    assert (reachable g u b) as Hub.
    { eapply rtc_r; [exact Ha|]. by exists deps. }
    split; [done|]. destruct (Hall b Hub) as [depsb Hb']. eauto.
Qed.

(** What [addDocument] does to the records. *)
Lemma addDocument_recorded url importUrls g r g' :
  DependencyGraph.addDocument url importUrls g = (r, g') →
  (∀ u deps, recorded g u deps → recorded g' u deps) ∧
  (∀ u deps, u ≠ url → recorded g' u deps → recorded g u deps) ∧
  (∀ deps, recorded g' url deps → (∃ deps0, recorded g url deps0) ∨ r = inr tt).
Proof.
  unfold DependencyGraph.addDocument, resolve, _getDeferredFor, recorded.
  destruct (g !! url) as [[|value]|] eqn:Hurl; simpl; intros [= <- <-].
  - split; [|split].
    + intros u deps Hu. destruct (decide (u = url)) as [->|Hne]; [congruence|].
      by rewrite !lookup_insert_ne.
    + intros u deps Hne. by rewrite !lookup_insert_ne.
    + auto.
  - split; [|split].
    + intros u deps Hu. destruct (decide (u = url)) as [->|Hne].
      * by rewrite lookup_insert_eq, <- Hu, Hurl.
      * by rewrite lookup_insert_ne.
    + intros u deps Hne. by rewrite lookup_insert_ne.
    + eauto.
  - split; [|split].
    + intros u deps Hu. destruct (decide (u = url)) as [->|Hne]; [congruence|].
      by rewrite !lookup_insert_ne.
    + intros u deps Hne. by rewrite !lookup_insert_ne.
    + auto.
Qed.

(** What the function behind [_scanLocal] does to the core of the cache:
    it leaves the promise caches alone, keeps every record of the graph,
    adds none for another URL, and adds one for its own URL only when it
    is fulfilled. *)
Lemma _scanLocalCompute_core this fuel resolvedUrl contents s r s' :
  _scanLocalCompute this fuel resolvedUrl contents s = Some (r, s') →
  scannedDocumentPromises (cache s') = scannedDocumentPromises (cache s) ∧
  dependenciesScannedPromises (cache s')
  = dependenciesScannedPromises (cache s) ∧
  (∀ u deps, recorded (dependencyGraph (cache s)) u deps →
             recorded (dependencyGraph (cache s')) u deps) ∧
  (∀ u deps, u ≠ resolvedUrl →
             recorded (dependencyGraph (cache s')) u deps →
             recorded (dependencyGraph (cache s)) u deps) ∧
  (∀ deps, recorded (dependencyGraph (cache s')) resolvedUrl deps →
           (∃ deps0, recorded (dependencyGraph (cache s)) resolvedUrl deps0) ∨
           ∃ ref, r = Fulfilled ref).
Proof.
  intros Hrun.
  pose proof (keeps__scanLocalCompute scannedDocumentPromises
                (λ _ _, eq_refl) (λ _ _, eq_refl) this fuel resolvedUrl
                contents s r s' (λ _ _, eq_refl) Hrun) as HS.
  pose proof (keeps__scanLocalCompute dependenciesScannedPromises
                (λ _ _, eq_refl) (λ _ _, eq_refl) this fuel resolvedUrl
                contents s r s' (λ _ _, eq_refl) Hrun) as HD.
  split; [exact HS|]. split; [exact HD|].
  unfold _scanLocalCompute in Hrun.
  pose proof (keeps__parse dependencyGraph this resolvedUrl contents s
                (λ _ _, eq_refl)) as Hparse.
  destruct (_parse this resolvedUrl contents s) as [[parsedDoc|e|] s1];
    simpl in Hrun, Hparse; unfold keeps in Hparse;
    try (injection Hrun as <- <-; rewrite Hparse; by eauto 10).
  unfold andThenRec in Hrun.
  destruct (_scanDocument this fuel parsedDoc None s1) as [[r2 s2]|] eqn:Hdoc;
    simpl in Hrun; [|done].
  apply (keeps__scanDocument dependencyGraph (λ _ _, eq_refl))
    in Hdoc. unfold keeps in Hdoc.
  destruct r2 as [ref|e|]; simpl in Hrun;
    try (injection Hrun as <- <-; rewrite Hdoc, Hparse; by eauto 10).
  destruct (DependencyGraph.addDocument _ _ _) as [r3 g'] eqn:Hadd.
  rewrite Hdoc, Hparse in Hadd.
  apply addDocument_recorded in Hadd as (Hmono & Hother & Hown).
  destruct r3 as [err|[]]; injection Hrun as <- <-; simpl.
  - split; [done|]. split; [done|]. intros deps Hdeps.
    destruct (Hown deps Hdeps) as [?|?]; [by left|done].
  - split; [done|]. split; [done|]. intros deps Hdeps. right. by eexists.
Qed.

(** Settling one promise leaves the others as they are. *)
Lemma observe_settle {V} p (r : Completion V) c q :
  AsyncWorkCache.observe q (AsyncWorkCache.settle p r c)
  = if decide (q = p)
    then match AsyncWorkCache.settled c !! p with Some x => x | None => r end
    else AsyncWorkCache.observe q c.
Proof.
  unfold AsyncWorkCache.observe, AsyncWorkCache.settle.
  destruct (decide (q = p)) as [->|Hne].
  - destruct r, (AsyncWorkCache.settled c !! p) eqn:Hp; simpl;
      by rewrite ?lookup_insert_eq, ?Hp.
  - destruct r, (AsyncWorkCache.settled c !! p); simpl;
      by rewrite ?lookup_insert_ne.
Qed.

Lemma consistent_settle {V} p (r : Completion V) c :
  AsyncWorkCache.consistent c → AsyncWorkCache.consistent (AsyncWorkCache.settle p r c).
Proof.
  intros Hc key q. by destruct (settle_keeps c p r) as [-> ->].
Qed.

(** A request for a fresh key leaves the promises of the other keys as
    they are, and gives the key a pending promise. *)
Lemma getOrCompute_fresh_other {V} (c : AsyncWorkCache.AsyncWorkCache V) key u q :
  AsyncWorkCache.consistent c →
  AsyncWorkCache._keyToResultMap c !! key = None →
  AsyncWorkCache._keyToResultMap c !! u = Some q →
  AsyncWorkCache._keyToResultMap (AsyncWorkCache.getOrCompute key c).2 !! u
  = Some q ∧
  AsyncWorkCache.observe q (AsyncWorkCache.getOrCompute key c).2
  = AsyncWorkCache.observe q c ∧
  q ≠ length (AsyncWorkCache.calls c).
Proof.
  intros Hc Hkey Hu. unfold AsyncWorkCache.getOrCompute. rewrite Hkey. simpl.
  assert (q < length (AsyncWorkCache.calls c)) as Hq.
  { apply Hc in Hu. by eapply lookup_lt_Some. }
  split; [|split; [|lia]].
  - rewrite lookup_insert_ne; [done|congruence].
  - unfold AsyncWorkCache.observe. simpl. rewrite lookup_delete_ne; [done|lia].
Qed.

Lemma _scanLocal_advances this fuel resolvedUrl contents s r s' :
  _scanLocal this fuel resolvedUrl contents s = Some (r, s') → advances s s'.
Proof.
  unfold _scanLocal, getOrComputeRec.
  destruct (AsyncWorkCache._keyToResultMap (scannedDocumentPromises (cache s))
              !! resolvedUrl) as [p|] eqn:Hkey.
  { rewrite (request_registered scannedSlot resolvedUrl p s
               lawful_scannedSlot Hkey).
    intros [= <- <-]. apply advances_refl. }
  unfold request.
  set (c := get scannedSlot (cache s)).
  pose proof (getOrCompute_registers c resolvedUrl) as Hreg.
  assert (∃ c0, AsyncWorkCache.getOrCompute resolvedUrl c
                = (length (AsyncWorkCache.calls c), true, c0) ∧
                AsyncWorkCache.settled c0 !! length (AsyncWorkCache.calls c)
                = None) as (c0 & Hreq & Hp).
  { unfold AsyncWorkCache.getOrCompute. subst c. simpl. rewrite Hkey.
    eexists. split; [done|]. simpl. by rewrite lookup_delete_eq. }
  rewrite Hreq in Hreg |- *. simpl in Hreg.
  set (p := length (AsyncWorkCache.calls c)) in *.
  set (s0 := withCache (set scannedSlot c0) s).
  destruct (_scanLocalCompute this fuel resolvedUrl contents s0)
    as [[r0 s1]|] eqn:Hc; simpl; [|done].
  intros [= <- <-].
  apply _scanLocalCompute_core in Hc as (HS & HD & Hmono & Hother & Hown).
  simpl in HS, HD, Hmono, Hother, Hown.
  split.
  - intros (HcS & HcD & Inv1 & Inv2).
    assert (AsyncWorkCache.consistent c0) as Hc0.
    { pose proof (consistent_getOrCompute c resolvedUrl HcS) as H0.
      by rewrite Hreq in H0. }
    split; [|split; [|split]]; simpl.
    + rewrite HS. by apply consistent_settle.
    + by rewrite HD.
    + intros u deps Hu. unfold promiseOf. simpl. rewrite HS.
      destruct (settle_keeps c0 p r0) as [-> _].
      destruct (decide (u = resolvedUrl)) as [->|Hne].
      * rewrite Hreg. simpl. rewrite observe_settle, Hp.
        destruct (decide (p = p)) as [_|]; [|done].
        destruct (Hown deps Hu) as [[deps0 Hdeps0]|[ref ->]]; [|by eexists].
        destruct (Inv1 _ _ Hdeps0) as [ref Href].
        unfold promiseOf in Href. simpl in Href. by rewrite Hkey in Href.
      * destruct (Inv1 u deps (Hother u deps Hne Hu)) as [ref Href].
        unfold promiseOf in Href. simpl in Href.
        destruct (AsyncWorkCache._keyToResultMap _ !! u) as [q|] eqn:Hq;
          [|done].
        destruct (getOrCompute_fresh_other c resolvedUrl u q HcS Hkey Hq)
          as (Hq0 & Hobs & Hqp).
        rewrite Hreq in Hq0, Hobs. simpl in Hq0, Hobs.
        rewrite Hq0. simpl. rewrite observe_settle.
        destruct (decide (q = p)); [done|]. rewrite Hobs. by exists ref.
    + intros u ref Hu v Hv.
      assert (promiseOf dependenciesSlot u s = Some (Fulfilled ref)) as Hu0.
      { unfold promiseOf in *. simpl in *. by rewrite HD in Hu. }
      by apply (reachable_stable _ _ u Hmono (Inv2 u ref Hu0)).
  - intros k q. unfold registered. simpl. by rewrite HD.
Qed.

Lemma awaitReady_advances resolvedUrl s : advances s (awaitReady resolvedUrl s).2.
Proof.
  unfold awaitReady.
  pose proof (whenReady_keeps_recorded resolvedUrl (dependencyGraph (cache s)))
    as Hrec.
  destruct (DependencyGraph.whenReady _ _) as [r g]. simpl in *.
  assert (∀ u v, reachable g u v ↔ reachable (dependencyGraph (cache s)) u v)
    as Hreach.
  { intros u v. unfold reachable. split; apply rtc_subrel;
      intros a b (deps & Hdeps & Hb); exists deps; by split; [apply Hrec|]. }
  split; [|done].
  intros (HcS & HcD & Inv1 & Inv2). split; [done|]. split; [done|]. split.
  - intros u deps Hu%Hrec. by apply Inv1 in Hu.
  - intros u ref Hu v Hv%Hreach.
    destruct (Inv2 u ref Hu v Hv) as [deps Hdeps]. exists deps. by apply Hrec.
Qed.

Lemma scanImports_advances this scan scannedDocument :
  (∀ importUrl s0 r0 s1, scan importUrl s0 = Some (r0, s1) → advances s0 s1) →
  ∀ imports s s',
    scanImports this scan scannedDocument imports s = Some s' → advances s s'.
Proof.
  intros Hscan. induction imports as [|scannedImport rest IH]; intros s s'.
  { intros [= <-]. apply advances_refl. }
  cbn [scanImports].
  destruct (scan _ s) as [[[ref|error|] s0]|] eqn:Hs; [| | |done];
    apply Hscan in Hs; intros Hrest%IH;
    (eapply advances_trans; [exact Hs|]); [done| |done].
  eapply advances_trans; [|exact Hrest]. by apply advances_keeps.
Qed.

(** Settling the promise of a transitive scan keeps the invariant when a
    fulfilment comes with every URL reachable from the scanned one having
    its successors recorded. *)
Lemma finish_dependencies_advances resolvedUrl p r s :
  registered dependenciesSlot resolvedUrl p s →
  (∀ ref, r = Fulfilled ref →
     ∀ v, reachable (dependencyGraph (cache s)) resolvedUrl v →
       ∃ deps, recorded (dependencyGraph (cache s)) v deps) →
  advances s (finish dependenciesSlot p r s).2.
Proof.
  intros Hreg Hready. split.
  - intros (HcS & HcD & Inv1 & Inv2).
    split; [done|]. split; [by apply consistent_settle|]. split; [done|].
    intros u ref Hu. unfold promiseOf in Hu. simpl in Hu.
    destruct (settle_keeps (dependenciesScannedPromises (cache s)) p r)
      as [Hmap _].
    rewrite Hmap in Hu.
    destruct (AsyncWorkCache._keyToResultMap _ !! u) as [q|] eqn:Hq; [|done].
    simpl in Hu. rewrite observe_settle in Hu.
    destruct (decide (q = p)) as [->|Hne].
    + assert (u = resolvedUrl) as ->.
      { apply HcD in Hq. apply HcD in Hreg. congruence. }
      destruct (AsyncWorkCache.settled _ !! p) as [x|] eqn:Hp.
      * apply (Inv2 resolvedUrl ref). unfold promiseOf. simpl.
        rewrite Hq. simpl. unfold AsyncWorkCache.observe. by rewrite Hp.
      * injection Hu as ->. by apply (Hready ref).
    + apply (Inv2 u ref). unfold promiseOf. simpl. by rewrite Hq.
  - intros k q. unfold registered. simpl.
    by destruct (settle_keeps (dependenciesScannedPromises (cache s)) p r)
      as [-> _].
Qed.

Lemma request_dependencies_advances resolvedUrl s :
  advances s (request dependenciesSlot resolvedUrl s).2.
Proof.
  split.
  - intros (HcS & HcD & Inv1 & Inv2).
    destruct (AsyncWorkCache._keyToResultMap
                (dependenciesScannedPromises (cache s)) !! resolvedUrl)
      as [p|] eqn:Hkey.
    { by rewrite (request_registered dependenciesSlot resolvedUrl p s
                    lawful_dependenciesSlot Hkey). }
    unfold request.
    pose proof (consistent_getOrCompute _ resolvedUrl HcD) as Hc0.
    assert (∀ u q,
      AsyncWorkCache._keyToResultMap (dependenciesScannedPromises (cache s))
        !! u = Some q →
      AsyncWorkCache._keyToResultMap
        (AsyncWorkCache.getOrCompute resolvedUrl
           (dependenciesScannedPromises (cache s))).2 !! u = Some q ∧
      AsyncWorkCache.observe q
        (AsyncWorkCache.getOrCompute resolvedUrl
           (dependenciesScannedPromises (cache s))).2
      = AsyncWorkCache.observe q (dependenciesScannedPromises (cache s)))
      as Hother.
    { intros u q Hq.
      destruct (getOrCompute_fresh_other _ resolvedUrl u q HcD Hkey Hq)
        as (? & ? & _). by split. }
    change (get dependenciesSlot (cache s))
      with (dependenciesScannedPromises (cache s)).
    destruct (AsyncWorkCache.getOrCompute resolvedUrl
                (dependenciesScannedPromises (cache s)))
      as [[p invoked] c0] eqn:Hreq.
    simpl in *. split; [done|]. split; [done|]. split; [done|].
    intros u ref Hu. apply (Inv2 u ref).
    unfold promiseOf in *. simpl in *.
    destruct (decide (u = resolvedUrl)) as [->|Hne].
    + exfalso. revert Hu Hreq. unfold AsyncWorkCache.getOrCompute.
      rewrite Hkey. intros Hu [= <- <- <-]. simpl in Hu.
      rewrite lookup_insert_eq in Hu. simpl in Hu.
      unfold AsyncWorkCache.observe in Hu. simpl in Hu.
      by rewrite lookup_delete_eq in Hu.
    + destruct (AsyncWorkCache._keyToResultMap
                  (dependenciesScannedPromises (cache s)) !! u) as [q|] eqn:Hq.
      * destruct (Hother u q Hq) as (Hq0 & Hobs).
        rewrite Hq0 in Hu. simpl in *. by rewrite <- Hobs.
      * revert Hu Hreq. unfold AsyncWorkCache.getOrCompute.
        rewrite Hkey. intros Hu [= <- <- <-]. simpl in Hu.
        rewrite lookup_insert_ne in Hu by done. by rewrite Hq in Hu.
  - intros k q. apply request_keeps_registered, lawful_dependenciesSlot.
Qed.

Lemma awaitReady_returned resolvedUrl s s' :
  awaitReady resolvedUrl s = (Returned, s') →
  ∀ v, reachable (dependencyGraph (cache s')) resolvedUrl v →
    ∃ deps, recorded (dependencyGraph (cache s')) v deps.
Proof.
  unfold awaitReady.
  pose proof (whenReady_keeps_recorded resolvedUrl (dependencyGraph (cache s)))
    as Hrec.
  destruct (DependencyGraph.whenReady _ _) as [r g] eqn:Hready.
  intros [= -> <-]. simpl in *.
  pose proof (whenReady_returned _ _ _ Hready) as Hall.
  intros v Hv.
  assert (reachable (dependencyGraph (cache s)) resolvedUrl v) as Hv'.
  { revert Hv. unfold reachable. apply rtc_subrel.
    intros a b (deps & Hdeps & Hb). exists deps. by split; [apply Hrec|]. }
  destruct (Hall v Hv') as [deps Hdeps]. exists deps. by apply Hrec.
Qed.

(** The transitive scan keeps the invariant. *)
Lemma _scan_advances this fuel : ∀ resolvedUrl contents s r s',
  _scan this fuel resolvedUrl contents s = Some (r, s') → advances s s'.
Proof.
  induction fuel as [|fuel IH]; intros resolvedUrl contents s r s'; [done|].
  cbn [_scan]. unfold getOrComputeRec.
  pose proof (request_dependencies_advances resolvedUrl s) as Hreq.
  pose proof (getOrCompute_registers (dependenciesScannedPromises (cache s))
                resolvedUrl) as Hreg.
  assert (registered dependenciesSlot resolvedUrl
            (request dependenciesSlot resolvedUrl s).1.1
            (request dependenciesSlot resolvedUrl s).2) as Hreg'.
  { unfold registered, request.
    change (get dependenciesSlot (cache s))
      with (dependenciesScannedPromises (cache s)).
    by destruct (AsyncWorkCache.getOrCompute resolvedUrl _) as [[p i] c0]. }
  clear Hreg.
  destruct (request dependenciesSlot resolvedUrl s) as [[p invoked] s0].
  simpl in Hreq, Hreg'.
  destruct invoked; [|by intros [= <- <-]].
  unfold andThenRec.
  destruct (_scanLocal this fuel resolvedUrl contents s0) as [[r1 s1]|] eqn:Hlocal;
    simpl; [|done].
  apply _scanLocal_advances in Hlocal.
  assert (∀ r4 s4, advances s0 s4 →
            (∀ ref, r4 = Fulfilled ref →
               ∀ v, reachable (dependencyGraph (cache s4)) resolvedUrl v →
                 ∃ deps, recorded (dependencyGraph (cache s4)) v deps) →
            advances s (finish dependenciesSlot p r4 s4).2) as Hfinish.
  { intros r4 s4 Hbody Hready.
    eapply advances_trans; [exact Hreq|].
    eapply advances_trans; [exact Hbody|].
    apply (finish_dependencies_advances resolvedUrl); [|done].
    by apply Hbody. }
  assert (∀ (x : Completion Ref * State), Some x = Some (r, s') → x.2 = s')
    as Hsnd by (by intros x [= ->]).
  destruct r1 as [scannedDocument|e|]; simpl;
    try (intros <-%Hsnd; by apply Hfinish).
  destruct (scanImports this _ scannedDocument _ s1) as [s2|] eqn:Himports;
    simpl; [|done].
  apply scanImports_advances in Himports; [|intros ? ? ? ?; apply IH].
  pose proof (awaitReady_advances resolvedUrl s2) as Hready.
  pose proof (awaitReady_returned resolvedUrl s2) as Hreturned.
  destruct (awaitReady resolvedUrl s2) as [o s3]. simpl in Hready.
  assert (advances s0 s3) as Hbody.
  { eapply advances_trans; [exact Hlocal|].
    eapply advances_trans; [exact Himports|exact Hready]. }
  destruct o; intros <-%Hsnd; apply Hfinish; try done.
  intros ref _. by apply Hreturned.
Qed.

Lemma resume_advances s resolvedUrl : advances s (resume s resolvedUrl).
Proof.
  unfold resume.
  destruct (promiseOf dependenciesSlot resolvedUrl s) as [[| |]|];
    try apply advances_refl.
  destruct (promiseOf scannedSlot resolvedUrl s) as [[scannedDocument| |]|];
    try apply advances_refl.
  destruct (_ !! resolvedUrl) as [p|] eqn:Hp; try apply advances_refl.
  pose proof (awaitReady_advances resolvedUrl s) as Hready.
  pose proof (awaitReady_returned resolvedUrl s) as Hreturned.
  destruct (awaitReady resolvedUrl s) as [[] s0]; try done.
  eapply advances_trans; [exact Hready|].
  apply (finish_dependencies_advances resolvedUrl).
  - by apply Hready.
  - intros ref _. by apply Hreturned.
Qed.

Lemma drain_advances s : advances s (drain s).
Proof.
  unfold drain.
  generalize (AsyncWorkCache.calls (dependenciesScannedPromises (cache s))).
  intros keys. revert s. induction keys as [|key keys IH]; intros s.
  { apply advances_refl. }
  simpl. eapply advances_trans; [apply resume_advances|apply IH].
Qed.

Lemma _getDocument_advances this url s :
  resolvesApart this → advances s (_getDocument this url s).2.
Proof.
  intros Hres. apply advances_keeps. unfold _getDocument.
  destruct (analyzedDocuments (cache s) !! _) as [cachedResult|]; [done|].
  destruct (scannedDocuments (cache s) !! _) as [scannedDocument|]; [|done].
  simpl. eapply (keeps_trans core); [|apply Hres].
  eapply (keeps_trans core); [|by apply keeps_getOrCompute]. done.
Qed.

Lemma analyzeCompute_advances this fuel url resolvedUrl contents s r s' :
  resolvesApart this →
  analyzeCompute this fuel url resolvedUrl contents s = Some (r, s') →
  advances s s'.
Proof.
  intros Hres. unfold analyzeCompute.
  destruct (_scan this fuel resolvedUrl contents s) as [[r0 s0]|] eqn:Hscan;
    simpl; [|done].
  apply _scan_advances in Hscan.
  pose proof (drain_advances s0) as Hdrain.
  assert (advances s (drain s0)) as Hboth by by eapply advances_trans.
  destruct (promiseOf dependenciesSlot resolvedUrl (drain s0)) as [[ref|e|]|];
    try by intros [= <- <-].
  pose proof (_getDocument_advances this (urlOf (drain s0) ref) (drain s0) Hres)
    as Hdoc.
  destruct (_getDocument this _ (drain s0)) as [document s1].
  intros [= <- <-]. eapply advances_trans; [exact Hboth|].
  eapply advances_trans; [exact Hdoc|]. by apply advances_keeps.
Qed.

Lemma analyze_advances this fuel url contents s r s' :
  resolvesApart this →
  analyze this fuel url contents s = Some (r, s') → advances s s'.
Proof.
  intros Hres. unfold analyze, getOrComputeRec.
  pose proof (keeps_request core analyzedSlot (_resolveUrl this url) s
                (λ _ _, eq_refl)) as Hreq.
  destruct (request analyzedSlot _ s) as [[p invoked] s0]. simpl in Hreq.
  destruct invoked; [|intros [= <- <-]; by apply advances_keeps].
  destruct (analyzeCompute this fuel url _ contents s0) as [[r0 s1]|] eqn:Hc;
    simpl; [|done].
  apply analyzeCompute_advances in Hc; [|done].
  assert (∀ (x : Completion (option Document) * State),
            Some x = Some (r, s') → x.2 = s') as Hsnd by (by intros x [= ->]).
  intros <-%Hsnd.
  eapply advances_trans; [by apply advances_keeps|].
  eapply advances_trans; [exact Hc|].
  apply advances_keeps. by apply keeps_finish.
Qed.

Lemma analyzeAll_advances this fuel files : ∀ s r s',
  resolvesApart this →
  analyzeAll this fuel files s = Some (r, s') → advances s s'.
Proof.
  induction files as [|f rest IH]; intros s r s' Hres.
  { intros [= <- <-]. apply advances_refl. }
  cbn [analyzeAll]. unfold _analyzeOrWarning.
  destruct (analyze this fuel f Undefined s) as [[r0 s0]|] eqn:Hone;
    simpl; [|done].
  apply analyze_advances in Hone; [|done].
  assert (∀ (x : Completion (list DocumentOrWarning) * State),
            match x with (_, s1) => advances s0 s1 end →
            Some x = Some (r, s') → advances s s') as Hend.
  { intros [r1 s1] H1 [= <- <-]. by eapply advances_trans. }
  assert (∀ (r1 : Completion DocumentOrWarning),
            ('(rs, s1) ← analyzeAll this fuel rest s0;
             match r1, rs with
             | Fulfilled x, Fulfilled xs => Some (Fulfilled (x :: xs), s1)
             | Rejected e, _ => Some (Rejected e, s1)
             | _, Rejected e => Some (Rejected e, s1)
             | _, _ => Some (Pending, s1)
             end) = Some (r, s') → advances s s') as Hrest.
  { intros r1.
    destruct (analyzeAll this fuel rest s0) as [[rs s1]|] eqn:Hall;
      simpl; [|done].
    apply IH in Hall; [|done].
    destruct r1, rs; intros [= <- <-]; by eapply advances_trans. }
  destruct r0 as [[document|]|e|].
  - exact (Hrest (Fulfilled (IsDocument document))).
  - exact (Hrest (Fulfilled IsUndefined)).
  - destruct (cls e) as [| |warning|];
      [exact (Hrest (Fulfilled (IsWarning (unableToAnalyze this f e))))
      |exact (Hrest (Fulfilled (IsWarning (unableToAnalyze this f e))))
      |exact (Hrest (Fulfilled (IsWarning warning)))
      |exact (Hrest (Fulfilled (IsWarning (unableToAnalyze this f e))))].
  - exact (Hrest Pending).
Qed.

Lemma Invariant_initial : Invariant initial.
Proof.
  unfold Invariant, initial, promiseOf, recorded. simpl.
  repeat split; done.
Qed.

(** A document that imports a URL whose local scan has failed never has
    its transitive scan completed. *)
Theorem failed_import_never_completes s url importUrl e ref :
  Invariant s →
  edge (dependencyGraph (cache s)) url importUrl →
  promiseOf scannedSlot importUrl s = Some (Rejected e) →
  promiseOf dependenciesSlot url s ≠ Some (Fulfilled ref).
Proof.
  intros (_ & _ & Inv1 & Inv2) Hedge Hfailed Hdone.
  destruct (Inv2 url ref Hdone importUrl) as [deps Hdeps].
  { by apply rtc_once. }
  destruct (Inv1 importUrl deps Hdeps) as [ref' Href']. congruence.
Qed.

(** Whatever files have been analysed from the initial state, and however
    far their scans got, no document importing a URL whose local scan has
    failed has its own transitive scan completed. *)
Corollary importer_of_failed_import_stays_incomplete
    this fuel files r s' url importUrl e ref :
  resolvesApart this →
  analyzeAll this fuel files initial = Some (r, s') →
  edge (dependencyGraph (cache s')) url importUrl →
  promiseOf scannedSlot importUrl s' = Some (Rejected e) →
  promiseOf dependenciesSlot url s' ≠ Some (Fulfilled ref).
Proof.
  intros Hres Hrun. apply failed_import_never_completes.
  apply analyzeAll_advances in Hrun; [|done].
  apply Hrun, Invariant_initial.
Qed.

End ReadinessFacts.

(** ** The site, analysed *)

Section SiteFacts.
Import Warnings Js Utils Model AnalysisCache AnalyzerCacheContext.
Import AsyncCyclicTransitivePromiseAll.

(** The site's documents resolve without touching the scans. *)
Lemma context_resolvesApart : Readiness.resolvesApart Site.context.
Proof. done. Qed.

(** The catch block of [_scan] does not look at the class of the error. *)
Lemma couldNotLoad_any_class scannedImport error :
  code (couldNotLoad scannedImport error) = "could-not-load" ∧
  severity (couldNotLoad scannedImport error) = ERROR ∧
  sourceRange (couldNotLoad scannedImport error) = importRange scannedImport.
Proof. done. Qed.

(** A rejected scan of an import leaves a warning on the importing
    document and the loop goes on with the next import. *)
Lemma scanImports_rejected this scan scannedDocument scannedImport rest
    s error s1 :
  scan (_resolveUrl this (importUrl scannedImport)) s = Some (Rejected error, s1) →
  scanImports this scan scannedDocument (scannedImport :: rest) s
  = scanImports this scan scannedDocument rest
      (pushWarning scannedDocument (couldNotLoad scannedImport error) s1).
Proof. intros Hscan. cbn [scanImports]. by rewrite Hscan. Qed.

(** C3, on the code.  [d.html] imports [x.foo] eagerly and no parser is
    registered for [foo].  With any budget from 5 on, the scan of [x.foo]
    is rejected with a [NoKnownParserError], and the importing document
    ends up with a [could-not-load] warning for that import; the scan of
    [d.html] itself is never completed, because the successors of [x.foo]
    are never recorded. *)
Theorem unsupported_import_is_not_swallowed (extra : nat) :
  ∃ s' importer,
    analyze Site.context (5 + extra) "d.html" Undefined initial
    = Some (Pending, s') ∧
    promiseOf dependenciesSlot "x.foo" s'
    = Some (Rejected (newNoKnownParserError "No parser for for file type foo")) ∧
    scannedDocuments (cache s') !! "d.html" = Some 0 ∧
    heap s' !! 0 = Some importer ∧
    warnings importer
    = [mkWarning (Site.at_ "d.html" 0) "could-not-load"
         "Unable to load import: No parser for for file type foo" ERROR] ∧
    promiseOf dependenciesSlot "d.html" s' = Some Pending ∧
    dependencyGraph (cache s') !! "x.foo" = Some Empty.
Proof.
  assert (∃ s' importer,
    analyze Site.context 5 "d.html" Undefined initial = Some (Pending, s') ∧
    promiseOf dependenciesSlot "x.foo" s'
    = Some (Rejected (newNoKnownParserError "No parser for for file type foo")) ∧
    scannedDocuments (cache s') !! "d.html" = Some 0 ∧
    heap s' !! 0 = Some importer ∧
    warnings importer
    = [mkWarning (Site.at_ "d.html" 0) "could-not-load"
         "Unable to load import: No parser for for file type foo" ERROR] ∧
    promiseOf dependenciesSlot "d.html" s' = Some Pending ∧
    dependencyGraph (cache s') !! "x.foo" = Some Empty)
    as (s' & importer & Hrun & Hrest).
  { vm_compute. eexists _, _. repeat split. }
  exists s', importer. split; [by apply analyze_budget|exact Hrest].
Qed.

(** C4, on the code.  [a.html] imports [missing.html], which cannot be
    loaded, and [b.html].  With any budget from 5 on, the importing
    document gets the [could-not-load] warning, with severity [ERROR] and
    the source range of the import's URL, and the sibling [b.html] is
    scanned to the end; but the scan of [a.html] is never completed: it
    waits for the successors of [missing.html], which are never
    recorded. *)
Theorem failed_import_blocks_importer (extra : nat) :
  ∃ s' importer,
    analyze Site.context (5 + extra) "a.html" Undefined initial
    = Some (Pending, s') ∧
    scannedDocuments (cache s') !! "a.html" = Some 0 ∧
    heap s' !! 0 = Some importer ∧
    warnings importer
    = [mkWarning (Site.at_ "a.html" 5) "could-not-load"
         "Unable to load import: Can't load URL: missing.html" ERROR] ∧
    promiseOf dependenciesSlot "b.html" s' = Some (Fulfilled 1) ∧
    promiseOf dependenciesSlot "a.html" s' = Some Pending ∧
    DependencyGraph.whenReady "a.html" (dependencyGraph (cache s'))
    = (Suspended "missing.html", dependencyGraph (cache s')).
Proof.
  assert (∃ s' importer,
    analyze Site.context 5 "a.html" Undefined initial = Some (Pending, s') ∧
    scannedDocuments (cache s') !! "a.html" = Some 0 ∧
    heap s' !! 0 = Some importer ∧
    warnings importer
    = [mkWarning (Site.at_ "a.html" 5) "could-not-load"
         "Unable to load import: Can't load URL: missing.html" ERROR] ∧
    promiseOf dependenciesSlot "b.html" s' = Some (Fulfilled 1) ∧
    promiseOf dependenciesSlot "a.html" s' = Some Pending ∧
    DependencyGraph.whenReady "a.html" (dependencyGraph (cache s'))
    = (Suspended "missing.html", dependencyGraph (cache s')))
    as (s' & importer & Hrun & Hrest).
  { vm_compute. eexists _, _. repeat split. }
  exists s', importer. split; [by apply analyze_budget|exact Hrest].
Qed.

(** Mutually importing documents are scanned to the end. *)
Lemma cyclic_imports_complete :
  ∃ s', analyze Site.context 5 "p.html" Undefined initial
        = Some (Fulfilled (Some (mkDocument 0)), s') ∧
        promiseOf dependenciesSlot "q.html" s' = Some (Fulfilled 1).
Proof. vm_compute. eexists. by split. Qed.

(** C7, against the claim as first stated: the failure of [bad.html]
    carries a warning, and the outcome is that warning with its own code,
    not [unable-to-analyze]. *)
Lemma structured_failure_keeps_its_code :
  ∃ s1 s2,
    analyze Site.context 5 "bad.html" Undefined initial
    = Some (Rejected (newWarningCarryingException Site.parseError), s1) ∧
    _analyzeOrWarning Site.context 5 "bad.html" initial
    = Some (Fulfilled (IsWarning Site.parseError), s2) ∧
    code Site.parseError = "parse-error" ∧
    code Site.parseError ≠ "unable-to-analyze".
Proof. vm_compute. eexists _, _. repeat split. discriminate. Qed.

Lemma cyclicPair_recorded k :
  reachable Site.cyclicPair "A" k → ∃ deps, recorded Site.cyclicPair k deps.
Proof.
  intros Hk. assert (k = "A" ∨ k = "B") as [-> | ->].
  { revert k Hk. apply rtc_ind_r; [by left|].
    intros y z _ (deps & Hdeps & Hz) [-> | ->];
      vm_compute in Hdeps; injection Hdeps as <-;
      apply list_elem_of_singleton in Hz; auto. }
  - by exists ["B"].
  - by exists ["A"].
Qed.

Lemma promiseAllTransitive_returns_witness :
  ∃ w', promiseAllTransitive 3 "A" Site.cyclicPair = (Returned, w') ∧
        deferreds w' = Site.cyclicPair ∧
        NoDup (descents w') ∧
        (∀ k, k ∈ descents w' ↔ reachable Site.cyclicPair "A" k).
Proof.
  apply promiseAllTransitive_returns; [exact cyclicPair_recorded|].
  vm_compute. lia.
Defined.

Lemma cyclic_pair_descents :
  (promiseAllTransitive 3 "A" Site.cyclicPair).1 = Returned ∧
  descents (promiseAllTransitive 3 "A" Site.cyclicPair).2 = ["A"; "B"] ∧
  (promiseAllTransitive 3 "B" Site.cyclicPair).1 = Returned ∧
  descents (promiseAllTransitive 3 "B" Site.cyclicPair).2 = ["B"; "A"].
Proof. by vm_compute. Qed.

Lemma nonlazy_imports_are_the_edges_witness :
  recorded (dependencyGraph (cache Site.afterLocalScan)) "c.html" ["b.html"] ∧
  ¬ edge (dependencyGraph (cache Site.afterLocalScan)) "c.html" "lazy.html".
Proof.
  destruct (nonlazy_imports_are_the_edges Site.context 5 "c.html" Undefined
              initial 0 Site.afterLocalScan) as [Hrec Hedge].
  - vm_compute. reflexivity.
  - vm_compute. reflexivity.
  - split; [exact Hrec|].
    intros (deps & Hdeps & Hin).
    pose proof (recorded_functional _ _ _ _ Hrec Hdeps) as <-.
    vm_compute in Hin. apply list_elem_of_singleton in Hin. discriminate.
Defined.

Lemma load_guard_witness :
  load Site.context "missing.html" (Str "<p>") initial
  = (Rejected (newError "Can't load URL: missing.html"), initial) ∧
  ∃ contents, Str "<p>" = Str contents ∧
    load Site.context "b.html" (Str "<p>") initial = (Fulfilled contents, initial).
Proof.
  split.
  - apply (load_guard Site.context "missing.html" (Str "<p>") initial).
    vm_compute. reflexivity.
  - apply (load_guard Site.context "b.html" (Str "<p>") initial).
    + vm_compute. reflexivity.
    + reflexivity.
Defined.

Lemma failures_become_warnings_witness :
  ∃ s',
    analyzeAll Site.context 5 ["bad.html"; "b.html"; "missing.html"] initial
    = Some (Fulfilled
              [IsWarning Site.parseError; IsDocument (mkDocument 0);
               IsWarning (unableToAnalyze Site.context "missing.html"
                            (newError "Can't load URL: missing.html"))], s') ∧
    analyzePackage Site.context 5 initial
    = '(rs, s') ← Batch.analyzeEach Site.context 5 ["a.html"; "bad.html"; "b.html"] initial;
      Some (match Batch.promiseAll rs with
            | Fulfilled outcomes =>
                Fulfilled (mkPackage (documentsOf outcomes) (warningsOf outcomes))
            | Rejected e => Rejected e
            | Pending => Pending
            end, s').
Proof.
  destruct (failures_become_warnings Site.context 5)
    as (_ & _ & Hall & _ & _ & Hpackage).
  eexists. split.
  - rewrite Hall. vm_compute. reflexivity.
  - apply (Hpackage (λ _ _, Fulfilled ["a.html"; "bad.html"; "b.html"; "notes.txt";
                                        "bower_components/x.html"])
             ["a.html"; "bad.html"; "b.html"; "notes.txt";
              "bower_components/x.html"] initial);
      reflexivity.
Defined.

Lemma fork_snapshot_isolation_witness :
  ∃ this' h',
    Fork.clearCaches Site.context0 Site.store1 = (this', h') ∧
    Fork.forked Site.context0 Site.store1 this' h' AnalysisCache.new ∧
    h' !! Fork._cache Site.context0 = Some (Fork.Cache AnalysisCache.new).
Proof.
  apply (fork_snapshot_isolation (λ cache _, cache) (λ url, url)
           Site.context0 ["a.html"] Site.store1 AnalysisCache.new).
  vm_compute. reflexivity.
Defined.

End SiteFacts.

(** ** The cells of the join *)

Section CellFacts.
Import Utils AsyncCyclicTransitivePromiseAll Cells.
Context {Key : Type} `{Countable Key}.
Implicit Types (ds F : gmap Key (Deferred (list Key))) (w : Walk (Key:=Key)).

Lemma grows_refl ds : grows ds ds.
Proof. intros k. by left. Qed.

Lemma grows_trans ds1 ds2 ds3 : grows ds1 ds2 → grows ds2 ds3 → grows ds1 ds3.
Proof.
  intros H12 H23 k. destruct (H12 k) as [E12|[N1 E2]], (H23 k) as [E23|[N2 E3]].
  - left. congruence.
  - right. split; congruence.
  - right. split; congruence.
  - congruence.
Qed.

Lemma grows_recorded ds ds' u deps :
  grows ds ds' → recorded ds' u deps ↔ recorded ds u deps.
Proof.
  intros Hg. unfold recorded. destruct (Hg u) as [->|[Hn He]]; [done|].
  rewrite Hn, He. split; discriminate.
Qed.

Lemma grows_reachable ds ds' a b :
  grows ds ds' → reachable ds' a b ↔ reachable ds a b.
Proof.
  intros Hg. unfold reachable.
  split; apply rtc_subrel; intros x y (deps & Hdeps & Hy); exists deps;
    (split; [|done]); by apply (grows_recorded ds ds').
Qed.

Lemma _getDeferredFor_grows ds key : grows ds (_getDeferredFor key ds).2.
Proof.
  intros k. unfold _getDeferredFor. simpl.
  destruct (decide (k = key)) as [->|Hne].
  - rewrite lookup_insert_eq. destruct (ds !! key); simpl; [by left|by right].
  - rewrite lookup_insert_ne by done. by left.
Qed.

Lemma forEach_grows (f : Key → Walk → Outcome * Walk) deps :
  (∀ dep w, grows (deferreds w) (deferreds (f dep w).2)) →
  ∀ w, grows (deferreds w) (deferreds (forEach f deps w).2).
Proof.
  intros Hf. induction deps as [|dep deps IH]; intros w; simpl.
  { apply grows_refl. }
  pose proof (Hf dep w) as Hd.
  destruct (f dep w) as [[] w1]; simpl in *; try done.
  eapply grows_trans; [exact Hd|apply IH].
Qed.

Lemma _transitiveAwait_grows fuel : ∀ key w,
  grows (deferreds w) (deferreds (_transitiveAwait fuel key w).2).
Proof.
  induction fuel as [|fuel IH]; intros key w; [apply grows_refl|].
  cbn [_transitiveAwait]. destruct (decide (key ∈ visited w)); [apply grows_refl|].
  pose proof (_getDeferredFor_grows (deferreds w) key) as Hg.
  destruct (_getDeferredFor key (deferreds w)) as [deferred ds1]. simpl in Hg.
  destruct (promise deferred) as [deps|]; [|done].
  eapply grows_trans; [exact Hg|].
  by apply (forEach_grows (_transitiveAwait fuel) deps IH
              (mkWalk ds1 ({[key]} ∪ visited w) (descents w ++ [key]))).
Qed.

(** X3. Whatever its outcome, [promiseAllTransitive] changes the map of
    cells only by creating empty cells for keys that had none: every cell
    that was there is still there as it was, so what is recorded and what
    is reachable stay the same. *)
Theorem promiseAllTransitive_adds_empty_cells_only fuel key ds :
  let ds' := deferreds (promiseAllTransitive fuel key ds).2 in
  (∀ k, ds' !! k = ds !! k ∨ (ds !! k = None ∧ ds' !! k = Some Empty)) ∧
  (∀ k deps, recorded ds' k deps ↔ recorded ds k deps) ∧
  (∀ a b, reachable ds' a b ↔ reachable ds a b).
Proof.
  pose proof (_transitiveAwait_grows fuel key (mkWalk ds ∅ [])) as Hg.
  split; [exact Hg|]. split.
  - intros k deps. by apply grows_recorded.
  - intros a b. by apply grows_reachable.
Qed.

Lemma forEach_suspended (f : Key → Walk → Outcome * Walk) deps :
  (∀ dep w, grows (deferreds w) (deferreds (f dep w).2)) →
  ∀ w k w', forEach f deps w = (Suspended k, w') →
    ∃ dep w1, dep ∈ deps ∧ grows (deferreds w) (deferreds w1) ∧
              f dep w1 = (Suspended k, w').
Proof.
  intros Hf. induction deps as [|dep deps IH]; intros w k w'; simpl; [done|].
  pose proof (Hf dep w) as Hd.
  destruct (f dep w) as [[| |] w1] eqn:Hrun; simpl in *.
  - intros (dep' & w2 & Hin & Hg & Hs)%IH. exists dep', w2.
    split; [by right|]. split; [|done]. by eapply grows_trans.
  - intros [= <- <-]. exists dep, w. split; [by left|]. split; [|done].
    apply grows_refl.
  - done.
Qed.

Lemma _transitiveAwait_suspended fuel : ∀ key w k w',
  _transitiveAwait fuel key w = (Suspended k, w') →
  reachable (deferreds w) key k ∧
  (∀ deps, ¬ recorded (deferreds w) k deps) ∧
  deferreds w' !! k = Some Empty.
Proof.
  induction fuel as [|fuel IH]; intros key w k w'; [done|].
  cbn [_transitiveAwait]. destruct (decide (key ∈ visited w)); [done|].
  unfold _getDeferredFor.
  destruct (deferreds w !! key) as [[|deps]|] eqn:Hkey; simpl.
  - intros [= <- <-]. simpl. split; [done|]. split.
    + intros deps. unfold recorded. by rewrite Hkey.
    + by rewrite lookup_insert_eq.
  - rewrite insert_id by done.
    intros (dep & w1 & Hin & Hg & Hs)%forEach_suspended;
      [|intros; apply _transitiveAwait_grows].
    simpl in Hg. destruct (IH _ _ _ _ Hs) as (Hreach & Hnot & Hempty).
    split; [|split; [|done]].
    + eapply rtc_l; [by exists deps|]. by apply (grows_reachable _ _ _ _ Hg).
    + intros deps' Hdeps'. apply (Hnot deps'). by apply (grows_recorded _ _ _ _ Hg).
  - intros [= <- <-]. simpl. split; [done|]. split.
    + intros deps. unfold recorded. by rewrite Hkey.
    + by rewrite lookup_insert_eq.
Qed.

Lemma _transitiveAwait_suspended_last fuel : ∀ key w k w',
  _transitiveAwait fuel key w = (Suspended k, w') →
  last (descents w') = Some k ∧ k ∈ visited w'.
Proof.
  induction fuel as [|fuel IH]; intros key w k w'; [done|].
  cbn [_transitiveAwait]. destruct (decide (key ∈ visited w)); [done|].
  destruct (_getDeferredFor key (deferreds w)) as [deferred ds1].
  destruct (promise deferred) as [deps|].
  - intros (dep & w1 & _ & _ & Hs)%forEach_suspended;
      [|intros; apply _transitiveAwait_grows].
    by eapply IH.
  - intros [= <- <-]. simpl. split; [by rewrite last_snoc|set_solver].
Qed.

(** X2. When [promiseAllTransitive(key)] is suspended, it waits at a key
    that is reachable from [key] along the recorded successors and whose
    own successors have not been recorded; [_getDeferredFor] has left an
    empty cell for that key in the map, and the key is the last one the
    walk has descended into. *)
Theorem promiseAllTransitive_suspends_at_unrecorded fuel key ds k w' :
  promiseAllTransitive fuel key ds = (Suspended k, w') →
  reachable ds key k ∧ (∀ deps, ¬ recorded ds k deps) ∧
  deferreds w' !! k = Some Empty ∧
  last (descents w') = Some k ∧ k ∈ visited w'.
Proof.
  intros Hrun.
  destruct (_transitiveAwait_suspended _ _ _ _ _ Hrun) as (Hreach & Hnot & Hcell).
  destruct (_transitiveAwait_suspended_last _ _ _ _ _ Hrun) as [Hlast Hvisited].
  by repeat split.
Qed.

(** X1. With a recursion budget above the number of cells of the map,
    [promiseAllTransitive(key)] returns exactly when every key reachable
    from [key] has its successors recorded: it neither returns early nor
    keeps waiting once they all are. *)
Theorem promiseAllTransitive_returns_iff fuel key ds :
  size ds < fuel →
  (promiseAllTransitive fuel key ds).1 = Returned ↔
  ∀ k, reachable ds key k → ∃ deps, recorded ds k deps.
Proof.
  intros Hfuel. split.
  - destruct (promiseAllTransitive fuel key ds) as [r w'] eqn:Hrun.
    simpl. intros ->. by eapply promiseAllTransitive_returned.
  - intros Hrec. unfold promiseAllTransitive.
    destruct (_transitiveAwait_returns ds fuel key (mkWalk ds ∅ []))
      as (w' & -> & _); [done|done| |done].
    simpl. by rewrite difference_empty_L, size_dom.
Qed.

Lemma over_id w : over (deferreds w) w = w.
Proof. by destruct w. Qed.

Lemma forEach_over (f : Key → Walk → Outcome * Walk) deps :
  (∀ dep w, grows (deferreds w) (deferreds (f dep w).2)) →
  (∀ dep w r w' F, f dep w = (r, w') → grows (deferreds w') F →
     f dep (over F w) = (r, over F w')) →
  ∀ w r w' F, forEach f deps w = (r, w') → grows (deferreds w') F →
    forEach f deps (over F w) = (r, over F w').
Proof.
  intros Hg Hf. induction deps as [|dep deps IH]; intros w r w' F; simpl.
  { by intros [= <- <-]. }
  destruct (f dep w) as [r1 w1] eqn:Hrun.
  assert (grows (deferreds w1) (deferreds (forEach f deps w1).2)) as Hrest
    by by apply forEach_grows.
  destruct r1.
  - intros Hall HF.
    rewrite (Hf dep w Returned w1 F Hrun).
    + by apply IH.
    + eapply grows_trans; [|exact HF]. by rewrite Hall in Hrest.
  - intros [= <- <-] HF. by rewrite (Hf dep w (Suspended key) w1 F Hrun HF).
  - intros [= <- <-] HF. by rewrite (Hf dep w OutOfFuel w1 F Hrun HF).
Qed.

Lemma _transitiveAwait_over fuel : ∀ key w r w' F,
  _transitiveAwait fuel key w = (r, w') → grows (deferreds w') F →
  _transitiveAwait fuel key (over F w) = (r, over F w').
Proof.
  induction fuel as [|fuel IH]; intros key w r w' F.
  { by intros [= <- <-]. }
  cbn [_transitiveAwait]. simpl.
  destruct (decide (key ∈ visited w)); [by intros [= <- <-]|].
  pose proof (_getDeferredFor_grows (deferreds w) key) as Hg1.
  unfold _getDeferredFor in *. simpl in Hg1.
  set (deferred := default Empty (deferreds w !! key)) in *.
  set (w1 := mkWalk (<[key:=deferred]> (deferreds w)) ({[key]} ∪ visited w)
               (descents w ++ [key])).
  intros Hrun HF.
  assert (grows (deferreds w1) (deferreds w')) as Hg2.
  { destruct (promise deferred) as [deps|] eqn:Hp.
    - pose proof (forEach_grows (_transitiveAwait fuel) deps
                    (_transitiveAwait_grows fuel) w1) as Hgr.
      by rewrite Hrun in Hgr.
    - injection Hrun as _ <-. apply grows_refl. }
  assert (F !! key = Some deferred) as HFkey.
  { destruct (grows_trans _ _ _ Hg2 HF key) as [->|[Hn _]]; simpl in *.
    - by rewrite lookup_insert_eq.
    - by rewrite lookup_insert_eq in Hn. }
  rewrite HFkey. simpl. rewrite insert_id by done.
  change (mkWalk F ({[key]} ∪ visited w) (descents w ++ [key])) with (over F w1).
  destruct (promise deferred) as [deps|].
  - revert Hrun HF. apply forEach_over; [apply _transitiveAwait_grows|apply IH].
  - by injection Hrun as <- <-.
Qed.

(** X4. An await can be repeated: on the map the first
    [promiseAllTransitive(key)] leaves, a second one does the same walk,
    with the same outcome, the same descents and the same visited keys,
    and leaves the map as it finds it. *)
Theorem promiseAllTransitive_repeatable fuel key ds :
  promiseAllTransitive fuel key (deferreds (promiseAllTransitive fuel key ds).2)
  = promiseAllTransitive fuel key ds.
Proof.
  unfold promiseAllTransitive.
  destruct (_transitiveAwait fuel key (mkWalk ds ∅ [])) as [r w'] eqn:Hrun.
  simpl. rewrite <- (over_id w') at 2.
  apply (_transitiveAwait_over fuel key (mkWalk ds ∅ []) r w' (deferreds w') Hrun).
  apply grows_refl.
Qed.

(** X5. Awaiting before recording: for a key whose successors are not
    recorded, [promiseAllTransitive(key)] is suspended at the key itself;
    [resolve(key, deps)] on the map the await leaves succeeds and records
    [deps], since the cell the await created is the cell it completes; and
    no later await is suspended at the key. *)
Theorem await_then_resolve fuel fuel' key deps ds :
  ds !! key = None ∨ ds !! key = Some Empty →
  let first := promiseAllTransitive (S fuel) key ds in
  let second := resolve key deps (deferreds first.2) in
  first.1 = Suspended key ∧
  second.1 = inr tt ∧ recorded second.2 key deps ∧
  (promiseAllTransitive fuel' key second.2).1 ≠ Suspended key.
Proof.
  intros Hkey. cbv zeta.
  assert (promiseAllTransitive (S fuel) key ds
          = (Suspended key, mkWalk (<[key:=Empty]> ds) ({[key]} ∪ ∅) ([] ++ [key])))
    as Hfirst.
  { unfold promiseAllTransitive. cbn [_transitiveAwait]. simpl.
    rewrite decide_False by set_solver. unfold _getDeferredFor.
    by destruct Hkey as [-> | ->]. }
  rewrite Hfirst. simpl. split; [done|].
  destruct (resolve_first_succeeds (<[key:=Empty]> ds) key deps) as [Hok Hrec].
  { right. by rewrite lookup_insert_eq. }
  split; [done|]. split; [done|].
  destruct (promiseAllTransitive fuel' key _) as [r w'] eqn:Hrun. simpl.
  intros ->. apply _transitiveAwait_suspended in Hrun as (_ & Hnot & _).
  by apply (Hnot deps).
Qed.

End CellFacts.

(** ** Relations that hold along the scans and analyses *)

Section AlongFacts.
Import Warnings Js Utils Model AnalysisCache AnalyzerCacheContext Along.
Implicit Types (this : Context) (s : State) (R : relation State).

Lemma quiet_withCache (f : AnalysisCache → AnalysisCache) s :
  (∀ a, rest (f a) = rest a) → quiet s (withCache f s).
Proof. intros Hf. repeat split. unfold keeps. simpl. apply Hf. Qed.

Lemma quiet_request {V} (slot : Slot V) key s :
  slotKeeps rest slot → quiet s (request slot key s).2.
Proof.
  intros Hslot. unfold request.
  destruct (AsyncWorkCache.getOrCompute key _) as [[p invoked] c]. simpl.
  apply quiet_withCache. intros a. apply Hslot.
Qed.

Lemma quiet_finish {V} (slot : Slot V) p r s :
  slotKeeps rest slot → quiet s (finish slot p r s).2.
Proof. intros Hslot. unfold finish. simpl. apply quiet_withCache. intros a. apply Hslot. Qed.

Lemma quiet_awaitReady resolvedUrl s : quiet s (awaitReady resolvedUrl s).2.
Proof.
  unfold awaitReady. destruct (DependencyGraph.whenReady _ _) as [r g]. simpl.
  by apply quiet_withCache.
Qed.

Section Scans.
Context this R (HR : ScanSteps this R).

Lemma along_getOrComputeRec {V} (slot : Slot V) key compute s r s' :
  slotKeeps rest slot →
  (∀ s0 r0 s1, compute s0 = Some (r0, s1) → R s0 s1) →
  getOrComputeRec slot key compute s = Some (r, s') → R s s'.
Proof.
  intros Hslot Hcompute. unfold getOrComputeRec.
  pose proof (quiet_request slot key s Hslot) as Hreq.
  destruct (request slot key s) as [[p invoked] s0]. simpl in Hreq.
  apply (along_quiet _ _ HR) in Hreq.
  destruct invoked; [|by intros [= <- <-]].
  destruct (compute s0) as [[r0 s1]|] eqn:Hc; simpl; [|done].
  apply Hcompute in Hc. intros Hfin.
  assert (s' = (finish slot p r0 s1).2) as -> by (by injection Hfin as <-).
  eapply (along_trans _ _ HR); [exact Hreq|].
  eapply (along_trans _ _ HR); [exact Hc|].
  by apply (along_quiet _ _ HR), quiet_finish.
Qed.

Lemma along_andThen {A B} (c : Completion A * State) k s r s' :
  R s c.2 →
  (∀ a s0 r0 s1, k a s0 = Some (r0, s1) → R s0 s1) →
  andThen (B:=B) c k = Some (r, s') → R s s'.
Proof.
  intros Hc Hk. destruct c as [[a| |] s0]; simpl in *.
  - intros Hrun%Hk. by eapply (along_trans _ _ HR).
  - by intros [= <- <-].
  - by intros [= <- <-].
Qed.

Lemma along_andThenRec {A B} (c : option (Completion A * State)) k s r s' :
  (∀ r0 s0, c = Some (r0, s0) → R s s0) →
  (∀ a s0 r0 s1, k a s0 = Some (r0, s1) → R s0 s1) →
  andThenRec (B:=B) c k = Some (r, s') → R s s'.
Proof.
  intros Hc Hk. destruct c as [[r0 s0]|]; [|done].
  unfold andThenRec. cbn [mbind option_bind].
  eapply (along_andThen (r0, s0)); [|exact Hk]. by eapply Hc.
Qed.

Lemma along_scanInlineFeatures scanDocument containing containingUrl :
  (∀ doc comment s0 r0 s1,
     scanDocument doc comment s0 = Some (r0, s1) → R s0 s1) →
  ∀ remaining index s r s',
    scanInlineFeatures this scanDocument containing containingUrl index
      remaining s = Some (r, s') →
    R s s'.
Proof.
  intros Hscan. induction remaining as [|feature rest IH]; intros index s r s'.
  { intros [= <- <-]. apply (along_refl _ _ HR). }
  cbn [scanInlineFeatures].
  destruct feature as [| |type contents offset comment node slot|];
    try by apply IH.
  destruct (_parseContents _ _ _ _ _) as [err|parsedDoc].
  { destruct (cls err); try (intros [= <- <-]; apply (along_refl _ _ HR)).
    intros Hrest%IH. eapply (along_trans _ _ HR); [|exact Hrest].
    apply (along_warn _ _ HR). }
  destruct (scanDocument parsedDoc comment s) as [[[ref|err|] s0]|] eqn:Hdoc;
    [| | |done]; apply Hscan in Hdoc.
  - intros Hrest%IH. eapply (along_trans _ _ HR); [exact Hdoc|].
    eapply (along_trans _ _ HR); [|exact Hrest]. apply (along_inline _ _ HR).
  - destruct (cls err); try by intros [= <- <-].
    intros Hrest%IH. eapply (along_trans _ _ HR); [exact Hdoc|].
    eapply (along_trans _ _ HR); [|exact Hrest]. apply (along_warn _ _ HR).
  - by intros [= <- <-].
Qed.

Lemma along__scanDocument fuel : ∀ document comment s r s',
  _scanDocument this fuel document comment s = Some (r, s') → R s s'.
Proof.
  induction fuel as [|fuel IH]; intros document comment s r s'; [done|].
  cbn [_scanDocument]. apply along_andThen; [apply (along_refl _ _ HR)|].
  intros scannedFeatures s0 r0 s1.
  set (features := applyComment this scannedFeatures comment).
  set (s2 := withHeap (λ h, h ++ [mkScannedDocument document features []]) s0).
  assert (R s0 s2) as Halloc by apply (along_alloc _ _ HR).
  assert (heap s2 !! length (heap s0)
          = Some (mkScannedDocument document features [])) as Hnew.
  { unfold s2. simpl. by rewrite list_lookup_middle. }
  destruct (pd_isInline document) eqn:Hinline.
  - apply along_andThenRec.
    + intros r1 s3 Hin. eapply along_scanInlineFeatures in Hin; [|exact IH].
      by eapply (along_trans _ _ HR).
    + intros ? ? ? ? [= <- <-]. apply (along_refl _ _ HR).
  - destruct (decide _) as [Hdup|Hfree]; [by intros [= <- <-]|].
    apply along_andThenRec.
    + intros r1 s3 Hin. eapply along_scanInlineFeatures in Hin; [|exact IH].
      eapply (along_trans _ _ HR); [exact Halloc|].
      eapply (along_trans _ _ HR); [|exact Hin].
      apply (along_store _ _ HR _ features); [done|done|].
      by apply eq_None_not_Some.
    + intros ? ? ? ? [= <- <-]. apply (along_refl _ _ HR).
Qed.

Lemma along__scanLocalCompute fuel resolvedUrl contents s r s' :
  _scanLocalCompute this fuel resolvedUrl contents s = Some (r, s') → R s s'.
Proof.
  unfold _scanLocalCompute.
  apply along_andThen; [apply (along_parse _ _ HR)|]. intros parsedDoc s2 r2 s3.
  apply along_andThenRec; [intros ? ?; apply along__scanDocument|].
  intros ref s4 r4 s5. cbv beta zeta.
  match goal with
  | |- context [DependencyGraph.addDocument ?u ?l ?g] =>
      destruct (DependencyGraph.addDocument u l g) as [[e|[]] g']
  end; intros [= <- <-]; by apply (along_quiet _ _ HR), quiet_withCache.
Qed.

Lemma along__scanLocal fuel resolvedUrl contents s r s' :
  _scanLocal this fuel resolvedUrl contents s = Some (r, s') → R s s'.
Proof.
  apply along_getOrComputeRec; [done|]. intros s0 r0 s1.
  apply along__scanLocalCompute.
Qed.

Lemma along_scanImports scan scannedDocument :
  (∀ importUrl s0 r0 s1, scan importUrl s0 = Some (r0, s1) → R s0 s1) →
  ∀ imports s s',
    scanImports this scan scannedDocument imports s = Some s' → R s s'.
Proof.
  intros Hscan. induction imports as [|scannedImport rest IH]; intros s s'.
  { intros [= <-]. apply (along_refl _ _ HR). }
  cbn [scanImports].
  destruct (scan _ s) as [[[ref|error|] s0]|] eqn:Hs; [| | |done];
    apply Hscan in Hs; intros Hrest%IH;
    (eapply (along_trans _ _ HR); [exact Hs|]); [done| |done].
  eapply (along_trans _ _ HR); [|exact Hrest]. apply (along_warn _ _ HR).
Qed.

Lemma along__scan fuel : ∀ resolvedUrl contents s r s',
  _scan this fuel resolvedUrl contents s = Some (r, s') → R s s'.
Proof.
  induction fuel as [|fuel IH]; intros resolvedUrl contents s r s'; [done|].
  cbn [_scan]. apply along_getOrComputeRec; [done|]. intros s0 r0 s1.
  apply along_andThenRec; [intros ? ?; by apply along__scanLocal|].
  intros ref s2 r2 s3.
  destruct (scanImports _ _ _ _ s2) as [s4|] eqn:Himports; simpl; [|done].
  apply along_scanImports in Himports; [|intros ? ? ? ?; by apply IH].
  pose proof (quiet_awaitReady resolvedUrl s4) as Hready.
  apply (along_quiet _ _ HR) in Hready.
  destruct (awaitReady resolvedUrl s4) as [[] s5]; intros [= <- <-];
    by eapply (along_trans _ _ HR).
Qed.

Lemma along_resume s resolvedUrl : R s (resume s resolvedUrl).
Proof.
  unfold resume.
  destruct (promiseOf dependenciesSlot resolvedUrl s) as [[| |]|];
    try apply (along_refl _ _ HR).
  destruct (promiseOf scannedSlot resolvedUrl s) as [[ref| |]|];
    try apply (along_refl _ _ HR).
  destruct (_ !! resolvedUrl) as [p|]; try apply (along_refl _ _ HR).
  pose proof (quiet_awaitReady resolvedUrl s) as Hready.
  apply (along_quiet _ _ HR) in Hready.
  destruct (awaitReady resolvedUrl s) as [[] s0]; try done.
  eapply (along_trans _ _ HR); [exact Hready|].
  by apply (along_quiet _ _ HR), quiet_finish.
Qed.

Lemma along_drain s : R s (drain s).
Proof.
  unfold drain.
  generalize (AsyncWorkCache.calls (dependenciesScannedPromises (cache s))).
  intros keys. revert s. induction keys as [|key keys IH]; intros s.
  { apply (along_refl _ _ HR). }
  simpl. eapply (along_trans _ _ HR); [apply along_resume|apply IH].
Qed.

End Scans.

Section Analyses.
Context this R (HR : AnalysisSteps this R).

Local Notation HS := (along_scans _ _ HR).

Lemma along__getDocument url s : R s (_getDocument this url s).2.
Proof.
  unfold _getDocument.
  destruct (analyzedDocuments (cache s) !! _) as [cachedResult|] eqn:Hcached;
    [apply (along_refl _ _ HS)|].
  destruct (scannedDocuments (cache s) !! _) as [scannedDocument|] eqn:Hscanned;
    [|apply (along_refl _ _ HS)].
  cbn [snd].
  eapply (along_trans _ _ HS); [|apply (along_resolve _ _ HR)].
  eapply (along_trans _ _ HS);
    [by apply (along_analyzed _ _ HR (_resolveUrl this url) (mkDocument scannedDocument))|].
  unfold getOrCompute.
  match goal with |- R ?s0 _ =>
    pose proof (quiet_request analyzedSlot (_resolveUrl this url) s0
                  (λ _ _, eq_refl)) as Hreq;
    destruct (request analyzedSlot (_resolveUrl this url) s0)
      as [[p invoked] s1]
  end.
  simpl in Hreq. apply (along_quiet _ _ HS) in Hreq.
  destruct invoked; [|done].
  eapply (along_trans _ _ HS); [exact Hreq|].
  by apply (along_quiet _ _ HS), quiet_finish.
Qed.

Lemma along_analyzeCompute fuel url resolvedUrl contents s r s' :
  analyzeCompute this fuel url resolvedUrl contents s = Some (r, s') → R s s'.
Proof.
  unfold analyzeCompute.
  destruct (_scan this fuel resolvedUrl contents s) as [[r0 s0]|] eqn:Hscan;
    simpl; [|done].
  apply (along__scan _ _ HS) in Hscan.
  pose proof (along_drain _ _ HS s0) as Hdrain.
  assert (R s (drain s0)) as Hboth by by eapply (along_trans _ _ HS).
  destruct (promiseOf dependenciesSlot resolvedUrl (drain s0)) as [[ref|e|]|];
    try by intros [= <- <-].
  pose proof (along__getDocument (urlOf (drain s0) ref) (drain s0)) as Hdoc.
  destruct (_getDocument this _ (drain s0)) as [document s1].
  intros [= <- <-]. eapply (along_trans _ _ HS); [exact Hboth|].
  eapply (along_trans _ _ HS); [exact Hdoc|]. apply (along_timing _ _ HR).
Qed.

Lemma along_analyze fuel url contents s r s' :
  analyze this fuel url contents s = Some (r, s') → R s s'.
Proof.
  apply (along_getOrComputeRec _ _ HS); [done|]. intros s0 r0 s1.
  apply along_analyzeCompute.
Qed.

Lemma along__analyzeOrWarning fuel url s r s' :
  _analyzeOrWarning this fuel url s = Some (r, s') → R s s'.
Proof.
  unfold _analyzeOrWarning.
  destruct (analyze this fuel url Undefined s) as [[r0 s0]|] eqn:Hone;
    simpl; [|done].
  apply along_analyze in Hone.
  destruct r0 as [[document|]|e|]; try by intros [= <- <-].
  by destruct (cls e); intros [= <- <-].
Qed.

Lemma along_analyzeAll fuel files : ∀ s r s',
  analyzeAll this fuel files s = Some (r, s') → R s s'.
Proof.
  induction files as [|f rest IH]; intros s r s'.
  { intros [= <- <-]. apply (along_refl _ _ HS). }
  cbn [analyzeAll].
  destruct (_analyzeOrWarning this fuel f s) as [[r0 s0]|] eqn:Hone;
    simpl; [|done].
  apply along__analyzeOrWarning in Hone.
  destruct (analyzeAll this fuel rest s0) as [[rs s1]|] eqn:Hall;
    simpl; [|done].
  apply IH in Hall.
  destruct r0, rs; intros [= <- <-]; by eapply (along_trans _ _ HS).
Qed.

Lemma along_analyzePackage fuel s r s' :
  analyzePackage this fuel s = Some (r, s') → R s s'.
Proof.
  unfold analyzePackage.
  destruct (UrlLoader.readDirectory (_loader this)) as [readDirectory|].
  - apply (along_andThen _ _ HS); [apply (along_refl _ _ HS)|].
    intros allFiles s0 r0 s1.
    apply (along_andThenRec _ _ HS).
    + intros r1 s2. apply along_analyzeAll.
    + intros ? ? ? ? [= <- <-]. apply (along_refl _ _ HS).
  - intros [= <- <-]. apply (along_refl _ _ HS).
Qed.

End Analyses.
End AlongFacts.

(** ** What the scans and analyses keep *)

Section KeptFacts.
Import Warnings Js Utils Model AnalysisCache AnalyzerCacheContext Along Kept.
Implicit Types (this : Context) (s : State).

(** *** What a parse changes *)

Lemma quiet_finish_other {V} (slot : Slot V) p r s :
  heap (finish slot p r s).2 = heap s ∧
  telemetry (finish slot p r s).2 = telemetry s ∧
  loads (finish slot p r s).2 = loads s.
Proof. done. Qed.

Lemma load_frame this resolvedUrl providedContents s :
  let s' := (load this resolvedUrl providedContents s).2 in
  cache s' = cache s ∧ heap s' = heap s ∧ telemetry s' = telemetry s ∧
  (loads s' = loads s ∨
   (loads s' = loads s ++ [resolvedUrl] ∧
    UrlLoader.canLoad (_loader this) resolvedUrl = true)).
Proof.
  unfold load. destruct (UrlLoader.canLoad _ _) eqn:Hcan; simpl.
  - destruct providedContents; simpl; repeat split; auto.
  - repeat split; auto.
Qed.

Lemma _parseCompute_frame this resolvedUrl providedContents s :
  let s' := (_parseCompute this resolvedUrl providedContents s).2 in
  cache s' = cache s ∧ heap s' = heap s ∧
  (telemetry s' = telemetry s ∨ telemetry s' = telemetry s ++ [parseMeasurement]) ∧
  (loads s' = loads s ∨
   (loads s' = loads s ++ [resolvedUrl] ∧
    UrlLoader.canLoad (_loader this) resolvedUrl = true)).
Proof.
  unfold _parseCompute.
  pose proof (load_frame this resolvedUrl providedContents s) as Hload.
  destruct (load this resolvedUrl providedContents s) as [[content| |] s0];
    simpl in *; destruct Hload as (Hc & Hh & Ht & Hl);
    try (repeat split; auto; fail).
  destruct (_parseContents _ _ _ _ _); simpl; repeat split; auto.
  right. by rewrite Ht.
Qed.

Lemma _parse_frame this resolvedUrl providedContents s :
  let s' := (_parse this resolvedUrl providedContents s).2 in
  heap s' = heap s ∧
  scannedDocuments (cache s') = scannedDocuments (cache s) ∧
  analyzedDocuments (cache s') = analyzedDocuments (cache s) ∧
  (∀ u p, registered parsedSlot u p s → registered parsedSlot u p s') ∧
  ((s' = s) ∨
   (AsyncWorkCache._keyToResultMap (parsedDocumentPromises (cache s))
      !! resolvedUrl = None ∧
    is_Some (AsyncWorkCache._keyToResultMap (parsedDocumentPromises (cache s'))
               !! resolvedUrl) ∧
    (telemetry s' = telemetry s ∨
     telemetry s' = telemetry s ++ [parseMeasurement]) ∧
    (loads s' = loads s ∨
     (loads s' = loads s ++ [resolvedUrl] ∧
      UrlLoader.canLoad (_loader this) resolvedUrl = true)))).
Proof.
  cbv zeta. unfold _parse.
  destruct (AsyncWorkCache._keyToResultMap (parsedDocumentPromises (cache s))
              !! resolvedUrl) as [p|] eqn:Hkey.
  { rewrite (getOrCompute_registered parsedSlot resolvedUrl _ p s
               lawful_parsedSlot Hkey). simpl. repeat split; auto. }
  destruct (request_fresh parsedSlot resolvedUrl s lawful_parsedSlot Hkey)
    as (p & s0 & Hreq & Hreg & _).
  pose proof (λ u q, request_keeps_registered parsedSlot resolvedUrl s u q
                       lawful_parsedSlot) as Hkeep.
  unfold getOrCompute. rewrite Hreq in *. simpl in Hkeep.
  assert (heap s0 = heap s ∧ telemetry s0 = telemetry s ∧ loads s0 = loads s ∧
          scannedDocuments (cache s0) = scannedDocuments (cache s) ∧
          analyzedDocuments (cache s0) = analyzedDocuments (cache s))
    as (Hh0 & Ht0 & Hl0 & Hs0 & Ha0).
  { unfold request in Hreq.
    destruct (AsyncWorkCache.getOrCompute resolvedUrl _) as [[p' i'] c'].
    by injection Hreq as _ _ <-. }
  pose proof (_parseCompute_frame this resolvedUrl providedContents s0) as Hc.
  destruct (_parseCompute this resolvedUrl providedContents s0) as [r s1].
  simpl in Hc. destruct Hc as (Hc1 & Hh1 & Ht1 & Hl1).
  assert (∀ u q, registered parsedSlot u q s0 →
                 registered parsedSlot u q (finish parsedSlot p r s1).2) as Hfin.
  { intros u q Hu. apply finish_registered; [apply lawful_parsedSlot|].
    unfold registered in *. by rewrite Hc1. }
  pose proof (quiet_finish_other parsedSlot p r s1) as (Hh2 & Ht2 & Hl2).
  assert (scannedDocuments (cache (finish parsedSlot p r s1).2)
          = scannedDocuments (cache s1) ∧
          analyzedDocuments (cache (finish parsedSlot p r s1).2)
          = analyzedDocuments (cache s1)) as [Hs2 Ha2] by done.
  cbn [snd]. rewrite Hh2, Ht2, Hl2, Hs2, Ha2, Hc1, Hh1, Hh0, Hs0, Ha0.
  split; [done|]. split; [done|]. split; [done|]. split; [by auto|].
  right. split; [done|]. split.
  { exists p. apply (Hfin resolvedUrl p Hreg). }
  rewrite <- Ht0, <- Hl0. done.
Qed.

(** *** The loader is asked once *)

Lemma loadsOnce_steps this :
  ScanSteps this (λ s s', loadsOnce this s → loadsOnce this s').
Proof.
  split.
  - done.
  - intros s1 s2 s3 H12 H23 H1. auto.
  - intros s s' (_ & _ & Hl & Hk). unfold loadsOnce. rewrite Hl.
    injection Hk as -> _ _. done.
  - intros resolvedUrl contents s [Hnd Hall].
    destruct (_parse_frame this resolvedUrl contents s)
      as (_ & _ & _ & Hreg & [->|(Hfresh & Hnow & _ & Hloads)]); [done|].
    assert (∀ u, u ∈ loads s →
              UrlLoader.canLoad (_loader this) u = true ∧
              is_Some (AsyncWorkCache._keyToResultMap
                (parsedDocumentPromises (cache (_parse this resolvedUrl contents s).2))
                !! u)) as Hold.
    { intros u [Hcan [p Hp]]%Hall. split; [done|]. exists p. by apply Hreg. }
    unfold loadsOnce. destruct Hloads as [Hl|[Hl Hcan]]; rewrite Hl; [done|].
    split.
    + apply NoDup_app. split; [done|]. split; [|apply NoDup_singleton].
      intros u Hu ->%list_elem_of_singleton.
      destruct (Hall _ Hu) as [_ [p Hp]]. congruence.
    + intros u [Hu| ->%list_elem_of_singleton]%elem_of_app; auto.
  - done.
  - done.
  - done.
  - done.
Qed.

Lemma loadsOnce_analysis this :
  (∀ document s, loads (resolveDocument this document s) = loads s ∧
     parsedDocumentPromises (cache (resolveDocument this document s))
     = parsedDocumentPromises (cache s)) →
  AnalysisSteps this (λ s s', loadsOnce this s → loadsOnce this s').
Proof.
  intros Hres. split.
  - apply loadsOnce_steps.
  - done.
  - intros document s. destruct (Hres document s) as [Hl Hp].
    unfold loadsOnce. by rewrite Hl, Hp.
  - done.
Qed.

(** X11. The loader is asked at most once for a URL.  In the initial
    state, and after any [analyze] or [analyzePackage] from a state where
    it holds: the calls of [loader.load] made so far are for pairwise
    different URLs, each one a URL for which [canLoad] is true, and each
    with its promise in the parse cache.  The assumption is that resolving
    a [Document] loads and parses nothing. *)
Theorem analysis_loads_once this :
  (∀ document s, loads (resolveDocument this document s) = loads s ∧
     parsedDocumentPromises (cache (resolveDocument this document s))
     = parsedDocumentPromises (cache s)) →
  loadsOnce this initial ∧
  (∀ fuel url contents s r s', loadsOnce this s →
     analyze this fuel url contents s = Some (r, s') → loadsOnce this s') ∧
  (∀ fuel s r s', loadsOnce this s →
     analyzePackage this fuel s = Some (r, s') → loadsOnce this s').
Proof.
  intros Hres. split; [|split].
  - split; [apply NoDup_nil_2|]. intros u Hu. by apply elem_of_nil in Hu.
  - intros fuel url contents s r s' Hs Hrun.
    by apply (along_analyze _ _ (loadsOnce_analysis this Hres) _ _ _ _ _ _ Hrun).
  - intros fuel s r s' Hs Hrun.
    by apply (along_analyzePackage _ _ (loadsOnce_analysis this Hres) _ _ _ _ Hrun).
Qed.

(** *** Measurements *)

Lemma parsesTimed_steps this : ScanSteps this parsesTimed.
Proof.
  split.
  - intros s. exists 0. simpl. by rewrite app_nil_r.
  - intros s1 s2 s3 [n Hn] [m Hm]. exists (n + m).
    by rewrite Hm, Hn, <- app_assoc, replicate_add.
  - intros s s' (_ & Ht & _). exists 0. simpl. by rewrite Ht, app_nil_r.
  - intros resolvedUrl contents s.
    destruct (_parse_frame this resolvedUrl contents s)
      as (_ & _ & _ & _ & [Hs|(_ & _ & [Ht|Ht] & _)]).
    + exists 0. simpl. by rewrite Hs, app_nil_r.
    + exists 0. simpl. by rewrite Ht, app_nil_r.
    + by exists 1.
  - intros. exists 0. simpl. by rewrite app_nil_r.
  - intros. exists 0. simpl. by rewrite app_nil_r.
  - intros. exists 0. simpl. by rewrite app_nil_r.
  - intros. exists 0. simpl. by rewrite app_nil_r.
Qed.

(** *** Scanned documents *)

Lemma scannedGrow_refl s : scannedGrow s s.
Proof. split; [done|]. intros ref d Hd. by exists d. Qed.

Lemma scannedGrow_trans s1 s2 s3 :
  scannedGrow s1 s2 → scannedGrow s2 s3 → scannedGrow s1 s3.
Proof.
  intros [Hm12 Hh12] [Hm23 Hh23]. split; [by transitivity (scannedDocuments (cache s2))|].
  intros ref d Hd.
  destruct (Hh12 ref d Hd) as (d2 & Hd2 & Hdoc2 & Hlen2 & Hw2).
  destruct (Hh23 ref d2 Hd2) as (d3 & Hd3 & Hdoc3 & Hlen3 & Hw3).
  exists d3. split; [done|]. split; [congruence|]. split; [congruence|].
  by transitivity (warnings d2).
Qed.

Lemma scannedKept_same s s' :
  heap s' = heap s → scannedDocuments (cache s') = scannedDocuments (cache s) →
  scannedKept s s'.
Proof.
  intros Hh Hm. split.
  - split; [by rewrite Hm|]. intros ref d Hd. exists d. by rewrite Hh.
  - unfold scannedWellFormed. by rewrite Hh, Hm.
Qed.

Lemma scannedKept_alter (f : ScannedDocument → ScannedDocument) ref s :
  (∀ d, document (f d) = document d ∧
        length (features (f d)) = length (features d) ∧
        warnings d `prefix_of` warnings (f d)) →
  scannedKept s (withHeap (alter f ref) s).
Proof.
  intros Hf.
  assert (∀ r d, heap s !! r = Some d →
            ∃ d', alter f ref (heap s) !! r = Some d' ∧
                  document d' = document d ∧
                  length (features d') = length (features d) ∧
                  warnings d `prefix_of` warnings d') as Hheap.
  { intros r d Hd. rewrite list_lookup_alter.
    destruct (decide (ref = r)) as [->|Hne].
    - rewrite Hd. simpl. exists (f d). split; [done|]. apply Hf.
    - by exists d. }
  split; [by split|].
  intros Hwf url r Hr. destruct (Hwf url r Hr) as (d & Hd & Hurl & Hin).
  destruct (Hheap r d Hd) as (d' & Hd' & Hdoc & _).
  exists d'. split; [done|]. unfold Model.url, isInline in *. by rewrite Hdoc.
Qed.

Lemma scannedKept_steps this : ScanSteps this scannedKept.
Proof.
  split.
  - intros s. split; [apply scannedGrow_refl|done].
  - intros s1 s2 s3 [G12 W12] [G23 W23]. split; [by eapply scannedGrow_trans|auto].
  - intros s s' (Hh & _ & _ & Hk). apply scannedKept_same; [done|].
    by injection Hk.
  - intros resolvedUrl contents s.
    destruct (_parse_frame this resolvedUrl contents s) as (Hh & Hm & _).
    by apply scannedKept_same.
  - intros document features s. split.
    + split; [done|]. intros ref d Hd. exists d. split; [|done].
      simpl. by apply lookup_app_l_Some.
    + intros Hwf url ref Hr. destruct (Hwf url ref Hr) as (d & Hd & Hrest).
      exists d. split; [|done]. simpl. by apply lookup_app_l_Some.
  - intros document features ref s Href Hinline Hfree. split.
    + split; [by apply insert_subseteq|]. intros r d Hd. by exists d.
    + intros Hwf url r. simpl.
      destruct (decide (url = pd_url document)) as [->|Hne].
      * rewrite lookup_insert_eq. intros [= <-]. by eexists.
      * rewrite lookup_insert_ne by done. apply Hwf.
  - intros ref warning s. apply scannedKept_alter. intros d. simpl.
    split; [done|]. split; [done|]. by apply prefix_app_r.
  - intros ref index scannedDoc s. apply scannedKept_alter. intros d. simpl.
    split; [done|]. split; [by rewrite length_alter|done].
Qed.

Lemma scannedKept_analysis this :
  (∀ document s, heap (resolveDocument this document s) = heap s ∧
     scannedDocuments (cache (resolveDocument this document s))
     = scannedDocuments (cache s)) →
  AnalysisSteps this scannedKept.
Proof.
  intros Hres. split.
  - apply scannedKept_steps.
  - intros. by apply scannedKept_same.
  - intros document s. destruct (Hres document s). by apply scannedKept_same.
  - intros. by apply scannedKept_same.
Qed.

Lemma length_applyComment this scannedFeatures comment :
  length (applyComment this scannedFeatures comment) = length scannedFeatures.
Proof. by destruct scannedFeatures as [|[]]. Qed.

(** X7. What [_scanDocument] leaves behind when it fulfils: a new
    [ScannedDocument] object for the parsed document, with one feature for
    each feature the scanners gave; and, when the document is not an
    inline one, its URL had no entry in [scannedDocuments] before the scan
    and has this object as its entry after it, whatever inline documents
    were scanned in between. *)
Theorem scanDocument_fulfilled this fuel document comment s ref s' :
  _scanDocument this fuel document comment s = Some (Fulfilled ref, s') →
  ref = length (heap s) ∧
  (∃ d scannedFeatures,
     heap s' !! ref = Some d ∧ Model.document d = document ∧
     _getScannedFeatures this document = Fulfilled scannedFeatures ∧
     length (features d) = length scannedFeatures) ∧
  (pd_isInline document = false →
     scannedDocuments (cache s) !! pd_url document = None ∧
     scannedDocuments (cache s') !! pd_url document = Some ref).
Proof.
  destruct fuel as [|fuel]; [done|]. cbn [_scanDocument].
  destruct (_getScannedFeatures this document) as [scannedFeatures| |] eqn:Hfs;
    [|done|done].
  cbn [andThen].
  set (features := applyComment this scannedFeatures comment).
  set (s1 := withHeap (λ h, h ++ [mkScannedDocument document features []]) s).
  assert (heap s1 !! length (heap s)
          = Some (mkScannedDocument document features [])) as Hnew.
  { unfold s1. simpl. by rewrite list_lookup_middle. }
  assert (∀ s2, heap s2 = heap s1 →
     ∀ r1 s3,
       scanInlineFeatures this (_scanDocument this fuel) (length (heap s))
         (pd_url document) 0 features s2 = Some (r1, s3) →
       scannedDocuments (cache s2) ⊆ scannedDocuments (cache s3) ∧
       ∃ d, heap s3 !! length (heap s) = Some d ∧ Model.document d = document ∧
            length (Model.features d) = length scannedFeatures) as Hin.
  { intros s2 Hh r1 s3 Hrun.
    apply (along_scanInlineFeatures _ _ (scannedKept_steps this)) in Hrun;
      [|apply (along__scanDocument _ _ (scannedKept_steps this))].
    destruct Hrun as [[Hm Hheap] _]. split; [done|].
    destruct (Hheap (length (heap s)) _ ltac:(by rewrite Hh))
      as (d & Hd & Hdoc & Hlen & _).
    exists d. split; [done|]. split; [done|].
    rewrite Hlen. apply length_applyComment. }
  destruct (pd_isInline document) eqn:Hinline.
  - destruct (scanInlineFeatures _ _ _ _ _ _ s1) as [[[[]| |] s3]|] eqn:Hrun;
      simpl; try done.
    intros [= <- <-]. split; [done|].
    destruct (Hin s1 eq_refl _ _ Hrun) as [_ (d & Hd & Hdoc & Hlen)].
    split; [by exists d, scannedFeatures|done].
  - destruct (decide _) as [Hdup|Hfree]; [done|].
    match goal with
    | |- context [scanInlineFeatures _ _ _ _ _ _ ?s2] =>
        destruct (scanInlineFeatures this (_scanDocument this fuel)
                    (length (heap s)) (pd_url document) 0 features s2)
          as [[[[]| |] s3]|] eqn:Hrun; simpl; try done;
        destruct (Hin s2 eq_refl _ _ Hrun) as [Hm (d & Hd & Hdoc & Hlen)]
    end.
    intros [= <- <-]. split; [done|].
    split; [by exists d, scannedFeatures|]. intros _.
    split; [by apply eq_None_not_Some|].
    eapply lookup_weaken; [|exact Hm]. simpl. by rewrite lookup_insert_eq.
Qed.

(** X9. An analysis keeps the scanned documents there are: a URL for
    which [_getScannedDocument] finds a document finds the same object
    after any [analyze], and the object still has its parsed document and
    as many features, and the warnings it had are the first of the
    warnings it has.  The assumption is that resolving a [Document] does
    not touch the scanned documents. *)
Theorem scanned_documents_are_kept this fuel url contents s r s' :
  (∀ document s, heap (resolveDocument this document s) = heap s ∧
     scannedDocuments (cache (resolveDocument this document s))
     = scannedDocuments (cache s)) →
  analyze this fuel url contents s = Some (r, s') →
  ∀ u ref d, _getScannedDocument this u s = Some ref → heap s !! ref = Some d →
    _getScannedDocument this u s' = Some ref ∧
    ∃ d', heap s' !! ref = Some d' ∧ document d' = document d ∧
          length (features d') = length (features d) ∧
          warnings d `prefix_of` warnings d'.
Proof.
  intros Hres Hrun u ref d Hu Hd.
  apply (along_analyze _ _ (scannedKept_analysis this Hres)) in Hrun.
  destruct Hrun as [[Hm Hheap] _]. split.
  - unfold _getScannedDocument in *. by eapply lookup_weaken.
  - by apply Hheap.
Qed.

(** X10. In the initial state, and after any [analyze] or
    [analyzePackage] from a state where it holds: every entry of
    [scannedDocuments] names a [ScannedDocument] object whose URL is the
    key of the entry and which is not an inline document.  The assumption
    is that resolving a [Document] does not touch the scanned
    documents. *)
Theorem scanned_documents_by_url this :
  (∀ document s, heap (resolveDocument this document s) = heap s ∧
     scannedDocuments (cache (resolveDocument this document s))
     = scannedDocuments (cache s)) →
  scannedWellFormed initial ∧
  (∀ fuel url contents s r s', scannedWellFormed s →
     analyze this fuel url contents s = Some (r, s') → scannedWellFormed s') ∧
  (∀ fuel s r s', scannedWellFormed s →
     analyzePackage this fuel s = Some (r, s') → scannedWellFormed s').
Proof.
  intros Hres. split; [done|]. split.
  - intros fuel url contents s r s' Hs Hrun.
    apply (along_analyze _ _ (scannedKept_analysis this Hres)) in Hrun.
    by apply Hrun.
  - intros fuel s r s' Hs Hrun.
    apply (along_analyzePackage _ _ (scannedKept_analysis this Hres)) in Hrun.
    by apply Hrun.
Qed.

(** *** Analysed documents *)

Lemma analyzedKept_same s s' :
  analyzedDocuments (cache s') = analyzedDocuments (cache s) →
  scannedDocuments (cache s') = scannedDocuments (cache s) →
  analyzedKept s s'.
Proof.
  intros Ha Hm. unfold analyzedKept, analyzedWellFormed. by rewrite Ha, Hm.
Qed.

Lemma analyzedKept_steps this : ScanSteps this analyzedKept.
Proof.
  split.
  - done.
  - intros s1 s2 s3 (A12 & S12 & W12) (A23 & S23 & W23).
    split; [by transitivity (analyzedDocuments (cache s2))|].
    split; [by transitivity (scannedDocuments (cache s2))|auto].
  - intros s s' (_ & _ & _ & Hk). injection Hk as _ Hm Ha.
    by apply analyzedKept_same.
  - intros resolvedUrl contents s.
    destruct (_parse_frame this resolvedUrl contents s) as (_ & Hm & Ha & _).
    by apply analyzedKept_same.
  - intros. by apply analyzedKept_same.
  - intros document features ref s Href Hinline Hfree.
    assert (scannedDocuments (cache s)
            ⊆ <[pd_url document := ref]> (scannedDocuments (cache s))) as Hsub
      by by apply insert_subseteq.
    split; [done|]. split; [done|].
    intros Hwf url d Hd. eapply lookup_weaken; [|exact Hsub]. by apply Hwf.
  - intros. by apply analyzedKept_same.
  - intros. by apply analyzedKept_same.
Qed.

Lemma analyzedKept_analysis this :
  (∀ document s, analyzedKept s (resolveDocument this document s)) →
  AnalysisSteps this analyzedKept.
Proof.
  intros Hres. split.
  - apply analyzedKept_steps.
  - intros url document s Hfree Hscanned. split; [by apply insert_subseteq|].
    split; [done|]. intros Hwf u d. simpl.
    destruct (decide (u = url)) as [->|Hne].
    + rewrite lookup_insert_eq. by intros [= <-].
    + rewrite lookup_insert_ne by done. apply Hwf.
  - done.
  - intros. by apply analyzedKept_same.
Qed.

Lemma _getDocument_found this url s document s1 :
  (∀ document s, analyzedKept s (resolveDocument this document s)) →
  _getDocument this url s = (Some document, s1) →
  analyzedDocuments (cache s1) !! _resolveUrl this url = Some document.
Proof.
  intros Hres. unfold _getDocument.
  destruct (analyzedDocuments (cache s) !! _) as [cachedResult|] eqn:Hcached.
  { by intros [= <- <-]. }
  destruct (scannedDocuments (cache s) !! _) as [scannedDocument|]; [|done].
  intros [= <- <-].
  match goal with |- analyzedDocuments (cache (resolveDocument _ _ ?s0)) !! _ = _ =>
    destruct (Hres (mkDocument scannedDocument) s0) as (Hsub & _);
    eapply lookup_weaken; [|exact Hsub];
    assert (analyzedKeeps : keeps analyzedDocuments
              (withCache (λ a, setAnalyzedDocuments
                 (<[_resolveUrl this url := mkDocument scannedDocument]>
                    (analyzedDocuments a)) a) s) s0)
      by (by apply keeps_getOrCompute)
  end.
  unfold keeps in analyzedKeeps. rewrite analyzedKeeps. simpl.
  by rewrite lookup_insert_eq.
Qed.

(** X13. [_getDocument] for a URL that has neither an analysed nor a
    scanned document returns [undefined] and changes nothing, and it
    returns [undefined] for such a URL only; and a [Document] it has
    returned for a URL is the one it returns for that URL from then on,
    also after any [analyze] in between.  The assumption is that
    resolving a [Document] only adds analysed documents. *)
Theorem documents_are_kept this url s :
  (∀ document s, analyzedKept s (resolveDocument this document s)) →
  (analyzedDocuments (cache s) !! _resolveUrl this url = None →
   _getScannedDocument this url s = None →
   _getDocument this url s = (None, s)) ∧
  (∀ s1, _getDocument this url s = (None, s1) →
     s1 = s ∧ analyzedDocuments (cache s) !! _resolveUrl this url = None ∧
     _getScannedDocument this url s = None) ∧
  (∀ document s1 fuel url' contents r s2,
     _getDocument this url s = (Some document, s1) →
     analyze this fuel url' contents s1 = Some (r, s2) →
     _getDocument this url s1 = (Some document, s1) ∧
     _getDocument this url s2 = (Some document, s2)).
Proof.
  intros Hres. split; [|split].
  - unfold _getDocument, _getScannedDocument. by intros -> ->.
  - intros s1. unfold _getDocument, _getScannedDocument.
    destruct (analyzedDocuments (cache s) !! _); [done|].
    destruct (scannedDocuments (cache s) !! _); [done|]. by intros [= <-].
  - intros document s1 fuel url' contents r s2 Hget Hrun.
    pose proof (_getDocument_found this url s document s1 Hres Hget) as Hfound.
    apply (along_analyze _ _ (analyzedKept_analysis this Hres)) in Hrun.
    destruct Hrun as (Hsub & _).
    pose proof (lookup_weaken _ _ _ _ Hfound Hsub) as Hfound2.
    unfold _getDocument. by rewrite Hfound, Hfound2.
Qed.

End KeptFacts.

(** ** More on the methods of a context *)

Section MoreFacts.
Import Warnings Js Utils Model AnalysisCache AnalyzerCacheContext Along Kept.
Import AsyncCyclicTransitivePromiseAll Readiness.
Implicit Types (this : Context) (s : State).

Lemma scanInlineFeatures_rejected this scanDocument containing containingUrl :
  ∀ remaining index s e s',
    scanInlineFeatures this scanDocument containing containingUrl index
      remaining s = Some (Rejected e, s') →
    ∀ warning, cls e ≠ WarningCarrying warning.
Proof.
  induction remaining as [|feature rest IH]; intros index s e s'; [done|].
  cbn [scanInlineFeatures].
  destruct feature as [| |type contents offset comment node slot|];
    try by apply IH.
  destruct (_parseContents _ _ _ _ _) as [err|parsedDoc].
  { destruct (cls err) eqn:Hcls; try by apply IH.
    all: intros [= <- <-] w; by rewrite Hcls. }
  destruct (scanDocument parsedDoc comment s) as [[[ref|err|] s0]|];
    [by apply IH| |done|done].
  destruct (cls err) eqn:Hcls; try by apply IH.
  all: intros [= <- <-] w; by rewrite Hcls.
Qed.

(** X8. Structured failures do not leave [_scanDocument]: provided the
    scanners of the document do not fail with one, [_scanDocument] is never
    rejected with a [WarningCarryingException], since
    [_scanInlineDocuments] turns each one thrown for an inline document
    into a warning of the containing document. *)
Theorem scanDocument_contains_structured_failures
    this fuel document comment s e s' :
  (∀ error warning, _getScannedFeatures this document = Rejected error →
                    cls error ≠ WarningCarrying warning) →
  _scanDocument this fuel document comment s = Some (Rejected e, s') →
  ∀ warning, cls e ≠ WarningCarrying warning.
Proof.
  intros Hscanners. destruct fuel as [|fuel]; [done|]. cbn [_scanDocument].
  destruct (_getScannedFeatures this document) as [scannedFeatures|error|];
    cbn [andThen]; [| |done].
  - destruct (pd_isInline document).
    + destruct (scanInlineFeatures _ _ _ _ _ _ _) as [[[[]| |] s3]|] eqn:Hrun;
        simpl; try done.
      intros [= <- <-]. by eapply scanInlineFeatures_rejected.
    + destruct (decide _); [by intros [= <- <-]|].
      destruct (scanInlineFeatures _ _ _ _ _ _ _) as [[[[]| |] s3]|] eqn:Hrun;
        simpl; try done.
      intros [= <- <-]. by eapply scanInlineFeatures_rejected.
  - intros [= <- <-] w. by apply Hscanners.
Qed.

(** *** Measurements of an analysis *)

Lemma _getDocument_frame this url s :
  (∀ document s, telemetry (resolveDocument this document s) = telemetry s ∧
     dependenciesScannedPromises (cache (resolveDocument this document s))
     = dependenciesScannedPromises (cache s)) →
  telemetry (_getDocument this url s).2 = telemetry s ∧
  dependenciesScannedPromises (cache (_getDocument this url s).2)
  = dependenciesScannedPromises (cache s).
Proof.
  intros Hres. unfold _getDocument.
  destruct (analyzedDocuments (cache s) !! _); [done|].
  destruct (scannedDocuments (cache s) !! _) as [scannedDocument|]; [|done].
  cbn [snd].
  match goal with |- telemetry (resolveDocument _ ?d ?s0) = _ ∧ _ =>
    destruct (Hres d s0) as [-> ->];
    assert (quiet (withCache (λ a, setAnalyzedDocuments
                     (<[_resolveUrl this url := d]> (analyzedDocuments a)) a) s) s0 ∧
            keeps dependenciesScannedPromises
              (withCache (λ a, setAnalyzedDocuments
                     (<[_resolveUrl this url := d]> (analyzedDocuments a)) a) s) s0)
      as [(_ & Ht & _) Hk]
  end.
  { split; [|by apply keeps_getOrCompute].
    unfold getOrCompute.
    match goal with |- quiet ?s0 _ =>
      pose proof (quiet_request analyzedSlot (_resolveUrl this url) s0
                    (λ _ _, eq_refl)) as Hreq;
      destruct (request analyzedSlot (_resolveUrl this url) s0)
        as [[p invoked] s1]
    end.
    simpl in Hreq. destruct invoked; [|done].
    destruct Hreq as (Hh & Ht & Hl & Hk).
    pose proof (quiet_finish analyzedSlot p
                  (Fulfilled (Some (mkDocument scannedDocument))) s1
                  (λ _ _, eq_refl)) as (Hh' & Ht' & Hl' & Hk').
    unfold quiet, keeps in *. by rewrite Hh', Ht', Hl', Hk'. }
  by rewrite Ht, Hk.
Qed.

(** X12. The measurements [analyze] finishes: any number of [parse]
    measurements, all with the literal identifier ['resolvedUrl'] that
    [_parse] passes to the tracker, followed by at most one
    ['analyze: make document'] measurement with the URL as it was given;
    and that last one is there only if the transitive scan of the
    resolved URL has fulfilled, as [doneTiming] is not called otherwise.
    The assumption is that resolving a [Document] finishes no measurement
    and leaves the promises of the transitive scans alone. *)
Theorem analyze_measurements this fuel url contents s r s' :
  (∀ document s, telemetry (resolveDocument this document s) = telemetry s ∧
     dependenciesScannedPromises (cache (resolveDocument this document s))
     = dependenciesScannedPromises (cache s)) →
  analyze this fuel url contents s = Some (r, s') →
  ∃ n (made : bool),
    telemetry s'
    = telemetry s ++ replicate n ("parse", "resolvedUrl")
        ++ (if made then [("analyze: make document", url)] else []) ∧
    (made = true →
       ∃ ref, promiseOf dependenciesSlot (_resolveUrl this url) s'
              = Some (Fulfilled ref)).
Proof.
  intros Hres. unfold analyze, getOrComputeRec.
  set (resolvedUrl := _resolveUrl this url).
  pose proof (quiet_request analyzedSlot resolvedUrl s (λ _ _, eq_refl))
    as (_ & Ht0 & _).
  destruct (request analyzedSlot resolvedUrl s) as [[p invoked] s0].
  simpl in Ht0. destruct invoked.
  2:{ intros [= <- <-]. exists 0, false. split; [|done].
      simpl. by rewrite Ht0, app_nil_r. }
  destruct (analyzeCompute this fuel url resolvedUrl contents s0)
    as [[r0 s1]|] eqn:Hc; simpl; [|done].
  intros Hfin.
  assert (s' = (finish analyzedSlot p r0 s1).2) as -> by (by injection Hfin as <-).
  assert (telemetry (finish analyzedSlot p r0 s1).2 = telemetry s1 ∧
          promiseOf dependenciesSlot resolvedUrl (finish analyzedSlot p r0 s1).2
          = promiseOf dependenciesSlot resolvedUrl s1) as [-> ->] by done.
  clear Hfin. revert Hc. unfold analyzeCompute.
  destruct (_scan this fuel resolvedUrl contents s0) as [[r1 s2]|] eqn:Hscan;
    simpl; [|done].
  apply (along__scan _ _ (parsesTimed_steps this)) in Hscan as [n1 Hn1].
  destruct (along_drain _ _ (parsesTimed_steps this) s2) as [n2 Hn2].
  assert (telemetry (drain s2)
          = telemetry s ++ replicate (n1 + n2) parseMeasurement) as Hparses.
  { by rewrite Hn2, Hn1, Ht0, <- app_assoc, replicate_add. }
  destruct (promiseOf dependenciesSlot resolvedUrl (drain s2))
    as [[ref|e|]|] eqn:Hdeps;
    try (intros [= <- <-]; exists (n1 + n2), false;
         split; [by rewrite Hparses, app_nil_r|done]).
  pose proof (_getDocument_frame this (urlOf (drain s2) ref) (drain s2) Hres)
    as [Ht Hd].
  destruct (_getDocument this _ (drain s2)) as [document s3]. simpl in Ht, Hd.
  intros [= <- <-]. exists (n1 + n2), true. split.
  - simpl. by rewrite Ht, Hparses, <- app_assoc.
  - intros _. exists ref. rewrite <- Hdeps. unfold promiseOf. simpl. by rewrite Hd.
Qed.

(** *** Documents and analyses *)

Lemma promiseOf_registered {V} (slot : Slot V) key s x :
  promiseOf slot key s = Some x ↔
  ∃ p, registered slot key p s ∧ AsyncWorkCache.observe p (get slot (cache s)) = x.
Proof.
  unfold promiseOf, registered.
  destruct (AsyncWorkCache._keyToResultMap (get slot (cache s)) !! key) as [p|];
    simpl; split.
  - intros [= <-]. by exists p.
  - by intros (q & [= <-] & <-).
  - done.
  - by intros (q & ? & _).
Qed.

(** X14. For a URL that has a scanned document but has not been
    analysed, [_getDocument] makes the [Document], and a later [analyze]
    of the URL is fulfilled with that [Document] and changes nothing: it
    scans, parses and loads nothing, whatever contents it is given and
    however little budget.  The assumption is that resolving a [Document]
    keeps the analyses that have fulfilled. *)
Theorem getDocument_then_analyze this url s scannedDocument fuel contents :
  (∀ document s key x,
     promiseOf analyzedSlot key s = Some (Fulfilled x) →
     promiseOf analyzedSlot key (resolveDocument this document s)
     = Some (Fulfilled x)) →
  analyzedDocuments (cache s) !! _resolveUrl this url = None →
  AsyncWorkCache._keyToResultMap (analyzedDocumentPromises (cache s))
    !! _resolveUrl this url = None →
  _getScannedDocument this url s = Some scannedDocument →
  (_getDocument this url s).1 = Some (mkDocument scannedDocument) ∧
  analyze this fuel url contents (_getDocument this url s).2
  = Some (Fulfilled (Some (mkDocument scannedDocument)),
          (_getDocument this url s).2).
Proof.
  intros Hres Hfree Hnew Hscanned. unfold _getScannedDocument in Hscanned.
  unfold _getDocument. rewrite Hfree, Hscanned. cbn [fst snd].
  split; [done|].
  set (document := mkDocument scannedDocument).
  set (resolvedUrl := _resolveUrl this url) in *.
  set (s0 := withCache (λ a, setAnalyzedDocuments
                 (<[resolvedUrl := document]> (analyzedDocuments a)) a) s).
  assert (promiseOf analyzedSlot resolvedUrl
            (getOrCompute analyzedSlot resolvedUrl
               (λ s, (Fulfilled (Some document), s)) s0).2
          = Some (Fulfilled (Some document))) as Hp.
  { destruct (request_fresh analyzedSlot resolvedUrl s0 lawful_analyzedSlot)
      as (p & s1 & Hreq & Hreg & Hunset); [done|].
    unfold getOrCompute. rewrite Hreq.
    apply promiseOf_registered. exists p.
    split; [by apply finish_registered; [apply lawful_analyzedSlot|]|].
    rewrite <- finish_observe.
    by apply finish_settles; [apply lawful_analyzedSlot|]. }
  apply (Hres document) in Hp.
  apply promiseOf_registered in Hp as (p & Hreg & Hobs).
  unfold analyze. fold resolvedUrl.
  rewrite (getOrComputeRec_registered analyzedSlot resolvedUrl _ p _
             lawful_analyzedSlot Hreg).
  by rewrite Hobs.
Qed.

(** X15. [analyze] knows a document by its resolved URL: after
    [analyze(url)], an [analyze(url')] for a URL that resolves to the
    same URL gets the outcome of the first and changes nothing, whatever
    contents come with it.  The assumption is that resolving a [Document]
    drops no promise of an analysis. *)
Theorem analyze_by_resolved_url this fuel fuel' url url' contents contents'
    s r s1 :
  (∀ d s0 key q, registered analyzedSlot key q s0 →
                 registered analyzedSlot key q (resolveDocument this d s0)) →
  _resolveUrl this url' = _resolveUrl this url →
  analyze this fuel url contents s = Some (r, s1) →
  analyze this fuel' url' contents' s1 = Some (r, s1).
Proof.
  intros Hres Hsame Hrun. unfold analyze in *. rewrite Hsame.
  apply getOrComputeRec_fixes in Hrun as (p & Hreg & ->).
  - by rewrite (getOrComputeRec_registered analyzedSlot _ _ p _
                  lawful_analyzedSlot Hreg).
  - apply lawful_analyzedSlot.
  - intros s0 r0 s2 q Hc. eapply analyzeCompute_keeps_registered; [|exact Hc].
    intros d s3. apply Hres.
Qed.

(** X16. How [analyzePackage] ends.  It is rejected only when the loader
    cannot list a directory, with the error that says so, or when the
    listing itself is rejected, and then nothing has changed; no file can
    make it fail.  When it fulfils, the outcomes are those of the files of
    the listing that are not under a dependency directory and have a
    parser for their extension, and the documents and the warnings of the
    package together are as many as those files. *)
Theorem analyzePackage_outcome this fuel s r s' :
  analyzePackage this fuel s = Some (r, s') →
  match r with
  | Rejected e =>
      s' = s ∧
      match UrlLoader.readDirectory (_loader this) with
      | None => e = newError
          ("This analyzer doesn't support analyzerPackage, " ++
           "the urlLoader can't list the files in a directory.")%string
      | Some readDirectory => readDirectory "" true = Rejected e
      end
  | Fulfilled package =>
      ∃ readDirectory allFiles outcomes,
        UrlLoader.readDirectory (_loader this) = Some readDirectory ∧
        readDirectory "" true = Fulfilled allFiles ∧
        let analysed :=
          filter (λ f, hasParser this f = true)
            (filter (λ f, inPackage this f = true) allFiles) in
        analyzeAll this fuel analysed s = Some (Fulfilled outcomes, s') ∧
        package = mkPackage (documentsOf outcomes) (warningsOf outcomes) ∧
        length (documents package) + length (pkgWarnings package)
        = length analysed
  | Pending => True
  end.
Proof.
  unfold analyzePackage.
  destruct (UrlLoader.readDirectory (_loader this)) as [readDirectory|];
    [|by intros [= <- <-]].
  destruct (readDirectory "" true) as [allFiles|e|] eqn:Hlist; cbn [andThen];
    [| by intros [= <- <-] | by intros [= <- <-]].
  destruct (analyzeAll this fuel _ s) as [[[outcomes|e|] s1]|] eqn:Hall;
    simpl; try by intros [= <- <-].
  - intros [= <- <-]. exists readDirectory, allFiles, outcomes.
    split; [done|]. split; [done|]. cbv zeta. split; [done|]. split; [done|].
    simpl. rewrite documents_and_warnings.
    by destruct (analyzeAll_outcomes _ _ _ _ _ _ Hall) as [_ ->].
  - by destruct (proj1 (analyzeAll_outcomes _ _ _ _ _ _ Hall) e).
Qed.

(** X17. After [analyze] of any files from the initial state, a URL whose
    transitive scan has fulfilled has everything it reaches scanned: every
    URL reachable from it along the recorded imports has its successors
    recorded and its local scan fulfilled.  The assumption is that
    resolving a [Document] leaves the scans and the graph alone. *)
Theorem fulfilled_scan_has_scanned_all this fuel files r s' url ref v :
  resolvesApart this →
  analyzeAll this fuel files initial = Some (r, s') →
  promiseOf dependenciesSlot url s' = Some (Fulfilled ref) →
  reachable (dependencyGraph (cache s')) url v →
  (∃ deps, recorded (dependencyGraph (cache s')) v deps) ∧
  ∃ ref', promiseOf scannedSlot v s' = Some (Fulfilled ref').
Proof.
  intros Hres Hrun Hdone Hreach.
  apply analyzeAll_advances in Hrun; [|done].
  destruct (proj1 Hrun Invariant_initial) as (_ & _ & Inv1 & Inv2).
  destruct (Inv2 url ref Hdone v Hreach) as [deps Hdeps].
  split; [by exists deps|]. by apply (Inv1 v deps).
Qed.

End MoreFacts.

(** ** Contents that come with the request *)

Section ProvidedFacts.
Import Warnings Js Utils Model AnalysisCache AnalyzerCacheContext Along Kept.
Implicit Types (this : Context) (s : State).

Lemma unloaded_same u s s' :
  loads s' = loads s →
  parsedDocumentPromises (cache s') = parsedDocumentPromises (cache s) →
  unloaded u s s'.
Proof. intros Hl Hp Hu. by rewrite Hl, Hp. Qed.

Lemma unloaded_steps this u : ScanSteps this (unloaded u).
Proof.
  split.
  - by intros s Hu.
  - intros s1 s2 s3 H12 H23 Hu. destruct (H12 Hu) as [Hu2 Hl2].
    destruct (H23 Hu2) as [Hu3 Hl3]. auto.
  - intros s s' (_ & _ & Hl & Hk). injection Hk as Hp _ _.
    by apply unloaded_same.
  - intros resolvedUrl contents s [p Hp].
    destruct (_parse_frame this resolvedUrl contents s)
      as (_ & _ & _ & Hreg & [->|(Hfresh & _ & _ & Hloads)]); [by split; [exists p|]|].
    split; [exists p; by apply Hreg|].
    destruct Hloads as [->|[-> _]]; [done|].
    intros [Hu| ->%list_elem_of_singleton]%elem_of_app; [done|].
    unfold registered in Hp. simpl in Hp. congruence.
  - intros. by apply unloaded_same.
  - intros. by apply unloaded_same.
  - intros. by apply unloaded_same.
  - intros. by apply unloaded_same.
Qed.

Lemma _parse_provided this resolvedUrl contents s :
  let s' := (_parse this resolvedUrl (Str contents) s).2 in
  loads s' = loads s ∧
  is_Some (AsyncWorkCache._keyToResultMap (parsedDocumentPromises (cache s'))
             !! resolvedUrl).
Proof.
  cbv zeta. unfold _parse.
  destruct (AsyncWorkCache._keyToResultMap (parsedDocumentPromises (cache s))
              !! resolvedUrl) as [p|] eqn:Hkey.
  { rewrite (getOrCompute_registered parsedSlot resolvedUrl _ p s
               lawful_parsedSlot Hkey). simpl. split; [done|by exists p]. }
  destruct (request_fresh parsedSlot resolvedUrl s lawful_parsedSlot Hkey)
    as (p & s0 & Hreq & Hreg & _).
  assert (loads s0 = loads s) as Hl0.
  { unfold request in Hreq.
    destruct (AsyncWorkCache.getOrCompute resolvedUrl _) as [[p' i'] c'].
    by injection Hreq as _ _ <-. }
  unfold getOrCompute. rewrite Hreq.
  assert (loads (_parseCompute this resolvedUrl (Str contents) s0).2 = loads s0 ∧
          cache (_parseCompute this resolvedUrl (Str contents) s0).2 = cache s0)
    as [Hl1 Hc1].
  { unfold _parseCompute, load.
    destruct (negb _); simpl; [done|]. by destruct (_parseContents _ _ _ _ _). }
  destruct (_parseCompute this resolvedUrl (Str contents) s0) as [r s1].
  simpl in Hl1, Hc1. split.
  - destruct (quiet_finish_other parsedSlot p r s1) as (_ & _ & ->). congruence.
  - exists p.
    assert (registered parsedSlot resolvedUrl p (finish parsedSlot p r s1).2)
      as Hfin; [|exact Hfin].
    apply finish_registered; [apply lawful_parsedSlot|].
    unfold registered in *. by rewrite Hc1.
Qed.

Lemma request_other {V} (slot : Slot V) key s :
  slotKeeps parsedDocumentPromises slot →
  slotKeeps scannedDocumentPromises slot →
  loads (request slot key s).2 = loads s ∧
  parsedDocumentPromises (cache (request slot key s).2)
  = parsedDocumentPromises (cache s) ∧
  scannedDocumentPromises (cache (request slot key s).2)
  = scannedDocumentPromises (cache s).
Proof.
  intros Hp Hs. unfold request.
  destruct (AsyncWorkCache.getOrCompute key _) as [[p invoked] c]. simpl.
  by rewrite Hp, Hs.
Qed.

Lemma finish_other {V} (slot : Slot V) p r s :
  slotKeeps parsedDocumentPromises slot →
  loads (finish slot p r s).2 = loads s ∧
  parsedDocumentPromises (cache (finish slot p r s).2)
  = parsedDocumentPromises (cache s).
Proof. intros Hp. unfold finish. simpl. by rewrite Hp. Qed.

Lemma _scanLocal_provided this fuel resolvedUrl contents s r s' :
  (is_Some (AsyncWorkCache._keyToResultMap (scannedDocumentPromises (cache s))
              !! resolvedUrl) →
   is_Some (AsyncWorkCache._keyToResultMap (parsedDocumentPromises (cache s))
              !! resolvedUrl)) →
  _scanLocal this fuel resolvedUrl (Str contents) s = Some (r, s') →
  is_Some (AsyncWorkCache._keyToResultMap (parsedDocumentPromises (cache s'))
             !! resolvedUrl) ∧
  (resolvedUrl ∈ loads s' → resolvedUrl ∈ loads s).
Proof.
  intros Hscanned Hrun.
  destruct (AsyncWorkCache._keyToResultMap (parsedDocumentPromises (cache s))
              !! resolvedUrl) as [q|] eqn:Hparsed.
  { apply (along__scanLocal _ _ (unloaded_steps this resolvedUrl)) in Hrun.
    apply Hrun. rewrite Hparsed. by exists q. }
  destruct (AsyncWorkCache._keyToResultMap (scannedDocumentPromises (cache s))
              !! resolvedUrl) as [q|] eqn:Hfresh.
  { destruct Hscanned as [? [=]]. by exists q. }
  clear Hscanned. revert Hrun. unfold _scanLocal, getOrComputeRec.
  pose proof (request_other scannedSlot resolvedUrl s (λ _ _, eq_refl))
    as Hother.
  destruct (request_fresh scannedSlot resolvedUrl s lawful_scannedSlot Hfresh)
    as (p & s0 & Hreq & _ & _).
  rewrite Hreq in *. clear Hother.
  assert (loads s0 = loads s) as Hl0.
  { unfold request in Hreq.
    destruct (AsyncWorkCache.getOrCompute resolvedUrl _) as [[p' i'] c'].
    by injection Hreq as _ _ <-. }
  destruct (_scanLocalCompute this fuel resolvedUrl (Str contents) s0)
    as [[r0 s1]|] eqn:Hc; simpl; [|done].
  intros Hfin.
  assert (s' = (finish scannedSlot p r0 s1).2) as -> by (by injection Hfin as <-).
  destruct (finish_other scannedSlot p r0 s1 (λ _ _, eq_refl)) as [-> ->].
  destruct (_parse_provided this resolvedUrl contents s0) as [Hl1 Hp1].
  assert (_scanLocalCompute this fuel resolvedUrl (Str contents)
            (_parse this resolvedUrl (Str contents) s0).2 = Some (r0, s1)) as Hc'.
  { rewrite <- Hc. unfold _scanLocalCompute. rewrite _parse_again.
    by destruct (_parse this resolvedUrl (Str contents) s0). }
  apply (along__scanLocalCompute _ _ (unloaded_steps this resolvedUrl)) in Hc'.
  destruct (Hc' Hp1) as [Hp2 Hl2]. split; [done|].
  intros Hu%Hl2. by rewrite <- Hl0, <- Hl1.
Qed.

Lemma _scan_provided this fuel resolvedUrl contents s r s' :
  (is_Some (AsyncWorkCache._keyToResultMap (scannedDocumentPromises (cache s))
              !! resolvedUrl) →
   is_Some (AsyncWorkCache._keyToResultMap (parsedDocumentPromises (cache s))
              !! resolvedUrl)) →
  _scan this fuel resolvedUrl (Str contents) s = Some (r, s') →
  resolvedUrl ∈ loads s' → resolvedUrl ∈ loads s.
Proof.
  intros Hscanned. destruct fuel as [|fuel]; [done|].
  cbn [_scan]. unfold getOrComputeRec.
  pose proof (request_other dependenciesSlot resolvedUrl s
                (λ _ _, eq_refl) (λ _ _, eq_refl)) as (Hl0 & Hp0 & Hs0).
  destruct (request dependenciesSlot resolvedUrl s) as [[p invoked] s0].
  simpl in Hl0, Hp0, Hs0.
  destruct invoked; [|intros [= <- <-]; by rewrite Hl0].
  unfold andThenRec.
  destruct (_scanLocal this fuel resolvedUrl (Str contents) s0)
    as [[r1 s1]|] eqn:Hlocal; simpl; [|done].
  apply _scanLocal_provided in Hlocal as [Hp1 Hl1]; [|by rewrite Hp0, Hs0].
  pose proof (unloaded_steps this resolvedUrl) as HR.
  assert (∀ r4 s4, unloaded resolvedUrl s1 s4 →
            Some (finish dependenciesSlot p r4 s4) = Some (r, s') →
            resolvedUrl ∈ loads s' → resolvedUrl ∈ loads s) as Hend.
  { intros r4 s4 Hun Hfin.
    assert (s' = (finish dependenciesSlot p r4 s4).2) as ->
      by (by injection Hfin as <-).
    destruct (finish_other dependenciesSlot p r4 s4 (λ _ _, eq_refl)) as [-> _].
    destruct (Hun Hp1) as [_ Hl4]. intros Hu%Hl4%Hl1. by rewrite <- Hl0. }
  destruct r1 as [ref|e|]; simpl; try (apply Hend; apply (along_refl _ _ HR)).
  destruct (scanImports this _ ref _ s1) as [s2|] eqn:Himports; simpl; [|done].
  apply (along_scanImports _ _ HR) in Himports;
    [|intros ? ? ? ?; apply (along__scan _ _ HR)].
  pose proof (along_quiet _ _ HR _ _ (quiet_awaitReady resolvedUrl s2)) as Hq.
  destruct (awaitReady resolvedUrl s2) as [o s3]. simpl in Hq.
  destruct o; apply Hend; by eapply (along_trans _ _ HR).
Qed.

Lemma loads_resume s resolvedUrl : loads (resume s resolvedUrl) = loads s.
Proof.
  unfold resume.
  destruct (promiseOf dependenciesSlot resolvedUrl s) as [[| |]|]; try done.
  destruct (promiseOf scannedSlot resolvedUrl s) as [[ref| |]|]; try done.
  destruct (_ !! resolvedUrl) as [p|]; try done.
  destruct (quiet_awaitReady resolvedUrl s) as (_ & _ & Hl & _).
  by destruct (awaitReady resolvedUrl s) as [[] s0].
Qed.

Lemma loads_drain s : loads (drain s) = loads s.
Proof.
  unfold drain.
  generalize (AsyncWorkCache.calls (dependenciesScannedPromises (cache s))).
  intros keys. revert s. induction keys as [|key keys IH]; intros s; [done|].
  simpl. by rewrite IH, loads_resume.
Qed.

Lemma loads__getDocument this url s :
  (∀ document s, loads (resolveDocument this document s) = loads s) →
  loads (_getDocument this url s).2 = loads s.
Proof.
  intros Hres. unfold _getDocument.
  destruct (analyzedDocuments (cache s) !! _); [done|].
  destruct (scannedDocuments (cache s) !! _) as [scannedDocument|]; [|done].
  cbn [snd]. rewrite Hres. unfold getOrCompute.
  match goal with |- context [request analyzedSlot ?k ?s0] =>
    destruct (quiet_request analyzedSlot k s0 (λ _ _, eq_refl)) as (_ & _ & Hl & _);
    destruct (request analyzedSlot k s0) as [[p invoked] s1]
  end.
  by destruct invoked.
Qed.

(** X21. Contents that come with [analyze] stand in for the file: the
    analysis does not ask the loader for the URL it was given the contents
    of, whatever it imports and however the imports lead back to it.  The
    assumptions are that a URL that has been scanned has been parsed, and
    that resolving a [Document] loads nothing. *)
Theorem provided_contents_are_not_loaded this fuel url contents s r s' :
  (∀ document s, loads (resolveDocument this document s) = loads s) →
  (is_Some (AsyncWorkCache._keyToResultMap (scannedDocumentPromises (cache s))
              !! _resolveUrl this url) →
   is_Some (AsyncWorkCache._keyToResultMap (parsedDocumentPromises (cache s))
              !! _resolveUrl this url)) →
  analyze this fuel url (Str contents) s = Some (r, s') →
  _resolveUrl this url ∈ loads s' → _resolveUrl this url ∈ loads s.
Proof.
  intros Hres Hscanned. unfold analyze, getOrComputeRec.
  set (resolvedUrl := _resolveUrl this url) in *.
  pose proof (request_other analyzedSlot resolvedUrl s
                (λ _ _, eq_refl) (λ _ _, eq_refl)) as (Hl0 & Hp0 & Hs0).
  destruct (request analyzedSlot resolvedUrl s) as [[p invoked] s0].
  simpl in Hl0, Hp0, Hs0.
  destruct invoked; [|intros [= <- <-]; by rewrite Hl0].
  destruct (analyzeCompute this fuel url resolvedUrl (Str contents) s0)
    as [[r0 s1]|] eqn:Hc; simpl; [|done].
  intros Hfin.
  assert (s' = (finish analyzedSlot p r0 s1).2) as -> by (by injection Hfin as <-).
  destruct (finish_other analyzedSlot p r0 s1 (λ _ _, eq_refl)) as [-> _].
  clear Hfin. revert Hc. unfold analyzeCompute.
  destruct (_scan this fuel resolvedUrl (Str contents) s0) as [[r1 s2]|] eqn:Hscan;
    simpl; [|done].
  assert (resolvedUrl ∈ loads s2 → resolvedUrl ∈ loads s) as Hkept.
  { rewrite <- Hl0. eapply _scan_provided; [|exact Hscan]. by rewrite Hp0, Hs0. }
  clear Hscan.
  destruct (promiseOf dependenciesSlot resolvedUrl (drain s2)) as [[ref|e|]|];
    try (intros [= <- <-]; by rewrite loads_drain).
  pose proof (loads__getDocument this (urlOf (drain s2) ref) (drain s2) Hres) as Hl.
  destruct (_getDocument this _ (drain s2)) as [document s3]. simpl in Hl.
  intros [= <- <-]. simpl. by rewrite Hl, loads_drain.
Qed.

End ProvidedFacts.

(** ** Parses come before scans *)

Section ParsesKeptFacts.
Import Warnings Js Utils Model AnalysisCache AnalyzerCacheContext Along Kept.
Implicit Types (this : Context) (s : State).

Lemma parsesKept_refl s : parsesKept s s.
Proof. by split. Qed.

Lemma parsesKept_trans s1 s2 s3 :
  parsesKept s1 s2 → parsesKept s2 s3 → parsesKept s1 s3.
Proof. intros [M12 I12] [M23 I23]. split; auto. Qed.

Lemma parsesKept_same s s' :
  parsedDocumentPromises (cache s') = parsedDocumentPromises (cache s) →
  scannedDocumentPromises (cache s') = scannedDocumentPromises (cache s) →
  parsesKept s s'.
Proof. intros Hp Hs. unfold parsesKept, scannedAreParsed. by rewrite Hp, Hs. Qed.

Lemma _scanLocalCompute_parses this fuel resolvedUrl contents s r s' :
  _scanLocalCompute this fuel resolvedUrl contents s = Some (r, s') →
  scannedDocumentPromises (cache s') = scannedDocumentPromises (cache s) ∧
  (∀ u, is_Some (AsyncWorkCache._keyToResultMap
                   (parsedDocumentPromises (cache s)) !! u) →
        is_Some (AsyncWorkCache._keyToResultMap
                   (parsedDocumentPromises (cache s')) !! u)) ∧
  is_Some (AsyncWorkCache._keyToResultMap
             (parsedDocumentPromises (cache s')) !! resolvedUrl).
Proof.
  intros Hc. split; [|split].
  - by apply (keeps__scanLocalCompute scannedDocumentPromises
                (λ _ _, eq_refl) (λ _ _, eq_refl)) in Hc.
  - intros u Hu.
    apply (along__scanLocalCompute _ _ (unloaded_steps this u)) in Hc.
    by apply Hc.
  - assert (_scanLocalCompute this fuel resolvedUrl contents
              (_parse this resolvedUrl contents s).2 = Some (r, s')) as Hc'.
    { rewrite <- Hc. unfold _scanLocalCompute. rewrite _parse_again.
      by destruct (_parse this resolvedUrl contents s). }
    apply (along__scanLocalCompute _ _ (unloaded_steps this resolvedUrl)) in Hc'.
    apply Hc'.
    destruct (getOrCompute_fixes parsedSlot resolvedUrl
                (_parseCompute this resolvedUrl contents) s) as (p & Hreg & _).
    { apply lawful_parsedSlot. }
    { intros s0 q. apply registered_keeps, keeps__parseCompute. }
    by exists p.
Qed.

Lemma _scanLocal_parses this fuel resolvedUrl contents s r s' :
  _scanLocal this fuel resolvedUrl contents s = Some (r, s') → parsesKept s s'.
Proof.
  destruct (AsyncWorkCache._keyToResultMap (scannedDocumentPromises (cache s))
              !! resolvedUrl) as [q|] eqn:Hkey.
  { unfold _scanLocal.
    rewrite (getOrComputeRec_registered scannedSlot resolvedUrl _ q s
               lawful_scannedSlot Hkey).
    intros [= <- <-]. apply parsesKept_refl. }
  unfold _scanLocal, getOrComputeRec.
  assert (∃ p s0, request scannedSlot resolvedUrl s = (p, true, s0) ∧
            parsedDocumentPromises (cache s0) = parsedDocumentPromises (cache s) ∧
            ∀ u, is_Some (AsyncWorkCache._keyToResultMap
                            (scannedDocumentPromises (cache s0)) !! u) →
                 u = resolvedUrl ∨
                 is_Some (AsyncWorkCache._keyToResultMap
                            (scannedDocumentPromises (cache s)) !! u))
    as (p & s0 & Hreq & Hp0 & Hs0).
  { unfold request, AsyncWorkCache.getOrCompute. simpl. rewrite Hkey.
    eexists _, _. split; [done|]. split; [done|]. simpl. intros u.
    destruct (decide (u = resolvedUrl)) as [->|Hne]; [by left|].
    rewrite lookup_insert_ne by done. by right. }
  rewrite Hreq.
  destruct (_scanLocalCompute this fuel resolvedUrl contents s0)
    as [[r0 s1]|] eqn:Hc; simpl; [|done].
  intros Hfin.
  assert (s' = (finish scannedSlot p r0 s1).2) as -> by (by injection Hfin as <-).
  destruct (_scanLocalCompute_parses _ _ _ _ _ _ _ Hc) as (Hs1 & Hmono & Hu).
  assert (parsedDocumentPromises (cache (finish scannedSlot p r0 s1).2)
          = parsedDocumentPromises (cache s1)) as Hp2 by done.
  assert (∀ u, is_Some (AsyncWorkCache._keyToResultMap
                 (scannedDocumentPromises (cache (finish scannedSlot p r0 s1).2))
                 !! u) →
               is_Some (AsyncWorkCache._keyToResultMap
                          (scannedDocumentPromises (cache s1)) !! u)) as Hs2.
  { intros u. unfold finish. simpl.
    by destruct (settle_keeps (scannedDocumentPromises (cache s1)) p r0) as [-> _]. }
  split.
  - intros u Hpu. rewrite Hp2. apply Hmono. by rewrite Hp0.
  - intros Hinv u Hsu%Hs2. rewrite Hs1 in Hsu. rewrite Hp2.
    destruct (Hs0 u Hsu) as [->|Hold]; [done|].
    apply Hmono. rewrite Hp0. by apply Hinv.
Qed.

Lemma scanImports_parses this scan scannedDocument :
  (∀ importUrl s0 r0 s1, scan importUrl s0 = Some (r0, s1) → parsesKept s0 s1) →
  ∀ imports s s',
    scanImports this scan scannedDocument imports s = Some s' → parsesKept s s'.
Proof.
  intros Hscan. induction imports as [|scannedImport rest IH]; intros s s'.
  { intros [= <-]. apply parsesKept_refl. }
  cbn [scanImports].
  destruct (scan _ s) as [[[ref|error|] s0]|] eqn:Hs; [| | |done];
    apply Hscan in Hs; intros Hrest%IH;
    (eapply parsesKept_trans; [exact Hs|]); [done| |done].
  eapply parsesKept_trans; [|exact Hrest]. by apply parsesKept_same.
Qed.

Lemma _scan_parses this fuel : ∀ resolvedUrl contents s r s',
  _scan this fuel resolvedUrl contents s = Some (r, s') → parsesKept s s'.
Proof.
  induction fuel as [|fuel IH]; intros resolvedUrl contents s r s'; [done|].
  cbn [_scan]. unfold getOrComputeRec.
  assert (parsesKept s (request dependenciesSlot resolvedUrl s).2) as Hreq.
  { unfold request.
    destruct (AsyncWorkCache.getOrCompute resolvedUrl _) as [[p i] c].
    by apply parsesKept_same. }
  destruct (request dependenciesSlot resolvedUrl s) as [[p invoked] s0].
  simpl in Hreq. destruct invoked; [|by intros [= <- <-]].
  unfold andThenRec.
  destruct (_scanLocal this fuel resolvedUrl contents s0) as [[r1 s1]|] eqn:Hlocal;
    simpl; [|done].
  apply _scanLocal_parses in Hlocal.
  assert (∀ r4 s4, parsesKept s1 s4 →
            Some (finish dependenciesSlot p r4 s4) = Some (r, s') →
            parsesKept s s') as Hend.
  { intros r4 s4 Hk Hfin.
    assert (s' = (finish dependenciesSlot p r4 s4).2) as ->
      by (by injection Hfin as <-).
    eapply parsesKept_trans; [exact Hreq|].
    eapply parsesKept_trans; [exact Hlocal|].
    eapply parsesKept_trans; [exact Hk|]. by apply parsesKept_same. }
  destruct r1 as [ref|e|]; simpl; try (apply Hend; apply parsesKept_refl).
  destruct (scanImports this _ ref _ s1) as [s2|] eqn:Himports; simpl; [|done].
  apply scanImports_parses in Himports; [|intros ? ? ? ?; apply IH].
  assert (parsesKept s2 (awaitReady resolvedUrl s2).2) as Hready.
  { unfold awaitReady. destruct (DependencyGraph.whenReady _ _) as [o g].
    by apply parsesKept_same. }
  destruct (awaitReady resolvedUrl s2) as [o s3]. simpl in Hready.
  destruct o; apply Hend; by eapply parsesKept_trans.
Qed.

Lemma drain_parses s : parsesKept s (drain s).
Proof.
  apply parsesKept_same.
  - apply (keeps_drain parsedDocumentPromises (λ _ _, eq_refl) (λ _ _, eq_refl) s
             (λ _ _, eq_refl)).
  - apply (keeps_drain scannedDocumentPromises (λ _ _, eq_refl) (λ _ _, eq_refl) s
             (λ _ _, eq_refl)).
Qed.

Lemma _getDocument_parses this url s :
  (∀ document s,
     parsedDocumentPromises (cache (resolveDocument this document s))
     = parsedDocumentPromises (cache s) ∧
     scannedDocumentPromises (cache (resolveDocument this document s))
     = scannedDocumentPromises (cache s)) →
  parsesKept s (_getDocument this url s).2.
Proof.
  intros Hres. unfold _getDocument.
  destruct (analyzedDocuments (cache s) !! _); [apply parsesKept_refl|].
  destruct (scannedDocuments (cache s) !! _) as [scannedDocument|];
    [|apply parsesKept_refl].
  cbn [snd].
  match goal with |- parsesKept _ (resolveDocument _ ?d ?s0) =>
    destruct (Hres d s0) as [Hp Hs];
    apply parsesKept_same; rewrite ?Hp, ?Hs
  end.
  - match goal with |- parsedDocumentPromises (cache ?s0) = _ =>
      change (keeps parsedDocumentPromises s s0) end.
    eapply (keeps_trans parsedDocumentPromises); [|by apply keeps_getOrCompute].
    done.
  - match goal with |- scannedDocumentPromises (cache ?s0) = _ =>
      change (keeps scannedDocumentPromises s s0) end.
    eapply (keeps_trans scannedDocumentPromises); [|by apply keeps_getOrCompute].
    done.
Qed.

Lemma analyze_parses this fuel url contents s r s' :
  (∀ document s,
     parsedDocumentPromises (cache (resolveDocument this document s))
     = parsedDocumentPromises (cache s) ∧
     scannedDocumentPromises (cache (resolveDocument this document s))
     = scannedDocumentPromises (cache s)) →
  analyze this fuel url contents s = Some (r, s') → parsesKept s s'.
Proof.
  intros Hres. unfold analyze, getOrComputeRec.
  assert (parsesKept s (request analyzedSlot (_resolveUrl this url) s).2) as Hreq.
  { unfold request.
    destruct (AsyncWorkCache.getOrCompute _ _) as [[p i] c].
    by apply parsesKept_same. }
  destruct (request analyzedSlot (_resolveUrl this url) s) as [[p invoked] s0].
  simpl in Hreq. destruct invoked; [|by intros [= <- <-]].
  destruct (analyzeCompute this fuel url _ contents s0) as [[r0 s1]|] eqn:Hc;
    simpl; [|done].
  intros Hfin.
  assert (s' = (finish analyzedSlot p r0 s1).2) as -> by (by injection Hfin as <-).
  eapply parsesKept_trans; [exact Hreq|].
  eapply parsesKept_trans; [|by apply parsesKept_same].
  clear Hfin. revert Hc. unfold analyzeCompute.
  destruct (_scan this fuel _ contents s0) as [[r1 s2]|] eqn:Hscan;
    simpl; [|done].
  apply _scan_parses in Hscan.
  assert (parsesKept s0 (drain s2)) as Hboth
    by (eapply parsesKept_trans; [exact Hscan|apply drain_parses]).
  destruct (promiseOf dependenciesSlot _ (drain s2)) as [[ref|e|]|];
    try by intros [= <- <-].
  pose proof (_getDocument_parses this (urlOf (drain s2) ref) (drain s2) Hres)
    as Hdoc.
  destruct (_getDocument this _ (drain s2)) as [document s3].
  intros [= <- <-]. eapply parsesKept_trans; [exact Hboth|].
  eapply parsesKept_trans; [exact Hdoc|]. by apply parsesKept_same.
Qed.

Lemma analyzeAll_parses this fuel files : ∀ s r s',
  (∀ document s,
     parsedDocumentPromises (cache (resolveDocument this document s))
     = parsedDocumentPromises (cache s) ∧
     scannedDocumentPromises (cache (resolveDocument this document s))
     = scannedDocumentPromises (cache s)) →
  analyzeAll this fuel files s = Some (r, s') → parsesKept s s'.
Proof.
  induction files as [|f rest IH]; intros s r s' Hres.
  { intros [= <- <-]. apply parsesKept_refl. }
  cbn [analyzeAll]. unfold _analyzeOrWarning.
  destruct (analyze this fuel f Undefined s) as [[r0 s0]|] eqn:Hone;
    simpl; [|done].
  apply analyze_parses in Hone; [|done].
  assert (∀ (r1 : Completion DocumentOrWarning),
            ('(rs, s1) ← analyzeAll this fuel rest s0;
             match r1, rs with
             | Fulfilled x, Fulfilled xs => Some (Fulfilled (x :: xs), s1)
             | Rejected e, _ => Some (Rejected e, s1)
             | _, Rejected e => Some (Rejected e, s1)
             | _, _ => Some (Pending, s1)
             end) = Some (r, s') → parsesKept s s') as Hrest.
  { intros r1.
    destruct (analyzeAll this fuel rest s0) as [[rs s1]|] eqn:Hall;
      simpl; [|done].
    apply IH in Hall; [|done].
    destruct r1, rs; intros [= <- <-]; by eapply parsesKept_trans. }
  destruct r0 as [[document|]|e|].
  - exact (Hrest (Fulfilled (IsDocument document))).
  - exact (Hrest (Fulfilled IsUndefined)).
  - destruct (cls e) as [| |warning|];
      [exact (Hrest (Fulfilled (IsWarning (unableToAnalyze this f e))))
      |exact (Hrest (Fulfilled (IsWarning (unableToAnalyze this f e))))
      |exact (Hrest (Fulfilled (IsWarning warning)))
      |exact (Hrest (Fulfilled (IsWarning (unableToAnalyze this f e))))].
  - exact (Hrest Pending).
Qed.

(** X22. In the initial state, and after any [analyze] or
    [analyzePackage] from a state where it holds: every URL that has a
    promise of its local scan has a promise of its parse, since
    [_scanLocal] parses before anything else.  The assumption is that
    resolving a [Document] leaves the promises of parses and scans alone. *)
Theorem scanned_urls_are_parsed this :
  (∀ document s,
     parsedDocumentPromises (cache (resolveDocument this document s))
     = parsedDocumentPromises (cache s) ∧
     scannedDocumentPromises (cache (resolveDocument this document s))
     = scannedDocumentPromises (cache s)) →
  scannedAreParsed initial ∧
  (∀ fuel url contents s r s', scannedAreParsed s →
     analyze this fuel url contents s = Some (r, s') → scannedAreParsed s') ∧
  (∀ fuel s r s', scannedAreParsed s →
     analyzePackage this fuel s = Some (r, s') → scannedAreParsed s').
Proof.
  intros Hres. split; [|split].
  - by intros u [p Hp].
  - intros fuel url contents s r s' Hs Hrun.
    by apply (analyze_parses _ _ _ _ _ _ _ Hres Hrun).
  - intros fuel s r s' Hs. unfold analyzePackage.
    destruct (UrlLoader.readDirectory (_loader this)) as [readDirectory|];
      [|by intros [= <- <-]].
    destruct (readDirectory "" true) as [allFiles|e|]; cbn [andThen];
      [| by intros [= <- <-] | by intros [= <- <-]].
    destruct (analyzeAll this fuel _ s) as [[rs s1]|] eqn:Hall; simpl; [|done].
    apply analyzeAll_parses in Hall; [|done].
    destruct rs; intros [= <- <-]; by apply Hall.
Qed.

End ParsesKeptFacts.

(** ** Failures of loading and parsing *)

Section FailureFacts.
Import Warnings Js Utils Model AnalysisCache AnalyzerCacheContext Along Kept.
Implicit Types (this : Context) (s : State).

Lemma _parseCompute_result this resolvedUrl contents s s' :
  (_parseCompute this resolvedUrl contents s).1
  = (_parseCompute this resolvedUrl contents s').1.
Proof.
  unfold _parseCompute, load.
  destruct (negb _); simpl; [done|].
  destruct contents; simpl;
    repeat match goal with
           | |- context [match ?x with _ => _ end] => destruct x; simpl
           end; done.
Qed.

Lemma observe_settled {V} p q (r : Completion V) c :
  AsyncWorkCache.observe q c ≠ Pending →
  AsyncWorkCache.observe q (AsyncWorkCache.settle p r c)
  = AsyncWorkCache.observe q c.
Proof.
  intros Hq. rewrite observe_settle. destruct (decide (q = p)) as [->|]; [|done].
  unfold AsyncWorkCache.observe in *. by destruct (AsyncWorkCache.settled c !! p).
Qed.

Lemma finish_keeps_settled {V} (slot : Slot V) p r s key x :
  lawful slot →
  promiseOf slot key s = Some x → x ≠ Pending →
  promiseOf slot key (finish slot p r s).2 = Some x.
Proof.
  intros [_ Hgs] Hx Hne. unfold promiseOf, finish in *. simpl. rewrite Hgs.
  destruct (settle_keeps (get slot (cache s)) p r) as [-> _].
  destruct (AsyncWorkCache._keyToResultMap (get slot (cache s)) !! key)
    as [q|]; simpl in *; [|done].
  injection Hx as Hx. rewrite observe_settled; [by rewrite Hx|]. by rewrite Hx.
Qed.

Lemma resume_keeps_settled s resolvedUrl key x :
  promiseOf dependenciesSlot key s = Some x → x ≠ Pending →
  promiseOf dependenciesSlot key (resume s resolvedUrl) = Some x.
Proof.
  intros Hx Hne. unfold resume.
  destruct (promiseOf dependenciesSlot resolvedUrl s) as [[| |]|]; try done.
  destruct (promiseOf scannedSlot resolvedUrl s) as [[ref| |]|]; try done.
  destruct (_ !! resolvedUrl) as [p|]; try done.
  pose proof (keeps_awaitReady dependenciesScannedPromises (λ _ _, eq_refl)
                (λ _ _, eq_refl) resolvedUrl s) as Hready.
  destruct (awaitReady resolvedUrl s) as [o s0]. unfold keeps in Hready.
  simpl in Hready.
  assert (promiseOf dependenciesSlot key s0 = Some x) as Hx0.
  { unfold promiseOf in *. simpl in *. by rewrite Hready. }
  destruct o; try done.
  by apply finish_keeps_settled; [apply lawful_dependenciesSlot| |].
Qed.

Lemma drain_keeps_settled s key x :
  promiseOf dependenciesSlot key s = Some x → x ≠ Pending →
  promiseOf dependenciesSlot key (drain s) = Some x.
Proof.
  unfold drain.
  generalize (AsyncWorkCache.calls (dependenciesScannedPromises (cache s))).
  intros keys. revert s. induction keys as [|k keys IH]; intros s Hx Hne; [done|].
  simpl. apply IH; [|done]. by apply resume_keeps_settled.
Qed.

(** A request for a fresh key whose computation leaves the promises of the
    slot alone ends as the computation ends. *)
Lemma getOrComputeRec_fresh {V} (slot : Slot V) key compute s r0 s1 :
  lawful slot →
  AsyncWorkCache._keyToResultMap (get slot (cache s)) !! key = None →
  compute (request slot key s).2 = Some (r0, s1) →
  get slot (cache s1) = get slot (cache (request slot key s).2) →
  ∃ p, getOrComputeRec slot key compute s = Some (r0, (finish slot p r0 s1).2) ∧
       registered slot key p (finish slot p r0 s1).2 ∧
       AsyncWorkCache.observe p (get slot (cache (finish slot p r0 s1).2)) = r0.
Proof.
  intros Hl Hfresh Hc Hkeep.
  destruct (request_fresh slot key s Hl Hfresh) as (p & s0 & Hreq & Hreg & Hp).
  rewrite Hreq in *. simpl in *. exists p.
  assert ((finish slot p r0 s1).1 = r0) as Hr
    by (apply finish_settles; [done|by rewrite Hkeep]).
  unfold getOrComputeRec. rewrite Hreq, Hc. split; [|split].
  - change (Some (finish slot p r0 s1) = Some (r0, (finish slot p r0 s1).2)).
    f_equal. destruct (finish slot p r0 s1) as [r2 s2]. simpl in Hr. by subst.
  - apply finish_registered; [done|]. unfold registered in *. by rewrite Hkeep.
  - rewrite <- Hr at 2. symmetry. apply finish_observe.
Qed.

(** When loading or parsing fails for a URL no request has been made for,
    [analyze] is rejected with the error, with any budget of at least
    one. *)
Lemma analyze_rejected this fuel url contents s e :
  let resolvedUrl := _resolveUrl this url in
  AsyncWorkCache._keyToResultMap (parsedDocumentPromises (cache s))
    !! resolvedUrl = None →
  AsyncWorkCache._keyToResultMap (scannedDocumentPromises (cache s))
    !! resolvedUrl = None →
  AsyncWorkCache._keyToResultMap (dependenciesScannedPromises (cache s))
    !! resolvedUrl = None →
  AsyncWorkCache._keyToResultMap (analyzedDocumentPromises (cache s))
    !! resolvedUrl = None →
  (_parseCompute this resolvedUrl contents s).1 = Rejected e →
  ∃ s', analyze this (S fuel) url contents s = Some (Rejected e, s').
Proof.
  intros u HfreshP HfreshS HfreshD HfreshA Hfails.
  (* the parse *)
  assert (∀ s0, parsedDocumentPromises (cache s0) = parsedDocumentPromises (cache s) →
            (_parse this u contents s0).1 = Rejected e) as Hparse.
  { intros s0 Hs0.
    destruct (getOrCompute_fresh parsedSlot u (_parseCompute this u contents) s0)
      as [s00 Heq].
    - apply lawful_parsedSlot.
    - simpl. by rewrite Hs0.
    - intros s1. apply (keeps__parseCompute (get parsedSlot)).
    - unfold _parse. rewrite Heq.
      by rewrite (_parseCompute_result this u contents s00 s). }
  (* the local scan *)
  assert (∀ s0,
            parsedDocumentPromises (cache s0) = parsedDocumentPromises (cache s) →
            scannedDocumentPromises (cache s0) = scannedDocumentPromises (cache s) →
            ∃ s1, _scanLocal this fuel u contents s0 = Some (Rejected e, s1) ∧
                  keeps dependenciesScannedPromises s0 s1 ∧
                  keeps analyzedDocumentPromises s0 s1) as Hlocal.
  { intros s0 Hp0 Hs0.
    set (s1 := (request scannedSlot u s0).2).
    assert (keeps parsedDocumentPromises s0 s1) as Hk1
      by (by apply keeps_request).
    assert (_scanLocalCompute this fuel u contents s1
            = Some (Rejected e, (_parse this u contents s1).2)) as Hc.
    { unfold _scanLocalCompute.
      pose proof (Hparse s1 ltac:(by rewrite Hk1)) as Hr.
      destruct (_parse this u contents s1) as [r2 s2]. simpl in Hr. by subst. }
    destruct (getOrComputeRec_fresh scannedSlot u
                (_scanLocalCompute this fuel u contents) s0 _ _
                lawful_scannedSlot ltac:(simpl; by rewrite Hs0) Hc)
      as (p & Hrun & _).
    { by apply (keeps__parse scannedDocumentPromises). }
    eexists. split; [exact Hrun|].
    split.
    - by apply (keeps__scanLocal dependenciesScannedPromises (λ _ _, eq_refl)
                  (λ _ _, eq_refl) this fuel u contents s0 _ _ (λ _ _, eq_refl)
                  (λ _ _, eq_refl) Hrun).
    - by apply (keeps__scanLocal analyzedDocumentPromises (λ _ _, eq_refl)
                  (λ _ _, eq_refl) this fuel u contents s0 _ _ (λ _ _, eq_refl)
                  (λ _ _, eq_refl) Hrun). }
  (* the transitive scan *)
  assert (∀ s0,
            parsedDocumentPromises (cache s0) = parsedDocumentPromises (cache s) →
            scannedDocumentPromises (cache s0) = scannedDocumentPromises (cache s) →
            dependenciesScannedPromises (cache s0)
            = dependenciesScannedPromises (cache s) →
            ∃ s1, _scan this (S fuel) u contents s0 = Some (Rejected e, s1) ∧
                  promiseOf dependenciesSlot u s1 = Some (Rejected e) ∧
                  keeps analyzedDocumentPromises s0 s1) as Hscan.
  { intros s0 Hp0 Hs0 Hd0.
    set (s1 := (request dependenciesSlot u s0).2).
    destruct (Hlocal s1) as (s2 & Hrun & Hkd & Hka).
    { unfold s1. by rewrite (keeps_request parsedDocumentPromises
                               dependenciesSlot u s0 (λ _ _, eq_refl)). }
    { unfold s1. by rewrite (keeps_request scannedDocumentPromises
                               dependenciesSlot u s0 (λ _ _, eq_refl)). }
    destruct (getOrComputeRec_fresh dependenciesSlot u
                (λ s,
                  andThenRec (_scanLocal this fuel u contents s) (λ scannedDocument s,
                    let imports := nonLazyImports this scannedDocument s in
                    s ← scanImports this (λ importUrl, _scan this fuel importUrl Undefined)
                           scannedDocument imports s;
                    match awaitReady u s with
                    | (AsyncCyclicTransitivePromiseAll.Returned, s) =>
                        Some (Fulfilled scannedDocument, s)
                    | (_, s) => Some (Pending, s)
                    end)) s0 (Rejected e) s2
                lawful_dependenciesSlot ltac:(simpl; by rewrite Hd0))
      as (p & Hscan & Hreg & Hobs).
    { fold s1. by rewrite Hrun. }
    { exact Hkd. }
    eexists. split; [exact Hscan|]. split.
    - apply promiseOf_registered. by exists p.
    - eapply (keeps_trans analyzedDocumentPromises);
        [|by apply keeps_finish].
      eapply (keeps_trans analyzedDocumentPromises); [|exact Hka].
      by apply keeps_request. }
  (* the analysis *)
  set (s0 := (request analyzedSlot u s).2).
  destruct (Hscan s0) as (s1 & Hrun & Hpromise & Hka).
  { unfold s0. by rewrite (keeps_request parsedDocumentPromises analyzedSlot u s
                             (λ _ _, eq_refl)). }
  { unfold s0. by rewrite (keeps_request scannedDocumentPromises analyzedSlot u s
                             (λ _ _, eq_refl)). }
  { unfold s0. by rewrite (keeps_request dependenciesScannedPromises analyzedSlot
                             u s (λ _ _, eq_refl)). }
  assert (analyzeCompute this (S fuel) url u contents s0
          = Some (Rejected e, drain s1)) as Hc.
  { unfold analyzeCompute. rewrite Hrun. simpl.
    by rewrite (drain_keeps_settled s1 u (Rejected e) Hpromise). }
  destruct (getOrComputeRec_fresh analyzedSlot u
              (analyzeCompute this (S fuel) url u contents) s (Rejected e)
              (drain s1) lawful_analyzedSlot HfreshA Hc) as (p & Hanalyze & _).
  { eapply (keeps_trans analyzedDocumentPromises); [exact Hka|].
    apply (keeps_drain analyzedDocumentPromises (λ _ _, eq_refl) (λ _ _, eq_refl)
             s1 (λ _ _, eq_refl)). }
  eexists. exact Hanalyze.
Qed.

(** X23. Failures of loading and parsing reach the caller of [analyze]
    as they are.  For a URL that has no promise yet in any of the four
    caches, when loading or parsing it fails (the loader cannot load it,
    the loader's promise is rejected, no parser is registered for its
    extension, or its parser throws), [analyze] is rejected with exactly
    the error of [load] or [_parseContents], with any budget of at least
    one; and [_analyzeOrWarning] then yields the warning of a structured
    failure, or the [unable-to-analyze] warning made of the error. *)
Theorem analyze_fails_as_parse_fails this fuel url contents s e :
  let resolvedUrl := _resolveUrl this url in
  AsyncWorkCache._keyToResultMap (parsedDocumentPromises (cache s))
    !! resolvedUrl = None →
  AsyncWorkCache._keyToResultMap (scannedDocumentPromises (cache s))
    !! resolvedUrl = None →
  AsyncWorkCache._keyToResultMap (dependenciesScannedPromises (cache s))
    !! resolvedUrl = None →
  AsyncWorkCache._keyToResultMap (analyzedDocumentPromises (cache s))
    !! resolvedUrl = None →
  (_parseCompute this resolvedUrl contents s).1 = Rejected e →
  ∃ s', analyze this (S fuel) url contents s = Some (Rejected e, s') ∧
        (contents = Undefined →
         _analyzeOrWarning this (S fuel) url s
         = Some (Fulfilled (IsWarning
                   match cls e with
                   | WarningCarrying warning => warning
                   | _ => unableToAnalyze this url e
                   end), s')).
Proof.
  intros u HfreshP HfreshS HfreshD HfreshA Hfails.
  destruct (analyze_rejected this fuel url contents s e
              HfreshP HfreshS HfreshD HfreshA Hfails) as [s' Hanalyze].
  exists s'. split; [exact Hanalyze|].
  intros ->. unfold _analyzeOrWarning. rewrite Hanalyze. simpl.
  by destruct (cls e).
Qed.

End FailureFacts.

(** *** The analysis of a document without imports to follow *)

Section LeafFacts.
Import Warnings Js Utils Model AnalysisCache AnalyzerCacheContext Along Kept Leaf.
Implicit Types (this : Context) (s : State).

Lemma quiet_trans s1 s2 s3 : quiet s1 s2 → quiet s2 s3 → quiet s1 s3.
Proof.
  unfold quiet, keeps. intros (-> & -> & -> & ->) (-> & -> & -> & ->). done.
Qed.

Lemma quiet_resume s resolvedUrl : quiet s (resume s resolvedUrl).
Proof.
  unfold resume.
  destruct (promiseOf dependenciesSlot resolvedUrl s) as [[| |]|]; try done.
  destruct (promiseOf scannedSlot resolvedUrl s) as [[ref| |]|]; try done.
  destruct (_ !! resolvedUrl) as [p|]; try done.
  pose proof (quiet_awaitReady resolvedUrl s) as Hready.
  by destruct (awaitReady resolvedUrl s) as [[] s0].
Qed.

Lemma quiet_drain s : quiet s (drain s).
Proof.
  unfold drain.
  generalize (AsyncWorkCache.calls (dependenciesScannedPromises (cache s))).
  intros keys. revert s. induction keys as [|key keys IH]; intros s; [done|].
  simpl. eapply quiet_trans; [apply quiet_resume|apply IH].
Qed.

Lemma scanInlineFeatures_leaf this scanDocument containing containingUrl
    remaining : ∀ index s,
  Forall (λ f, leaf f = true) remaining →
  scanInlineFeatures this scanDocument containing containingUrl index remaining s
  = Some (Fulfilled tt, s).
Proof.
  induction remaining as [|f rest IH]; intros index s Hleaf; [done|].
  apply Forall_cons in Hleaf as [Hf Hrest]. simpl.
  destruct f; try done; by apply IH.
Qed.

Lemma applyComment_leaf this scannedFeatures comment :
  Forall (λ f, leaf f = true) scannedFeatures →
  Forall (λ f, leaf f = true) (applyComment this scannedFeatures comment).
Proof.
  intros Hleaf. unfold applyComment.
  destruct scannedFeatures as [|[] rest]; try done.
  apply Forall_cons in Hleaf as [_ Hrest]. by apply Forall_cons.
Qed.

Lemma leaf_no_imports (fs : list ScannedFeature) :
  Forall (λ f, leaf f = true) fs →
  filter (λ e, isNonLazyImport e = true) fs = [].
Proof.
  induction 1 as [|f fs Hf _ IH]; [done|].
  rewrite filter_cons, IH. destruct (decide _) as [Hi|]; [|done].
  destruct f; simpl in *; try done. by rewrite Hi in Hf.
Qed.

Lemma _scanDocument_leaf this fuel document s scannedFeatures :
  _getScannedFeatures this document = Fulfilled scannedFeatures →
  Forall (λ f, leaf f = true) scannedFeatures →
  pd_isInline document = false →
  scannedDocuments (cache s) !! pd_url document = None →
  _scanDocument this (S fuel) document None s
  = Some (Fulfilled (length (heap s)),
          withCache (λ a, setScannedDocuments
                       (<[pd_url document := length (heap s)]> (scannedDocuments a)) a)
            (withHeap (λ h, h ++ [mkScannedDocument document
                                    (applyComment this scannedFeatures None) []]) s)).
Proof.
  intros Hscan Hleaf Hinline Hfresh. simpl. rewrite Hscan. simpl.
  rewrite Hinline. destruct (decide _) as [[ref Href]|_].
  { simpl in Href. by rewrite Hfresh in Href. }
  rewrite scanInlineFeatures_leaf; [done|]. by apply applyComment_leaf.
Qed.

Lemma whenReady_leaf (g : DependencyGraph.DependencyGraph) u :
  AsyncCyclicTransitivePromiseAll.recorded g u [] →
  DependencyGraph.whenReady u g = (AsyncCyclicTransitivePromiseAll.Returned, g).
Proof.
  intros Hu. unfold DependencyGraph.whenReady,
    AsyncCyclicTransitivePromiseAll.promiseAllTransitive. simpl.
  rewrite decide_False by set_solver.
  unfold AsyncCyclicTransitivePromiseAll._getDeferredFor.
  unfold AsyncCyclicTransitivePromiseAll.recorded in Hu. rewrite Hu. simpl.
  by rewrite insert_id.
Qed.

(** X24. A document without imports to follow is analysed at once.
    For a URL of which nothing is known yet, whose contents parse to a
    document under that URL, and whose scan finds neither inline
    documents nor imports other than lazy ones, [analyze] with a budget
    of two is fulfilled with the [Document] of the scanned document it
    has just created: the heap has grown by exactly that scanned
    document, with the features of the scan and no warnings, and no URL
    but the document's own has been asked of the loader, so lazy imports
    are not loaded.  This assumes of the collaborators that
    [getNestedFeatures] yields the features of a document without inline
    documents, and that resolving the new [Document] leaves the promises
    of analyses, the heap and the log of loads alone. *)
Theorem analyze_leaf_document this fuel url contents s parsedDoc scannedFeatures :
  let resolvedUrl := _resolveUrl this url in
  let scannedDocument :=
    mkScannedDocument parsedDoc (applyComment this scannedFeatures None) [] in
  unseen resolvedUrl s →
  (_parseCompute this resolvedUrl contents s).1 = Fulfilled parsedDoc →
  pd_url parsedDoc = resolvedUrl →
  pd_isInline parsedDoc = false →
  _resolveUrl this resolvedUrl = resolvedUrl →
  _getScannedFeatures this parsedDoc = Fulfilled scannedFeatures →
  Forall (λ f, leaf f = true) scannedFeatures →
  (∀ h ref d, h !! ref = Some d → Forall (λ f, leaf f = true) (features d) →
              getNestedFeatures this h ref = features d) →
  (∀ s0, let s1 := resolveDocument this (mkDocument (length (heap s))) s0 in
         analyzedDocumentPromises (cache s1) = analyzedDocumentPromises (cache s0) ∧
         heap s1 = heap s0 ∧ loads s1 = loads s0) →
  ∃ s', analyze this (S (S fuel)) url contents s
        = Some (Fulfilled (Some (mkDocument (length (heap s)))), s') ∧
        heap s' = heap s ++ [scannedDocument] ∧
        ∀ x, x ∈ loads s' → x ∈ loads s ∨ x = resolvedUrl.
Proof.
  intros u doc (HfreshP & HfreshS & HfreshD & HfreshA & HfreshSD & HfreshAD & Hcell)
    Hparses Hurl Hinline Hidem Hfeatures Hleaf Hnested Hresolve.
  set (ref := length (heap s)).
  assert (Forall (λ f, leaf f = true) (features doc)) as Hdocleaf
    by (by apply applyComment_leaf).
  (* the parse *)
  assert (∀ s0, parsedDocumentPromises (cache s0) = parsedDocumentPromises (cache s) →
            (_parse this u contents s0).1 = Fulfilled parsedDoc) as Hparse.
  { intros s0 Hs0.
    destruct (getOrCompute_fresh parsedSlot u (_parseCompute this u contents) s0)
      as [s00 Heq].
    - apply lawful_parsedSlot.
    - simpl. by rewrite Hs0.
    - intros s1. apply (keeps__parseCompute (get parsedSlot)).
    - unfold _parse. rewrite Heq.
      by rewrite (_parseCompute_result this u contents s00 s). }
  (* no imports in a heap that holds the document *)
  assert (∀ s0, heap s0 = heap s ++ [doc] → nonLazyImports this ref s0 = [])
    as Hnone.
  { intros s0 Hh. unfold nonLazyImports.
    rewrite (Hnested (heap s0) ref doc); [by apply leaf_no_imports| |done].
    rewrite Hh. unfold ref. by apply list_lookup_middle. }
  (* the local scan *)
  assert (∀ s0,
            parsedDocumentPromises (cache s0) = parsedDocumentPromises (cache s) →
            scannedDocumentPromises (cache s0) = scannedDocumentPromises (cache s) →
            heap s0 = heap s →
            scannedDocuments (cache s0) = scannedDocuments (cache s) →
            dependencyGraph (cache s0) = dependencyGraph (cache s) →
            ∃ s1, _scanLocal this (S fuel) u contents s0 = Some (Fulfilled ref, s1) ∧
                  heap s1 = heap s ++ [doc] ∧
                  scannedDocuments (cache s1) !! u = Some ref ∧
                  AsyncCyclicTransitivePromiseAll.recorded
                    (dependencyGraph (cache s1)) u [] ∧
                  keeps dependenciesScannedPromises s0 s1 ∧
                  keeps analyzedDocumentPromises s0 s1 ∧
                  keeps analyzedDocuments s0 s1 ∧
                  ∀ x, x ∈ loads s1 → x ∈ loads s0 ∨ x = u) as Hlocal.
  { intros s0 Hp0 Hs0 Hh0 Hsd0 Hg0.
    set (s1 := (request scannedSlot u s0).2).
    destruct (quiet_request scannedSlot u s0 (λ _ _, eq_refl))
      as (Hh1 & _ & Hl1 & Hrest1).
    fold s1 in Hh1, Hl1, Hrest1. unfold keeps, rest in Hrest1.
    injection Hrest1 as Hp1 Hsd1 Had1.
    pose proof (keeps_request dependencyGraph scannedSlot u s0 (λ _ _, eq_refl))
      as Hg1. fold s1 in Hg1. unfold keeps in Hg1.
    pose proof (Hparse s1 ltac:(by rewrite Hp1)) as Hr.
    destruct (_parse_frame this u contents s1) as (Hh2 & Hsd2 & Had2 & _ & Hl2).
    pose proof (keeps__parse dependencyGraph this u contents s1 (λ _ _, eq_refl))
      as Hg2.
    pose proof (keeps__parse scannedDocumentPromises this u contents s1
                  (λ _ _, eq_refl)) as Hs2.
    unfold keeps in Hg2, Hs2.
    destruct (_parse this u contents s1) as [r2 s2] eqn:Hparse1.
    simpl in Hr, Hh2, Hsd2, Had2, Hg2, Hs2, Hl2. subst r2.
    assert (length (heap s2) = ref) as Href by (by rewrite Hh2, Hh1, Hh0).
    destruct (resolve_first_succeeds (dependencyGraph (cache s)) u [] Hcell)
      as [Hok Hrec].
    assert (_scanLocalCompute this (S fuel) u contents s1
            = Some (Fulfilled ref,
                    withCache (setDependencyGraph
                      (DependencyGraph.addDocument u [] (dependencyGraph (cache s))).2)
                      (withCache (λ a, setScannedDocuments
                                    (<[u := ref]> (scannedDocuments a)) a)
                         (withHeap (λ h, h ++ [doc]) s2)))) as Hc.
    { unfold _scanLocalCompute. rewrite Hparse1. cbn [andThen].
      rewrite (_scanDocument_leaf this fuel parsedDoc s2 scannedFeatures
                 Hfeatures Hleaf Hinline)
        by (by rewrite Hurl, Hsd2, Hsd1, Hsd0).
      rewrite Href, Hurl. unfold andThenRec. cbn [mbind option_bind andThen].
      rewrite Hnone by (simpl; by rewrite Hh2, Hh1, Hh0).
      simpl map. simpl dependencyGraph. rewrite Hg2, Hg1, Hg0.
      unfold DependencyGraph.addDocument in *.
      destruct (AsyncCyclicTransitivePromiseAll.resolve u [] _) as [[err|[]] g'];
        simpl in Hok; [done|]. done. }
    destruct (getOrComputeRec_fresh scannedSlot u
                (_scanLocalCompute this (S fuel) u contents) s0 _ _
                lawful_scannedSlot ltac:(simpl; by rewrite Hs0) Hc)
      as (p & Hrun & _).
    { simpl. fold s1. by rewrite Hs2. }
    eexists. split; [exact Hrun|].
    split; [simpl; by rewrite Hh2, Hh1, Hh0|].
    split; [simpl; by rewrite lookup_insert_eq|].
    split; [exact Hrec|].
    split; [|split; [|split]].
    - by apply (keeps__scanLocal dependenciesScannedPromises (λ _ _, eq_refl)
                  (λ _ _, eq_refl) this (S fuel) u contents s0 _ _ (λ _ _, eq_refl)
                  (λ _ _, eq_refl) Hrun).
    - by apply (keeps__scanLocal analyzedDocumentPromises (λ _ _, eq_refl)
                  (λ _ _, eq_refl) this (S fuel) u contents s0 _ _ (λ _ _, eq_refl)
                  (λ _ _, eq_refl) Hrun).
    - by apply (keeps__scanLocal analyzedDocuments (λ _ _, eq_refl)
                  (λ _ _, eq_refl) this (S fuel) u contents s0 _ _ (λ _ _, eq_refl)
                  (λ _ _, eq_refl) Hrun).
    - simpl. intros x Hx. rewrite <- Hl1.
      destruct Hl2 as [->|(_ & _ & _ & [Hl2|[Hl2 _]])]; rewrite ?Hl2 in Hx;
        [by left..|].
      apply elem_of_app in Hx as [Hx|Hx]; [by left|right]. set_solver. }
  (* the transitive scan *)
  assert (∀ s0,
            parsedDocumentPromises (cache s0) = parsedDocumentPromises (cache s) →
            scannedDocumentPromises (cache s0) = scannedDocumentPromises (cache s) →
            dependenciesScannedPromises (cache s0)
            = dependenciesScannedPromises (cache s) →
            heap s0 = heap s →
            scannedDocuments (cache s0) = scannedDocuments (cache s) →
            dependencyGraph (cache s0) = dependencyGraph (cache s) →
            ∃ s1, _scan this (S (S fuel)) u contents s0 = Some (Fulfilled ref, s1) ∧
                  promiseOf dependenciesSlot u s1 = Some (Fulfilled ref) ∧
                  heap s1 = heap s ++ [doc] ∧
                  scannedDocuments (cache s1) !! u = Some ref ∧
                  keeps analyzedDocumentPromises s0 s1 ∧
                  keeps analyzedDocuments s0 s1 ∧
                  ∀ x, x ∈ loads s1 → x ∈ loads s0 ∨ x = u) as Hscan.
  { intros s0 Hp0 Hs0 Hd0 Hh0 Hsd0 Hg0.
    set (s1 := (request dependenciesSlot u s0).2).
    destruct (quiet_request dependenciesSlot u s0 (λ _ _, eq_refl))
      as (Hh1 & _ & Hl1 & Hrest1).
    fold s1 in Hh1, Hl1, Hrest1. unfold keeps, rest in Hrest1.
    injection Hrest1 as Hp1 Hsd1 Had1.
    destruct (Hlocal s1)
      as (s2 & Hrun & Hh2 & Hsd2 & Hrec & Hkd & Hka & Hkad & Hl2).
    { by rewrite Hp1. }
    { unfold s1. by rewrite (keeps_request scannedDocumentPromises
                               dependenciesSlot u s0 (λ _ _, eq_refl)). }
    { by rewrite Hh1. }
    { by rewrite Hsd1. }
    { unfold s1. by rewrite (keeps_request dependencyGraph
                               dependenciesSlot u s0 (λ _ _, eq_refl)). }
    destruct (getOrComputeRec_fresh dependenciesSlot u
                (λ s,
                  andThenRec (_scanLocal this (S fuel) u contents s) (λ scannedDocument s,
                    let imports := nonLazyImports this scannedDocument s in
                    s ← scanImports this (λ importUrl, _scan this (S fuel) importUrl Undefined)
                           scannedDocument imports s;
                    match awaitReady u s with
                    | (AsyncCyclicTransitivePromiseAll.Returned, s) =>
                        Some (Fulfilled scannedDocument, s)
                    | (_, s) => Some (Pending, s)
                    end)) s0 (Fulfilled ref)
                (withCache (setDependencyGraph (dependencyGraph (cache s2))) s2)
                lawful_dependenciesSlot ltac:(simpl; by rewrite Hd0))
      as (p & Hscan & Hreg & Hobs).
    { fold s1. rewrite Hrun. simpl. rewrite (Hnone s2 Hh2). simpl.
      unfold awaitReady. by rewrite (whenReady_leaf _ u Hrec). }
    { simpl. exact Hkd. }
    eexists. split; [exact Hscan|]. split; [|split; [|split; [|split; [|split]]]].
    - apply promiseOf_registered. by exists p.
    - done.
    - done.
    - unfold keeps in *. simpl. rewrite Hka. unfold s1.
      by apply (keeps_request analyzedDocumentPromises).
    - unfold keeps in *. simpl. by rewrite Hkad.
    - simpl. by rewrite <- Hl1. }
  (* the analysis *)
  destruct (request_fresh analyzedSlot u s lawful_analyzedSlot HfreshA)
    as (p0 & s0' & Hreq & Hreg0 & _).
  set (s0 := (request analyzedSlot u s).2).
  assert (s0' = s0) as -> by (unfold s0; by rewrite Hreq).
  destruct (quiet_request analyzedSlot u s (λ _ _, eq_refl))
    as (Hh0 & _ & Hl0 & Hrest0).
  fold s0 in Hh0, Hl0, Hrest0. unfold keeps, rest in Hrest0.
  injection Hrest0 as Hp0 Hsd0 Had0.
  destruct (Hscan s0) as (s1 & Hrun & Hpromise & Hh1 & Hsd1 & Hka & Hkad & Hl1).
  { done. }
  { unfold s0. by rewrite (keeps_request scannedDocumentPromises analyzedSlot u s
                             (λ _ _, eq_refl)). }
  { unfold s0. by rewrite (keeps_request dependenciesScannedPromises analyzedSlot
                             u s (λ _ _, eq_refl)). }
  { done. }
  { done. }
  { unfold s0. by rewrite (keeps_request dependencyGraph analyzedSlot u s
                             (λ _ _, eq_refl)). }
  destruct (quiet_drain s1) as (Hh2 & _ & Hl2 & Hrest2).
  unfold keeps, rest in Hrest2. injection Hrest2 as Hp2 Hsd2 Had2.
  pose proof (keeps_drain analyzedDocumentPromises (λ _ _, eq_refl) (λ _ _, eq_refl)
                s1 (λ _ _, eq_refl)) as Hka2. unfold keeps in Hka2.
  set (s3 := withCache (λ a, setAnalyzedDocuments
                 (<[u := mkDocument ref]> (analyzedDocuments a)) a) (drain s1)).
  assert (registered analyzedSlot u p0 s3) as Hreg3.
  { unfold registered in *. simpl. rewrite Hka2. unfold keeps in Hka.
    by rewrite Hka. }
  assert (analyzeCompute this (S (S fuel)) url u contents s0
          = Some (Fulfilled (Some (mkDocument ref)),
                  doneTiming "analyze: make document" url
                    (resolveDocument this (mkDocument ref) s3))) as Hc.
  { unfold analyzeCompute. rewrite Hrun. simpl.
    rewrite (drain_keeps_settled s1 u (Fulfilled ref) Hpromise) by done.
    assert (urlOf (drain s1) ref = u) as ->.
    { unfold urlOf. rewrite Hh2, Hh1. unfold ref.
      by rewrite list_lookup_middle. }
    unfold _getDocument. rewrite Hidem.
    rewrite Had2. unfold keeps in Hkad. rewrite Hkad, Had0, HfreshAD.
    rewrite Hsd2. unfold Ref in *. rewrite Hsd1. fold s3.
    by rewrite (getOrCompute_registered analyzedSlot u _ p0 s3
                  lawful_analyzedSlot Hreg3). }
  destruct (getOrComputeRec_fresh analyzedSlot u
              (analyzeCompute this (S (S fuel)) url u contents) s _ _
              lawful_analyzedSlot HfreshA Hc) as (p & Hanalyze & _).
  { pose proof (Hresolve s3) as Hr3. fold ref in Hr3.
    simpl. destruct Hr3 as (-> & _ & _). simpl.
    rewrite Hka2. exact Hka. }
  eexists. split; [exact Hanalyze|].
  pose proof (Hresolve s3) as Hr3. fold ref in Hr3.
  simpl. destruct Hr3 as (_ & -> & ->). simpl.
  split; [by rewrite Hh2|]. rewrite Hl2, <- Hl0. exact Hl1.
Qed.

Lemma analyze_leaf_document_witness :
  ∃ s',
    analyze Card.context 2 "card.html" Undefined initial
    = Some (Fulfilled (Some (mkDocument 0)), s') ∧
    heap s' = [mkScannedDocument Card.card Card.scannedFeatures []] ∧
    ∀ x, x ∈ loads s' → x ∈ loads initial ∨ x = "card.html".
Proof.
  apply (analyze_leaf_document Card.context 0 "card.html" Undefined initial
           Card.card Card.scannedFeatures).
  - repeat split; try left; vm_compute; reflexivity.
  - vm_compute; reflexivity.
  - reflexivity.
  - reflexivity.
  - reflexivity.
  - vm_compute; reflexivity.
  - repeat constructor.
  - intros h ref d Hd _. simpl. by rewrite Hd.
  - done.
Defined.

End LeafFacts.

(** ** The first request for a URL *)

Section FirstRequestFacts.
Import Warnings Js Utils Model AnalysisCache AnalyzerCacheContext Along Kept Older.
Implicit Types (this : Context) (s : State).

Lemma olderKept_refl {V} (c : AsyncWorkCache.AsyncWorkCache V) : olderKept c c.
Proof. by repeat split. Qed.

Lemma olderKept_trans {V} (c1 c2 c3 : AsyncWorkCache.AsyncWorkCache V) :
  olderKept c1 c2 → olderKept c2 c3 → olderKept c1 c3.
Proof.
  intros (L12 & M12 & S12) (L23 & M23 & S23). split; [lia|]. split; [auto|].
  intros p Hp. rewrite S23 by lia. by apply S12.
Qed.

Lemma olderKept_eq {V} (c c' : AsyncWorkCache.AsyncWorkCache V) :
  c' = c → olderKept c c'.
Proof. intros ->. apply olderKept_refl. Qed.

Lemma held_older {V} (slot : Slot V) key p x s s' :
  held slot key p x s →
  olderKept (get slot (cache s)) (get slot (cache s')) →
  held slot key p x s'.
Proof.
  intros (Hreg & Hobs & Hp) (Hlen & Hmap & Hset). split; [by apply Hmap|].
  split; [|lia]. unfold AsyncWorkCache.observe in *. by rewrite Hset.
Qed.

Lemma held_promiseOf {V} (slot : Slot V) key p x s :
  held slot key p x s → promiseOf slot key s = Some x.
Proof. intros (Hreg & Hobs & _). apply promiseOf_registered. by exists p. Qed.

(** A request for a key without a promise makes the next promise, pending,
    and keeps the older ones. *)
Lemma request_fresh_older {V} (slot : Slot V) key s :
  lawful slot →
  AsyncWorkCache._keyToResultMap (get slot (cache s)) !! key = None →
  let p := length (AsyncWorkCache.calls (get slot (cache s))) in
  let s0 := (request slot key s).2 in
  request slot key s = (p, true, s0) ∧
  registered slot key p s0 ∧
  AsyncWorkCache.settled (get slot (cache s0)) !! p = None ∧
  p < length (AsyncWorkCache.calls (get slot (cache s0))) ∧
  olderKept (get slot (cache s)) (get slot (cache s0)).
Proof.
  intros [_ Hgs] Hfresh. cbv zeta. unfold request, AsyncWorkCache.getOrCompute.
  rewrite Hfresh. cbn [fst snd]. split; [done|].
  unfold registered. simpl. rewrite Hgs. simpl.
  split; [by rewrite lookup_insert_eq|]. split; [by rewrite lookup_delete_eq|].
  split; [rewrite List.length_app; simpl; lia|].
  split; [simpl; rewrite List.length_app; simpl; lia|]. split.
  - intros k q Hk. simpl. rewrite lookup_insert_ne; [done|congruence].
  - intros q Hq. simpl. rewrite lookup_delete_ne; [done|lia].
Qed.

(** [getOrCompute] for a key without a promise, when what the computation
    does to the cache keeps the older promises: the result is that of the
    computation, it is what the promise of the key stands at, and the
    promises there were are kept. *)
Lemma getOrComputeRec_held {V} (slot : Slot V) key compute s r s' :
  lawful slot →
  AsyncWorkCache._keyToResultMap (get slot (cache s)) !! key = None →
  (∀ r0 s1, compute (request slot key s).2 = Some (r0, s1) →
     olderKept (get slot (cache (request slot key s).2)) (get slot (cache s1))) →
  getOrComputeRec slot key compute s = Some (r, s') →
  ∃ p s1,
    compute (request slot key s).2 = Some (r, s1) ∧
    s' = (finish slot p r s1).2 ∧
    held slot key p r s' ∧
    olderKept (get slot (cache s)) (get slot (cache s')).
Proof.
  intros Hl Hfresh Holder.
  destruct (request_fresh_older slot key s Hl Hfresh)
    as (Hreq & Hreg & Hp & Hlt & Hold).
  unfold getOrComputeRec. rewrite Hreq. cbn [snd] in *.
  set (p := length (AsyncWorkCache.calls (get slot (cache s)))) in *.
  set (s0 := (request slot key s).2) in *.
  destruct (compute s0) as [[r0 s1]|] eqn:Hc; simpl; [|done].
  destruct (Holder r0 s1 eq_refl) as (Hlen & Hmap & Hset).
  assert ((finish slot p r0 s1).1 = r0) as Hr.
  { apply finish_settles; [done|]. rewrite Hset; [done|lia]. }
  intros Hfin.
  assert (r = r0 ∧ s' = (finish slot p r0 s1).2) as [-> ->].
  { destruct (finish slot p r0 s1) as [r2 s2]. simpl in Hr. subst r2.
    by injection Hfin as <- <-. }
  exists p, s1. split; [done|]. split; [done|].
  destruct Hl as [Hsg Hgs].
  assert (AsyncWorkCache.calls (get slot (cache (finish slot p r0 s1).2))
          = AsyncWorkCache.calls (get slot (cache s1)) ∧
          AsyncWorkCache._keyToResultMap (get slot (cache (finish slot p r0 s1).2))
          = AsyncWorkCache._keyToResultMap (get slot (cache s1))) as [Hcalls Hkeys].
  { unfold finish. simpl. rewrite Hgs.
    by destruct (settle_keeps (get slot (cache s1)) p r0) as [-> ->]. }
  split; [|].
  - split; [|split].
    + unfold registered. rewrite Hkeys. by apply Hmap.
    + rewrite <- Hr at 2. symmetry. apply finish_observe.
    + rewrite Hcalls. lia.
  - destruct Hold as (Hlen0 & Hmap0 & Hset0). split; [rewrite Hcalls; lia|].
    split.
    + intros k q Hk. rewrite Hkeys. by apply Hmap, Hmap0.
    + intros q Hq. unfold finish. simpl. rewrite Hgs.
      assert (AsyncWorkCache.settled (AsyncWorkCache.settle p r0 (get slot (cache s1)))
                !! q = AsyncWorkCache.settled (get slot (cache s1)) !! q) as ->.
      { unfold AsyncWorkCache.settle.
        destruct r0, (AsyncWorkCache.settled (get slot (cache s1)) !! p);
          simpl; try done; rewrite lookup_insert_ne; try done; unfold p; lia. }
      rewrite Hset by lia. by apply Hset0.
Qed.

(** The same for any key: the promises there were are kept. *)
Lemma getOrComputeRec_older {V} (slot : Slot V) key compute s r s' :
  lawful slot →
  (∀ r0 s1, compute (request slot key s).2 = Some (r0, s1) →
     olderKept (get slot (cache (request slot key s).2)) (get slot (cache s1))) →
  getOrComputeRec slot key compute s = Some (r, s') →
  olderKept (get slot (cache s)) (get slot (cache s')).
Proof.
  intros Hl Holder Hrun.
  destruct (AsyncWorkCache._keyToResultMap (get slot (cache s)) !! key)
    as [p|] eqn:Hkey.
  - rewrite (getOrComputeRec_registered slot key compute p s Hl Hkey) in Hrun.
    injection Hrun as _ <-. apply olderKept_refl.
  - by destruct (getOrComputeRec_held slot key compute s r s' Hl Hkey Holder Hrun)
      as (p & s1 & _ & _ & _ & Hold).
Qed.

Lemma getOrCompute_as_rec {V} (slot : Slot V) key compute s :
  getOrComputeRec slot key (λ s0, Some (compute s0)) s
  = Some (getOrCompute slot key compute s).
Proof.
  unfold getOrComputeRec, getOrCompute.
  destruct (request slot key s) as [[p invoked] s0]. destruct invoked; [|done].
  simpl. by destruct (compute s0).
Qed.

(** *** The parses and the scanned documents, along an analysis *)

Lemma _parse_older this resolvedUrl contents s :
  olderKept (parsedDocumentPromises (cache s))
    (parsedDocumentPromises (cache (_parse this resolvedUrl contents s).2)).
Proof.
  pose proof (getOrCompute_as_rec parsedSlot resolvedUrl
                (_parseCompute this resolvedUrl contents) s) as Hrec.
  fold (_parse this resolvedUrl contents s) in Hrec.
  destruct (_parse this resolvedUrl contents s) as [r s'].
  apply (getOrComputeRec_older parsedSlot) in Hrec; [done|apply lawful_parsedSlot|].
  intros r0 s1 [= Hc]. apply olderKept_eq.
  pose proof (keeps__parseCompute (get parsedSlot) this resolvedUrl contents
                (request parsedSlot resolvedUrl s).2) as Hk.
  by rewrite Hc in Hk.
Qed.

Lemma parsesAndScansKept_steps this : ScanSteps this parsesAndScansKept.
Proof.
  pose proof (scannedKept_steps this) as HS. split.
  - intros s. split; [apply olderKept_refl|apply (along_refl _ _ HS)].
  - intros s1 s2 s3 [P12 K12] [P23 K23]. split.
    + by eapply olderKept_trans.
    + by eapply (along_trans _ _ HS).
  - intros s s' Hq. split; [|by apply (along_quiet _ _ HS)].
    destruct Hq as (_ & _ & _ & Hk). apply olderKept_eq. by injection Hk.
  - intros resolvedUrl contents s. split; [apply _parse_older|].
    apply (along_parse _ _ HS).
  - intros document features s. split; [apply olderKept_refl|].
    apply (along_alloc _ _ HS).
  - intros document features ref s Href Hinline Hfree.
    split; [apply olderKept_refl|]. by apply (along_store _ _ HS _ features).
  - intros ref warning s. split; [apply olderKept_refl|apply (along_warn _ _ HS)].
  - intros ref index scannedDoc s.
    split; [apply olderKept_refl|apply (along_inline _ _ HS)].
Qed.

Lemma parsesAndScansKept_analysis this :
  (∀ document s,
     heap (resolveDocument this document s) = heap s ∧
     scannedDocuments (cache (resolveDocument this document s))
     = scannedDocuments (cache s) ∧
     parsedDocumentPromises (cache (resolveDocument this document s))
     = parsedDocumentPromises (cache s)) →
  AnalysisSteps this parsesAndScansKept.
Proof.
  intros Hres. split.
  - apply parsesAndScansKept_steps.
  - intros url document s Hnone Hsome. split; [apply olderKept_refl|].
    by apply scannedKept_same.
  - intros document s. destruct (Hres document s) as (Hh & Hm & Hp).
    split; [by apply olderKept_eq|by apply scannedKept_same].
  - intros url s. split; [apply olderKept_refl|by apply scannedKept_same].
Qed.

(** *** The promises of the scans, along a scan *)

Lemma scansOlderKept_refl s : scansOlderKept s s.
Proof. split; [apply olderKept_refl|]. split; [apply olderKept_refl|done]. Qed.

Lemma scansOlderKept_trans s1 s2 s3 :
  scansOlderKept s1 s2 → scansOlderKept s2 s3 → scansOlderKept s1 s3.
Proof.
  intros (S12 & D12 & C12) (S23 & D23 & C23).
  split; [by eapply olderKept_trans|]. split; [by eapply olderKept_trans|auto].
Qed.

Lemma scansOlderKept_same s s' :
  scannedDocumentPromises (cache s') = scannedDocumentPromises (cache s) →
  dependenciesScannedPromises (cache s') = dependenciesScannedPromises (cache s) →
  scansOlderKept s s'.
Proof.
  intros HS HD. split; [by apply olderKept_eq|]. split; [by apply olderKept_eq|].
  by rewrite HD.
Qed.

Lemma _scanLocal_scansOlderKept this fuel resolvedUrl contents s r s' :
  _scanLocal this fuel resolvedUrl contents s = Some (r, s') →
  scansOlderKept s s'.
Proof.
  intros Hrun.
  pose proof (keeps__scanLocal dependenciesScannedPromises (λ _ _, eq_refl)
                (λ _ _, eq_refl) this fuel resolvedUrl contents s r s'
                (λ _ _, eq_refl) (λ _ _, eq_refl) Hrun) as HD.
  unfold keeps in HD. split; [|split; [by apply olderKept_eq|by rewrite HD]].
  apply (getOrComputeRec_older scannedSlot) in Hrun;
    [done|apply lawful_scannedSlot|].
  intros r0 s1 Hc. apply olderKept_eq.
  by apply (keeps__scanLocalCompute scannedDocumentPromises (λ _ _, eq_refl)
              (λ _ _, eq_refl)) in Hc.
Qed.

Lemma scanImports_scansOlderKept this scan scannedDocument :
  (∀ importUrl s0 r0 s1, scan importUrl s0 = Some (r0, s1) →
                         scansOlderKept s0 s1) →
  ∀ imports s s',
    scanImports this scan scannedDocument imports s = Some s' →
    scansOlderKept s s'.
Proof.
  intros Hscan. induction imports as [|scannedImport rest IH]; intros s s'.
  { intros [= <-]. apply scansOlderKept_refl. }
  cbn [scanImports].
  destruct (scan _ s) as [[[ref|error|] s0]|] eqn:Hs; [| | |done];
    apply Hscan in Hs; intros Hrest%IH;
    (eapply scansOlderKept_trans; [exact Hs|]); [done| |done].
  eapply scansOlderKept_trans; [|exact Hrest]. by apply scansOlderKept_same.
Qed.

(** What follows the local scan in [_scan]. *)
Lemma afterLocal_scansOlderKept this resolvedUrl
    (scan : string → State → option (Completion Ref * State))
    (r1 : Completion Ref) s1 r s' :
  (∀ importUrl s0 r0 s2, scan importUrl s0 = Some (r0, s2) →
                         scansOlderKept s0 s2) →
  andThen (r1, s1) (λ scannedDocument s,
    let imports := nonLazyImports this scannedDocument s in
    s ← scanImports this scan scannedDocument imports s;
    match awaitReady resolvedUrl s with
    | (AsyncCyclicTransitivePromiseAll.Returned, s) =>
        Some (Fulfilled scannedDocument, s)
    | (_, s) => Some (Pending, s)
    end) = Some (r, s') →
  scansOlderKept s1 s'.
Proof.
  intros Hscan. destruct r1 as [scannedDocument|e|]; cbn [andThen];
    try (intros [= <- <-]; apply scansOlderKept_refl).
  cbv zeta.
  destruct (scanImports this scan scannedDocument _ s1) as [s2|] eqn:Himports;
    cbn [mbind option_bind]; [|done].
  apply (scanImports_scansOlderKept this scan scannedDocument Hscan) in Himports.
  pose proof (keeps_awaitReady scannedDocumentPromises (λ _ _, eq_refl)
                (λ _ _, eq_refl) resolvedUrl s2) as HS.
  pose proof (keeps_awaitReady dependenciesScannedPromises (λ _ _, eq_refl)
                (λ _ _, eq_refl) resolvedUrl s2) as HD.
  destruct (awaitReady resolvedUrl s2) as [o s3]. unfold keeps in HS, HD.
  simpl in HS, HD.
  assert (scansOlderKept s1 s3) as Hall.
  { eapply scansOlderKept_trans; [exact Himports|]. by apply scansOlderKept_same. }
  by destruct o; intros [= <- <-].
Qed.

Lemma _scan_scansOlderKept this fuel : ∀ resolvedUrl contents s r s',
  _scan this fuel resolvedUrl contents s = Some (r, s') → scansOlderKept s s'.
Proof.
  induction fuel as [|fuel IH]; intros resolvedUrl contents s r s'; [done|].
  cbn [_scan]. intros Hrun.
  assert (∀ s0 r0 s1,
    andThenRec (_scanLocal this fuel resolvedUrl contents s0)
      (λ scannedDocument s,
        let imports := nonLazyImports this scannedDocument s in
        s ← scanImports this (λ importUrl, _scan this fuel importUrl Undefined)
               scannedDocument imports s;
        match awaitReady resolvedUrl s with
        | (AsyncCyclicTransitivePromiseAll.Returned, s) =>
            Some (Fulfilled scannedDocument, s)
        | (_, s) => Some (Pending, s)
        end) = Some (r0, s1) → scansOlderKept s0 s1) as Hbody.
  { intros s0 r0 s1. unfold andThenRec.
    destruct (_scanLocal this fuel resolvedUrl contents s0) as [[r1 s2]|] eqn:Hlocal;
      cbn [mbind option_bind]; [|done].
    apply _scanLocal_scansOlderKept in Hlocal. intros Hafter.
    apply afterLocal_scansOlderKept in Hafter; [|intros ? ? ? ?; apply IH].
    by eapply scansOlderKept_trans. }
  split; [|split].
  - (* the promises of the local scans *)
    revert Hrun. unfold getOrComputeRec.
    pose proof (keeps_request scannedDocumentPromises dependenciesSlot
                  resolvedUrl s (λ _ _, eq_refl)) as Hreq.
    destruct (request dependenciesSlot resolvedUrl s) as [[p invoked] s0].
    unfold keeps in Hreq. simpl in Hreq.
    destruct invoked; [|intros [= <- <-]; by apply olderKept_eq].
    match goal with
    | |- context [mbind _ ?c] => destruct c as [[r0 s1]|] eqn:Hc
    end; cbn [mbind option_bind]; [|done].
    apply Hbody in Hc as (HS & _). intros Hfin.
    assert (s' = (finish dependenciesSlot p r0 s1).2) as ->
      by (by injection Hfin as <-).
    simpl. by rewrite <- Hreq.
  - (* the promises of the transitive scans *)
    apply (getOrComputeRec_older dependenciesSlot) in Hrun;
      [done|apply lawful_dependenciesSlot|].
    intros r0 s1 Hc. by apply Hbody in Hc as (_ & HD & _).
  - (* their coherence *)
    intros Hcons. revert Hrun. unfold getOrComputeRec, request.
    pose proof (consistent_getOrCompute _ resolvedUrl Hcons) as Hc0.
    change (get dependenciesSlot (cache s))
      with (dependenciesScannedPromises (cache s)).
    destruct (AsyncWorkCache.getOrCompute resolvedUrl
                (dependenciesScannedPromises (cache s))) as [[p invoked] c0].
    simpl in Hc0. destruct invoked; [|by intros [= <- <-]].
    match goal with
    | |- context [mbind _ ?c] => destruct c as [[r0 s1]|] eqn:Hc
    end; cbn [mbind option_bind]; [|done].
    apply Hbody in Hc as (_ & _ & HC). intros Hfin.
    assert (s' = (finish dependenciesSlot p r0 s1).2) as ->
      by (by injection Hfin as <-).
    simpl. apply consistent_settle. by apply HC.
Qed.

(** *** What a drain settles *)

Lemma resume_source s k u x :
  AsyncWorkCache.consistent (dependenciesScannedPromises (cache s)) →
  promiseOf dependenciesSlot u (resume s k) = Some x →
  promiseOf dependenciesSlot u s = Some x ∨
  ∃ ref, x = Fulfilled ref ∧ promiseOf scannedSlot u s = Some (Fulfilled ref).
Proof.
  intros Hcons. unfold resume.
  destruct (promiseOf dependenciesSlot k s) as [[| |]|] eqn:Hk; try by left.
  destruct (promiseOf scannedSlot k s) as [[ref| |]|] eqn:Hsk; try by left.
  destruct (AsyncWorkCache._keyToResultMap (dependenciesScannedPromises (cache s))
              !! k) as [p|] eqn:Hp; try by left.
  pose proof (keeps_awaitReady dependenciesScannedPromises (λ _ _, eq_refl)
                (λ _ _, eq_refl) k s) as HD.
  destruct (awaitReady k s) as [o s0]. unfold keeps in HD. simpl in HD.
  assert (promiseOf dependenciesSlot u s0 = promiseOf dependenciesSlot u s) as Hsame.
  { unfold promiseOf. simpl. by rewrite HD. }
  destruct o; try (rewrite Hsame; by left).
  unfold promiseOf, finish. cbn -[AsyncWorkCache.settle AsyncWorkCache.observe].
  destruct (settle_keeps (dependenciesScannedPromises (cache s0)) p (Fulfilled ref))
    as [-> _].
  rewrite HD.
  destruct (AsyncWorkCache._keyToResultMap (dependenciesScannedPromises (cache s))
              !! u) as [q|] eqn:Hq; [|done].
  cbn -[AsyncWorkCache.settle AsyncWorkCache.observe].
  rewrite observe_settle. intros [= <-].
  destruct (decide (q = p)) as [->|Hne].
  - assert (u = k) as ->.
    { apply Hcons in Hq. apply Hcons in Hp. congruence. }
    destruct (AsyncWorkCache.settled (dependenciesScannedPromises (cache s)) !! p)
      as [x0|] eqn:Hx0.
    + left. unfold promiseOf. simpl. rewrite ?Hq. simpl.
      unfold AsyncWorkCache.observe. by rewrite Hx0.
    + right. by exists ref.
  - left. unfold promiseOf. simpl. by rewrite ?Hq.
Qed.

Lemma resume_frame s k :
  scannedDocumentPromises (cache (resume s k)) = scannedDocumentPromises (cache s) ∧
  (AsyncWorkCache.consistent (dependenciesScannedPromises (cache s)) →
   AsyncWorkCache.consistent (dependenciesScannedPromises (cache (resume s k)))).
Proof.
  split.
  { apply (keeps_resume scannedDocumentPromises (λ _ _, eq_refl) (λ _ _, eq_refl)).
    done. }
  intros Hcons. unfold resume.
  destruct (promiseOf dependenciesSlot k s) as [[| |]|]; try done.
  destruct (promiseOf scannedSlot k s) as [[ref| |]|]; try done.
  destruct (_ !! k) as [p|]; try done.
  pose proof (keeps_awaitReady dependenciesScannedPromises (λ _ _, eq_refl)
                (λ _ _, eq_refl) k s) as HD.
  destruct (awaitReady k s) as [o s0]. unfold keeps in HD. simpl in HD.
  destruct o; try (by rewrite HD).
  cbn -[AsyncWorkCache.settle]. apply consistent_settle. by rewrite HD.
Qed.

(** When the drain is over, the promise of a transitive scan stands as it
    stood before, or it has been fulfilled with what the local scan of the
    same URL was fulfilled with. *)
Lemma drain_source s u x :
  AsyncWorkCache.consistent (dependenciesScannedPromises (cache s)) →
  promiseOf dependenciesSlot u (drain s) = Some x →
  promiseOf dependenciesSlot u s = Some x ∨
  ∃ ref, x = Fulfilled ref ∧ promiseOf scannedSlot u s = Some (Fulfilled ref).
Proof.
  unfold drain.
  generalize (AsyncWorkCache.calls (dependenciesScannedPromises (cache s))).
  intros keys. revert s. induction keys as [|k keys IH]; intros s Hcons Hx.
  { by left. }
  simpl in Hx. destruct (resume_frame s k) as [Hsc Hcons'].
  destruct (IH (resume s k) (Hcons' Hcons) Hx) as [Hd|(ref & -> & Hs)].
  - by apply (resume_source s k).
  - right. exists ref. split; [done|].
    unfold promiseOf in *. simpl in *. by rewrite <- Hsc.
Qed.

(** *** The first request for a URL *)

Lemma _parse_held this resolvedUrl contents s s0 :
  AsyncWorkCache._keyToResultMap (parsedDocumentPromises (cache s))
    !! resolvedUrl = None →
  (_parse this resolvedUrl contents s).1
  = (_parseCompute this resolvedUrl contents s0).1 ∧
  ∃ p, held parsedSlot resolvedUrl p
         (_parseCompute this resolvedUrl contents s0).1
         (_parse this resolvedUrl contents s).2.
Proof.
  intros Hfresh.
  pose proof (getOrCompute_as_rec parsedSlot resolvedUrl
                (_parseCompute this resolvedUrl contents) s) as Hrec.
  fold (_parse this resolvedUrl contents s) in Hrec.
  destruct (_parse this resolvedUrl contents s) as [r s'].
  destruct (getOrComputeRec_held parsedSlot resolvedUrl
              (λ s0, Some (_parseCompute this resolvedUrl contents s0)) s r s'
              lawful_parsedSlot Hfresh) as (p & s1 & Hc & _ & Hheld & _);
    [|exact Hrec|].
  { intros r0 s1 [= Hc]. apply olderKept_eq.
    pose proof (keeps__parseCompute (get parsedSlot) this resolvedUrl contents
                  (request parsedSlot resolvedUrl s).2) as Hk.
    by rewrite Hc in Hk. }
  injection Hc as Hc.
  assert (r = (_parseCompute this resolvedUrl contents s0).1) as ->.
  { rewrite (_parseCompute_result this resolvedUrl contents s0
               (request parsedSlot resolvedUrl s).2). by rewrite Hc. }
  split; [done|]. by exists p.
Qed.

Lemma held_again {V} (slot : Slot V) key p x s compute :
  lawful slot → held slot key p x s →
  getOrComputeRec slot key compute s = Some (x, s).
Proof.
  intros Hl (Hreg & Hobs & _).
  by rewrite (getOrComputeRec_registered slot key compute p s Hl Hreg), Hobs.
Qed.

(** What [_scanDocument] leaves when it fulfils. *)
Lemma _scanDocument_holds this fuel document comment s ref s' :
  _scanDocument this fuel document comment s = Some (Fulfilled ref, s') →
  (∃ d, heap s' !! ref = Some d ∧ Model.document d = document) ∧
  (pd_isInline document = false →
   scannedDocuments (cache s') !! pd_url document = Some ref).
Proof.
  destruct fuel as [|fuel]; [done|]. cbn [_scanDocument].
  destruct (_getScannedFeatures this document) as [scannedFeatures| |];
    [|done|done].
  cbn [andThen].
  set (features := applyComment this scannedFeatures comment).
  set (s1 := withHeap (λ h, h ++ [mkScannedDocument document features []]) s).
  assert (heap s1 !! length (heap s)
          = Some (mkScannedDocument document features [])) as Hnew.
  { unfold s1. simpl. by rewrite list_lookup_middle. }
  assert (∀ s2, heap s2 = heap s1 →
     ∀ r1 s3,
       scanInlineFeatures this (_scanDocument this fuel) (length (heap s))
         (pd_url document) 0 features s2 = Some (r1, s3) →
       scannedDocuments (cache s2) ⊆ scannedDocuments (cache s3) ∧
       ∃ d, heap s3 !! length (heap s) = Some d ∧ Model.document d = document)
    as Hin.
  { intros s2 Hh r1 s3 Hrun.
    apply (along_scanInlineFeatures _ _ (scannedKept_steps this)) in Hrun;
      [|apply (along__scanDocument _ _ (scannedKept_steps this))].
    destruct Hrun as [[Hm Hheap] _]. split; [done|].
    destruct (Hheap (length (heap s)) _ ltac:(by rewrite Hh))
      as (d & Hd & Hdoc & _).
    by exists d. }
  destruct (pd_isInline document) eqn:Hinline.
  - destruct (scanInlineFeatures _ _ _ _ _ _ s1) as [[[[]| |] s3]|] eqn:Hrun;
      simpl; try done.
    intros [= <- <-]. by destruct (Hin s1 eq_refl _ _ Hrun) as [_ Hd].
  - destruct (decide _) as [Hdup|Hfree]; [done|].
    match goal with
    | |- context [scanInlineFeatures _ _ _ _ _ _ ?s2] =>
        destruct (scanInlineFeatures this (_scanDocument this fuel)
                    (length (heap s)) (pd_url document) 0 features s2)
          as [[[[]| |] s3]|] eqn:Hrun; simpl; try done;
        destruct (Hin s2 eq_refl _ _ Hrun) as [Hm Hd]
    end.
    intros [= <- <-]. split; [done|]. intros _.
    eapply lookup_weaken; [|exact Hm]. simpl. by rewrite lookup_insert_eq.
Qed.

Local Notation afterLocal this fuel resolvedUrl :=
  (λ (scannedDocument : Ref) (s : State),
    let imports := nonLazyImports this scannedDocument s in
    s ← scanImports this (λ importUrl, _scan this fuel importUrl Undefined)
           scannedDocument imports s;
    match awaitReady resolvedUrl s with
    | (AsyncCyclicTransitivePromiseAll.Returned, s) =>
        Some (Fulfilled scannedDocument, s)
    | (_, s) => Some (Pending, s)
    end).

Lemma afterLocal_along this R fuel resolvedUrl r1 s1 r s' :
  ScanSteps this R →
  andThen (r1, s1) (afterLocal this fuel resolvedUrl) = Some (r, s') →
  R s1 s' ∧
  match r1 with
  | Fulfilled ref => r = Fulfilled ref ∨ r = Pending
  | Rejected e => r = Rejected e
  | Pending => r = Pending
  end.
Proof.
  intros HR. destruct r1 as [scannedDocument|e|]; cbn [andThen];
    try (intros [= <- <-]; split; [apply (along_refl _ _ HR)|done]).
  cbv zeta.
  destruct (scanImports this _ scannedDocument _ s1) as [s2|] eqn:Himports;
    cbn [mbind option_bind]; [|done].
  apply (along_scanImports _ _ HR) in Himports;
    [|intros ? ? ? ?; apply (along__scan _ _ HR)].
  pose proof (quiet_awaitReady resolvedUrl s2) as Hready.
  apply (along_quiet _ _ HR) in Hready.
  destruct (awaitReady resolvedUrl s2) as [o s3]. simpl in Hready.
  assert (R s1 s3) as Hall by (by eapply (along_trans _ _ HR)).
  destruct o; intros [= <- <-]; (split; [done|]); auto.
Qed.

Lemma analyzeCompute_inv this fuel url resolvedUrl contents s r s' :
  analyzeCompute this fuel url resolvedUrl contents s = Some (r, s') →
  ∃ r0 s0,
    _scan this fuel resolvedUrl contents s = Some (r0, s0) ∧
    match promiseOf dependenciesSlot resolvedUrl (drain s0) with
    | Some (Fulfilled scannedDocument) =>
        r = Fulfilled (_getDocument this (urlOf (drain s0) scannedDocument)
                         (drain s0)).1 ∧
        s' = doneTiming "analyze: make document" url
               (_getDocument this (urlOf (drain s0) scannedDocument) (drain s0)).2
    | Some (Rejected e) => r = Rejected e ∧ s' = drain s0
    | _ => r = Pending ∧ s' = drain s0
    end.
Proof.
  unfold analyzeCompute.
  destruct (_scan this fuel resolvedUrl contents s) as [[r0 s0]|]; simpl; [|done].
  intros Hrun. exists r0, s0. split; [done|].
  destruct (promiseOf dependenciesSlot resolvedUrl (drain s0)) as [[ref|e|]|];
    try (by injection Hrun as <- <-).
  destruct (_getDocument this _ (drain s0)) as [document s1].
  by injection Hrun as <- <-.
Qed.

Lemma _getDocument_analyzed_older this url s :
  resolvesOnTop this →
  olderKept (analyzedDocumentPromises (cache s))
    (analyzedDocumentPromises (cache (_getDocument this url s).2)).
Proof.
  intros Hres. unfold _getDocument.
  destruct (analyzedDocuments (cache s) !! _) as [cachedResult|];
    [apply olderKept_refl|].
  destruct (scannedDocuments (cache s) !! _) as [scannedDocument|];
    [|apply olderKept_refl].
  cbn [snd]. eapply olderKept_trans; [|apply Hres].
  match goal with
  | |- context [getOrCompute analyzedSlot ?k ?f ?s0] =>
      pose proof (getOrCompute_as_rec analyzedSlot k f s0) as Hrec;
      destruct (getOrCompute analyzedSlot k f s0) as [r1 s1]
  end.
  apply (getOrComputeRec_older analyzedSlot) in Hrec;
    [exact Hrec|apply lawful_analyzedSlot|].
  intros r0 s2 [= _ <-]. apply olderKept_refl.
Qed.

(** The first request for a URL: what [analyze] leaves and returns comes
    from the load and the parse of the contents of that request. *)
Lemma analyze_first this fuel url contents s r1 s1 :
  let resolvedUrl := _resolveUrl this url in
  let first := (_parseCompute this resolvedUrl contents s).1 in
  unrequested resolvedUrl s →
  AsyncWorkCache.consistent (dependenciesScannedPromises (cache s)) →
  resolvesOnTop this →
  analyze this fuel url contents s = Some (r1, s1) →
  (∃ p, held parsedSlot resolvedUrl p first s1) ∧
  match first with
  | Rejected e => r1 = Rejected e
  | Pending => r1 = Pending
  | Fulfilled parsedDoc =>
      ∀ document, r1 = Fulfilled document →
        ∃ scannedDocument d,
          heap s1 !! scannedDocument = Some d ∧ Model.document d = parsedDoc ∧
          (pd_isInline parsedDoc = false →
           _resolveUrl this (pd_url parsedDoc) = pd_url parsedDoc →
           analyzedDocuments (cache s) !! pd_url parsedDoc = None →
           document = Some (mkDocument scannedDocument))
  end.
Proof.
  intros u first (HfP & HfS & HfD & HfA) Hcons Hres Hrun.
  assert (AnalysisSteps this parsesAndScansKept) as HA.
  { apply parsesAndScansKept_analysis. intros document s0.
    destruct (Hres document s0) as (? & ? & ? & _). done. }
  pose proof (along_scans _ _ HA) as HS.
  (* the analysis *)
  unfold analyze in Hrun. fold u in Hrun.
  set (s0 := (request analyzedSlot u s).2) in *.
  destruct (quiet_request analyzedSlot u s (λ _ _, eq_refl))
    as (Hh0 & _ & _ & Hrest0).
  fold s0 in Hh0, Hrest0. unfold keeps, rest in Hrest0.
  injection Hrest0 as Hp0 Hsd0 Had0.
  pose proof (keeps_request scannedDocumentPromises analyzedSlot u s
                (λ _ _, eq_refl)) as HS0.
  pose proof (keeps_request dependenciesScannedPromises analyzedSlot u s
                (λ _ _, eq_refl)) as HD0.
  fold s0 in HS0, HD0. unfold keeps in HS0, HD0.
  destruct (getOrComputeRec_held analyzedSlot u
              (analyzeCompute this fuel url u contents) s r1 s1
              lawful_analyzedSlot HfA) as (pa & s10 & Hc & -> & _ & _);
    [|exact Hrun|].
  { fold s0. intros r0 s10 Hc.
    apply analyzeCompute_inv in Hc as (r8 & s8 & Hscan & Htail).
    apply (keeps__scan analyzedDocumentPromises (λ _ _, eq_refl) (λ _ _, eq_refl))
      in Hscan; try done.
    pose proof (keeps_drain analyzedDocumentPromises (λ _ _, eq_refl)
                  (λ _ _, eq_refl) s8 (λ _ _, eq_refl)) as Hdrain.
    unfold keeps in Hscan, Hdrain.
    assert (olderKept (analyzedDocumentPromises (cache s0))
              (analyzedDocumentPromises (cache (drain s8)))) as Hold
      by (apply olderKept_eq; by rewrite Hdrain).
    destruct (promiseOf dependenciesSlot u (drain s8)) as [[ref|e|]|];
      destruct Htail as [_ ->]; try done.
    eapply olderKept_trans; [exact Hold|]. simpl.
    by apply _getDocument_analyzed_older. }
  fold s0 in Hc.
  apply analyzeCompute_inv in Hc as (r8 & s8 & Hscan & Htail).
  (* the transitive scan *)
  destruct fuel as [|fuel]; [done|]. cbn [_scan] in Hscan.
  pose proof (_scan_scansOlderKept this (S fuel) u contents s0 r8 s8) as Holder8.
  cbn [_scan] in Holder8. specialize (Holder8 Hscan).
  set (s2 := (request dependenciesSlot u s0).2) in *.
  destruct (quiet_request dependenciesSlot u s0 (λ _ _, eq_refl))
    as (Hh2 & _ & _ & Hrest2).
  fold s2 in Hh2, Hrest2. unfold keeps, rest in Hrest2.
  injection Hrest2 as Hp2 Hsd2 Had2.
  pose proof (keeps_request scannedDocumentPromises dependenciesSlot u s0
                (λ _ _, eq_refl)) as HS2.
  fold s2 in HS2. unfold keeps in HS2.
  destruct (getOrComputeRec_held dependenciesSlot u
              (λ s, andThenRec (_scanLocal this fuel u contents s)
                      (afterLocal this fuel u)) s0 r8 s8
              lawful_dependenciesSlot ltac:(simpl; by rewrite HD0))
    as (pd & s7 & Hbody & Hs8 & Hheld8 & _); [|exact Hscan|].
  { fold s2. intros r0 s7. unfold andThenRec.
    destruct (_scanLocal this fuel u contents s2) as [[rL s6]|] eqn:Hlocal;
      cbn [mbind option_bind]; [|done].
    apply _scanLocal_scansOlderKept in Hlocal as (_ & HD6 & _). intros Hafter.
    apply afterLocal_scansOlderKept in Hafter as (_ & HD7 & _);
      [|intros ? ? ? ?; apply _scan_scansOlderKept].
    by eapply olderKept_trans. }
  fold s2 in Hbody. unfold andThenRec in Hbody.
  (* the local scan *)
  destruct (_scanLocal this fuel u contents s2) as [[rL s6]|] eqn:Hlocal;
    cbn [mbind option_bind] in Hbody; [|done].
  set (s3 := (request scannedSlot u s2).2) in *.
  destruct (quiet_request scannedSlot u s2 (λ _ _, eq_refl))
    as (Hh3 & _ & _ & Hrest3).
  fold s3 in Hh3, Hrest3. unfold keeps, rest in Hrest3.
  injection Hrest3 as Hp3 Hsd3 Had3.
  destruct (getOrComputeRec_held scannedSlot u
              (_scanLocalCompute this fuel u contents) s2 rL s6
              lawful_scannedSlot ltac:(simpl; by rewrite HS2, HS0))
    as (ps & s5 & Hcompute & Hs6 & Hheld6 & _); [|exact Hlocal|].
  { fold s3. intros r0 s5 Hc. apply olderKept_eq.
    by apply (keeps__scanLocalCompute scannedDocumentPromises (λ _ _, eq_refl)
                (λ _ _, eq_refl)) in Hc. }
  fold s3 in Hcompute.
  (* the parse *)
  destruct (_parse_held this u contents s3 s) as [Hfirst (pp & Hheld4)].
  { by rewrite Hp3, Hp2, Hp0. }
  fold first in Hfirst, Hheld4.
  set (s4 := (_parse this u contents s3).2) in *.
  assert (_parse this u contents s3 = (first, s4)) as Hparse3
    by (rewrite <- Hfirst; by destruct (_parse this u contents s3)).
  assert (_parse this u contents s4 = (first, s4)) as Hparse4.
  { pose proof (getOrCompute_as_rec parsedSlot u (_parseCompute this u contents) s4)
      as Hrec.
    rewrite (held_again parsedSlot u pp first s4 _ lawful_parsedSlot Hheld4) in Hrec.
    injection Hrec as Hrec. symmetry. exact Hrec. }
  (* from the parse to the end *)
  assert (_scanLocalCompute this fuel u contents s4 = Some (rL, s5)) as Hcompute4.
  { unfold _scanLocalCompute in *. by rewrite Hparse4, <- Hparse3. }
  pose proof (along__scanLocalCompute _ _ HS _ _ _ _ _ _ Hcompute4) as R45.
  assert (parsesAndScansKept s5 s6) as R56.
  { rewrite Hs6. by apply (along_quiet _ _ HS), quiet_finish. }
  destruct (afterLocal_along this _ fuel u rL s6 r8 s7 HS Hbody) as [R67 Hr8].
  assert (parsesAndScansKept s7 s8) as R78.
  { rewrite Hs8. by apply (along_quiet _ _ HS), quiet_finish. }
  pose proof (along_drain _ _ HS s8) as R89.
  assert (parsesAndScansKept (drain s8) s10) as R910.
  { destruct (promiseOf dependenciesSlot u (drain s8)) as [[ref|e|]|];
      destruct Htail as [_ ->]; try apply (along_refl _ _ HS).
    eapply (along_trans _ _ HS); [apply (along__getDocument _ _ HA)|].
    apply (along_timing _ _ HA). }
  assert (parsesAndScansKept s10 (finish analyzedSlot pa r1 s10).2) as R101
    by (by apply (along_quiet _ _ HS), quiet_finish).
  assert (parsesAndScansKept s5 (drain s8)) as R59.
  { eapply (along_trans _ _ HS); [exact R56|].
    eapply (along_trans _ _ HS); [exact R67|].
    eapply (along_trans _ _ HS); [exact R78|exact R89]. }
  assert (parsesAndScansKept (drain s8) (finish analyzedSlot pa r1 s10).2) as R91
    by (by eapply (along_trans _ _ HS)).
  assert (parsesAndScansKept s4 (finish analyzedSlot pa r1 s10).2) as R41.
  { eapply (along_trans _ _ HS); [exact R45|].
    eapply (along_trans _ _ HS); [exact R59|exact R91]. }
  split.
  { exists pp. destruct R41 as [HP41 _].
    exact (held_older parsedSlot u pp first s4 _ Hheld4 HP41). }
  (* the promises of the scans, when the drain starts *)
  assert (AsyncWorkCache.consistent (dependenciesScannedPromises (cache s8)))
    as Hcons8.
  { destruct Holder8 as (_ & _ & HC). apply HC. by rewrite HD0. }
  assert (promiseOf dependenciesSlot u s8 = Some r8) as Hd8
    by (by eapply held_promiseOf).
  assert (promiseOf scannedSlot u s8 = Some rL) as Hs8'.
  { eapply held_promiseOf, held_older; [exact Hheld6|].
    apply afterLocal_scansOlderKept in Hbody as (HS67 & _);
      [|intros ? ? ? ?; apply _scan_scansOlderKept].
    rewrite Hs8. simpl. exact HS67. }
  assert (∀ x, promiseOf dependenciesSlot u (drain s8) = Some x →
               x = r8 ∨ ∃ ref, x = Fulfilled ref ∧ rL = Fulfilled ref) as Hdrained.
  { intros x Hx. destruct (drain_source s8 u x Hcons8 Hx) as [Hx'|(ref & -> & Hx')].
    - left. congruence.
    - right. exists ref. split; [done|]. congruence. }
  unfold _scanLocalCompute in Hcompute. rewrite Hparse3 in Hcompute.
  destruct first as [parsedDoc|e|] eqn:Hfirst'; cbn [andThen] in Hcompute.
  - (* the contents parse *)
    intros document ->.
    destruct (promiseOf dependenciesSlot u (drain s8)) as [[ref|e|]|] eqn:Hd9;
      try (by destruct Htail as [? _]).
    destruct Htail as [[= ->] Hs10].
    assert (rL = Fulfilled ref) as ->.
    { destruct (Hdrained _ eq_refl) as [<-|(ref' & [= <-] & ->)]; [|done].
      destruct rL as [ref'|e|]; [|done..]. by destruct Hr8 as [[= ->]|]. }
    unfold andThenRec in Hcompute.
    destruct (_scanDocument this fuel parsedDoc None s4) as [[rD sd]|] eqn:Hdoc;
      cbn [mbind option_bind] in Hcompute; [|done].
    destruct rD as [refD|e|]; cbn [andThen] in Hcompute; [|done..].
    assert (refD = ref ∧ heap s5 = heap sd ∧
            scannedDocuments (cache s5) = scannedDocuments (cache sd))
      as (-> & Hh5 & Hsd5).
    { revert Hcompute. cbv zeta.
      match goal with
      | |- context [DependencyGraph.addDocument ?a ?l ?g] =>
          destruct (DependencyGraph.addDocument a l g) as [[err|[]] g']
      end; by intros [= <- <-]. }
    destruct (_scanDocument_holds this fuel parsedDoc None s4 ref sd Hdoc)
      as [(d0 & Hd0 & Hdoc0) Hstored].
    rewrite <- Hh5 in Hd0. rewrite <- Hsd5 in Hstored.
    destruct R59 as [_ [[Hm59 Hheap59] _]].
    destruct R91 as [_ [[Hm91 Hheap91] _]].
    destruct (Hheap59 ref d0 Hd0) as (d9 & Hat9 & Hdoc9 & _).
    destruct (Hheap91 ref d9 Hat9) as (d1 & Hd1 & Hdoc1 & _).
    exists ref, d1. split; [done|]. split; [congruence|].
    intros Hinline Hidem Hnone.
    assert (urlOf (drain s8) ref = pd_url parsedDoc) as ->.
    { unfold urlOf. unfold Ref in *. rewrite Hat9. simpl. unfold Model.url.
      congruence. }
    assert (analyzedDocuments (cache (drain s8)) = analyzedDocuments (cache s))
      as Had9.
    { pose proof (keeps_drain analyzedDocuments (λ _ _, eq_refl) (λ _ _, eq_refl)
                    s8 (λ _ _, eq_refl)) as Hk9.
      pose proof (keeps__scan analyzedDocuments (λ _ _, eq_refl) (λ _ _, eq_refl)
                    this (S fuel) u contents s0 r8 s8 (λ _ _, eq_refl)
                    (λ _ _, eq_refl) (λ _ _, eq_refl) Hscan) as Hk8.
      unfold keeps in Hk9, Hk8. by rewrite Hk9, Hk8, Had0. }
    assert (scannedDocuments (cache (drain s8)) !! pd_url parsedDoc = Some ref)
      as Hm9.
    { eapply lookup_weaken; [|exact Hm59]. by apply Hstored. }
    unfold _getDocument. rewrite Hidem, Had9, Hnone.
    unfold Ref in *. by rewrite Hm9.
  - (* loading or parsing fails *)
    injection Hcompute as <- _.
    pose proof (drain_keeps_settled s8 u r8 Hd8) as Hd9. subst r8.
    rewrite Hd9 in Htail by done. by destruct Htail.
  - (* the loader does not answer *)
    injection Hcompute as <- _. subst r8.
    destruct (promiseOf dependenciesSlot u (drain s8)) as [[ref|e|]|] eqn:Hd9;
      try (by destruct Htail).
    + by destruct (Hdrained _ eq_refl) as [?|(ref' & _ & ?)].
    + by destruct (Hdrained _ eq_refl) as [?|(ref' & ? & _)].
Qed.

(** C9. Within one cache, what a resolved URL parses to is fixed by the
    first request.  A second [_parse] of the URL with other contents
    returns what the first returned and changes nothing: no load, no
    parse.  When the first request provides contents for a loadable URL
    that has no entry yet, its result is the parse of these contents.
    When [analyze(url, contentsA)] has been run, [analyze(url,
    contentsB)] returns the same result and changes nothing, whatever
    [contentsB] is.  And that result comes from [contentsA]: when
    [analyze(url, contentsA)] is the first request for the URL in any of
    the four caches, the parse cache holds the load and parse of
    [contentsA] afterwards, which is what any later parse of the URL
    returns; the analysis is rejected with the error of that load or
    parse when it fails, and is pending when the loader does not answer;
    and when it fulfils, the heap holds a scanned document of what
    [contentsA] parsed to, of which the [Document] returned is made when
    the parser reports a URL that resolves to itself.  Last, when the
    load or parse of [contentsA] fails, [analyze] does return, rejected,
    with any budget of at least one, and the second call returns the same
    rejection.  ([Document#resolve] is assumed not to drop promises from
    the cache, and for the fourth part to leave the scanned documents and
    the parses alone; the cache of the transitive scans is assumed to
    name its promises coherently, as it does from the start.) *)
Theorem first_request_fixes_parse this fuel fuel' url contentsA contentsB s :
  (∀ d s0 key q, registered analyzedSlot key q s0 →
                 registered analyzedSlot key q (resolveDocument this d s0)) →
  let resolvedUrl := _resolveUrl this url in
  let first := (_parseCompute this resolvedUrl contentsA s).1 in
  _parse this resolvedUrl contentsB (_parse this resolvedUrl contentsA s).2
  = _parse this resolvedUrl contentsA s ∧
  (∀ a, contentsA = Str a →
     AsyncWorkCache._keyToResultMap (parsedDocumentPromises (cache s))
       !! resolvedUrl = None →
     UrlLoader.canLoad (_loader this) resolvedUrl = true →
     (_parse this resolvedUrl contentsA s).1
     = match _parseContents this (substring1 (extname this resolvedUrl))
               a resolvedUrl None with
       | inr parsedDoc => Fulfilled parsedDoc
       | inl error => Rejected error
       end) ∧
  (∀ r1 s1, analyze this fuel url contentsA s = Some (r1, s1) →
            analyze this fuel' url contentsB s1 = Some (r1, s1)) ∧
  (∀ r1 s1,
     unrequested resolvedUrl s →
     AsyncWorkCache.consistent (dependenciesScannedPromises (cache s)) →
     resolvesOnTop this →
     analyze this fuel url contentsA s = Some (r1, s1) →
     _parse this resolvedUrl contentsB s1 = (first, s1) ∧
     analyze this fuel' url contentsB s1 = Some (r1, s1) ∧
     match first with
     | Rejected e => r1 = Rejected e
     | Pending => r1 = Pending
     | Fulfilled parsedDoc =>
         ∀ document, r1 = Fulfilled document →
           ∃ scannedDocument d,
             heap s1 !! scannedDocument = Some d ∧
             Model.document d = parsedDoc ∧
             (pd_isInline parsedDoc = false →
              _resolveUrl this (pd_url parsedDoc) = pd_url parsedDoc →
              analyzedDocuments (cache s) !! pd_url parsedDoc = None →
              document = Some (mkDocument scannedDocument))
     end) ∧
  (∀ e, unrequested resolvedUrl s → first = Rejected e →
     ∃ s1, analyze this (S fuel) url contentsA s = Some (Rejected e, s1) ∧
           analyze this fuel' url contentsB s1 = Some (Rejected e, s1)).
Proof.
  intros Hres resolvedUrl first.
  assert (∀ f r1 s1, analyze this f url contentsA s = Some (r1, s1) →
            analyze this fuel' url contentsB s1 = Some (r1, s1)) as Hagain.
  { intros f r1 s1 Hfirst. unfold analyze in *. fold resolvedUrl in Hfirst |- *.
    apply getOrComputeRec_fixes in Hfirst as (p & Hreg & ->).
    - by apply getOrComputeRec_registered; [apply lawful_analyzedSlot|].
    - apply lawful_analyzedSlot.
    - intros s0 r0 s2 q Hrun.
      eapply analyzeCompute_keeps_registered; [|exact Hrun].
      intros d s3. apply Hres. }
  split; [apply _parse_again|]. split.
  { intros a -> Hfresh Hcan. by apply _parse_first. }
  split; [apply Hagain|]. split.
  - intros r1 s1 Hun Hcons Htop Hrun.
    destruct (analyze_first this fuel url contentsA s r1 s1 Hun Hcons Htop Hrun)
      as [(p & Hreg & Hobs & _) Htie].
    split; [|split; [by eapply Hagain|exact Htie]].
    unfold _parse.
    rewrite (getOrCompute_registered parsedSlot _ _ p s1 lawful_parsedSlot Hreg).
    by rewrite Hobs.
  - intros e Hun Hfails.
    destruct Hun as (HfP & HfS & HfD & HfA).
    destruct (analyze_rejected this fuel url contentsA s e HfP HfS HfD HfA Hfails)
      as [s1 Hrun].
    exists s1. split; [done|]. by eapply Hagain.
Qed.

Lemma first_request_fixes_parse_witness :
  ∃ s1 d,
    analyze Site.context 5 "b.html" (Str "<a>") initial
    = Some (Fulfilled (Some (mkDocument 0)), s1) ∧
    _parse Site.context "b.html" (Str "<b>") s1
    = (Fulfilled (mkParsedDocument "b.html" "html" "<a>" false), s1) ∧
    analyze Site.context 5 "b.html" (Str "<b>") s1
    = Some (Fulfilled (Some (mkDocument 0)), s1) ∧
    heap s1 !! 0 = Some d ∧
    Model.document d = mkParsedDocument "b.html" "html" "<a>" false.
Proof.
  set (s1 := (default (Pending, initial)
                (analyze Site.context 5 "b.html" (Str "<a>") initial)).2).
  assert (analyze Site.context 5 "b.html" (Str "<a>") initial
          = Some (Fulfilled (Some (mkDocument 0)), s1)) as Hrun
    by (vm_compute; reflexivity).
  destruct (first_request_fixes_parse Site.context 5 5 "b.html"
              (Str "<a>") (Str "<b>") initial) as (_ & _ & _ & Hfirst & _).
  { intros d s0 key q Hreg. exact Hreg. }
  destruct (Hfirst (Fulfilled (Some (mkDocument 0))) s1)
    as (Hparse & Hagain & Htie).
  { repeat split. }
  { exact consistent_empty. }
  { intros document s0. repeat split; apply olderKept_refl. }
  { exact Hrun. }
  destruct (Htie (Some (mkDocument 0)) eq_refl) as (ref & d & Hd & Hdoc & Hthe).
  assert (ref = 0) as ->.
  { assert (Some (mkDocument 0) = Some (mkDocument ref)) as [= <-];
      [by apply Hthe|done]. }
  exists s1, d. split; [exact Hrun|]. split; [exact Hparse|].
  split; [exact Hagain|]. split; [exact Hd|exact Hdoc].
Defined.

End FirstRequestFacts.

(** ** Lines of forks *)

Section LineageFacts.
Import AnalysisCache Fork Lineage.

(** X19. Along any line of forks, by [clearCaches] or [filesChanged] in
    any order, the generation of a context counts the forks since the
    first one, every context has the telemetry tracker, parsers, scanners,
    loader, resolver and lazy edges of the first, and no object that was
    in the store is touched, so every earlier context keeps its cache. *)
Theorem fork_lineage
    (invalidate : AnalysisCache → list string → AnalysisCache)
    (_resolveUrl : string → string) n x y :
  nsteps (forkStep invalidate _resolveUrl) n x y →
  _generation y.1 = _generation x.1 + n ∧
  _telemetryTracker y.1 = _telemetryTracker x.1 ∧
  _parsers y.1 = _parsers x.1 ∧ _scanners y.1 = _scanners x.1 ∧
  _loader y.1 = _loader x.1 ∧ _resolver y.1 = _resolver x.1 ∧
  _lazyEdges y.1 = _lazyEdges x.1 ∧
  (∀ l o, x.2 !! l = Some o → y.2 !! l = Some o).
Proof.
  induction 1 as [x|n x y z Hstep Hrest IH].
  { rewrite Nat.add_0_r. by repeat split. }
  assert (_generation y.1 = _generation x.1 + 1 ∧
          _telemetryTracker y.1 = _telemetryTracker x.1 ∧
          _parsers y.1 = _parsers x.1 ∧ _scanners y.1 = _scanners x.1 ∧
          _loader y.1 = _loader x.1 ∧ _resolver y.1 = _resolver x.1 ∧
          _lazyEdges y.1 = _lazyEdges x.1 ∧
          (∀ l o, x.2 !! l = Some o → y.2 !! l = Some o))
    as (Hg & Ht & Hp & Hs & Hl & Hr & Hz & Hk).
  { destruct x as [this h], y as [this' h']. unfold forkStep in Hstep.
    cbn [fst snd] in *.
    destruct Hstep as [Hclear|[urls Hchanged]].
    - unfold clearCaches, alloc in Hclear.
      destruct (_fork_spec _ _ _ _ _ Hclear)
        as (_ & Hk & Hp & Hs & Hl & Hr & Hz & Ht & Hg).
      repeat split; try done.
      intros l o Hlo. by apply Hk, lookup_app_l_Some.
    - unfold filesChanged, alloc in Hchanged.
      destruct (h !! _cache this) as [[| | |cache|]|]; try done.
      assert (∀ (a b : AnalyzerCacheContext * Store), Some a = Some b → a = b)
        as Hsome by (by intros a b [= ->]).
      apply Hsome in Hchanged.
      destruct (_fork_spec _ _ _ _ _ Hchanged)
        as (_ & Hk & Hp & Hs & Hl & Hr & Hz & Ht & Hg).
      repeat split; try done.
      intros l o Hlo. by apply Hk, lookup_app_l_Some. }
  destruct IH as (Hg' & Ht' & Hp' & Hs' & Hl' & Hr' & Hz' & Hk').
  split; [lia|]. repeat split; try congruence. auto.
Qed.

End LineageFacts.

(** ** The pseudo-element scanner *)

Section PseudoElementFacts.
Import Warnings Js PseudoElementScanner.
Context {Annotation Tag Property : Type}.
Context (isCommentNode : ASTNode → bool) (parseJsdoc : string → Annotation)
  (annotationDescription : Annotation → option string)
  (annotationTags : Annotation → list Tag)
  (getTag : Annotation → string → string → option string)
  (sourceRangeForNode : ASTNode → option SourceRange)
  (annotateElementHeader :
     ScannedPolymerElement Tag Property → ScannedPolymerElement Tag Property).

Local Notation visitor :=
  (visitor (Property:=Property) isCommentNode parseJsdoc annotationDescription
     annotationTags getTag sourceRangeForNode annotateElementHeader).
Local Notation scan :=
  (scan (Property:=Property) isCommentNode parseJsdoc annotationDescription
     annotationTags getTag sourceRangeForNode annotateElementHeader).
Local Notation element :=
  (element (Property:=Property) parseJsdoc annotationDescription
     annotationTags sourceRangeForNode).

Lemma prefix_spec sub : ∀ s,
  String.prefix sub s = true ↔ ∃ after, s = (sub ++ after)%string.
Proof.
  induction sub as [|a sub IH]; intros [|b s]; simpl.
  - split; [intros _; by exists ""|done].
  - split; [intros _; by exists (String b s)|done].
  - split; [done|]. by intros [after ?].
  - destruct (Ascii.ascii_dec a b) as [->|Hne].
    + rewrite IH. split; intros [after Hs]; exists after.
      * by rewrite Hs.
      * by injection Hs.
    + split; [done|]. intros [after [= ? _]]. done.
Qed.

(** [includes] is containment as a substring. *)
Lemma includes_spec sub : ∀ s,
  includes sub s = true ↔ ∃ before after, s = (before ++ sub ++ after)%string.
Proof.
  induction s as [|c s IH]; cbn [includes]; rewrite orb_true_iff, prefix_spec.
  - split.
    + intros [[after Hs]|?]; [|done]. by exists "", after.
    + intros (before & after & Hs). left.
      destruct before; simpl in Hs; [by exists after|discriminate].
  - rewrite IH. split.
    + intros [[after Hs]|(before & after & ->)].
      * by exists "", after.
      * by exists (String c before), after.
    + intros (before & after & Hs). destruct before as [|b before]; simpl in Hs.
      * left. by exists after.
      * right. injection Hs as -> ->. by exists before, after.
Qed.

Lemma foldl_visitor nodes : ∀ elements,
  foldl visitor elements nodes = elements ++ foldl visitor [] nodes.
Proof.
  induction nodes as [|node nodes IH]; intros elements; simpl.
  { by rewrite app_nil_r. }
  rewrite (IH (visitor elements node)), (IH (visitor [] node)).
  rewrite app_assoc. f_equal. unfold PseudoElementScanner.visitor.
  destruct (data node) as [text|]; [|by rewrite app_nil_r].
  destruct (_ && _); [|by rewrite app_nil_r].
  destruct (getTag _ _ _) as [pseudoTag|]; [|by rewrite app_nil_r].
  destruct (bool_decide _); [by rewrite app_nil_r|done].
Qed.

(** X20. The elements [PseudoElementScanner.scan] returns once the visit
    is over.  Visiting more nodes only appends: the elements for two runs
    of nodes are those for the first followed by those for the second.
    There is at most one element for each comment node; and each element
    is what [annotateElementHeader] made of an element built for a
    visited comment whose text contains [@pseudoElement] and whose
    [pseudoElement] tag has a non-empty name. *)
Theorem scan_elements nodes nodes' elements :
  scan (mkVisit (nodes ++ nodes') (Fulfilled tt)) = Fulfilled elements →
  (∃ first rest,
     scan (mkVisit nodes (Fulfilled tt)) = Fulfilled first ∧
     scan (mkVisit nodes' (Fulfilled tt)) = Fulfilled rest ∧
     elements = first ++ rest) ∧
  length elements ≤ length (filter (λ node, isCommentNode node = true) (nodes ++ nodes')) ∧
  ∀ e, e ∈ elements →
    ∃ node text pseudoTag,
      node ∈ nodes ++ nodes' ∧ isCommentNode node = true ∧
      data node = Some text ∧ includes "@pseudoElement" text = true ∧
      getTag (parseJsdoc text) "pseudoElement" "name" = Some pseudoTag ∧
      pseudoTag ≠ "" ∧
      e = annotateElementHeader (element node text pseudoTag).
Proof.
  unfold PseudoElementScanner.scan. simpl. intros [= <-]. split; [|split].
  - eexists _, _. split; [done|]. split; [done|].
    by rewrite foldl_app, foldl_visitor.
  - generalize (nodes ++ nodes'). intros l.
    induction l as [|node l IH]; [done|].
    simpl. rewrite foldl_visitor, length_app, filter_cons.
    assert (length (visitor [] node) ≤ if isCommentNode node then 1 else 0) as Hone.
    { unfold PseudoElementScanner.visitor.
      destruct (data node) as [text|]; [|simpl; lia].
      destruct (isCommentNode node); simpl; [|lia].
      destruct (_ && _); simpl; [|lia].
      destruct (getTag _ _ _); simpl; [|lia].
      destruct (bool_decide _); simpl; lia. }
    destruct (isCommentNode node); simpl in *; lia.
  - generalize (nodes ++ nodes'). intros l.
    induction l as [|node l IH]; intros e; [by intros ?%elem_of_nil|].
    simpl. rewrite foldl_visitor. intros [He|He]%elem_of_app.
    + unfold PseudoElementScanner.visitor in He.
      destruct (data node) as [text|] eqn:Hdata; [|by apply elem_of_nil in He].
      destruct (isCommentNode node) eqn:Hcomment; simpl in He;
        [|by apply elem_of_nil in He].
      destruct (negb _); simpl in He; [|by apply elem_of_nil in He].
      destruct (includes _ _) eqn:Hinc; [|by apply elem_of_nil in He].
      destruct (getTag _ _ _) as [pseudoTag|] eqn:Htag;
        [|by apply elem_of_nil in He].
      destruct (bool_decide _) eqn:Hempty; [by apply elem_of_nil in He|].
      apply list_elem_of_singleton in He as ->.
      exists node, text, pseudoTag. split; [by left|].
      repeat split; try done. by apply bool_decide_eq_false in Hempty.
    + destruct (IH e He) as (node' & text & pseudoTag & Hin & Hrest).
      exists node', text, pseudoTag. split; [by right|done].
Qed.

End PseudoElementFacts.

(** ** The page, analysed *)

Section PageFacts.
Import Warnings Js Utils Model AnalysisCache AnalyzerCacheContext Along Kept.
Import AsyncCyclicTransitivePromiseAll Readiness.

Lemma promiseAllTransitive_suspends_at_unrecorded_witness :
  (promiseAllTransitive 3 "A" Page.halfRecorded).1 = Suspended "B" ∧
  reachable Page.halfRecorded "A" "B" ∧
  (∀ deps, ¬ recorded Page.halfRecorded "B" deps) ∧
  deferreds (promiseAllTransitive 3 "A" Page.halfRecorded).2 !! "B" = Some Empty ∧
  last (descents (promiseAllTransitive 3 "A" Page.halfRecorded).2) = Some "B" ∧
  "B" ∈ visited (promiseAllTransitive 3 "A" Page.halfRecorded).2.
Proof.
  split; [vm_compute; reflexivity|].
  apply (promiseAllTransitive_suspends_at_unrecorded 3 "A" Page.halfRecorded "B").
  vm_compute. reflexivity.
Defined.

Lemma promiseAllTransitive_returns_iff_witness :
  size Site.cyclicPair < 3 ∧
  (promiseAllTransitive 3 "A" Site.cyclicPair).1 = Returned.
Proof.
  split; [vm_compute; lia|].
  apply (promiseAllTransitive_returns_iff 3 "A" Site.cyclicPair);
    [vm_compute; lia|exact cyclicPair_recorded].
Defined.

Lemma await_then_resolve_witness :
  (promiseAllTransitive 1 "A" (∅ : gmap string (Deferred (list string)))).1
  = Suspended "A" ∧
  recorded
    (resolve "A" ["B"]
       (deferreds (promiseAllTransitive 1 "A"
                     (∅ : gmap string (Deferred (list string)))).2)).2
    "A" ["B"].
Proof.
  destruct (await_then_resolve 0 2 "A" ["B"]
              (∅ : gmap string (Deferred (list string))))
    as (Hfirst & _ & Hrec & _); [by left|].
  by split.
Defined.

Lemma page_resolves_quietly document s :
  resolveDocument Page.context document s = s.
Proof. done. Qed.

Lemma analysis_loads_once_witness :
  loadsOnce Page.context Page.analysed ∧
  loads Page.analysed = ["index.html"; "lib.html"].
Proof.
  split; [|vm_compute; reflexivity].
  destruct (analysis_loads_once Page.context) as (Hinit & Hanalyze & _); [done|].
  apply (Hanalyze 6 "./index.html" Undefined initial
           (Fulfilled (Some (mkDocument 0))) Page.analysed Hinit).
  vm_compute. reflexivity.
Defined.

Lemma scanDocument_fulfilled_witness :
  scannedDocuments (cache Page.scannedIndex) !! "index.html" = Some 0 ∧
  ∃ d, heap Page.scannedIndex !! 0 = Some d ∧ document d = Page.index ∧
       length (features d) = 4.
Proof.
  destruct (scanDocument_fulfilled Page.context 2 Page.index None initial 0
              Page.scannedIndex)
    as (_ & (d & fs & Hd & Hdoc & Hfs & Hlen) & Hurl); [vm_compute; reflexivity|].
  split; [by apply Hurl|]. exists d. split; [done|]. split; [done|].
  rewrite Hlen. vm_compute in Hfs. by injection Hfs as <-.
Defined.

Lemma scanned_documents_are_kept_witness :
  _getScannedDocument Page.context "./index.html" Page.analysedMore = Some 0 ∧
  ∃ d', heap Page.analysedMore !! 0 = Some d' ∧
        pd_url (document d') = "index.html".
Proof.
  destruct (scanned_documents_are_kept Page.context 6 "data.json" Undefined
              Page.analysed (Fulfilled (Some (mkDocument 3))) Page.analysedMore
              ltac:(done) ltac:(vm_compute; reflexivity)
              "./index.html" 0
              (mkScannedDocument Page.index
                 [ScannedElement "x-app";
                  ScannedInlineDocument "js" "f()" (mkLocationOffset 3 0 None)
                    (Some "the script") 1 (Some 1);
                  ScannedInlineDocument "js" "var" (mkLocationOffset 5 0 None)
                    None 2 None;
                  ScannedImport "html-import" "./lib.html" None None]
                 [Page.scriptError]))
    as (Hkept & d' & Hd' & Hdoc & _); [vm_compute; reflexivity..|].
  split; [done|]. exists d'. split; [done|]. by rewrite Hdoc.
Defined.

Lemma scanned_documents_by_url_witness :
  scannedWellFormed Page.analysed ∧
  scannedDocuments (cache Page.analysed) !! "lib.html" = Some 2.
Proof.
  split; [|vm_compute; reflexivity].
  destruct (scanned_documents_by_url Page.context) as (Hinit & Hanalyze & _);
    [done|].
  apply (Hanalyze 6 "./index.html" Undefined initial
           (Fulfilled (Some (mkDocument 0))) Page.analysed Hinit).
  vm_compute. reflexivity.
Defined.

Lemma page_resolves_kept document s :
  analyzedKept s (resolveDocument Page.context document s).
Proof. done. Qed.

Lemma documents_are_kept_witness :
  _getDocument Page.context "./nowhere.html" Page.analysed
  = (None, Page.analysed) ∧
  _getDocument Page.context "./index.html" Page.analysed
  = (Some (mkDocument 0), Page.analysed) ∧
  _getDocument Page.context "./index.html" Page.analysedMore
  = (Some (mkDocument 0), Page.analysedMore).
Proof.
  split.
  - apply (documents_are_kept Page.context "./nowhere.html" Page.analysed
             page_resolves_kept); vm_compute; reflexivity.
  - destruct (documents_are_kept Page.context "./index.html" Page.analysed
                page_resolves_kept) as (_ & _ & Hkept).
    apply (Hkept (mkDocument 0) Page.analysed 6 "data.json" Undefined
             (Fulfilled (Some (mkDocument 3)))); vm_compute; reflexivity.
Defined.

Lemma scanDocument_contains_structured_failures_witness :
  _scanDocument Page.context 2 Page.widget None initial
  = Some (Rejected (newNoKnownParserError "No parser for for file type coffee"),
          Page.scannedWidget) ∧
  ∀ warning,
    cls (newNoKnownParserError "No parser for for file type coffee")
    ≠ WarningCarrying warning.
Proof.
  split; [vm_compute; reflexivity|].
  apply (scanDocument_contains_structured_failures Page.context 2 Page.widget
           None initial _ Page.scannedWidget).
  - intros error warning. vm_compute. discriminate.
  - vm_compute. reflexivity.
Defined.

Lemma analyze_measurements_witness :
  ∃ n (made : bool),
    telemetry Page.analysed
    = [] ++ replicate n ("parse", "resolvedUrl")
        ++ (if made then [("analyze: make document", "./index.html")] else []) ∧
    (made = true →
       ∃ ref, promiseOf dependenciesSlot "index.html" Page.analysed
              = Some (Fulfilled ref)).
Proof.
  apply (analyze_measurements Page.context 6 "./index.html" Undefined initial
           (Fulfilled (Some (mkDocument 0))) Page.analysed); [done|].
  vm_compute. reflexivity.
Defined.

Lemma getDocument_then_analyze_witness :
  (_getDocument Page.context "./lib.html" Page.analysed).1
  = Some (mkDocument 2) ∧
  analyze Page.context 0 "lib.html" (Str "<other>")
    (_getDocument Page.context "./lib.html" Page.analysed).2
  = Some (Fulfilled (Some (mkDocument 2)),
          (_getDocument Page.context "./lib.html" Page.analysed).2).
Proof.
  destruct (getDocument_then_analyze Page.context "./lib.html" Page.analysed 2
              0 (Str "<other>")) as [Hdoc Hrun];
    [done|vm_compute; reflexivity..|].
  split; [done|]. exact Hrun.
Defined.

Lemma analyze_by_resolved_url_witness :
  analyze Page.context 0 "index.html" (Str "<other>") Page.analysed
  = Some (Fulfilled (Some (mkDocument 0)), Page.analysed).
Proof.
  apply (analyze_by_resolved_url Page.context 6 0 "./index.html" "index.html"
           Undefined (Str "<other>") initial); [done|done|].
  vm_compute. reflexivity.
Defined.

Lemma analyzePackage_outcome_witness :
  ∃ outcomes,
    analyzeAll Page.context 6 ["index.html"; "lib.html"; "broken.js"; "data.json"]
      initial = Some (Fulfilled outcomes, Page.packaged) ∧
    length (documentsOf outcomes) + length (warningsOf outcomes) = 4.
Proof.
  pose proof (analyzePackage_outcome Page.context 6 initial
                (Fulfilled (mkPackage [mkDocument 0; mkDocument 2; mkDocument 3]
                              [Some Page.scriptError]))
                Page.packaged ltac:(vm_compute; reflexivity))
    as (readDirectory & allFiles & outcomes & Hrd & Hlist & Hall & Hpkg & Hlen).
  injection Hrd as <-. injection Hlist as <-.
  exists outcomes. split; [exact Hall|].
  rewrite Hpkg in Hlen. exact Hlen.
Defined.

Lemma fulfilled_scan_has_scanned_all_witness :
  (∃ deps, recorded (dependencyGraph (cache Page.analysed)) "lib.html" deps) ∧
  ∃ ref', promiseOf scannedSlot "lib.html" Page.analysed = Some (Fulfilled ref').
Proof.
  apply (fulfilled_scan_has_scanned_all Page.context 6 ["./index.html"]
           (Fulfilled [IsDocument (mkDocument 0)]) Page.analysed "index.html" 0
           "lib.html").
  - done.
  - vm_compute. reflexivity.
  - vm_compute. reflexivity.
  - apply rtc_once. exists ["lib.html"]. split; [vm_compute; reflexivity|].
    apply list_elem_of_singleton. reflexivity.
Defined.

Lemma fork_lineage_witness :
  ∃ fork : Fork.AnalyzerCacheContext * Fork.Store,
    Fork._generation fork.1 = 2 ∧
          Fork._telemetryTracker fork.1 = Fork._telemetryTracker Site.context0 ∧
          fork.2 !! Fork._cache Site.context0 = Some (Fork.Cache AnalysisCache.new).
Proof.
  set (one := Fork.clearCaches Site.context0 Site.store1).
  set (two := Fork.clearCaches one.1 one.2).
  exists two.
  destruct (fork_lineage (λ cache _, cache) (λ url, url) 2
              (Site.context0, Site.store1) two)
    as (Hg & Ht & _ & _ & _ & _ & _ & Hk).
  { apply (nsteps_l _ _ _ one); [by left|].
    apply (nsteps_l _ _ _ two); [left; by destruct one|]. apply nsteps_O. }
  split; [exact Hg|]. split; [exact Ht|]. apply Hk. vm_compute. reflexivity.
Defined.

Lemma scan_elements_witness :
  ∃ elements,
    Comments.scan (PseudoElementScanner.mkVisit Comments.nodes (Fulfilled tt))
    = Fulfilled elements ∧
    length elements ≤ 2.
Proof.
  eexists. split; [vm_compute; reflexivity|].
  destruct (scan_elements (Tag:=string) (Property:=unit)
              Comments.isCommentNode (λ text, text)
              (λ text, Some text) (λ _, []) Comments.getTag (λ _, None)
              (λ e, e) (take 1 Comments.nodes) (drop 1 Comments.nodes) _ eq_refl)
    as (_ & Hlen & _).
  exact Hlen.
Defined.

Lemma provided_contents_are_not_loaded_witness :
  loads Page.provided = ["lib.html"] ∧
  ("index.html" ∈ loads Page.provided → "index.html" ∈ loads initial).
Proof.
  split; [vm_compute; reflexivity|].
  apply (provided_contents_are_not_loaded Page.context 6 "./index.html" "<html>"
           initial (Fulfilled (Some (mkDocument 0))) Page.provided).
  - done.
  - intros [p Hp]. vm_compute in Hp. discriminate.
  - vm_compute. reflexivity.
Defined.

Lemma scanned_urls_are_parsed_witness :
  scannedAreParsed Page.analysed ∧
  AsyncWorkCache._keyToResultMap (scannedDocumentPromises (cache Page.analysed))
    !! "lib.html" = Some 1.
Proof.
  split; [|vm_compute; reflexivity].
  destruct (scanned_urls_are_parsed Page.context) as (Hinit & Hanalyze & _);
    [done|].
  apply (Hanalyze 6 "./index.html" Undefined initial
           (Fulfilled (Some (mkDocument 0))) Page.analysed Hinit).
  vm_compute. reflexivity.
Defined.

Lemma analyze_fails_as_parse_fails_witness :
  ∃ s',
    analyze Site.context 1 "missing.html" Undefined initial
    = Some (Rejected (newError "Can't load URL: missing.html"), s') ∧
    _analyzeOrWarning Site.context 1 "missing.html" initial
    = Some (Fulfilled (IsWarning
              (unableToAnalyze Site.context "missing.html"
                 (newError "Can't load URL: missing.html"))), s').
Proof.
  destruct (analyze_fails_as_parse_fails Site.context 0 "missing.html" Undefined
              initial (newError "Can't load URL: missing.html"))
    as (s' & Hanalyze & Hwarning); [vm_compute; reflexivity..|].
  exists s'. split; [exact Hanalyze|exact (Hwarning eq_refl)].
Defined.

End PageFacts.
